(** * wclib: the template memoizer and the server-side renderer

    A shallow embedding of [src/lib/template-fn.ts] and [src/lib/ssr/ssr.ts].

    Conventions of the embedding:
    - every JavaScript object that is used as a [WeakMap]/[WeakSet] key or is
      compared by reference carries an identity, a [nat];
    - [WeakMap]s and plain objects used as dictionaries are [gmap]s; where the
      enumeration order of a plain object is observable ([for ... in]) the
      object is an insertion-ordered association list;
    - a call that can throw returns a [Completion];
    - recursion of the source that is not structural runs on fuel and returns
      [None] when the fuel is exhausted. *)

From Stdlib Require Import ZArith String Ascii List Lia DecimalString DecimalNat.
From stdpp Require Import gmap strings list fin_maps.

Open Scope Z_scope.

(** ** Numbers *)

(** [CHANGE_TYPE] of [template-fn.ts]. *)
Module CHANGE_TYPE.
Definition PROP : Z := 1.
Definition THEME : Z := 2.
Definition NEVER : Z := 4.
Definition LANG : Z := 8.
Definition ALWAYS : Z := 11.
Definition FORCE : Z := 27.
End CHANGE_TYPE.

(** The operands of JavaScript's [&] go through [ToInt32]. *)
Definition ToInt32 (z : Z) : Z := (z + 2 ^ 31) mod 2 ^ 32 - 2 ^ 31.

(** [a & b] on integral numbers. *)
Definition js_band (a b : Z) : Z := Z.land (ToInt32 a) (ToInt32 b).

(** A number in condition position. *)
Definition truthy_num (z : Z) : bool := negb (z =? 0).

(** ** Completions *)

(** What can be thrown below the renderer: a [TypeError] of the language, the
    [Error] of [_templateResultToText], or whatever user code throws. *)
Inductive Exn (Err : Type) :=
| TypeError
| NoTextForm
| UserError (e : Err).
Arguments TypeError {Err}.
Arguments NoTextForm {Err}.
Arguments UserError {Err} e.

Inductive Completion (E A : Type) :=
| Normal (a : A)
| Throw (e : E).
Arguments Normal {E A} a.
Arguments Throw {E A} e.

(** ** template-fn.ts *)

(** [TemplateRenderResult]: a string, the shapes [_templateResultToText]
    recognises, and [ROther] for an object of no recognised shape. *)
Inductive TemplateRenderResult :=
| RText (s : string)
| RStrings (strings : list string) (values : list string)
| RToText (text : string)
| RElement (innerHTML : string)
| ROther.

(** What [WeakMap.get] hands back in condition position: [undefined] for a
    missing key, otherwise the stored value, which may be [null]. Objects are
    truthy, the empty string is not. *)
Definition truthy_result (v : option TemplateRenderResult) : bool :=
  match v with
  | None => false
  | Some (RText s) => negb (String.eqb s "")
  | Some _ => true
  end.

Definition truthy_cached (c : option (option TemplateRenderResult)) : bool :=
  match c with
  | None => false
  | Some v => truthy_result v
  end.

Section Memoizer.
Context {Props Theme Env Err : Type}.

(** The component as the memoizer sees it: its identity, [props], and
    [getTheme] when the component has one. *)
Record Component := {
  c_id : nat;
  c_props : Props;
  c_getTheme : option Theme
}.

(** The arguments of one call of a [TemplateRenderFunction]. *)
Record TemplateArgs := {
  a_this : Component;
  a_complexHTML : nat;
  a_props : Props;
  a_theme : option Theme;
  a_changeType : Z
}.

(** A render function is user code: it reads and writes user state [Env],
    and returns a result (possibly [null]) or throws. It has no access to
    [templaterMap], which is private to the module; a render function that
    itself renders a template is not covered. *)
Definition TemplateRenderFunction : Type :=
  TemplateArgs -> Env -> Completion (Exn Err) (option TemplateRenderResult) * Env.

Record TemplateFn := {
  t_id : nat;
  _template : option TemplateRenderFunction;
  changeOn : Z
}.

(** [templaterMap]: templaters -> components -> functions -> results. *)
Abbreviation TemplateMap := (gmap nat (option TemplateRenderResult)).
Abbreviation ComponentTemplateMap := (gmap nat (gmap nat (option TemplateRenderResult))).
Abbreviation TemplaterMap := (gmap nat (gmap nat (gmap nat (option TemplateRenderResult)))).

(** The state a render call runs in. [invocations] is a ghost log: one
    entry per call of a render function. *)
Record World := {
  templaterMap : TemplaterMap;
  userEnv : Env;
  invocations : list (nat * TemplateArgs)
}.

Record Rendered := {
  changed : bool;
  rendered : option TemplateRenderResult
}.

(** The entry of the (templater, component, template) triple. *)
Definition cache_entry (m : TemplaterMap) (templater component fn : nat)
  : option (option TemplateRenderResult) :=
  match m !! templater with
  | Some cm =>
      match cm !! component with
      | Some tm => tm !! fn
      | None => None
      end
  | None => None
  end.

(** [templater = component] when no object-like templater is passed. *)
Definition effective_templater (component : Component) (templater : option nat) : nat :=
  match templater with
  | Some t => t
  | None => c_id component
  end.

Definition template_args (component : Component) (templater : nat) (changeType : Z)
  : TemplateArgs :=
  {| a_this := component;
     a_complexHTML := templater;
     a_props := c_props component;
     a_theme := c_getTheme component;
     a_changeType := changeType |}.

(** [this._template.call(component, ...)] followed by
    [templateMap.set(this, rendered)]; the write happens only when the call
    returns. [tm2] is [templaterMap] after the two [has]/[set] steps that
    create the inner maps, [ctm1] and [templateMap] the inner maps of the
    templater and of the component. *)
Definition call_and_store (self : TemplateFn) (f : TemplateRenderFunction)
    (changeType : Z) (component : Component) (templater : nat)
    (tm2 : TemplaterMap) (ctm1 : ComponentTemplateMap) (templateMap : TemplateMap)
    (w : World) : Completion (Exn Err) Rendered * World :=
  let args := template_args component templater changeType in
  let log := invocations w ++ [(t_id self, args)] in
  match f args (userEnv w) with
  | (Normal r, env') =>
      let templateMap' := <[t_id self := r]> templateMap in
      let ctm' := <[c_id component := templateMap']> ctm1 in
      (Normal {| changed := true; rendered := r |},
       {| templaterMap := <[templater := ctm']> tm2;
          userEnv := env';
          invocations := log |})
  | (Throw e, env') =>
      (Throw e,
       {| templaterMap := tm2; userEnv := env'; invocations := log |})
  end.

(** [TemplateFn._renderWithTemplater]. The assignment of the [jsx] helper
    to the templater touches no cache and is left out; [getTheme()] is read
    as the theme the component holds, [null] when it has no such method. *)
Definition _renderWithTemplater (self : TemplateFn) (changeType : Z)
    (component : Component) (templater : option nat) (w : World)
  : Completion (Exn Err) Rendered * World :=
  let templater := effective_templater component templater in
  let tm0 := templaterMap w in
  (* if (!templaterMap.has(templater)) templaterMap.set(templater, new WeakMap()) *)
  let tm1 :=
    match tm0 !! templater with Some _ => tm0 | None => <[templater := ∅]> tm0 end in
  let componentTemplateMap : ComponentTemplateMap := default ∅ (tm1 !! templater) in
  (* if (!componentTemplateMap.has(component)) componentTemplateMap.set(component, new WeakMap()) *)
  let ctm1 :=
    match componentTemplateMap !! c_id component with
    | Some _ => componentTemplateMap
    | None => <[c_id component := ∅]> componentTemplateMap
    end in
  let templateMap : TemplateMap := default ∅ (ctm1 !! c_id component) in
  let tm2 := <[templater := ctm1]> tm1 in
  let w1 := {| templaterMap := tm2; userEnv := userEnv w; invocations := invocations w |} in
  if truthy_num (js_band (changeOn self) CHANGE_TYPE.NEVER) then
    let cached := templateMap !! t_id self in
    if truthy_cached cached then
      (Normal {| changed := false; rendered := default None cached |}, w1)
    else
      match _template self with
      | None =>
          let templateMap' := <[t_id self := None]> templateMap in
          let ctm' := <[c_id component := templateMap']> ctm1 in
          (Normal {| changed := true; rendered := None |},
           {| templaterMap := <[templater := ctm']> tm2;
              userEnv := userEnv w;
              invocations := invocations w |})
      | Some f =>
          call_and_store self f changeType component templater tm2 ctm1 templateMap w
      end
  else if truthy_num (js_band (changeOn self) changeType)
          || negb (bool_decide (is_Some (templateMap !! t_id self))) then
    match _template self with
    | None => (Throw TypeError, w1)
    | Some f =>
        call_and_store self f changeType component templater tm2 ctm1 templateMap w
    end
  else
    (Normal {| changed := false; rendered := default None (templateMap !! t_id self) |}, w1).

End Memoizer.

Arguments Component : clear implicits.
Arguments TemplateArgs : clear implicits.
Arguments TemplateRenderFunction : clear implicits.
Arguments TemplateFn : clear implicits.
Arguments World : clear implicits.

(** ** JavaScript values and plain objects *)

(** The values that travel through attribute and property bags. An object
    carries the text [String(value)] gives for it and, when it is iterable,
    the texts [String(t)] of the items [t] its iterator yields. Numbers are
    the integral ones, below the size at which [String] switches to the
    exponent form. *)
Inductive JSValue :=
| VUndefined
| VNull
| VBool (b : bool)
| VNum (z : Z)
| VStr (s : string)
| VObj (text : string) (items : option (list string)).

(** [String(value)]. *)
Definition js_String (v : JSValue) : string :=
  match v with
  | VUndefined => "undefined"
  | VNull => "null"
  | VBool true => "true"
  | VBool false => "false"
  | VNum z => NilZero.string_of_int (Z.to_int z)
  | VStr s => s
  | VObj text _ => text
  end.

(** The value of the decimal digit [a]. *)
Definition digit_of (a : ascii) : option N :=
  let n := N_of_ascii a in
  if (48 <=? n)%N && (n <=? 57)%N then Some (n - 48)%N else None.

Fixpoint digits_value (s : string) (acc : N) : option N :=
  match s with
  | EmptyString => Some acc
  | String a s' =>
      match digit_of a with
      | Some d => digits_value s' (10 * acc + d)%N
      | None => None
      end
  end.

(** A property key is an array index when it is the canonical decimal form
    of an integer below 2^32 - 1. *)
Definition array_index (k : string) : option N :=
  match k with
  | EmptyString => None
  | String a rest =>
      if Ascii.eqb a "0"
      then (if String.eqb rest "" then Some 0%N else None)
      else match digits_value k 0 with
           | Some n => if (n <? 2 ^ 32 - 1)%N then Some n else None
           | None => None
           end
  end.

(** The names of the properties of [Object.prototype], which every plain
    object inherits: the ones of ECMAScript and the accessors of its Annex B,
    as [Object.getOwnPropertyNames(Object.prototype)] lists them in Node and
    in the browsers. *)
Definition Object_prototype_names : list string :=
  ["constructor"; "__defineGetter__"; "__defineSetter__"; "hasOwnProperty";
   "__lookupGetter__"; "__lookupSetter__"; "isPrototypeOf"; "propertyIsEnumerable";
   "toString"; "valueOf"; "__proto__"; "toLocaleString"].

(** A plain object has the property [k] by inheritance. *)
Definition inherited (k : string) : bool :=
  existsb (String.eqb k) Object_prototype_names.

(** A plain object as the list of its own properties in enumeration order:
    array-index keys first, ascending, then the other keys in the order they
    were created. [obj_get], [obj_has] and [obj_set] look at the own
    properties; [obj_in] and [obj_put] are the operator [in] and the
    assignment [o[k] = v], which go through [Object.prototype]. *)
Section JSObject.
Context {V : Type}.

Definition JSObj : Type := list (string * V).

(** [o[k]], [None] for [undefined] by absence. *)
Fixpoint obj_get (o : JSObj) (k : string) : option V :=
  match o with
  | [] => None
  | (k', v) :: o' => if String.eqb k' k then Some v else obj_get o' k
  end.

(** [o.hasOwnProperty(k)]. *)
Definition obj_has (o : JSObj) (k : string) : bool :=
  match obj_get o k with Some _ => true | None => false end.

(** [k in o]: an own property, or one of [Object.prototype]. *)
Definition obj_in (o : JSObj) (k : string) : bool :=
  obj_has o k || inherited k.

(** Overwrite an existing property in place. *)
Fixpoint obj_update (k : string) (v : V) (o : JSObj) : JSObj :=
  match o with
  | [] => []
  | (k', v') :: o' =>
      if String.eqb k' k then (k', v) :: o' else (k', v') :: obj_update k v o'
  end.

(** Create the array-index property [k], of index [n]. *)
Fixpoint obj_insert_index (n : N) (k : string) (v : V) (o : JSObj) : JSObj :=
  match o with
  | [] => [(k, v)]
  | (k', v') :: o' =>
      match array_index k' with
      | Some n' =>
          if (n' <? n)%N then (k', v') :: obj_insert_index n k v o'
          else (k, v) :: o
      | None => (k, v) :: o
      end
  end.

(** [o[k] = v] on own properties: the property is overwritten, or created
    in its place of the enumeration order. *)
Definition obj_set (k : string) (v : V) (o : JSObj) : JSObj :=
  if obj_has o k then obj_update k v o
  else match array_index k with
       | Some n => obj_insert_index n k v o
       | None => o ++ [(k, v)]
       end.

(** [o[k] = v]. [__proto__] is an accessor of [Object.prototype]: unless the
    object has a property of that name of its own, the assignment calls the
    setter, which creates no property (what it does to the prototype of [o]
    is not seen through the own properties). The other inherited properties
    are writable data properties, which an assignment shadows. *)
Definition obj_put (k : string) (v : V) (o : JSObj) : JSObj :=
  if String.eqb k "__proto__" && negb (obj_has o k) then o else obj_set k v o.

(** The keys [for (const k in o)] enumerates, in order. *)
Definition obj_keys (o : JSObj) : list string := map fst o.

(** [Object.assign(target, source)]; the spread [{...a, ...b}] assigns [a],
    then [b], to a new object. *)
Definition obj_assign (target source : JSObj) : JSObj :=
  fold_left (fun t kv => obj_set (fst kv) (snd kv) t) source target.

End JSObject.
Arguments JSObj : clear implicits.

(** [Object.keys(o).length === 0]. *)
Definition obj_is_empty {V} (o : JSObj V) : bool :=
  match o with [] => true | _ => false end.

(** ** ssr.ts: [_Attributes] *)

Module _Attributes.

Definition _isPrimitive (value : JSValue) : bool :=
  match value with
  | VObj _ _ => false
  | _ => true
  end.

Definition _isIterable (value : JSValue) : bool :=
  match value with
  | VObj _ (Some _) => true
  | VStr s => negb (String.eqb s "")
  | _ => false
  end.

Definition _toString (value : JSValue) : string :=
  if _isPrimitive value || negb (_isIterable value) then js_String value
  else match value with
       | VObj _ (Some items) => String.concat "" items
       | _ => ""
       end.

(** Every double quote (character 34) of [s] becomes [&quot;]. *)
Fixpoint escape_quotes (s : string) : string :=
  match s with
  | EmptyString => EmptyString
  | String a s' =>
      if Ascii.eqb a (ascii_of_nat 34) then "&quot;" +:+ escape_quotes s'
      else String a (escape_quotes s')
  end.

Definition stringify (attributes : JSObj JSValue) : string :=
  if obj_is_empty attributes then ""
  else
    let parts :=
      map (fun kv =>
             fst kv +:+ "=" +:+ String (ascii_of_nat 34)
               (escape_quotes (_toString (snd kv)) +:+ String (ascii_of_nat 34) ""))
          attributes in
    " " +:+ String.concat " " parts.

End _Attributes.

(** ** ssr.ts: [_Properties] *)

Module _Properties.

(** [element.props.__config]: the two groups of property definitions
    [splitAttributes] looks at; a group is absent when the config does not
    declare it. The definitions themselves are opaque here. *)
Record PropsConfig := {
  reflect : option (JSObj JSValue);
  priv : option (JSObj JSValue)
}.

(** [element.props], with [__config] when [Props.define] has set it. *)
Record PropsObject := {
  __config : option PropsConfig
}.

Record Split := {
  attributes : JSObj JSValue;
  publicProps : JSObj JSValue;
  privateProps : JSObj JSValue
}.

(** One turn of the loop [for (const key in attributes)]; [attribs],
    [publicProps] and [privateProps] are the three objects being filled. The
    tests are [key in reflect] and [key in priv], which a name of
    [Object.prototype] passes. [attributes[key]] reads a property the object
    has of its own, [key] being one of its keys; [attribs[key]] is read only
    for a key that has failed both tests, which no object inherits. *)
Definition split_step (reflect priv attributes : JSObj JSValue)
    (acc : Split) (key : string) : Split :=
  let '(Build_Split attribs publicProps privateProps) := acc in
  if obj_in reflect key then
    Build_Split attribs
      (obj_put key (default VUndefined (obj_get attributes key)) publicProps)
      privateProps
  else if obj_in priv key then
    Build_Split attribs publicProps
      (obj_put key (default VUndefined (obj_get attributes key)) privateProps)
  else
    (* attribs[key] = attribs[key] *)
    Build_Split
      (obj_put key (default VUndefined (obj_get attribs key)) attribs)
      publicProps privateProps.

Definition splitAttributes (props : option PropsObject) (attributes : JSObj JSValue)
  : Split :=
  let unsplit := Build_Split attributes [] [] in
  match props with
  | None => unsplit
  | Some p =>
      match __config p with
      | None => unsplit
      | Some config =>
          match reflect config, priv config with
          | None, None => unsplit
          | r, p =>
              fold_left (split_step (default [] r) (default [] p) attributes)
                (obj_keys attributes)
                (Build_Split [] [] [])
          end
      end
  end.

End _Properties.

(** ** ssr.ts: [_Rendering.Dependencies] *)

(** ** ssr.ts: component classes as the renderer sees them *)

(** What a render function can read of the instance [_createBase] builds:
    [tagName], the attribute bag behind [getAttribute] and [hasAttribute], and
    the [props] of the component class. *)
Record SSRInstance := {
  i_tagName : string;
  i_attribs : JSObj JSValue;
  i_props : option _Properties.PropsObject
}.

(** The user state a render function runs in during server-side rendering:
    [_attributes] of the instance being rendered, which [setAttribute] and
    [removeAttribute] write, and whatever else user code keeps. *)
Record SSREnv (U : Type) := {
  thisAttributes : JSObj JSValue;
  user : U
}.
Arguments thisAttributes {U} _.
Arguments user {U} _.

Abbreviation SSRTemplateFn U Err :=
  (TemplateFn SSRInstance (JSObj JSValue) (SSREnv U) Err).

(** [element.css]: one template or an array of templates. *)
Inductive CssTemplates (U Err : Type) :=
| CssSingle (t : SSRTemplateFn U Err)
| CssArray (ts : list (SSRTemplateFn U Err)).
Arguments CssSingle {U Err} t.
Arguments CssArray {U Err} ts.

(** [BaseClass]. The static [is] (here [is_], [is] being a keyword) is absent
    for [null] or [undefined]; so are [dependencies] (a list of references to
    classes), [html] and [css]. [props] is what instances of the class carry
    as [this.props]. *)
Record BaseClass (U Err : Type) := {
  is_ : option string;
  dependencies : option (list nat);
  html : option (SSRTemplateFn U Err);
  css : option (CssTemplates U Err);
  props : option _Properties.PropsObject
}.
Arguments is_ {U Err} _.
Arguments dependencies {U Err} _.
Arguments html {U Err} _.
Arguments css {U Err} _.
Arguments props {U Err} _.

(** A string in condition position. *)
Definition truthy_str (s : option string) : bool :=
  match s with
  | None => false
  | Some s => negb (String.eqb s "")
  end.

Module Dependencies.

(** [buildMap(element, map)]. [classes] resolves a class reference; the
    recursion follows the references and is bounded by [fuel]. *)
Fixpoint buildMap {U Err} (fuel : nat) (classes : nat -> BaseClass U Err)
    (element : nat) (map : gmap string nat) : option (gmap string nat) :=
  match fuel with
  | O => None
  | S fuel =>
      let map1 :=
        if truthy_str (is_ (classes element))
        then <[default "" (is_ (classes element)) := element]> map
        else map in
      fold_left
        (fun acc dependency =>
           match acc with
           | Some m => buildMap fuel classes dependency m
           | None => None
           end)
        (default [] (dependencies (classes element)))
        (Some map1)
  end.

End Dependencies.

(** ** The monad of the renderer

    A computation reads and writes a state, and returns a value, throws, or
    has no result ([None]): it ran out of fuel or followed a reference that
    the heap does not hold. *)
Definition M (E S A : Type) : Type := S -> option (Completion E A * S).

#[global] Instance M_ret {E S} : MRet (M E S) :=
  fun A a s => Some (Normal a, s).

#[global] Instance M_bind {E S} : MBind (M E S) :=
  fun A B k m s =>
    match m s with
    | Some (Normal a, s') => k a s'
    | Some (Throw e, s') => Some (Throw e, s')
    | None => None
    end.

Definition throw {E S A} (e : E) : M E S A := fun s => Some (Throw e, s).
Definition stuck {E S A} : M E S A := fun _ => None.
Definition get_state {E S} : M E S S := fun s => Some (Normal s, s).
Definition put_state {E S} (s : S) : M E S unit := fun _ => Some (Normal tt, s).

(** [l.map(f)] and [l.forEach(f)] for an effectful [f]. *)
Section MapM.
Context {E S A B : Type} (f : A -> M E S B).

Fixpoint mapM (l : list A) : M E S (list B) :=
  match l with
  | [] => mret []
  | a :: l' => b ← f a; bs ← mapM l'; mret (b :: bs)
  end.

Definition forEachM (l : list A) : M E S unit :=
  _ ← mapM l; mret tt.
End MapM.

(** ** ssr.ts: the render tree *)

(** The AST of the [css] package, as far as [addPrefix] looks into it: a rule
    has selectors or not; the rest of a rule is opaque. *)
Record Rule := {
  selectors : option (list string);
  declarations : string
}.

Record Stylesheet := {
  stylesheet : option (list Rule)
}.

(** The objects of the classes [Tag], [TextTag], [CSSTag] and [CSSText].
    [attributes] is a reference to a plain object; child lists hold references
    to tags. [_changeOn] is [undefined] until [setChangeOn] runs. *)
Inductive ParsedTag :=
| Tag (tagName : string) (attributes : nat) (isSelfClosing : bool) (_children : list nat)
| TextTag (content : string)
| CSSTag (tagName : string) (attributes : nat) (isSelfClosing : bool)
    (_children : list nat) (_changeOn : option Z) (_cssChildren : list nat)
| CSSText (content : string) (_changeOn : option Z) (_stylesheet : option Stylesheet).

(** The store of tags and of attribute objects; a reference is an index. *)
Record Heap := {
  tags : list ParsedTag;
  objs : list (JSObj JSValue)
}.

Definition empty_heap : Heap := {| tags := []; objs := [] |}.

(** [t instanceof Tag], [t instanceof TextTag]. *)
Definition instanceof_Tag (t : ParsedTag) : bool :=
  match t with
  | Tag _ _ _ _ | CSSTag _ _ _ _ _ _ => true
  | _ => false
  end.

Definition instanceof_TextTag (t : ParsedTag) : bool :=
  match t with
  | TextTag _ | CSSText _ _ _ => true
  | _ => false
  end.

Definition tag_tagName (t : ParsedTag) : string :=
  match t with
  | Tag n _ _ _ | CSSTag n _ _ _ _ _ => n
  | _ => ""
  end.

Definition tag_attributes (t : ParsedTag) : nat :=
  match t with
  | Tag _ a _ _ | CSSTag _ a _ _ _ _ => a
  | _ => 0%nat
  end.

Definition tag_isSelfClosing (t : ParsedTag) : bool :=
  match t with
  | Tag _ _ b _ | CSSTag _ _ b _ _ _ => b
  | _ => false
  end.

(** The getter [children]: [CSSTag] overrides it to return [_cssChildren]. *)
Definition tag_children (t : ParsedTag) : list nat :=
  match t with
  | Tag _ _ _ c => c
  | CSSTag _ _ _ _ _ c => c
  | _ => []
  end.

(** The field [_children] of the base class. *)
Definition tag__children (t : ParsedTag) : list nat :=
  match t with
  | Tag _ _ _ c => c
  | CSSTag _ _ _ c _ _ => c
  | _ => []
  end.

(** The assignment [this._children = children]. *)
Definition with__children (t : ParsedTag) (children : list nat) : ParsedTag :=
  match t with
  | Tag n a b _ => Tag n a b children
  | CSSTag n a b _ co cc => CSSTag n a b children co cc
  | _ => t
  end.

Section HeapOps.
Context {E St : Type}.

Definition getTag (l : nat) : M E (Heap * St) ParsedTag :=
  fun st => match tags (fst st) !! l with
            | Some t => Some (Normal t, st)
            | None => None
            end.

Definition setTag (l : nat) (t : ParsedTag) : M E (Heap * St) unit :=
  fun st => Some (Normal tt,
                  ({| tags := <[l := t]> (tags (fst st)); objs := objs (fst st) |},
                   snd st)).

Definition allocTag (t : ParsedTag) : M E (Heap * St) nat :=
  fun st => Some (Normal (length (tags (fst st))),
                  ({| tags := tags (fst st) ++ [t]; objs := objs (fst st) |},
                   snd st)).

Definition getObj (l : nat) : M E (Heap * St) (JSObj JSValue) :=
  fun st => match objs (fst st) !! l with
            | Some o => Some (Normal o, st)
            | None => None
            end.

Definition setObj (l : nat) (o : JSObj JSValue) : M E (Heap * St) unit :=
  fun st => Some (Normal tt,
                  ({| tags := tags (fst st); objs := <[l := o]> (objs (fst st)) |},
                   snd st)).

Definition allocObj (o : JSObj JSValue) : M E (Heap * St) nat :=
  fun st => Some (Normal (length (objs (fst st))),
                  ({| tags := tags (fst st); objs := objs (fst st) ++ [o] |},
                   snd st)).

Definition getHeap : M E (Heap * St) Heap :=
  fun st => Some (Normal (fst st), st).

Definition getS : M E (Heap * St) St :=
  fun st => Some (Normal (snd st), st).

Definition putS (s : St) : M E (Heap * St) unit :=
  fun st => Some (Normal tt, (fst st, s)).

(** [tag.copy()]: a new [Tag] (whatever the class of [tag]) sharing the
    attribute object and the child list. *)
Definition copy (this : nat) : M E (Heap * St) nat :=
  t ← getTag this;
  allocTag (Tag (tag_tagName t) (tag_attributes t) (tag_isSelfClosing t) (tag_children t)).

(** [tag.setChildren(children)]. *)
Definition setChildren (this : nat) (children : list nat) : M E (Heap * St) nat :=
  t ← getTag this;
  setTag this (with__children t children);;
  mret this.

(** [tag.walk(handler)]. A handler returns [None] for [void]. *)
Fixpoint walk (fuel : nat)
    (handler : nat -> M E (Heap * St) (option (nat * bool)))
    (this : nat) : M E (Heap * St) nat :=
  match fuel with
  | O => stuck
  | S fuel =>
      t ← getTag this;
      if instanceof_TextTag t then mret this
      else
        result ← handler this;
        let '(newTag, stop) := default (this, true) result in
        nt ← getTag newTag;
        if instanceof_TextTag nt || stop then mret newTag
        else
          c ← copy newTag;
          children ← mapM (walk fuel handler) (tag_children nt);
          setChildren c children
  end.

End HeapOps.

(** [tag.toText()]; the recursion follows the references of [_children]. *)
Fixpoint toText (fuel : nat) (h : Heap) (this : nat) : option string :=
  match fuel with
  | O => None
  | S fuel =>
      match tags h !! this with
      | None => None
      | Some t =>
          if instanceof_TextTag t then
            match t with
            | TextTag content | CSSText content _ _ => Some content
            | _ => None
            end
          else
            match objs h !! tag_attributes t with
            | None => None
            | Some attributes =>
                if tag_isSelfClosing t && bool_decide (tag_children t = []) then
                  Some ("<" +:+ tag_tagName t +:+ _Attributes.stringify attributes +:+ "/>")
                else
                  match
                    foldr (fun c acc =>
                             match toText fuel h c, acc with
                             | Some x, Some xs => Some (x :: xs)
                             | _, _ => None
                             end)
                          (Some []) (tag__children t)
                  with
                  | None => None
                  | Some texts =>
                      Some ("<" +:+ tag_tagName t +:+ _Attributes.stringify attributes +:+ ">"
                            +:+ String.concat "" texts
                            +:+ "</" +:+ tag_tagName t +:+ ">")
                  end
            end
      end
  end.

(** The markup a reference denotes: the tree read off the heap along
    [_children], with the attribute objects inlined. *)
Inductive Markup :=
| Element (tagName : string) (attributes : JSObj JSValue) (children : list Markup)
| Text (content : string).

Fixpoint markup_of (fuel : nat) (h : Heap) (this : nat) : option Markup :=
  match fuel with
  | O => None
  | S fuel =>
      match tags h !! this with
      | None => None
      | Some t =>
          match t with
          | TextTag content | CSSText content _ _ => Some (Text content)
          | _ =>
              match objs h !! tag_attributes t with
              | None => None
              | Some attributes =>
                  match
                    foldr (fun c acc =>
                             match markup_of fuel h c, acc with
                             | Some x, Some xs => Some (x :: xs)
                             | _, _ => None
                             end)
                          (Some []) (tag__children t)
                  with
                  | None => None
                  | Some children => Some (Element (tag_tagName t) attributes children)
                  end
              end
          end
      end
  end.

(** ** ssr.ts: [_Replacement._Slots] *)

Module _Slots.

(** What a property of [named] holds. The types say a tag; for a slot name
    that is the name of a property of [Object.prototype] the read
    [named[slotName]] gives the inherited value, a function, and the
    assignment [named[slotName] = named[slotName] || tag] stores that. *)
Inductive Slotted :=
| STag (tag : nat)
| SInherited.

(** [SlotReceivers]: [named] and [unnamed]. *)
Record SlotReceivers := {
  r_named : JSObj Slotted;
  r_unnamed : option nat
}.

(** [Slottables]: [named] and [unnamed]. *)
Record Slottables := {
  s_named : JSObj Slotted;
  s_unnamed : list nat
}.

(** [named[slotName]] on the plain object [named]: the property it has of
    its own, or the one [Object.prototype] has. *)
Definition named_get (named : JSObj Slotted) (slotName : string) : option Slotted :=
  match obj_get named slotName with
  | Some v => Some v
  | None => if inherited slotName then Some SInherited else None
  end.

Section Slots.
Context {E : Type}.

(** The handler [_findSlotReceivers] passes to [walk]. Whatever
    [slots.named[slotName]] holds is truthy. *)
Definition receiver_handler (tag : nat)
  : M (Exn E) (Heap * SlotReceivers) (option (nat * bool)) :=
  t ← getTag tag;
  if instanceof_Tag t && String.eqb (tag_tagName t) "slot" then
    attributes ← getObj (tag_attributes t);
    slots ← getS;
    (if obj_has attributes "name" then
       let slotName := js_String (default VUndefined (obj_get attributes "name")) in
       putS {| r_named :=
                 obj_put slotName
                   (default (STag tag) (named_get (r_named slots) slotName))
                   (r_named slots);
               r_unnamed := r_unnamed slots |}
     else
       putS {| r_named := r_named slots;
               r_unnamed := Some (default tag (r_unnamed slots)) |});;
    mret (Some (tag, true))
  else mret None.

Definition _findSlotReceivers (fuel : nat) (root : list nat) (h : Heap)
  : option (Completion (Exn E) SlotReceivers * Heap) :=
  match
    forEachM (walk fuel receiver_handler) root
      (h, {| r_named := []; r_unnamed := None |})
  with
  | Some (Normal _, (h', slots)) => Some (Normal slots, h')
  | Some (Throw e, (h', _)) => Some (Throw e, h')
  | None => None
  end.

(** The handler [_findSlottables] passes to [walk]. *)
Definition slottable_handler (tag : nat)
  : M (Exn E) (Heap * Slottables) (option (nat * bool)) :=
  t ← getTag tag;
  if instanceof_Tag t then
    attributes ← getObj (tag_attributes t);
    slottables ← getS;
    (if obj_has attributes "slot" then
       let slotName := js_String (default VUndefined (obj_get attributes "slot")) in
       putS {| s_named :=
                 obj_put slotName
                   (default (STag tag) (named_get (s_named slottables) slotName))
                   (s_named slottables);
               s_unnamed := s_unnamed slottables |}
     else
       putS {| s_named := s_named slottables;
               s_unnamed := s_unnamed slottables ++ [tag] |});;
    mret (Some (tag, true))
  else mret None.

Definition _findSlottables (fuel : nat) (root : list nat) (h : Heap)
  : option (Completion (Exn E) Slottables * Heap) :=
  match
    forEachM (walk fuel slottable_handler) root
      (h, {| s_named := []; s_unnamed := [] |})
  with
  | Some (Normal _, (h', slottables)) => Some (Normal slottables, h')
  | Some (Throw e, (h', _)) => Some (Throw e, h')
  | None => None
  end.

(** One turn of [for (const slotName in slottables.named)]; the state
    carries [unslotted]. [receivers.named[slotName]] is read through
    [Object.prototype] too; when it is a function and no tag, the call of
    [setChildren] on it throws a [TypeError]. A child list holds tags: the
    model stops where a function would become the child of a tag, which
    takes a function in [slottables.named] under a name for which
    [receivers.named] has a tag or nothing, and [_findSlottables] stores a
    function under the names of [Object.prototype] only, where the read of
    [receivers.named] gives a function as well. *)
Definition replace_step (receivers : SlotReceivers) (slottables : Slottables)
    (slotName : string) : M (Exn E) (Heap * list nat) unit :=
  match obj_get (s_named slottables) slotName with
  | None => stuck
  | Some slottable =>
      match named_get (r_named receivers) slotName with
      | Some (STag receiver) =>
          match slottable with
          | STag t => _ ← setChildren receiver [t]; mret tt
          | SInherited => stuck
          end
      | Some SInherited => throw TypeError
      | None =>
          match slottable with
          | STag t => unslotted ← getS; putS (unslotted ++ [t])
          | SInherited => stuck
          end
      end
  end.

Definition _replaceSlots (receivers : SlotReceivers) (slottables : Slottables)
    (h : Heap) : option (Completion (Exn E) unit * Heap) :=
  match
    (forEachM (replace_step receivers slottables) (obj_keys (s_named slottables));;
     unslotted ← getS;
     match r_unnamed receivers with
     | Some receiver => _ ← setChildren receiver unslotted; mret tt
     | None => mret tt
     end) (h, s_unnamed slottables)
  with
  | Some (c, (h', _)) => Some (c, h')
  | None => None
  end.

(** [applySlots(element, lightDOM)]. *)
Definition applySlots (fuel : nat) (element lightDOM : nat) (h : Heap)
  : option (Completion (Exn E) unit * Heap) :=
  match tags h !! element, tags h !! lightDOM with
  | Some e, Some l =>
      match _findSlotReceivers fuel (tag_children e) h with
      | Some (Normal receivers, h1) =>
          match _findSlottables fuel (tag_children l) h1 with
          | Some (Normal slottables, h2) => _replaceSlots receivers slottables h2
          | Some (Throw x, h2) => Some (Throw x, h2)
          | None => None
          end
      | Some (Throw x, h1) => Some (Throw x, h1)
      | None => None
      end
  | _, _ => None
  end.

End Slots.
End _Slots.

(** ** template-fn.ts: rendering as text *)

(** [TemplateFn._textRenderer(strings, ...values)]: the segments and the
    values interleaved, then joined; a missing segment joins as the empty
    string. *)
Fixpoint interleave (strings values : list string) : list string :=
  match values with
  | [] => []
  | v :: values' => v :: hd "" strings :: interleave (tl strings) values'
  end.

Definition _textRenderer (strings values : list string) : string :=
  String.concat "" (hd "" strings :: interleave (tl strings) values).

(** [TemplateFn._templateResultToText(result)]. *)
Definition _templateResultToText {Err} (result : option TemplateRenderResult)
  : Completion (Exn Err) string :=
  match result with
  | None => Normal ""
  | Some (RText s) => Normal s
  | Some (RElement innerHTML) => Normal innerHTML
  | Some (RToText text) => Normal text
  | Some (RStrings strings values) => Normal (_textRenderer strings values)
  | Some ROther => Throw NoTextForm
  end.

(** [renderAsText(changeType, component)]; [textRenderer] is the identity of
    the function [TemplateFn._textRenderer], the templater of this path. The
    field [_lastRenderChanged], which only [renderIfNew] reads, is left out. *)
Definition renderAsText {Props Theme Env Err} (textRenderer : nat)
    (self : TemplateFn Props Theme Env Err) (changeType : Z)
    (component : Component Props Theme) (w : World Props Theme Env)
  : Completion (Exn Err) string * World Props Theme Env :=
  match _renderWithTemplater self changeType component (Some textRenderer) w with
  | (Normal r, w') =>
      (match rendered r with
       | Some (RText s) => Normal s
       | other => _templateResultToText other
       end, w')
  | (Throw e, w') => (Throw e, w')
  end.

(** ** ssr.ts: errors, sessions, the DOM of the HTML parser *)

(** [RenderError] and [CSSParseError] wrap their [source]; anything else
    passes through uncaught. *)
Inductive SSRExn (Err : Type) :=
| RenderError (source : Exn Err)
| CSSParseError (source : Exn Err) (file : string)
| Uncaught (source : Exn Err).
Arguments RenderError {Err} source.
Arguments CSSParseError {Err} source file.
Arguments Uncaught {Err} source.

Record DocumentSession := {
  _cssIdentifierMap : gmap nat nat;
  _sheetSet : gset nat;
  _unnamedElements : nat;
  _elementMap : gmap string nat
}.

(** [new DocumentSession()]. *)
Definition new_DocumentSession : DocumentSession :=
  {| _cssIdentifierMap := ∅; _sheetSet := ∅; _unnamedElements := 1; _elementMap := ∅ |}.

(** What [htmlparser2] hands to [_domToTags]: text nodes, elements, and
    nodes of any other type (comments, directives). *)
Inductive DomNode :=
| DomText (nodeValue : string)
| DomElement (tagName : string) (attribs : JSObj JSValue) (children : list DomNode)
| DomOther.

(** A number in a template literal. *)
Definition string_of_nat (n : nat) : string :=
  NilZero.string_of_uint (Nat.to_uint n).

(** [s.toLowerCase()] on ASCII. *)
Definition lower_ascii (a : ascii) : ascii :=
  let n := nat_of_ascii a in
  if (65 <=? n)%nat && (n <=? 90)%nat then ascii_of_nat (n + 32) else a.

Fixpoint toLowerCase (s : string) : string :=
  match s with
  | EmptyString => EmptyString
  | String a s' => String (lower_ascii a) (toLowerCase s')
  end.

(** [s.includes('-')]. *)
Fixpoint includes_dash (s : string) : bool :=
  match s with
  | EmptyString => false
  | String a s' => Ascii.eqb a "-" || includes_dash s'
  end.

(** [s.split(' ')]. *)
Fixpoint split_spaces_aux (s : string) (cur : string) : list string :=
  match s with
  | EmptyString => [cur]
  | String a s' =>
      if Ascii.eqb a " " then cur :: split_spaces_aux s' ""
      else split_spaces_aux s' (cur +:+ String a "")
  end.

Definition split_spaces (s : string) : list string := split_spaces_aux s "".

Definition _VOID_TAGS : list string :=
  ["area"; "base"; "br"; "col"; "embed"; "hr"; "img"; "input"; "keygen";
   "link"; "menuitem"; "meta"; "param"; "source"; "track"; "wbr"].

(** [values.includes(x)] on strings. *)
Definition includes_str (values : list string) (x : string) : bool :=
  existsb (String.eqb x) values.

(** [_flatten(values)]: an item is an array, spread into the result, or a
    single value. *)
Definition _flatten {V} (values : list (V + list V)) : list V :=
  flat_map (fun arr => match arr with inl v => [v] | inr vs => vs end) values.

Definition _generateComponentID (tagName : string) : string :=
  "css-" +:+ tagName.

(** [_generateUniqueID(element, tagName, session)]. *)
Definition _generateUniqueID (element : nat) (tagName : string)
    (session : DocumentSession) : string * DocumentSession :=
  let map0 := _cssIdentifierMap session in
  let map1 :=
    match map0 !! element with Some _ => map0 | None => <[element := 0%nat]> map0 end in
  let num := default 0%nat (map1 !! element) in
  ("css-" +:+ tagName +:+ "-" +:+ string_of_nat num,
   {| _cssIdentifierMap := <[element := (num + 1)%nat]> map1;
      _sheetSet := _sheetSet session;
      _unnamedElements := _unnamedElements session;
      _elementMap := _elementMap session |}).

(** The getter [elementGlobal] of [CSSTag] and [CSSText]. *)
Definition elementGlobal (t : ParsedTag) : bool :=
  match t with
  | CSSTag _ _ _ _ (Some changeOn) _ | CSSText _ (Some changeOn) _ =>
      (changeOn =? CHANGE_TYPE.THEME) || truthy_num (js_band changeOn CHANGE_TYPE.NEVER)
  | _ => false
  end.

(** [rule.selectors.map(selector => prefix + '-' + selector)] over the rules
    of a stylesheet. *)
Definition prefix_rule (prefix : string) (line : Rule) : Rule :=
  match selectors line with
  | None => line
  | Some sel =>
      {| selectors := Some (map (fun selector => prefix +:+ "-" +:+ selector) sel);
         declarations := declarations line |}
  end.

(** ** ssr.ts: the driver *)

(** The state of a render: the session, the memoizer's world, and the
    identity the next instance gets. *)
Record SSRState (U : Type) := {
  session : DocumentSession;
  world : World SSRInstance (JSObj JSValue) (SSREnv U);
  nextInstance : nat
}.
Arguments session {U} _.
Arguments world {U} _.
Arguments nextInstance {U} _.

Section SSR.
Context {U Err : Type}.

(** The collaborators: the class a reference denotes, the HTML parser, the
    [css] package, [Props.onConnect] (as the attributes it leaves on a new
    instance), and the identity of [TemplateFn._textRenderer]. *)
Variable classes : nat -> BaseClass U Err.
Variable parseHTML : string -> list DomNode.
Variable parseCSS : string -> Completion (Exn Err) Stylesheet.
Variable stringifyCSS : Stylesheet -> string.
Variable onConnect : SSRInstance -> JSObj JSValue.
Variable textRenderer : nat.

Abbreviation R := (M (SSRExn Err) (Heap * SSRState U)).
Abbreviation Instance := (Component SSRInstance (JSObj JSValue)).

Definition getSession : R DocumentSession :=
  st ← getS; mret (session st).

Definition putSession (s : DocumentSession) : R unit :=
  st ← getS;
  putS {| session := s; world := world st; nextInstance := nextInstance st |}.

(** [_Parser._domToTags(dom, { tagBase, textBase })]; [cssClasses] selects
    [CSSTag] and [CSSText]. *)
Fixpoint domToTag (cssClasses : bool) (node : DomNode) : R nat :=
  match node with
  | DomText nodeValue =>
      allocTag (if cssClasses then CSSText nodeValue None None else TextTag nodeValue)
  | DomOther => throw (Uncaught TypeError)
  | DomElement tagName attribs children =>
      attributes ← allocObj attribs;
      children ← mapM (domToTag cssClasses) children;
      let isSelfClosing := includes_str _VOID_TAGS (toLowerCase tagName) in
      allocTag (if cssClasses
                then CSSTag tagName attributes isSelfClosing children None children
                else Tag tagName attributes isSelfClosing children)
  end.

Definition _domToTags (cssClasses : bool) (dom : list DomNode) : R (list nat) :=
  mapM (domToTag cssClasses) dom.

(** [_Parser.parse(text, tagConfig)]. *)
Definition parse (cssClasses : bool) (text : string) : R (list nat) :=
  _domToTags cssClasses (parseHTML text).

(** [_tryRender(instance, template)]. [_attributes] is the value of
    [instance._attributes] before the call; its value after the call comes
    back with the text. *)
Definition _tryRender (instance : Instance) (template : option (SSRTemplateFn U Err))
    (_attributes : JSObj JSValue) : R (string * JSObj JSValue) :=
  match template with
  | None => mret ("", _attributes)
  | Some t =>
      st ← getS;
      let w := world st in
      let w0 := {| templaterMap := templaterMap w;
                   userEnv := {| thisAttributes := _attributes;
                                 user := user (userEnv w) |};
                   invocations := invocations w |} in
      let '(c, w') := renderAsText textRenderer t CHANGE_TYPE.ALWAYS instance w0 in
      putS {| session := session st; world := w'; nextInstance := nextInstance st |};;
      match c with
      | Normal text => mret (text, thisAttributes (userEnv w'))
      | Throw e => throw (RenderError e)
      end
  end.

(** [setChangeOn(changeOn)] of [CSSTag] and [CSSText]. *)
Fixpoint setChangeOn (fuel : nat) (changeOn : Z) (this : nat) : R unit :=
  match fuel with
  | O => stuck
  | S fuel =>
      t ← getTag this;
      match t with
      | CSSTag n a b c _ cc =>
          forEachM (setChangeOn fuel changeOn) cc;;
          t' ← getTag this;
          match t' with
          | CSSTag n a b c _ cc => setTag this (CSSTag n a b c (Some changeOn) cc)
          | _ => stuck
          end
      | CSSText content _ sheet => setTag this (CSSText content (Some changeOn) sheet)
      | _ => throw (Uncaught TypeError)
      end
  end.

(** [_parseElementCSS(element, instance)]. *)
Definition parseTemplateCSS (fuel : nat) (instance : Instance)
    (acc : list (list nat) * JSObj JSValue) (template : SSRTemplateFn U Err)
  : R (list (list nat) * JSObj JSValue) :=
  '(text, _attributes) ← _tryRender instance (Some template) (snd acc);
  cssTags ← parse true text;
  h ← getHeap;
  let styleTags :=
    List.filter (fun t => match tags h !! t with
                          | Some x => instanceof_Tag x
                          | None => false
                          end) cssTags in
  forEachM (setChangeOn fuel (changeOn template)) styleTags;;
  mret (fst acc ++ [styleTags], _attributes).

Definition _parseElementCSS (fuel : nat) (element : nat) (instance : Instance)
    (_attributes : JSObj JSValue) : R (list (list nat) * JSObj JSValue) :=
  match css (classes element) with
  | None => mret ([], _attributes)
  | Some c =>
      let templates := match c with CssSingle t => [t] | CssArray ts => ts end in
      fold_left (fun acc template => a ← acc; parseTemplateCSS fuel instance a template)
        templates (mret ([], _attributes))
  end.

(** The getter [cssParsed] of [CSSText]. *)
Definition cssParsed (this : nat) : R Stylesheet :=
  t ← getTag this;
  match t with
  | CSSText content co (Some sheet) => mret sheet
  | CSSText content co None =>
      match parseCSS content with
      | Normal sheet => setTag this (CSSText content co (Some sheet));; mret sheet
      | Throw e => throw (CSSParseError e content)
      end
  | _ => throw (Uncaught TypeError)
  end.

(** [addPrefix(prefix)]. *)
Definition addPrefix (prefix : string) (this : nat) : R unit :=
  sheet ← cssParsed this;
  match stylesheet sheet with
  | None => mret tt
  | Some rules =>
      t ← getTag this;
      match t with
      | CSSText content co _ =>
          setTag this
            (CSSText content co
               (Some {| stylesheet := Some (map (prefix_rule prefix) rules) |}))
      | _ => stuck
      end
  end.

(** [stringify()] of [CSSText]. *)
Definition stringify (this : nat) : R unit :=
  sheet ← cssParsed this;
  t ← getTag this;
  match t with
  | CSSText _ co s => setTag this (CSSText (stringifyCSS sheet) co s)
  | _ => stuck
  end.

(** [_walkCSSSheets(tags, handler)]. *)
Fixpoint _walkCSSSheets (fuel : nat) (handler : nat -> R unit) (tags : list nat)
  : R (list nat) :=
  match fuel with
  | O => stuck
  | S fuel =>
      mapM (fun tag =>
              t ← getTag tag;
              match t with
              | CSSTag _ _ _ _ _ cc => _ ← _walkCSSSheets fuel handler cc; mret tag
              | _ => handler tag;; mret tag
              end) tags
  end.

(** [_addCSSPrefixes(templates, uniqueID, componentID)]. *)
Definition _addCSSPrefixes (fuel : nat) (templates : list (list nat))
    (uniqueID componentID : string) : R (list (list nat)) :=
  mapM (fun template =>
          mapM (fun sheet =>
                  t ← getTag sheet;
                  let prefix := if elementGlobal t then componentID else uniqueID in
                  _ ← _walkCSSSheets fuel
                        (fun tag => addPrefix prefix tag;; stringify tag)
                        (tag_children t);
                  mret sheet) template) templates.

(** The handler [_addHTMLPrefixes] passes to [walk]. *)
Definition html_prefix_handler (uniqueID componentID : string) (tag : nat)
  : R (option (nat * bool)) :=
  t ← getTag tag;
  if instanceof_TextTag t then mret None
  else
    attributes ← getObj (tag_attributes t);
    let classNames :=
      match obj_get attributes "class" with
      | Some (VStr classNames) => split_spaces classNames
      | _ => []
      end in
    let classNames := classNames ++ [uniqueID; componentID] in
    setObj (tag_attributes t) (obj_set "class" (VStr (String.concat " " classNames)) attributes);;
    mret (Some (tag, includes_dash (tag_tagName t))).

Definition _addHTMLPrefixes (fuel : nat) (tags : list nat)
    (uniqueID componentID : string) : R (list nat) :=
  mapM (walk fuel (html_prefix_handler uniqueID componentID)) tags.

(** [s.elementGlobal] for the sheet behind a reference. *)
Definition sheet_elementGlobal (h : Heap) (s : nat) : bool :=
  match tags h !! s with
  | Some t => elementGlobal t
  | None => false
  end.

(** [getCSSApplied(element, instance, tagName, children, session)]. *)
Definition getCSSApplied (fuel : nat) (element : nat) (instance : Instance)
    (tagName : string) (children : list nat) (_attributes : JSObj JSValue)
  : R (list nat * JSObj JSValue) :=
  s0 ← getSession;
  let '(uniqueID, s1) := _generateUniqueID element tagName s0 in
  putSession s1;;
  let componentID := _generateComponentID tagName in
  '(parsed, _attributes) ← _parseElementCSS fuel element instance _attributes;
  prefixed ← _addCSSPrefixes fuel parsed uniqueID componentID;
  let prefixedCSS := _flatten (map inr prefixed) in
  htmlPrefixed ← _addHTMLPrefixes fuel children uniqueID componentID;
  s2 ← getSession;
  let isFirstElementRender := negb (bool_decide (element ∈ _sheetSet s2)) in
  putSession {| _cssIdentifierMap := _cssIdentifierMap s2;
                _sheetSet := {[element]} ∪ _sheetSet s2;
                _unnamedElements := _unnamedElements s2;
                _elementMap := _elementMap s2 |};;
  h ← getHeap;
  mret ((if isFirstElementRender
         then _flatten (map inl (List.filter (fun s => sheet_elementGlobal h s) prefixedCSS))
         else [])
        ++ _flatten (map inl (List.filter (fun s => negb (sheet_elementGlobal h s)) prefixedCSS))
        ++ htmlPrefixed,
        _attributes).

(** What is thrown below the renderer and not caught by it comes out as it
    is. *)
Definition uncaught {A} (r : option (Completion (Exn Err) A * Heap))
  : option (Completion (SSRExn Err) A * Heap) :=
  match r with
  | Some (Normal a, h) => Some (Normal a, h)
  | Some (Throw e, h) => Some (Throw (Uncaught e), h)
  | None => None
  end.

(** A computation on the heap alone, run inside the renderer. *)
Definition liftHeap {A} (f : Heap -> option (Completion (SSRExn Err) A * Heap)) : R A :=
  fun st =>
    match f (fst st) with
    | Some (c, h') => Some (c, (h', snd st))
    | None => None
    end.

(** [new wrappedClass()] for [_createBase(element, tagName, attribs, theme)]:
    a new identity; the instance answers [getAttribute] from [attribs] and
    [getTheme] with [theme]. *)
Definition newInstance (element : nat) (tagName : string)
    (attribs theme : JSObj JSValue) : R Instance :=
  st ← getS;
  putS {| session := session st; world := world st;
          nextInstance := S (nextInstance st) |};;
  mret {| c_id := nextInstance st;
          c_props := {| i_tagName := tagName;
                        i_attribs := attribs;
                        i_props := props (classes element) |};
          c_getTheme := Some theme |}.

(** [_Replacement._mapTag(tag, theme, session)], with the function it calls
    for the nested element as a parameter. *)
Definition _mapTag (fuel : nat)
    (elementToTag : nat -> JSObj JSValue -> JSObj JSValue -> R nat)
    (theme : JSObj JSValue) (tag : nat) : R (option (nat * bool)) :=
  t ← getTag tag;
  if instanceof_TextTag t then mret None
  else
    s ← getSession;
    if negb (includes_dash (tag_tagName t))
       || negb (bool_decide (is_Some (_elementMap s !! tag_tagName t)))
    then mret None
    else
      match _elementMap s !! tag_tagName t with
      | None => stuck
      | Some element =>
          attribs ← getObj (tag_attributes t);
          newTag ← elementToTag element attribs theme;
          liftHeap (fun h => uncaught (_Slots.applySlots fuel newTag tag h));;
          mret (Some (newTag, true))
      end.

(** [elementToTag(element, attribs, theme, session)]. *)
Fixpoint elementToTag (fuel : nat) (element : nat)
    (attribs theme : JSObj JSValue) : R nat :=
  match fuel with
  | O => stuck
  | S fuel =>
      s0 ← getSession;
      tagName ←
        (if truthy_str (is_ (classes element))
         then mret (default "" (is_ (classes element)))
         else
           putSession {| _cssIdentifierMap := _cssIdentifierMap s0;
                         _sheetSet := _sheetSet s0;
                         _unnamedElements := S (_unnamedElements s0);
                         _elementMap := _elementMap s0 |};;
           mret ("wclib-element" +:+ string_of_nat (_unnamedElements s0)));
      instance ← newInstance element tagName attribs theme;
      '(text, _attributes) ←
        _tryRender instance (html (classes element)) (onConnect (c_props instance));
      tags ← parse false text;
      let split := _Properties.splitAttributes (i_props (c_props instance)) attribs in
      (* _Replacement.replace(tags, theme, session) *)
      children ← mapM (walk fuel (_mapTag fuel (elementToTag fuel) theme)) tags;
      '(cssApplied, _attributes) ←
        getCSSApplied fuel element instance tagName children _attributes;
      attributes ←
        allocObj (obj_assign
                    (obj_assign (obj_assign [] (_Properties.attributes split))
                       (_Properties.publicProps split))
                    _attributes);
      allocTag (Tag tagName attributes false cssApplied)
  end.

(** [_Rendering.render(element, attributes, theme, session)]. *)
Definition render (fuel : nat) (element : nat) (attributes theme : JSObj JSValue)
  : R string :=
  dom ← elementToTag fuel element attributes theme;
  h ← getHeap;
  match toText fuel h dom with
  | Some text => mret text
  | None => stuck
  end.

(** [renderElement(element, props, attributes, theme, session)]; the
    session is the one of the state. *)
Definition renderElement (fuel : nat) (element : nat)
    (props attributes theme : JSObj JSValue) : R string :=
  match Dependencies.buildMap fuel classes element ∅ with
  | None => stuck
  | Some map =>
      s ← getSession;
      putSession {| _cssIdentifierMap := _cssIdentifierMap s;
                    _sheetSet := _sheetSet s;
                    _unnamedElements := _unnamedElements s;
                    _elementMap := map ∪ _elementMap s |};;
      render fuel element (obj_assign (obj_assign [] props) attributes) theme
  end.

(** [ssr(element, props, attributes, theme)] without a session: a new
    [DocumentSession], and a heap of tags of its own. *)
Definition ssr (fuel : nat) (element : nat) (props attributes theme : JSObj JSValue)
    (w : World SSRInstance (JSObj JSValue) (SSREnv U)) (next : nat)
  : option (Completion (SSRExn Err) string * SSRState U) :=
  match
    renderElement fuel element props attributes theme
      (empty_heap, {| session := new_DocumentSession; world := w; nextInstance := next |})
  with
  | Some (c, (_, st)) => Some (c, st)
  | None => None
  end.

End SSR.

(** ** Dependency graphs *)

(** [dep] is a declared dependency of [d]. *)
Definition depends {U Err} (classes : nat -> BaseClass U Err) (dep d : nat) : Prop :=
  In dep (default [] (dependencies (classes d))).

(** The definitions reachable from [root] along declared dependencies. *)
Inductive reachable {U Err} (classes : nat -> BaseClass U Err) (root : nat) : nat -> Prop :=
| reach_root : reachable classes root root
| reach_dep d dep :
    reachable classes root d -> depends classes dep d -> reachable classes root dep.

(** The recursive visit order of [buildMap]: the definition itself, then the
    visits of its dependencies, in order; a definition is listed every time
    the recursion reaches it. *)
Fixpoint visit_order {U Err} (fuel : nat) (classes : nat -> BaseClass U Err)
    (element : nat) : option (list nat) :=
  match fuel with
  | O => None
  | S fuel =>
      fold_left
        (fun acc dependency =>
           match acc, visit_order fuel classes dependency with
           | Some l, Some l' => Some (l ++ l')
           | _, _ => None
           end)
        (default [] (dependencies (classes element)))
        (Some [element])
  end.

(** Registering the visited definitions, one after the other. *)
Definition register {U Err} (classes : nat -> BaseClass U Err)
    (map : gmap string nat) (element : nat) : gmap string nat :=
  if truthy_str (is_ (classes element))
  then <[default "" (is_ (classes element)) := element]> map
  else map.

Definition register_all {U Err} (classes : nat -> BaseClass U Err)
    (visited : list nat) (map : gmap string nat) : gmap string nat :=
  fold_left (register classes) visited map.

(** A class without a tag name, dependencies or templates. *)
Definition plain_class {U Err} : BaseClass U Err :=
  {| is_ := None; dependencies := None; html := None; css := None; props := None |}.

(** A with tag [x-a] depends on B with tag [x-b], which depends on A. *)
Definition cyclic_classes (n : nat) : BaseClass unit unit :=
  match n with
  | 0%nat => {| is_ := Some "x-a"; dependencies := Some [1%nat];
                html := None; css := None; props := None |}
  | 1%nat => {| is_ := Some "x-b"; dependencies := Some [0%nat];
                html := None; css := None; props := None |}
  | _ => plain_class
  end.

(** A with tag [x-a] depends on B with tag [x-b]. *)
Definition chain_classes (n : nat) : BaseClass unit unit :=
  match n with
  | 0%nat => {| is_ := Some "x-a"; dependencies := Some [1%nat];
                html := None; css := None; props := None |}
  | 1%nat => {| is_ := Some "x-b"; dependencies := None;
                html := None; css := None; props := None |}
  | _ => plain_class
  end.

(** Two definitions that declare the tag [x-a]: the root and its
    dependency. *)
Definition shadowing_classes (n : nat) : BaseClass unit unit :=
  match n with
  | 0%nat => {| is_ := Some "x-a"; dependencies := Some [1%nat];
                html := None; css := None; props := None |}
  | 1%nat => {| is_ := Some "x-a"; dependencies := None;
                html := None; css := None; props := None |}
  | _ => plain_class
  end.

(** ** Slot resolution, read off the heap *)

(** The value of the attribute [attr] of the tag behind [t], as a property
    key; [None] when [t] is a text tag or has no such attribute. *)
Definition attribute_key (h : Heap) (attr : string) (t : nat) : option string :=
  match tags h !! t with
  | Some node =>
      if instanceof_Tag node then
        match objs h !! tag_attributes node with
        | Some attributes =>
            match obj_get attributes attr with
            | Some v => Some (js_String v)
            | None => None
            end
        | None => None
        end
      else None
  | None => None
  end.

(** What the handler of [_findSlottables] does with the top-level node [t]. *)
Definition slottable_step (h : Heap) (sl : _Slots.Slottables) (t : nat)
  : _Slots.Slottables :=
  match tags h !! t with
  | Some node =>
      if instanceof_Tag node then
        match attribute_key h "slot" t with
        | Some slotName =>
            {| _Slots.s_named :=
                 obj_put slotName
                   (default (_Slots.STag t)
                      (_Slots.named_get (_Slots.s_named sl) slotName))
                   (_Slots.s_named sl);
               _Slots.s_unnamed := _Slots.s_unnamed sl |}
        | None =>
            {| _Slots.s_named := _Slots.s_named sl;
               _Slots.s_unnamed := _Slots.s_unnamed sl ++ [t] |}
        end
      else sl
  | None => sl
  end.

(** Every reference of [root] is held by the heap, a tag's attribute object
    too. *)
Definition valid_roots (h : Heap) (root : list nat) : Prop :=
  forall t, In t root ->
    exists node, tags h !! t = Some node
                 /\ (instanceof_Tag node = true ->
                     is_Some (objs h !! tag_attributes node)).

(** The child list [_children] of the tag behind [x]. *)
Definition children_of (h : Heap) (x : nat) : list nat :=
  match tags h !! x with
  | Some node => tag__children node
  | None => []
  end.

(** A slot name under which the two finders store a function of
    [Object.prototype]: the assignment to [__proto__] stores nothing. *)
Definition shadowed (k : string) : bool :=
  inherited k && negb (String.eqb k "__proto__").

(** A name of [named] holds a function in place of a tag exactly when it is
    a name of [Object.prototype], which is how the two finders fill it. *)
Definition named_wf (named : JSObj _Slots.Slotted) : Prop :=
  forall n v, obj_get named n = Some v ->
    v = _Slots.SInherited <-> inherited n = true.

(** The receivers are tags of the heap, and no tag is a receiver twice. *)
Record receivers_wf (h : Heap) (receivers : _Slots.SlotReceivers) : Prop := {
  wf_named_valid :
    forall n r, obj_get (_Slots.r_named receivers) n = Some (_Slots.STag r) ->
      exists node, tags h !! r = Some node /\ instanceof_Tag node = true;
  wf_unnamed_valid :
    forall r, _Slots.r_unnamed receivers = Some r ->
      exists node, tags h !! r = Some node /\ instanceof_Tag node = true;
  wf_named_inj :
    forall n n' r, obj_get (_Slots.r_named receivers) n = Some (_Slots.STag r) ->
                   obj_get (_Slots.r_named receivers) n' = Some (_Slots.STag r) ->
                   n = n';
  wf_unnamed_fresh :
    forall n r, obj_get (_Slots.r_named receivers) n = Some (_Slots.STag r) ->
                _Slots.r_unnamed receivers <> Some r;
  wf_named_tags : named_wf (_Slots.r_named receivers)
}.

(** The receiver tree of the slot round trip,
    [<div><slot name=a></slot><slot></slot></div>], as the only child of the
    expanded element (reference 7), and the caller's content,
    [<span slot=a>X</span><b>Y</b>], as the children of the custom tag in the
    caller's markup (reference 8). *)
Definition slot_heap : Heap :=
  {| tags := [ Tag "div" 0 false [1; 2]%nat;
               Tag "slot" 1 false [];
               Tag "slot" 2 false [];
               Tag "span" 3 false [4%nat];
               TextTag "X";
               Tag "b" 4 false [6%nat];
               TextTag "Y";
               Tag "my-el" 5 false [0%nat];
               Tag "my-el" 6 false [3; 5]%nat ];
     objs := [ []; [("name", VStr "a")]; []; [("slot", VStr "a")]; []; []; [] ] |}.

(** The same receivers, not nested: the two slots are the children of the
    expanded element (reference 7). *)
Definition flat_slot_heap : Heap :=
  {| tags := [ Tag "div" 0 false [];
               Tag "slot" 1 false [];
               Tag "slot" 2 false [];
               Tag "span" 3 false [4%nat];
               TextTag "X";
               Tag "b" 4 false [6%nat];
               TextTag "Y";
               Tag "my-el" 5 false [1; 2]%nat;
               Tag "my-el" 6 false [3; 5]%nat ];
     objs := [ []; [("name", VStr "a")]; []; [("slot", VStr "a")]; []; []; [] ] |}.

(** Caller content with two elements for the slot [a]:
    [<span slot=a>X</span><i slot=a></i><b>Y</b>]; the receivers are the
    slots 1 (named [a]) and 2 (unnamed). *)
Definition duplicate_slot_heap : Heap :=
  {| tags := [ Tag "div" 0 false [];
               Tag "slot" 1 false [];
               Tag "slot" 2 false [];
               Tag "span" 3 false [4%nat];
               TextTag "X";
               Tag "b" 4 false [6%nat];
               TextTag "Y";
               Tag "i" 3 false [] ];
     objs := [ []; [("name", VStr "a")]; []; [("slot", VStr "a")]; []; []; [] ] |}.

(** Receivers and content under the name [constructor]: the expanded
    element (reference 8) has the slots 1, named [constructor], and 2,
    unnamed; the caller's content, the children of reference 9, is
    [<span slot=constructor>X</span><i slot=constructor></i><b>Y</b>]. *)
Definition constructor_slot_heap : Heap :=
  {| tags := [ Tag "div" 0 false [];
               Tag "slot" 1 false [];
               Tag "slot" 2 false [];
               Tag "span" 3 false [4%nat];
               TextTag "X";
               Tag "b" 4 false [6%nat];
               TextTag "Y";
               Tag "i" 3 false [];
               Tag "my-el" 5 false [1; 2]%nat;
               Tag "my-el" 6 false [3; 7; 5]%nat ];
     objs := [ []; [("name", VStr "constructor")]; [];
               [("slot", VStr "constructor")]; []; []; [] ] |}.

(** ** Sessions, as far as CSS is concerned *)

(** The two fields of a session that [getCSSApplied] reads and writes. *)
Definition css_state (s : DocumentSession) : gmap nat nat * gset nat :=
  (_cssIdentifierMap s, _sheetSet s).

(** The number of expansions of [element] the session has counted. *)
Definition expansions (cs : gmap nat nat * gset nat) (element : nat) : nat :=
  default 0%nat (fst cs !! element).

(** ** Determinism *)

(** Two calls of a render function see the same inputs: the instances differ
    by their identity at most. *)
Definition same_inputs (a a' : TemplateArgs SSRInstance (JSObj JSValue)) : Prop :=
  c_props (a_this a) = c_props (a_this a')
  /\ c_getTheme (a_this a) = c_getTheme (a_this a')
  /\ a_complexHTML a = a_complexHTML a'
  /\ a_props a = a_props a'
  /\ a_theme a = a_theme a'
  /\ a_changeType a = a_changeType a'.

(** A render function is deterministic when what it returns or throws, and
    the attributes it leaves on its instance, depend on its inputs and on the
    attributes of the instance only: not on the identity of the instance nor
    on any other state of user code. *)
Definition deterministic {U Err}
    (f : TemplateRenderFunction SSRInstance (JSObj JSValue) (SSREnv U) Err) : Prop :=
  forall a a' env env',
    same_inputs a a' ->
    thisAttributes env = thisAttributes env' ->
    fst (f a env) = fst (f a' env')
    /\ thisAttributes (snd (f a env)) = thisAttributes (snd (f a' env')).

Definition deterministic_template {U Err} (t : SSRTemplateFn U Err) : Prop :=
  forall f, _template t = Some f -> deterministic f.

(** The templates of a class. *)
Definition class_templates {U Err} (c : BaseClass U Err) : list (SSRTemplateFn U Err) :=
  match html c with Some t => [t] | None => [] end
  ++ match css c with
     | Some (CssSingle t) => [t]
     | Some (CssArray ts) => ts
     | None => []
     end.

Definition deterministic_classes {U Err} (classes : nat -> BaseClass U Err) : Prop :=
  forall n t, In t (class_templates (classes n)) -> deterministic_template t.

(** No instance that is still to be created has an entry in the cache of the
    text renderer. *)
Definition fresh_instances {U} (textRenderer : nat)
    (w : World SSRInstance (JSObj JSValue) (SSREnv U)) (next : nat) : Prop :=
  forall c k, (next <= c)%nat -> cache_entry (templaterMap w) textRenderer c k = None.

(** ** Sequences of render calls *)

(** The calls [_renderWithTemplater(changeType, component, templater)] for the
    change reasons of a list, one after the other. *)
Fixpoint render_all {Props Theme Env Err} (self : TemplateFn Props Theme Env Err)
    (component : Component Props Theme) (templater : option nat)
    (changeTypes : list Z) (w : World Props Theme Env)
  : list (Completion (Exn Err) Rendered) * World Props Theme Env :=
  match changeTypes with
  | [] => ([], w)
  | changeType :: rest =>
      let out := _renderWithTemplater self changeType component templater w in
      let outs := render_all self component templater rest (snd out) in
      (fst out :: fst outs, snd outs)
  end.

(** ** Counting characters *)

(** The number of occurrences of the character [c] in [s]. *)
Fixpoint count_char (c : ascii) (s : string) : nat :=
  match s with
  | EmptyString => 0%nat
  | String a s' => ((if Ascii.eqb a c then 1 else 0) + count_char c s')%nat
  end.

(** The double quote. *)
Definition quote : ascii := ascii_of_nat 34.

(** ** Class lists *)

(** The class list [_addHTMLPrefixes] leaves on a tag whose attributes were
    [attributes]. *)
Definition prefixed_class (attributes : JSObj JSValue) (uniqueID componentID : string)
  : string :=
  match obj_get attributes "class" with
  | Some (VStr classNames) => classNames +:+ " " +:+ uniqueID +:+ " " +:+ componentID
  | _ => uniqueID +:+ " " +:+ componentID
  end.

(** ** ssr.ts: [_Replacement.replace] *)

(** [_Replacement.replace(tags, theme, session)]: the walk [elementToTag]
    runs over the tags of its own markup. *)
Definition replace {U Err} (classes : nat -> BaseClass U Err)
    (parseHTML : string -> list DomNode)
    (parseCSS : string -> Completion (Exn Err) Stylesheet)
    (stringifyCSS : Stylesheet -> string)
    (onConnect : SSRInstance -> JSObj JSValue) (textRenderer : nat)
    (fuel : nat) (tags : list nat) (theme : JSObj JSValue)
  : M (SSRExn Err) (Heap * SSRState U) (list nat) :=
  mapM (walk fuel
          (_mapTag fuel
             (elementToTag classes parseHTML parseCSS stringifyCSS onConnect
                textRenderer fuel)
             theme))
    tags.

(** The tag behind [l] is not one [_mapTag] expands: it is a text, its name
    holds no dash, or the session knows no definition of that name. *)
Definition not_expanded {U} (st : Heap * SSRState U) (l : nat) : Prop :=
  exists t, tags (fst st) !! l = Some t
            /\ (instanceof_TextTag t = true
                \/ includes_dash (tag_tagName t) = false
                \/ _elementMap (session (snd st)) !! tag_tagName t = None).

(** ** The tags a computation leaves alone *)

(** Every tag of the first heap is, at the same reference, a tag of the
    second. *)
Definition tags_kept {St} (st st' : Heap * St) : Prop :=
  tags (fst st) `prefix_of` tags (fst st').

(** ** The DOM of the HTML parser, as text *)

(** The tree holds a node that is neither a text nor an element. *)
Fixpoint has_other (node : DomNode) : bool :=
  match node with
  | DomText _ => false
  | DomElement _ _ children => existsb has_other children
  | DomOther => true
  end.

Fixpoint dom_depth (node : DomNode) : nat :=
  match node with
  | DomElement _ _ children => S (list_max (map dom_depth children))
  | _ => 0%nat
  end.

(** The markup of a tree of texts and elements. An element with a void name
    and no children is written as one self-closing tag. *)
Fixpoint dom_text (node : DomNode) : string :=
  match node with
  | DomText nodeValue => nodeValue
  | DomElement tagName attribs children =>
      if includes_str _VOID_TAGS (toLowerCase tagName)
         && match children with [] => true | _ => false end
      then "<" +:+ tagName +:+ _Attributes.stringify attribs +:+ "/>"
      else "<" +:+ tagName +:+ _Attributes.stringify attribs +:+ ">"
           +:+ String.concat "" (map dom_text children)
           +:+ "</" +:+ tagName +:+ ">"
  | DomOther => ""
  end.

(** The second heap holds what the first holds, at the same references. *)
Definition heap_extends (h h' : Heap) : Prop :=
  tags h `prefix_of` tags h' /\ objs h `prefix_of` objs h'.

(** ** Scoped stylesheets *)

(** The parsed sheet with [prefix] put before every selector. *)
Definition prefixed_sheet (prefix : string) (sheet : Stylesheet) : Stylesheet :=
  match stylesheet sheet with
  | Some rules => {| stylesheet := Some (map (prefix_rule prefix) rules) |}
  | None => sheet
  end.

(** The prefix of a sheet: the identifier of the component for a sheet that
    changes with the theme only, or never; the identifier of the instance
    for every other mask. *)
Definition sheet_prefix (mask : option Z) (uniqueID componentID : string) : string :=
  match mask with
  | Some changeOn =>
      if (changeOn =? CHANGE_TYPE.THEME)
         || truthy_num (js_band changeOn CHANGE_TYPE.NEVER)
      then componentID else uniqueID
  | None => uniqueID
  end.

(** ** Worlds of a render *)

(** The world [_tryRender] hands to the template: the attributes of the
    instance are the ones it has so far. *)
Definition world_for {U} (w : World SSRInstance (JSObj JSValue) (SSREnv U))
    (_attributes : JSObj JSValue) : World SSRInstance (JSObj JSValue) (SSREnv U) :=
  {| templaterMap := templaterMap w;
     userEnv := {| thisAttributes := _attributes; user := user (userEnv w) |};
     invocations := invocations w |}.

(** ** Sessions *)

(** What a session has registered and counted stays: the element map is the
    same, and the counter of unnamed elements, the set of definitions whose
    global sheets are out, and the number of expansions of every definition
    have not gone back. *)
Definition session_grows (s s' : DocumentSession) : Prop :=
  _elementMap s' = _elementMap s
  /\ (_unnamedElements s <= _unnamedElements s')%nat
  /\ _sheetSet s ⊆ _sheetSet s'
  /\ forall element,
       (expansions (css_state s) element <= expansions (css_state s') element)%nat.

(** [elementToTag] from the point where the tag name is known. *)
Definition expansion {U Err} (classes : nat -> BaseClass U Err)
    (parseHTML : string -> list DomNode)
    (parseCSS : string -> Completion (Exn Err) Stylesheet)
    (stringifyCSS : Stylesheet -> string) (onConnect : SSRInstance -> JSObj JSValue)
    (textRenderer : nat) (fuel : nat) (element : nat) (attribs theme : JSObj JSValue)
    (tagName : string) : M (SSRExn Err) (Heap * SSRState U) nat :=
  instance ← newInstance classes element tagName attribs theme;
  '(text, _attributes) ←
    _tryRender textRenderer instance (html (classes element))
      (onConnect (c_props instance));
  tags ← parse parseHTML false text;
  let split := _Properties.splitAttributes (i_props (c_props instance)) attribs in
  children ←
    mapM (walk fuel
            (_mapTag fuel
               (elementToTag classes parseHTML parseCSS stringifyCSS onConnect
                  textRenderer fuel) theme)) tags;
  '(cssApplied, _attributes) ←
    getCSSApplied classes parseHTML parseCSS stringifyCSS textRenderer
      fuel element instance tagName children _attributes;
  attributes ←
    allocObj (obj_assign
                (obj_assign (obj_assign [] (_Properties.attributes split))
                   (_Properties.publicProps split))
                _attributes);
  allocTag (Tag tagName attributes false cssApplied).

(** The tag name [elementToTag] gives a definition in a session. *)
Definition tagName_of {U Err} (c : BaseClass U Err) (s : DocumentSession) : string :=
  if truthy_str (is_ c) then default "" (is_ c)
  else "wclib-element" +:+ string_of_nat (_unnamedElements s).

(** ** Parsed stylesheets *)

Definition is_element (node : DomNode) : bool :=
  match node with
  | DomElement _ _ _ => true
  | _ => false
  end.

(** The reference [l] holds the tree [node] as made of [CSSTag] and
    [CSSText] objects whose texts are not parsed yet, and [mask] holds of the
    [_changeOn] of every one of them. *)
Fixpoint css_tree (mask : option Z -> Prop) (h : Heap) (node : DomNode) (l : nat)
    {struct node} : Prop :=
  match node with
  | DomText nodeValue =>
      exists m, tags h !! l = Some (CSSText nodeValue m None) /\ mask m
  | DomElement tagName attribs children =>
      exists attributes ls m,
        tags h !! l
        = Some (CSSTag tagName attributes
                  (includes_str _VOID_TAGS (toLowerCase tagName)) ls m ls)
        /\ objs h !! attributes = Some attribs
        /\ mask m
        /\ (fix all (nodes : list DomNode) (ls : list nat) {struct nodes} : Prop :=
              match nodes, ls with
              | [], [] => True
              | node :: nodes, l :: ls => css_tree mask h node l /\ all nodes ls
              | _, _ => False
              end) children ls
  | DomOther => False
  end.

(** [t] with [_changeOn] set. *)
Definition with_changeOn (changeOn : Z) (t : ParsedTag) : ParsedTag :=
  match t with
  | CSSTag n a b c _ cc => CSSTag n a b c (Some changeOn) cc
  | CSSText content _ sheet => CSSText content (Some changeOn) sheet
  | _ => t
  end.

(** The second heap is the first with [_changeOn] set on some tags. *)
Definition remasked (changeOn : Z) (h h' : Heap) : Prop :=
  objs h' = objs h
  /\ length (tags h') = length (tags h)
  /\ forall l t, tags h !! l = Some t ->
       tags h' !! l = Some t \/ tags h' !! l = Some (with_changeOn changeOn t).

(** ** The stylesheets of an expansion *)

(** The stylesheet templates of a class, in their order. *)
Definition css_templates_of {U Err} (c : BaseClass U Err) : list (SSRTemplateFn U Err) :=
  match css c with
  | None => []
  | Some (CssSingle t) => [t]
  | Some (CssArray ts) => ts
  end.

(** What the stylesheet templates [ts] render for [instance] through the
    memoizer, one after the other and for the reason ALWAYS: the texts, the
    attributes of the instance after the last render, and the world it
    leaves. *)
Fixpoint css_texts {U Err} (textRenderer : nat)
    (instance : Component SSRInstance (JSObj JSValue))
    (ts : list (SSRTemplateFn U Err)) (_attributes : JSObj JSValue)
    (w : World SSRInstance (JSObj JSValue) (SSREnv U))
  : option (list string * JSObj JSValue
            * World SSRInstance (JSObj JSValue) (SSREnv U)) :=
  match ts with
  | [] => Some ([], _attributes, w)
  | t :: ts =>
      match renderAsText textRenderer t CHANGE_TYPE.ALWAYS instance
              (world_for w _attributes) with
      | (Normal text, w') =>
          match css_texts textRenderer instance ts (thisAttributes (userEnv w')) w' with
          | Some (texts, a, w'') => Some (text :: texts, a, w'')
          | None => None
          end
      | (Throw _, _) => None
      end
  end.

(** A sheet is global when its mask is THEME, or holds NEVER; every other
    sheet is unique to the instance. *)
Definition global_mask (changeOn : Z) : bool :=
  (changeOn =? CHANGE_TYPE.THEME) || truthy_num (js_band changeOn CHANGE_TYPE.NEVER).

(** The [style] elements of an expansion, each with the mask of its
    template: the elements at the top of what the templates have rendered. *)
Definition sheets_of {U Err} (parseHTML : string -> list DomNode)
    (templates : list (SSRTemplateFn U Err)) (texts : list string)
  : list (Z * DomNode) :=
  flat_map (fun tt => map (pair (changeOn (fst tt)))
                        (List.filter is_element (parseHTML (snd tt))))
    (combine templates texts).

(** The sheet with [prefix] and a dash put before every selector. *)
Definition scoped_sheet (prefix : string) (sheet : Stylesheet) : Stylesheet :=
  {| stylesheet :=
       option_map
         (map (fun rule =>
                 {| selectors :=
                      option_map (map (fun selector => prefix +:+ "-" +:+ selector))
                        (selectors rule);
                    declarations := declarations rule |}))
         (stylesheet sheet) |}.

(** The [css] package parses every text of the tree. *)
Fixpoint css_parses {Err} (parseCSS : string -> Completion (Exn Err) Stylesheet)
    (node : DomNode) : bool :=
  match node with
  | DomText nodeValue =>
      match parseCSS nodeValue with Normal _ => true | Throw _ => false end
  | DomElement _ _ children => forallb (css_parses parseCSS) children
  | DomOther => true
  end.

(** The markup of a stylesheet template can be scoped: it holds texts and
    elements only, and the elements at its top are less than [fuel] deep and
    hold texts the [css] package parses. *)
Definition css_markup_ok {Err} (parseCSS : string -> Completion (Exn Err) Stylesheet)
    (fuel : nat) (nodes : list DomNode) : bool :=
  negb (existsb has_other nodes)
  && forallb (fun node => (dom_depth node <? fuel)%nat && css_parses parseCSS node)
       (List.filter is_element nodes).

(** The object of a text as the parser makes it, with the mask of its
    template on it, and scoped with [prefix]: the text is then what the [css]
    package writes for the scoped sheet. *)
Definition parsed_text (nodeValue : string) (t : ParsedTag) : Prop :=
  t = CSSText nodeValue None None.

Definition masked_text (changeOn : Z) (nodeValue : string) (t : ParsedTag) : Prop :=
  t = CSSText nodeValue (Some changeOn) None.

Definition scoped_text {Err} (parseCSS : string -> Completion (Exn Err) Stylesheet)
    (stringifyCSS : Stylesheet -> string) (changeOn : Z) (prefix : string)
    (nodeValue : string) (t : ParsedTag) : Prop :=
  exists sheet,
    parseCSS nodeValue = Normal sheet
    /\ t = CSSText (stringifyCSS (scoped_sheet prefix sheet)) (Some changeOn)
             (Some (scoped_sheet prefix sheet)).

Section CSSLaid.
Variable text_ok : string -> ParsedTag -> Prop.
Variable mask : option Z.

(** In [h] the reference [l] holds the tree [node] as made of [CSSTag] and
    [CSSText] objects, all at references from [lo] up to [hi], [hi] left
    out: an element has the mask [mask] and its children lie one after the
    other below it, and [text_ok] holds of a text and its object. *)
Fixpoint css_laid (h : Heap) (node : DomNode) (lo hi l : nat) {struct node} : Prop :=
  match node with
  | DomText nodeValue =>
      (lo <= l < hi)%nat /\ exists t, tags h !! l = Some t /\ text_ok nodeValue t
  | DomElement tagName attribs children =>
      (lo <= l < hi)%nat
      /\ exists attributes ls,
           tags h !! l
           = Some (CSSTag tagName attributes
                     (includes_str _VOID_TAGS (toLowerCase tagName)) ls mask ls)
           /\ (fix chain (nodes : list DomNode) (from : nat) (ls : list nat)
                   {struct nodes} : Prop :=
                 match nodes, ls with
                 | [], [] => (from <= l)%nat
                 | node :: nodes, l' :: ls =>
                     exists mid, css_laid h node from mid l' /\ chain nodes mid ls
                 | _, _ => False
                 end) children lo ls
  | DomOther => False
  end.

(** The trees [nodes] lie one after the other from [lo] up to [hi]. *)
Fixpoint css_chain (h : Heap) (nodes : list DomNode) (lo hi : nat) (ls : list nat)
    {struct nodes} : Prop :=
  match nodes, ls with
  | [], [] => (lo <= hi)%nat
  | node :: nodes, l :: ls =>
      exists mid, css_laid h node lo mid l /\ css_chain h nodes mid hi ls
  | _, _ => False
  end.

End CSSLaid.

(** The [style] elements of the templates [templates], each a mask and its
    elements, lie one template after the other from [lo] up to [hi];
    [text_ok] is given the mask of the template. *)
Fixpoint css_laid_templates (text_ok : Z -> string -> ParsedTag -> Prop) (h : Heap)
    (templates : list (Z * list DomNode)) (lo hi : nat) (parsed : list (list nat))
    {struct templates} : Prop :=
  match templates, parsed with
  | [], [] => (lo <= hi)%nat
  | t :: templates, ls :: parsed =>
      exists mid,
        css_chain (text_ok (fst t)) (Some (fst t)) h (snd t) lo mid ls
        /\ css_laid_templates text_ok h templates mid hi parsed
  | _, _ => False
  end.

(** The second heap is the first but for the tags from [lo] up to [hi]. *)
Definition same_outside (lo hi : nat) (h h' : Heap) : Prop :=
  objs h' = objs h
  /\ length (tags h') = length (tags h)
  /\ forall l, (l < lo \/ hi <= l)%nat -> tags h' !! l = tags h !! l.

(** The tags of the first heap are, at their references, tags of the
    second. *)
Definition tags_stay (h h' : Heap) : Prop :=
  forall l t, tags h !! l = Some t -> tags h' !! l = Some t.

(** ** listeners.ts

    Components, elements and the other objects of the DOM carry an identity,
    a [nat]; so do the functions [listener.bind(base)] creates: a new
    one at every call. An element is absent for [undefined], which is what
    [base.$[id]] gives for an id the component does not have. *)

Module Listeners.

(** A [Map] with string keys: the entries in insertion order. *)
Section JSMap.
Context {V : Type}.

Definition JSMap : Type := list (string * V).

Definition map_get (m : JSMap) (k : string) : option V := obj_get m k.

Definition map_has (m : JSMap) (k : string) : bool := obj_has m k.

(** [m.set(k, v)]: an existing key keeps its place. *)
Definition map_set (k : string) (v : V) (m : JSMap) : JSMap :=
  if obj_has m k then obj_update k v m else m ++ [(k, v)].

Fixpoint map_delete (k : string) (m : JSMap) : JSMap :=
  match m with
  | [] => []
  | (k', v) :: m' => if String.eqb k' k then m' else (k', v) :: map_delete k m'
  end.

End JSMap.
Arguments JSMap : clear implicits.

(** The third argument of [addEventListener]: a boolean, which is the
    capture flag, or an object of options. *)
Inductive Options :=
| OBool (capture : bool)
| OObject (capture passive once : bool).

Definition capture_of (options : option Options) : bool :=
  match options with
  | Some (OBool capture) => capture
  | Some (OObject capture _ _) => capture
  | None => false
  end.

(** An entry of the event listener list of an event target: the type of the
    event, the callback and the capture flag. *)
Definition Attached : Type := string * nat * bool.

Definition same_listener (a b : Attached) : bool :=
  String.eqb (fst (fst a)) (fst (fst b))
  && Nat.eqb (snd (fst a)) (snd (fst b))
  && Bool.eqb (snd a) (snd b).

(** [target.addEventListener(type, callback, options)] on the list of a
    target: nothing is added when the list holds an entry with the same
    type, callback and capture flag. *)
Definition dom_add (a : Attached) (l : list Attached) : list Attached :=
  if existsb (same_listener a) l then l else l ++ [a].

(** [target.removeEventListener(type, callback, options)]. *)
Definition dom_remove (a : Attached) (l : list Attached) : list Attached :=
  List.filter (fun b => negb (same_listener a b)) l.

(** The value [{ element, map }] of an id: the element listened to and the
    [Map] from events to bound listeners, which is an object of its own. *)
Record Listened := {
  l_element : option nat;
  l_map : nat
}.

(** The value of a component in [listenedToElements]. *)
Record Registry := {
  self : JSMap (list nat);
  selfUnique : JSMap nat;
  identifiers : JSMap Listened;
  elements : JSMap Listened
}.

Definition new_Registry : Registry :=
  {| self := []; selfUnique := []; identifiers := []; elements := [] |}.

(** The context of [isNewElement]: the default one, an object of the
    caller, or the object [listenIfNew] keeps for a component in [newMap]. *)
Inductive Context :=
| DefaultContext
| UserContext (o : nat)
| LinkContext (base : nat).

#[global] Instance Context_eq_dec : EqDecision Context.
Proof. solve_decision. Defined.

#[global] Instance Context_countable : Countable Context.
Proof.
  refine (inj_countable'
            (fun c => match c with
                      | DefaultContext => inl tt
                      | UserContext o => inr (inl o)
                      | LinkContext base => inr (inr base)
                      end)
            (fun x => match x with
                      | inl _ => DefaultContext
                      | inr (inl o) => UserContext o
                      | inr (inr base) => LinkContext base
                      end) _).
  by intros [].
Defined.

(** The state of the module and of the DOM around it. [eventMaps] holds the
    [Map] objects of the ids; [targets] the event listener list of every
    event target; [dollar] is [base.$]; [nextListener] the identity of the
    function the next [bind] creates. *)
Record State := {
  listenedToElements : gmap nat Registry;
  eventMaps : list (JSMap nat);
  usedElements : gmap Context (gset nat);
  newMap : gset nat;
  _supportsPassive : option bool;
  targets : gmap nat (list Attached);
  dollar : nat -> string -> option nat;
  nextListener : nat
}.

Inductive ListenType := TElement | TIdentifier.

(** What a function returned by the module does when it is called. *)
Inductive Remover :=
| RemoveListened (eventIDMap : nat) (event : string) (boundListener : nat)
    (listenedToElement : option nat)
| RemoveUnique (base : nat) (event : string) (boundListener : nat)
| RemoveSelf (base : nat) (event : string) (boundListener : nat)
| RemoveNothing.

Inductive Error := TypeError.

Abbreviation L := (M Error State).

Definition get : L State := fun s => Some (Normal s, s).
Definition modify (f : State -> State) : L unit := fun s => Some (Normal tt, f s).

Definition set_registry (base : nat) (r : Registry) : L unit :=
  modify (fun s =>
    {| listenedToElements := <[base := r]> (listenedToElements s);
       eventMaps := eventMaps s;
       usedElements := usedElements s;
       newMap := newMap s;
       _supportsPassive := _supportsPassive s;
       targets := targets s;
       dollar := dollar s;
       nextListener := nextListener s |}).

Definition set_eventMap (ref : nat) (m : JSMap nat) : L unit :=
  modify (fun s =>
    {| listenedToElements := listenedToElements s;
       eventMaps := <[ref := m]> (eventMaps s);
       usedElements := usedElements s;
       newMap := newMap s;
       _supportsPassive := _supportsPassive s;
       targets := targets s;
       dollar := dollar s;
       nextListener := nextListener s |}).

(** [new Map()]. *)
Definition new_eventMap : L nat :=
  fun s =>
    Some (Normal (length (eventMaps s)),
          {| listenedToElements := listenedToElements s;
             eventMaps := eventMaps s ++ [[]];
             usedElements := usedElements s;
             newMap := newMap s;
             _supportsPassive := _supportsPassive s;
             targets := targets s;
             dollar := dollar s;
             nextListener := nextListener s |}).

Definition get_eventMap (ref : nat) : L (JSMap nat) :=
  fun s => match eventMaps s !! ref with
           | Some m => Some (Normal m, s)
           | None => None
           end.

(** [listener.bind(base)]. *)
Definition bind_listener : L nat :=
  fun s =>
    Some (Normal (nextListener s),
          {| listenedToElements := listenedToElements s;
             eventMaps := eventMaps s;
             usedElements := usedElements s;
             newMap := newMap s;
             _supportsPassive := _supportsPassive s;
             targets := targets s;
             dollar := dollar s;
             nextListener := S (nextListener s) |}).

Definition set_targets (t : gmap nat (list Attached)) : L unit :=
  modify (fun s =>
    {| listenedToElements := listenedToElements s;
       eventMaps := eventMaps s;
       usedElements := usedElements s;
       newMap := newMap s;
       _supportsPassive := _supportsPassive s;
       targets := t;
       dollar := dollar s;
       nextListener := nextListener s |}).

(** [target.addEventListener(event, listener, options)]; a [TypeError] when
    there is no target. *)
Definition addEventListener (target : option nat) (event : string) (listener : nat)
    (options : option Options) : L unit :=
  match target with
  | None => throw TypeError
  | Some t =>
      s ← get;
      set_targets
        (<[t := dom_add (event, listener, capture_of options)
                  (default [] (targets s !! t))]> (targets s))
  end.

(** [target.removeEventListener(event, listener)]. *)
Definition removeEventListener (target : option nat) (event : string) (listener : nat)
  : L unit :=
  match target with
  | None => throw TypeError
  | Some t =>
      s ← get;
      set_targets
        (<[t := dom_remove (event, listener, false)
                  (default [] (targets s !! t))]> (targets s))
  end.

(** [supportsPassive()]; [readsPassive] says whether the browser reads the
    [passive] option of the probe, which it registers and removes at
    once. *)
Definition supportsPassive (readsPassive : bool) : L bool :=
  s ← get;
  match _supportsPassive s with
  | Some b => mret b
  | None =>
      modify (fun s =>
        {| listenedToElements := listenedToElements s;
           eventMaps := eventMaps s;
           usedElements := usedElements s;
           newMap := newMap s;
           _supportsPassive := Some readsPassive;
           targets := targets s;
           dollar := dollar s;
           nextListener := nextListener s |});;
      mret readsPassive
  end.

(** [listenedToElements.get(base)], after the registry of [base] has been
    created when there was none. *)
Definition registry_of (base : nat) : L Registry :=
  s ← get;
  match listenedToElements s !! base with
  | Some r => mret r
  | None => set_registry base new_Registry;; mret new_Registry
  end.

Definition usedMap_of (type : ListenType) (r : Registry) : JSMap Listened :=
  match type with
  | TElement => elements r
  | TIdentifier => identifiers r
  end.

Definition with_usedMap (type : ListenType) (r : Registry) (m : JSMap Listened)
  : Registry :=
  match type with
  | TElement =>
      {| self := self r; selfUnique := selfUnique r;
         identifiers := identifiers r; elements := m |}
  | TIdentifier =>
      {| self := self r; selfUnique := selfUnique r;
         identifiers := m; elements := elements r |}
  end.

Section DoListen.
Variable readsPassive : bool.

(** One turn of the loop that takes the listeners off the element that was
    listened to before. *)
Definition drop_event (eventIDMap : nat) (listenedToElement : option nat)
    (listenedToEvent : string) : L unit :=
  m ← get_eventMap eventIDMap;
  match map_get m listenedToEvent with
  | None => mret tt
  | Some l =>
      removeEventListener listenedToElement listenedToEvent l;;
      m ← get_eventMap eventIDMap;
      set_eventMap eventIDMap (map_delete listenedToEvent m)
  end.

(** [doListen(base, type, element, id, event, listener, options)]. *)
Definition doListen (base : nat) (type : ListenType) (element : option nat)
    (id event : string) (options : option Options) : L Remover :=
  boundListener ← bind_listener;
  r ← registry_of base;
  (if map_has (usedMap_of type r) id then mret tt
   else
     ref ← new_eventMap;
     r ← registry_of base;
     set_registry base
       (with_usedMap type r
          (map_set id {| l_element := element; l_map := ref |} (usedMap_of type r))));;
  r ← registry_of base;
  match map_get (usedMap_of type r) id with
  | None => stuck
  | Some {| l_element := listenedToElement; l_map := eventIDMap |} =>
      m ← get_eventMap eventIDMap;
      (match map_get m event with
       | None => set_eventMap eventIDMap (map_set event boundListener m)
       | Some old => removeEventListener listenedToElement event old
       end);;
      (if bool_decide (listenedToElement = element) then mret tt
       else
         m ← get_eventMap eventIDMap;
         forEachM (drop_event eventIDMap listenedToElement) (obj_keys m);;
         r ← registry_of base;
         set_registry base
           (with_usedMap type r
              (map_set id {| l_element := element; l_map := eventIDMap |}
                 (usedMap_of type r))));;
      (match options with
       | Some _ => supportsPassive readsPassive
       | None => mret false
       end) ≫= (fun passive : bool =>
      (if passive then addEventListener element event boundListener options
       else addEventListener element event boundListener None);;
      mret (RemoveListened eventIDMap event boundListener listenedToElement))
  end.

(** [listen(base, id, event, listener, options)]. *)
Definition listen (base : nat) (id event : string) (options : option Options)
  : L Remover :=
  s ← get;
  doListen base TElement (dollar s base id) id event options.

(** [listenWithIdentifier(base, element, identifier, event, listener,
    options)]. *)
Definition listenWithIdentifier (base : nat) (element : option nat)
    (identifier event : string) (options : option Options) : L Remover :=
  doListen base TIdentifier element identifier event options.

(** [isNewElement(element, context)]. *)
Definition isNewElement (element : option nat) (context : Context) : L bool :=
  match element with
  | None => mret false
  | Some e =>
      s ← get;
      let used :=
        match usedElements s !! context with
        | Some _ => usedElements s
        | None => <[context := ∅]> (usedElements s)
        end in
      let currentContext := default ∅ (used !! context) in
      let has := bool_decide (e ∈ currentContext) in
      modify (fun s =>
        {| listenedToElements := listenedToElements s;
           eventMaps := eventMaps s;
           usedElements :=
             if has then used else <[context := {[e]} ∪ currentContext]> used;
           newMap := newMap s;
           _supportsPassive := _supportsPassive s;
           targets := targets s;
           dollar := dollar s;
           nextListener := nextListener s |});;
      mret (negb has)
  end.

(** [listenIfNew(base, id, event, listener, isNew, options)]; [isNew] is
    absent when what is passed is not a boolean. *)
Definition listenIfNew (base : nat) (id event : string) (isNew : option bool)
    (options : option Options) : L Remover :=
  s ← get;
  let element := dollar s base id in
  (match isNew return L bool with
     | Some b => mret b
     | None =>
         modify (fun s =>
           {| listenedToElements := listenedToElements s;
              eventMaps := eventMaps s;
              usedElements := usedElements s;
              newMap := {[base]} ∪ newMap s;
              _supportsPassive := _supportsPassive s;
              targets := targets s;
              dollar := dollar s;
              nextListener := nextListener s |});;
         isNewElement element (LinkContext base)
     end) ≫= (fun isElementNew : bool =>
  if isElementNew then listen base id event options
  else mret RemoveNothing).

(** [listenToComponentUnique(base, event, listener)]. *)
Definition listenToComponentUnique (base : nat) (event : string) : L Remover :=
  boundListener ← bind_listener;
  r ← registry_of base;
  (match map_get (selfUnique r) event with
   | None =>
       set_registry base
         {| self := self r;
            selfUnique := map_set event boundListener (selfUnique r);
            identifiers := identifiers r; elements := elements r |}
   | Some old => removeEventListener (Some base) event old
   end);;
  addEventListener (Some base) event boundListener None;;
  mret (RemoveUnique base event boundListener).

(** [listenToComponent(base, event, listener)]. *)
Definition listenToComponent (base : nat) (event : string) : L Remover :=
  boundListener ← bind_listener;
  r ← registry_of base;
  set_registry base
    {| self :=
         match map_get (self r) event with
         | None => map_set event [boundListener] (self r)
         | Some listeners => map_set event (listeners ++ [boundListener]) (self r)
         end;
       selfUnique := selfUnique r;
       identifiers := identifiers r; elements := elements r |};;
  addEventListener (Some base) event boundListener None;;
  mret (RemoveSelf base event boundListener).

End DoListen.

(** [listeners.indexOf(x)], [None] for -1. *)
Fixpoint indexOf (x : nat) (l : list nat) : option nat :=
  match l with
  | [] => None
  | y :: l' => if Nat.eqb y x then Some 0%nat
               else match indexOf x l' with
                    | Some i => Some (S i)
                    | None => None
                    end
  end.

(** [listeners.splice(listeners.indexOf(x), 1)]: a start of -1 counts from
    the end, which takes the last item off. *)
Definition splice_indexOf (x : nat) (l : list nat) : list nat :=
  match indexOf x l with
  | Some i => take i l ++ drop (S i) l
  | None => removelast l
  end.

(** A call of a function the module has returned. *)
Definition call_remover (f : Remover) : L unit :=
  match f with
  | RemoveListened eventIDMap event boundListener listenedToElement =>
      m ← get_eventMap eventIDMap;
      if bool_decide (map_get m event = Some boundListener) then
        removeEventListener listenedToElement event boundListener;;
        m ← get_eventMap eventIDMap;
        set_eventMap eventIDMap (map_delete event m)
      else mret tt
  | RemoveUnique base event boundListener =>
      s ← get;
      match listenedToElements s !! base with
      | None => stuck
      | Some r =>
          if bool_decide (map_get (selfUnique r) event = Some boundListener) then
            removeEventListener (Some base) event boundListener;;
            s ← get;
            match listenedToElements s !! base with
            | None => stuck
            | Some r =>
                set_registry base
                  {| self := self r;
                     selfUnique := map_delete event (selfUnique r);
                     identifiers := identifiers r; elements := elements r |}
            end
          else mret tt
      end
  | RemoveSelf base event boundListener =>
      s ← get;
      match listenedToElements s !! base with
      | None => stuck
      | Some r =>
          match map_get (self r) event with
          | None => mret tt
          | Some listeners =>
              (if bool_decide (is_Some (indexOf boundListener listeners))
               then removeEventListener (Some base) event boundListener
               else mret tt);;
              s ← get;
              match listenedToElements s !! base with
              | None => stuck
              | Some r =>
                  set_registry base
                    {| self := map_set event (splice_indexOf boundListener listeners)
                                 (self r);
                       selfUnique := selfUnique r;
                       identifiers := identifiers r; elements := elements r |}
              end
          end
      end
  | RemoveNothing => mret tt
  end.

(** The two loops of [removeListeners(element, map)], for a map whose values
    are lists of listeners. *)
Definition removeListeners_entries (element : option nat)
    (entries : list (string * list nat)) : L unit :=
  forEachM (fun entry =>
              forEachM (removeEventListener element (fst entry)) (snd entry))
    entries.

(** [removeListeners(element, map)] for the [Map] of an id, which it clears
    in the end. *)
Definition removeListeners_of (listened : Listened) : L unit :=
  m ← get_eventMap (l_map listened);
  removeListeners_entries (l_element listened)
    (map (fun entry => (fst entry, [snd entry])) m);;
  set_eventMap (l_map listened) [].

(** [removeAllElementListeners(base)]. *)
Definition removeAllElementListeners (base : nat) : L unit :=
  s ← get;
  match listenedToElements s !! base with
  | None => mret tt
  | Some r =>
      forEachM removeListeners_of (map snd (elements r));;
      r ← registry_of base;
      set_registry base
        {| self := self r; selfUnique := selfUnique r;
           identifiers := identifiers r; elements := [] |};;
      forEachM removeListeners_of (map snd (identifiers r));;
      r ← registry_of base;
      set_registry base
        {| self := self r; selfUnique := selfUnique r;
           identifiers := []; elements := elements r |};;
      removeListeners_entries (Some base) (self r);;
      r ← registry_of base;
      set_registry base
        {| self := []; selfUnique := selfUnique r;
           identifiers := identifiers r; elements := elements r |};;
      removeListeners_entries (Some base)
        (map (fun entry => (fst entry, [snd entry])) (selfUnique r));;
      r ← registry_of base;
      set_registry base
        {| self := self r; selfUnique := [];
           identifiers := identifiers r; elements := elements r |}
  end.

(** The event listener list of a target. *)
Definition attached (s : State) (target : nat) : list Attached :=
  default [] (targets s !! target).

(** The capture flag [doListen] registers a listener with: the one of the
    options when the browser supports passive listeners, none otherwise. *)
Definition capture_used (readsPassive : bool) (s : State) (options : option Options)
  : bool :=
  match options with
  | Some _ => default readsPassive (_supportsPassive s) && capture_of options
  | None => false
  end.

(** No callback of the list is a function that is still to be bound. *)
Definition bound_before (next : nat) (l : list Attached) : Prop :=
  Forall (fun a => (snd (fst a) < next)%nat) l.

(** [n] calls of [doListen] with the same arguments, one after the other. *)
Fixpoint doListen_times (readsPassive : bool) (n : nat) (base : nat)
    (type : ListenType) (element : option nat) (id event : string)
    (options : option Options) : L unit :=
  match n with
  | O => mret tt
  | S n =>
      doListen readsPassive base type element id event options;;
      doListen_times readsPassive n base type element id event options
  end.

(** [n] calls of [listenIfNew] with the same arguments and no [isNew], as
    by a component that calls it whenever it is rendered. *)
Fixpoint listenIfNew_times (readsPassive : bool) (n : nat) (base : nat)
    (id event : string) (options : option Options) : L unit :=
  match n with
  | O => mret tt
  | S n =>
      listenIfNew readsPassive base id event None options;;
      listenIfNew_times readsPassive n base id event options
  end.

(** [n] calls of [listenToComponentUnique] with the same arguments. *)
Fixpoint listenToComponentUnique_times (n : nat) (base : nat) (event : string)
  : L unit :=
  match n with
  | O => mret tt
  | S n =>
      listenToComponentUnique base event;;
      listenToComponentUnique_times n base event
  end.

(** The listeners [n] calls bind, the first of them being [first]. *)
Definition bound_from (event : string) (first n : nat) : list Attached :=
  map (fun i => (event, (first + i)%nat, false)) (seq 0 n).

(** The registry of [base], the new one when it has none yet. *)
Definition registry_or_new (s : State) (base : nat) : Registry :=
  default new_Registry (listenedToElements s !! base).

(** The elements [isNewElement] has seen in a context. *)
Definition seen (s : State) (context : Context) : gset nat :=
  default ∅ (usedElements s !! context).

(** The listeners the registry of [base] records for [event] on the
    component itself. *)
Definition recorded_self (s : State) (base : nat) (event : string) : list nat :=
  default [] (map_get (self (registry_or_new s base)) event).

(** The [Map] of an id records the listener of the entry [a], which was
    registered without the capture flag. *)
Definition recorded_in (m : JSMap nat) (a : Attached) : Prop :=
  exists event listener,
    In (event, listener) m /\ same_listener (event, listener, false) a = true.

(** The id has a record without an element, and the [Map] of the record is
    not empty. *)
Definition poisoned (s : State) (base : nat) (type : ListenType) (id : string) : Prop :=
  exists r ref m,
    listenedToElements s !! base = Some r
    /\ map_get (usedMap_of type r) id = Some {| l_element := None; l_map := ref |}
    /\ eventMaps s !! ref = Some m
    /\ m <> [].

(** A list of events with their listeners holds the listener of the entry
    [a], registered without the capture flag. *)
Definition listed_in (entries : list (string * list nat)) (a : Attached) : Prop :=
  exists event listeners listener,
    In (event, listeners) entries
    /\ In listener listeners
    /\ same_listener (event, listener, false) a = true.

(** The records of the ids of a registry. *)
Definition records_of (r : Registry) : list Listened :=
  map snd (elements r) ++ map snd (identifiers r).

(** The registry of [base] has a record of the listener of the entry [a] of
    the target [t]: under an id whose element is [t], or, for the component
    itself, among its own listeners. *)
Definition recorded_on (s : State) (r : Registry) (base t : nat) (a : Attached) : Prop :=
  (exists rec m,
     In rec (records_of r)
     /\ l_element rec = Some t
     /\ eventMaps s !! l_map rec = Some m
     /\ recorded_in m a)
  \/ (t = base /\ (listed_in (self r) a \/ recorded_in (selfUnique r) a)).

(** Every id of the registry has an element and a [Map] of its own. *)
Definition registry_wf (s : State) (r : Registry) : Prop :=
  Forall (fun rec => is_Some (l_element rec) /\ is_Some (eventMaps s !! l_map rec))
    (records_of r)
  /\ NoDup (map l_map (records_of r)).

End Listeners.

(** * Properties *)

(** ** The memoizer *)

Section MemoizerFacts.
Context {Props Theme Env Err : Type}.
Implicit Types (self : TemplateFn Props Theme Env Err).
Implicit Types (component : Component Props Theme).
Implicit Types (w : World Props Theme Env).
Implicit Types (m : gmap nat (gmap nat (gmap nat (option TemplateRenderResult)))).

(** [templaterMap] after the two steps that create missing inner maps. *)
Definition with_inner_maps m (templater cid : nat)
  : gmap nat (gmap nat (gmap nat (option TemplateRenderResult))) :=
  let tm1 := match m !! templater with Some _ => m | None => <[templater := ∅]> m end in
  let cm : gmap nat (gmap nat (option TemplateRenderResult)) := default ∅ (tm1 !! templater) in
  let ctm1 := match cm !! cid with Some _ => cm | None => <[cid := ∅]> cm end in
  <[templater := ctm1]> tm1.

Lemma cache_entry_with_inner_maps m templater cid t c k :
  cache_entry (with_inner_maps m templater cid) t c k = cache_entry m t c k.
Proof.
  unfold with_inner_maps, cache_entry.
  destruct (decide (templater = t)) as [->|Hne].
  - rewrite lookup_insert_eq.
    destruct (m !! t) as [cm|] eqn:Hm; simpl.
    + rewrite Hm; simpl.
      destruct (cm !! cid) as [tm|] eqn:Hc; [reflexivity|].
      destruct (decide (cid = c)) as [->|Hc'].
      * rewrite lookup_insert_eq, Hc, lookup_empty. reflexivity.
      * rewrite lookup_insert_ne by done. reflexivity.
    + rewrite lookup_insert_eq; simpl. rewrite lookup_empty.
      destruct (decide (cid = c)) as [->|Hc'].
      * rewrite lookup_insert_eq, lookup_empty. reflexivity.
      * rewrite lookup_insert_ne by done. rewrite lookup_empty. reflexivity.
  - rewrite lookup_insert_ne by done.
    destruct (m !! templater); [reflexivity|].
    rewrite lookup_insert_ne by done. reflexivity.
Qed.

(** The inner map of the component, as the function reads it. *)
Definition inner_templateMap m (templater cid : nat)
  : gmap nat (option TemplateRenderResult) :=
  let tm1 := match m !! templater with Some _ => m | None => <[templater := ∅]> m end in
  let cm : gmap nat (gmap nat (option TemplateRenderResult)) := default ∅ (tm1 !! templater) in
  let ctm1 := match cm !! cid with Some _ => cm | None => <[cid := ∅]> cm end in
  default ∅ (ctm1 !! cid).

Definition inner_componentMap m (templater cid : nat)
  : gmap nat (gmap nat (option TemplateRenderResult)) :=
  let tm1 := match m !! templater with Some _ => m | None => <[templater := ∅]> m end in
  let cm : gmap nat (gmap nat (option TemplateRenderResult)) := default ∅ (tm1 !! templater) in
  match cm !! cid with Some _ => cm | None => <[cid := ∅]> cm end.

Lemma inner_templateMap_lookup m templater cid k :
  inner_templateMap m templater cid !! k = cache_entry m templater cid k.
Proof.
  unfold inner_templateMap, cache_entry.
  destruct (m !! templater) as [cm|] eqn:Hm; simpl.
  - rewrite Hm; simpl.
    destruct (cm !! cid) as [tm|] eqn:Hc; simpl.
    + rewrite Hc. reflexivity.
    + rewrite lookup_insert_eq. simpl. apply lookup_empty.
  - rewrite lookup_insert_eq; simpl. rewrite lookup_empty.
    rewrite lookup_insert_eq. simpl. apply lookup_empty.
Qed.

Lemma with_inner_maps_id m templater cid cm tm :
  m !! templater = Some cm -> cm !! cid = Some tm ->
  with_inner_maps m templater cid = m.
Proof.
  intros Hm Hc. unfold with_inner_maps. rewrite Hm. simpl. rewrite Hm. simpl.
  rewrite Hc. by apply insert_id.
Qed.

(** The entry written by [templateMap.set(this, rendered)], and the
    entries it leaves alone. *)
Lemma cache_entry_store m templater cid k r t c k' :
  cache_entry
    (<[templater := <[cid := <[k := r]> (inner_templateMap m templater cid)]>
                      (inner_componentMap m templater cid)]>
       (with_inner_maps m templater cid)) t c k'
  = if decide (t = templater /\ c = cid /\ k' = k) then Some r
    else cache_entry m t c k'.
Proof.
  case_decide as Hd.
  - destruct Hd as (-> & -> & ->). unfold cache_entry.
    rewrite !lookup_insert_eq. reflexivity.
  - rewrite <- (cache_entry_with_inner_maps m templater cid t c k').
    unfold cache_entry at 1 2.
    destruct (decide (t = templater)) as [->|Ht].
    + rewrite lookup_insert_eq.
      assert (Hw : with_inner_maps m templater cid !! templater
                   = Some (inner_componentMap m templater cid)).
      { unfold with_inner_maps, inner_componentMap. by rewrite lookup_insert_eq. }
      rewrite Hw.
      destruct (decide (c = cid)) as [->|Hc].
      * rewrite lookup_insert_eq.
        assert (Hk : k' <> k) by (intros ->; apply Hd; done).
        rewrite lookup_insert_ne by done.
        pose proof (inner_templateMap_lookup m templater cid k') as Hl.
        rewrite Hl.
        pose proof (cache_entry_with_inner_maps m templater cid templater cid k') as He.
        unfold cache_entry at 1 in He. rewrite Hw in He.
        destruct (inner_componentMap m templater cid !! cid); by rewrite He.
      * rewrite lookup_insert_ne by done. reflexivity.
    + rewrite lookup_insert_ne by done. reflexivity.
Qed.

(** [_renderWithTemplater] in terms of the entry of the triple. *)
Lemma render_unfold self changeType component templater w :
  let key := effective_templater component templater in
  let m := templaterMap w in
  let tm2 := with_inner_maps m key (c_id component) in
  let ctm1 := inner_componentMap m key (c_id component) in
  let templateMap := inner_templateMap m key (c_id component) in
  let entry := cache_entry m key (c_id component) (t_id self) in
  let w1 := {| templaterMap := tm2; userEnv := userEnv w; invocations := invocations w |} in
  _renderWithTemplater self changeType component templater w =
  if truthy_num (js_band (changeOn self) CHANGE_TYPE.NEVER) then
    if truthy_cached entry then
      (Normal {| changed := false; rendered := default None entry |}, w1)
    else
      match _template self with
      | None =>
          (Normal {| changed := true; rendered := None |},
           {| templaterMap :=
                <[key := <[c_id component := <[t_id self := None]> templateMap]> ctm1]> tm2;
              userEnv := userEnv w;
              invocations := invocations w |})
      | Some f =>
          call_and_store self f changeType component key tm2 ctm1 templateMap w
      end
  else if truthy_num (js_band (changeOn self) changeType)
          || negb (bool_decide (is_Some entry)) then
    match _template self with
    | None => (Throw TypeError, w1)
    | Some f =>
        call_and_store self f changeType component key tm2 ctm1 templateMap w
    end
  else
    (Normal {| changed := false; rendered := default None entry |}, w1).
Proof.
  intros key m tm2 ctm1 templateMap entry w1.
  unfold _renderWithTemplater.
  fold key. fold m.
  pose proof (inner_templateMap_lookup m key (c_id component) (t_id self)) as Hl.
  fold templateMap in Hl. fold entry in Hl.
  unfold templateMap, inner_templateMap in Hl.
  rewrite Hl.
  reflexivity.
Qed.

Lemma classic_reuse (P : Prop) (b : bool) : (P <-> b = false) -> P \/ ~ P.
Proof. intros H. destruct b; [right|left]; rewrite H; done. Qed.

Lemma call_and_store_invocations self f changeType component key tm2 ctm1 tm w :
  invocations (snd (call_and_store self f changeType component key tm2 ctm1 tm w))
  = invocations w ++ [(t_id self, template_args component key changeType)].
Proof.
  unfold call_and_store.
  destruct (f _ _) as [[r|e] env']; reflexivity.
Qed.


(** C6. If the render function is invoked and throws, the exception comes
    out of the render call, and every entry of [templaterMap], the one of
    the (templater, component, template) triple included, is what it was
    before the call: an existing result stays, no entry is created. *)
Theorem throwing_render_leaves_cache
    self changeType component templater w f e :
  let key := effective_templater component templater in
  let args := template_args component key changeType in
  let out := _renderWithTemplater self changeType component templater w in
  _template self = Some f ->
  invocations (snd out) <> invocations w ->
  fst (f args (userEnv w)) = Throw e ->
  fst out = Throw e
  /\ forall t c k,
      cache_entry (templaterMap (snd out)) t c k = cache_entry (templaterMap w) t c k.
Proof.
  intros key args out Hf Hinv Hthrow.
  unfold out in *. rewrite render_unfold in *. rewrite Hf in *.
  fold key in Hinv |- *.
  assert (Hcall :
    let o := call_and_store self f changeType component key
               (with_inner_maps (templaterMap w) key (c_id component))
               (inner_componentMap (templaterMap w) key (c_id component))
               (inner_templateMap (templaterMap w) key (c_id component)) w in
    fst o = Throw e
    /\ forall t c k,
        cache_entry (templaterMap (snd o)) t c k = cache_entry (templaterMap w) t c k).
  { unfold call_and_store. fold args.
    destruct (f args (userEnv w)) as [[r|e'] env']; simpl in *; [discriminate|].
    split; [congruence|]. intros. apply cache_entry_with_inner_maps. }
  destruct (truthy_num (js_band (changeOn self) CHANGE_TYPE.NEVER)).
  - destruct (truthy_cached _); [exfalso; apply Hinv; reflexivity|exact Hcall].
  - destruct (truthy_num _ || _); [exact Hcall|exfalso; apply Hinv; reflexivity].
Qed.

(** A render call that throws, for whatever reason, changes no entry. *)
Lemma throw_leaves_cache self changeType component templater w e :
  let out := _renderWithTemplater self changeType component templater w in
  fst out = Throw e ->
  forall t c k,
    cache_entry (templaterMap (snd out)) t c k = cache_entry (templaterMap w) t c k.
Proof.
  intros out Hout t c k. unfold out in *. rewrite render_unfold in *.
  assert (Hcall : forall f,
    let o := call_and_store self f changeType component
               (effective_templater component templater)
               (with_inner_maps (templaterMap w) (effective_templater component templater)
                  (c_id component))
               (inner_componentMap (templaterMap w)
                  (effective_templater component templater) (c_id component))
               (inner_templateMap (templaterMap w)
                  (effective_templater component templater) (c_id component)) w in
    fst o = Throw e ->
    cache_entry (templaterMap (snd o)) t c k = cache_entry (templaterMap w) t c k).
  { intros f. unfold call_and_store.
    destruct (f _ _) as [[r|e'] env']; simpl; [discriminate|].
    intros _. apply cache_entry_with_inner_maps. }
  destruct (truthy_num (js_band (changeOn self) CHANGE_TYPE.NEVER)).
  - destruct (truthy_cached _); [discriminate|].
    destruct (_template self) as [f|]; [by apply Hcall|discriminate].
  - destruct (truthy_num _ || _); [|discriminate].
    destruct (_template self) as [f|]; [by apply Hcall|].
    simpl. apply cache_entry_with_inner_maps.
Qed.

(** A NEVER-masked template whose cached result is truthy is not rendered
    again: the cached result comes back and the world is as it was. *)
Lemma never_truthy_reused self changeType component templater w v :
  truthy_num (js_band (changeOn self) CHANGE_TYPE.NEVER) = true ->
  cache_entry (templaterMap w) (effective_templater component templater)
    (c_id component) (t_id self) = Some v ->
  truthy_result v = true ->
  _renderWithTemplater self changeType component templater w
  = (Normal {| changed := false; rendered := v |}, w).
Proof.
  intros Hnever Hentry Htruthy. rewrite render_unfold. rewrite Hnever, Hentry. simpl.
  rewrite Htruthy. f_equal.
  unfold cache_entry in Hentry.
  destruct (templaterMap w !! _) as [cm|] eqn:Hm; [|discriminate].
  destruct (cm !! c_id component) as [tm|] eqn:Hc; [|discriminate].
  rewrite (with_inner_maps_id _ _ _ _ _ Hm Hc).
  destruct w; reflexivity.
Qed.

(** A NEVER-masked template whose entry is missing or falsy is rendered:
    its render function is invoked whatever the change reason. *)
Lemma never_falsy_rendered self changeType component templater w f :
  truthy_num (js_band (changeOn self) CHANGE_TYPE.NEVER) = true ->
  truthy_cached (cache_entry (templaterMap w) (effective_templater component templater)
                   (c_id component) (t_id self)) = false ->
  _template self = Some f ->
  invocations (snd (_renderWithTemplater self changeType component templater w))
  = invocations w
    ++ [(t_id self,
         template_args component (effective_templater component templater) changeType)].
Proof.
  intros Hnever Hentry Hf. rewrite render_unfold. rewrite Hnever, Hentry, Hf.
  apply call_and_store_invocations.
Qed.

End MemoizerFacts.

(** ** NEVER-masked templates over a sequence of calls *)

Section NeverFacts.
Context {Props Theme Env Err : Type}.
Implicit Types (self : TemplateFn Props Theme Env Err).
Implicit Types (component : Component Props Theme).
Implicit Types (w : World Props Theme Env).

Lemma render_all_cached self component templater v : forall changeTypes w,
  truthy_num (js_band (changeOn self) CHANGE_TYPE.NEVER) = true ->
  cache_entry (templaterMap w) (effective_templater component templater)
    (c_id component) (t_id self) = Some v ->
  truthy_result v = true ->
  render_all self component templater changeTypes w
  = (map (fun _ => Normal {| changed := false; rendered := v |}) changeTypes, w).
Proof.
  induction changeTypes as [|ct cts IH]; intros w Hnever Hentry Htruthy; [reflexivity|].
  simpl. rewrite (never_truthy_reused self ct component templater w v) by assumption.
  simpl. rewrite IH by assumption. reflexivity.
Qed.

(** What holds of the claim C3 on the code: when the first render of a
    NEVER-masked template returns a truthy result (an object, a non-empty
    string), the render function is invoked once in any sequence of calls,
    the first call returns [changed = true], and every later call returns
    [changed = false] with that result. *)
Lemma never_truthy_rendered_once self component templater f changeType changeTypes w v env' :
  truthy_num (js_band (changeOn self) CHANGE_TYPE.NEVER) = true ->
  _template self = Some f ->
  cache_entry (templaterMap w) (effective_templater component templater)
    (c_id component) (t_id self) = None ->
  f (template_args component (effective_templater component templater) changeType)
    (userEnv w) = (Normal v, env') ->
  truthy_result v = true ->
  let outs := render_all self component templater (changeType :: changeTypes) w in
  fst outs
  = Normal {| changed := true; rendered := v |}
    :: map (fun _ => Normal {| changed := false; rendered := v |}) changeTypes
  /\ invocations (snd outs)
     = invocations w
       ++ [(t_id self,
            template_args component (effective_templater component templater) changeType)].
Proof.
  intros Hnever Hf Hentry Hcall Htruthy. simpl.
  set (key := effective_templater component templater) in *.
  assert (Hfirst :
    _renderWithTemplater self changeType component templater w
    = (Normal {| changed := true; rendered := v |},
       {| templaterMap :=
            <[key := <[c_id component := <[t_id self := v]>
                         (inner_templateMap (templaterMap w) key (c_id component))]>
                       (inner_componentMap (templaterMap w) key (c_id component))]>
              (with_inner_maps (templaterMap w) key (c_id component));
          userEnv := env';
          invocations := invocations w
                         ++ [(t_id self, template_args component key changeType)] |})).
  { rewrite render_unfold. fold key. rewrite Hnever, Hentry, Hf. simpl.
    unfold call_and_store. rewrite Hcall. reflexivity. }
  rewrite Hfirst. simpl.
  rewrite (render_all_cached self component templater v); try assumption.
  - split; reflexivity.
  - simpl. fold key. rewrite cache_entry_store. rewrite decide_True; done.
Qed.

End NeverFacts.

(** *** The memoizer on concrete templates *)

Definition ex_component : Component unit unit :=
  {| c_id := 1; c_props := tt; c_getTheme := None |}.

Definition ex_world : World unit unit unit :=
  {| templaterMap := ∅; userEnv := tt; invocations := [] |}.

(** [new TemplateFn(() => 'a', CHANGE_TYPE.PROP, null)]. *)
Definition ex_prop_template : TemplateFn unit unit unit unit :=
  {| t_id := 7;
     _template := Some (fun _ env => (Normal (Some (RText "a")), env));
     changeOn := CHANGE_TYPE.PROP |}.

(** [new TemplateFn(() => '', CHANGE_TYPE.NEVER, null)]. *)
Definition ex_never_empty : TemplateFn unit unit unit unit :=
  {| t_id := 8;
     _template := Some (fun _ env => (Normal (Some (RText "")), env));
     changeOn := CHANGE_TYPE.NEVER |}.

(** [new TemplateFn(() => { throw ... }, CHANGE_TYPE.PROP, null)]. *)
Definition ex_throwing : TemplateFn unit unit unit unit :=
  {| t_id := 9;
     _template := Some (fun _ env => (Throw (UserError tt), env));
     changeOn := CHANGE_TYPE.PROP |}.

(** The world after [ex_prop_template] has been rendered once. *)
Definition ex_world_rendered : World unit unit unit :=
  snd (_renderWithTemplater ex_prop_template CHANGE_TYPE.PROP ex_component None ex_world).


(** Mask PROP, change reason PROP: rendered again, [changed = true]. *)
Example render_again_on_masked_change :
  fst (_renderWithTemplater ex_prop_template CHANGE_TYPE.PROP ex_component None
         ex_world_rendered)
  = Normal {| changed := true; rendered := Some (RText "a") |}
  /\ length (invocations
               (snd (_renderWithTemplater ex_prop_template CHANGE_TYPE.PROP ex_component
                       None ex_world_rendered))) = 2%nat.
Proof. split; reflexivity. Qed.

Lemma throwing_render_witness :
  _template ex_throwing = Some (fun _ env => (Throw (UserError tt), env))
  /\ fst (_renderWithTemplater ex_throwing CHANGE_TYPE.PROP ex_component None
            ex_world_rendered) = Throw (UserError tt)
  /\ cache_entry
       (templaterMap (snd (_renderWithTemplater ex_throwing CHANGE_TYPE.PROP ex_component
                             None ex_world_rendered))) 1 1 7
     = Some (Some (RText "a")).
Proof.
  split; [reflexivity|].
  destruct (throwing_render_leaves_cache ex_throwing CHANGE_TYPE.PROP ex_component None
              ex_world_rendered _ (UserError tt) eq_refl) as [Hthrow Hsame].
  - discriminate.
  - reflexivity.
  - split; [exact Hthrow|]. rewrite Hsame. reflexivity.
Defined.

(** C3, on the code: a NEVER-masked template whose render function returns
    the empty string is rendered again by the second call; both calls invoke
    the function and both return [changed = true]. *)
Example never_template_with_empty_result_rendered_twice :
  let first :=
    _renderWithTemplater ex_never_empty CHANGE_TYPE.PROP ex_component None ex_world in
  let second :=
    _renderWithTemplater ex_never_empty CHANGE_TYPE.PROP ex_component None (snd first) in
  fst first = Normal {| changed := true; rendered := Some (RText "") |}
  /\ fst second = Normal {| changed := true; rendered := Some (RText "") |}
  /\ length (invocations (snd first)) = 1%nat
  /\ length (invocations (snd second)) = 2%nat.
Proof. repeat split; reflexivity. Qed.

(** ** The dependency resolver *)

Section DependencyFacts.
Context {U Err : Type}.
Variable classes : nat -> BaseClass U Err.

Definition visit_step (fuel : nat) (acc : option (list nat)) (dependency : nat)
  : option (list nat) :=
  match acc, visit_order fuel classes dependency with
  | Some l, Some l' => Some (l ++ l')
  | _, _ => None
  end.

Definition build_step (fuel : nat) (acc : option (gmap string nat)) (dependency : nat)
  : option (gmap string nat) :=
  match acc with
  | Some m => Dependencies.buildMap fuel classes dependency m
  | None => None
  end.

Lemma visit_order_S fuel element :
  visit_order (S fuel) classes element
  = fold_left (visit_step fuel) (default [] (dependencies (classes element)))
      (Some [element]).
Proof. reflexivity. Qed.

Lemma buildMap_S fuel element map :
  Dependencies.buildMap (S fuel) classes element map
  = fold_left (build_step fuel) (default [] (dependencies (classes element)))
      (Some (register classes map element)).
Proof. reflexivity. Qed.

Lemma fold_visit_None fuel deps : fold_left (visit_step fuel) deps None = None.
Proof. induction deps as [|d deps IH]; [reflexivity|exact IH]. Qed.

Lemma fold_build_None fuel deps : fold_left (build_step fuel) deps None = None.
Proof. induction deps as [|d deps IH]; [reflexivity|exact IH]. Qed.

Lemma register_all_app l l' map :
  register_all classes (l ++ l') map = register_all classes l' (register_all classes l map).
Proof. unfold register_all. apply fold_left_app. Qed.

(** [buildMap] registers the definitions of the visit order, in that
    order. *)
Lemma buildMap_visit_order fuel : forall element map,
  Dependencies.buildMap fuel classes element map
  = match visit_order fuel classes element with
    | Some visited => Some (register_all classes visited map)
    | None => None
    end.
Proof.
  induction fuel as [|fuel IH]; intros element map; [reflexivity|].
  rewrite buildMap_S, visit_order_S.
  change (Some (register classes map element))
    with (Some (register_all classes [element] map)).
  generalize [element] as visited.
  induction (default [] (dependencies (classes element))) as [|d deps IHd];
    intros visited; [reflexivity|].
  simpl. rewrite IH.
  destruct (visit_order fuel classes d) as [l'|].
  - rewrite <- register_all_app. apply IHd.
  - rewrite fold_build_None, fold_visit_None. reflexivity.
Qed.

(** What a fold of visits returns, when it returns. *)
Lemma fold_visit_Some fuel deps : forall acc visited,
  fold_left (visit_step fuel) deps (Some acc) = Some visited ->
  exists ls,
    Forall2 (fun d l => visit_order fuel classes d = Some l) deps ls
    /\ visited = acc ++ concat ls.
Proof.
  induction deps as [|d deps IH]; intros acc visited H; simpl in H.
  - inversion H; subst. exists []. split; [constructor|]. simpl. by rewrite app_nil_r.
  - destruct (visit_order fuel classes d) as [l|] eqn:Hd.
    + destruct (IH _ _ H) as (ls & Hls & ->).
      exists (l :: ls). split; [by constructor|]. simpl. by rewrite app_assoc.
    + rewrite fold_visit_None in H. discriminate.
Qed.

Lemma fold_visit_build fuel deps : forall acc ls,
  Forall2 (fun d l => visit_order fuel classes d = Some l) deps ls ->
  fold_left (visit_step fuel) deps (Some acc) = Some (acc ++ concat ls).
Proof.
  induction deps as [|d deps IH]; intros acc ls H; inversion H; subst; simpl.
  - by rewrite app_nil_r.
  - rewrite H2. rewrite (IH _ _ H4). by rewrite app_assoc.
Qed.

(** More fuel does not change a visit that has returned. *)
Lemma visit_order_mono fuel : forall element visited fuel',
  visit_order fuel classes element = Some visited ->
  (fuel <= fuel')%nat ->
  visit_order fuel' classes element = Some visited.
Proof.
  induction fuel as [|fuel IH]; intros element visited fuel' H Hle; [discriminate|].
  destruct fuel' as [|fuel']; [lia|].
  rewrite visit_order_S in *.
  destruct (fold_visit_Some _ _ _ _ H) as (ls & Hls & ->).
  apply fold_visit_build.
  eapply Forall2_impl; [exact Hls|].
  intros d l Hd. simpl in Hd. apply IH; [exact Hd|lia].
Qed.

(** Everything visited is reachable. *)
Lemma visit_order_reachable fuel : forall element visited,
  visit_order fuel classes element = Some visited ->
  forall d, In d visited -> reachable classes element d.
Proof.
  induction fuel as [|fuel IH]; intros element visited H d Hin; [discriminate|].
  rewrite visit_order_S in H.
  destruct (fold_visit_Some _ _ _ _ H) as (ls & Hls & ->).
  simpl in Hin. destruct Hin as [<-|Hin]; [constructor|].
  apply in_concat in Hin. destruct Hin as (l & Hl & Hd).
  assert (Hex : exists dep, In dep (default [] (dependencies (classes element)))
                            /\ visit_order fuel classes dep = Some l).
  { clear -Hls Hl. induction Hls as [|dep l0 deps ls Hv _ IHl]; [destruct Hl|].
    destruct Hl as [->|Hl].
    - exists dep. split; [by left|done].
    - destruct (IHl Hl) as (dep' & Hin' & Hv'). exists dep'. split; [by right|done]. }
  destruct Hex as (dep & Hdep & Hv).
  assert (Hr : reachable classes dep d) by (eapply IH; eauto).
  clear -Hr Hdep.
  induction Hr as [|d0 dep' Hr IHr Hdd].
  - eapply reach_dep; [apply reach_root|exact Hdep].
  - eapply reach_dep; [exact IHr|exact Hdd].
Qed.

(** The visit starts at the element and is closed under dependencies. *)
Lemma visit_order_closed fuel : forall element visited,
  visit_order fuel classes element = Some visited ->
  In element visited
  /\ forall d dep, In d visited -> depends classes dep d -> In dep visited.
Proof.
  induction fuel as [|fuel IH]; intros element visited H; [discriminate|].
  rewrite visit_order_S in H.
  destruct (fold_visit_Some _ _ _ _ H) as (ls & Hls & ->).
  split; [by left|].
  assert (Hdeps : forall dep, In dep (default [] (dependencies (classes element))) ->
                    exists l, In l ls /\ visit_order fuel classes dep = Some l).
  { clear -Hls. induction Hls as [|dep0 l0 deps ls Hv _ IHl]; intros dep Hin; [destruct Hin|].
    destruct Hin as [->|Hin].
    - exists l0. split; [by left|done].
    - destruct (IHl _ Hin) as (l & Hl & Hv'). exists l. split; [by right|done]. }
  assert (Hls' : forall l, In l ls ->
                   exists dep, visit_order fuel classes dep = Some l).
  { clear -Hls. induction Hls as [|dep0 l0 deps ls Hv _ IHl]; intros l Hin; [destruct Hin|].
    destruct Hin as [->|Hin]; [by exists dep0|by apply IHl]. }
  intros d dep Hd Hdep. right. apply in_concat.
  destruct Hd as [<-|Hd].
  - destruct (Hdeps _ Hdep) as (l & Hl & Hv).
    exists l. split; [exact Hl|]. by apply (IH _ _ Hv).
  - apply in_concat in Hd. destruct Hd as (l & Hl & Hd).
    destruct (Hls' _ Hl) as (dep0 & Hv).
    exists l. split; [exact Hl|]. eapply (IH _ _ Hv); eauto.
Qed.

Lemma visit_order_complete fuel element visited :
  visit_order fuel classes element = Some visited ->
  forall d, reachable classes element d -> In d visited.
Proof.
  intros H d Hr. destruct (visit_order_closed _ _ _ H) as [Hroot Hclosed].
  induction Hr as [|d0 dep Hr IHr Hdep]; [exact Hroot|].
  eapply Hclosed; eauto.
Qed.

(** A visit from a definition with no infinite dependency path below it
    returns. *)
Lemma visit_order_terminates element :
  Acc (depends classes) element ->
  exists fuel visited, visit_order fuel classes element = Some visited.
Proof.
  induction 1 as [element _ IH].
  assert (Hdeps : forall deps, (forall dep, In dep deps -> depends classes dep element) ->
            exists fuel ls,
              Forall2 (fun d l => visit_order fuel classes d = Some l) deps ls).
  { induction deps as [|d deps IHd]; intros Hin.
    - exists 0%nat, []. constructor.
    - destruct (IH d (Hin d (or_introl eq_refl))) as (f1 & l & Hl).
      destruct (IHd (fun dep H => Hin dep (or_intror H))) as (f2 & ls & Hls).
      exists (Nat.max f1 f2), (l :: ls). constructor.
      + eapply visit_order_mono; [exact Hl|lia].
      + eapply Forall2_impl; [exact Hls|].
        intros d' l' Hd'. simpl in Hd'. eapply visit_order_mono; [exact Hd'|lia]. }
  destruct (Hdeps (default [] (dependencies (classes element))) (fun dep H => H))
    as (fuel & ls & Hls).
  exists (S fuel), ([element] ++ concat ls).
  rewrite visit_order_S. by apply fold_visit_build.
Qed.

(** The keys and values of a map after registrations. *)
Lemma register_all_lookup visited : forall map s d,
  register_all classes visited map !! s = Some d ->
  map !! s = Some d
  \/ (In d visited /\ is_ (classes d) = Some s /\ s <> "").
Proof.
  induction visited as [|e visited IH]; intros map s d H; [by left|].
  simpl in H. apply IH in H. destruct H as [H|(Hin & Hs)].
  - unfold register in H.
    destruct (truthy_str (is_ (classes e))) eqn:Ht; [|by left].
    destruct (is_ (classes e)) as [tag|] eqn:Hi; [|discriminate]. simpl in *.
    destruct (decide (tag = s)) as [->|Hne].
    + rewrite lookup_insert_eq in H. inversion H; subst. right.
      split; [by left|]. split; [exact Hi|].
      intros ->. discriminate.
    + rewrite lookup_insert_ne in H by done. by left.
  - right. split; [by right|exact Hs].
Qed.

Lemma register_all_keeps visited : forall map s,
  is_Some (map !! s) -> is_Some (register_all classes visited map !! s).
Proof.
  induction visited as [|e visited IH]; intros map s H; [exact H|].
  simpl. apply IH. unfold register.
  destruct (truthy_str _); [|exact H].
  destruct (decide (default "" (is_ (classes e)) = s)) as [->|Hne].
  - rewrite lookup_insert_eq. eauto.
  - by rewrite lookup_insert_ne.
Qed.

Lemma register_all_registered visited : forall map d s,
  In d visited -> is_ (classes d) = Some s -> s <> "" ->
  is_Some (register_all classes visited map !! s).
Proof.
  induction visited as [|e visited IH]; intros map d s Hin Hs Hne; [destruct Hin|].
  simpl. destruct Hin as [->|Hin]; [|eapply IH; eauto].
  apply register_all_keeps. unfold register. rewrite Hs. simpl.
  destruct (String.eqb s "") eqn:He; [apply String.eqb_eq in He; done|].
  simpl. rewrite lookup_insert_eq. eauto.
Qed.

(** The last registration of a tag name is the one the map keeps. *)
Lemma register_all_last before d after map :
  truthy_str (is_ (classes d)) = true ->
  (forall d', In d' after -> is_ (classes d') <> is_ (classes d)) ->
  register_all classes (before ++ d :: after) map !! default "" (is_ (classes d)) = Some d.
Proof.
  intros Ht Hafter. rewrite register_all_app. simpl.
  set (m := register classes (register_all classes before map) d).
  assert (Hm : m !! default "" (is_ (classes d)) = Some d).
  { unfold m, register. rewrite Ht. apply lookup_insert_eq. }
  clearbody m. revert m Hm.
  induction after as [|e after IH]; intros m Hm; [exact Hm|].
  simpl. apply IH.
  - intros d' Hd'. apply Hafter. by right.
  - unfold register. destruct (truthy_str (is_ (classes e))) eqn:Hte; [|exact Hm].
    rewrite lookup_insert_ne; [exact Hm|].
    intros Heq. apply (Hafter e (or_introl eq_refl)).
    destruct (is_ (classes e)) as [se|]; [|discriminate].
    destruct (is_ (classes d)) as [sd|]; [|discriminate].
    simpl in Heq. by subst.
Qed.

End DependencyFacts.




(** On the acyclic chain A -> B the map is [{x-a: A, x-b: B}]. *)
Example buildMap_chain :
  Dependencies.buildMap 2 chain_classes 0 ∅
  = Some (<["x-b" := 1%nat]> (<["x-a" := 0%nat]> ∅)).
Proof. reflexivity. Qed.




(** ** Plain objects *)

Section JSObjectFacts.
Context {V : Type}.
Implicit Types (o : JSObj V) (k : string) (v : V).

Lemma obj_get_app o o' k :
  obj_get (o ++ o') k = match obj_get o k with Some v => Some v | None => obj_get o' k end.
Proof.
  induction o as [|[k0 v0] o IH]; [reflexivity|].
  simpl. destruct (String.eqb k0 k); [reflexivity|exact IH].
Qed.

Lemma obj_get_update o k v k' :
  obj_get (obj_update k v o) k'
  = if String.eqb k k' then (match obj_get o k with Some _ => Some v | None => None end)
    else obj_get o k'.
Proof.
  induction o as [|[k0 v0] o IH]; simpl.
  - by destruct (String.eqb k k').
  - destruct (String.eqb k0 k) eqn:E0; simpl.
    + apply String.eqb_eq in E0. subst k0.
      destruct (String.eqb k k'); reflexivity.
    + destruct (String.eqb k0 k') eqn:E1; simpl.
      * apply String.eqb_eq in E1. subst k0.
        rewrite String.eqb_sym in E0. rewrite E0. reflexivity.
      * exact IH.
Qed.

Lemma obj_get_insert_index n o k v k' :
  array_index k = Some n ->
  obj_get (obj_insert_index n k v o) k'
  = if String.eqb k k' then Some v else obj_get o k'.
Proof.
  intros Hk. induction o as [|[k0 v0] o IH]; simpl.
  - destruct (String.eqb k k'); reflexivity.
  - destruct (array_index k0) as [n0|] eqn:H0; [|reflexivity].
    destruct (n0 <? n)%N eqn:Hlt; [|reflexivity].
    simpl. destruct (String.eqb k0 k') eqn:E1; [|exact IH].
    apply String.eqb_eq in E1. subst k0.
    destruct (String.eqb k k') eqn:E; [|reflexivity].
    apply String.eqb_eq in E. subst k'. rewrite Hk in H0. inversion H0; subst.
    apply N.ltb_lt in Hlt. lia.
Qed.

(** Reading after [o[k] = v]. *)
Lemma obj_get_set o k v k' :
  obj_get (obj_set k v o) k' = if String.eqb k k' then Some v else obj_get o k'.
Proof.
  unfold obj_set, obj_has.
  destruct (obj_get o k) as [v0|] eqn:Hk.
  - rewrite obj_get_update, Hk. reflexivity.
  - destruct (array_index k) as [n|] eqn:Hn.
    + by apply obj_get_insert_index.
    + rewrite obj_get_app. simpl.
      destruct (String.eqb k k') eqn:E.
      * apply String.eqb_eq in E. subst k'. rewrite Hk. reflexivity.
      * destruct (obj_get o k'); reflexivity.
Qed.

Lemma obj_get_set_eq o k v : obj_get (obj_set k v o) k = Some v.
Proof. rewrite obj_get_set, String.eqb_refl. reflexivity. Qed.

Lemma obj_get_set_ne o k v k' : k <> k' -> obj_get (obj_set k v o) k' = obj_get o k'.
Proof.
  intros Hne. rewrite obj_get_set.
  destruct (String.eqb k k') eqn:E; [apply String.eqb_eq in E; done|reflexivity].
Qed.

Lemma obj_get_In o k v : obj_get o k = Some v -> In (k, v) o.
Proof.
  induction o as [|[k0 v0] o IH]; [discriminate|]. simpl.
  destruct (String.eqb k0 k) eqn:E.
  - apply String.eqb_eq in E. subst k0. intros H. inversion H. by left.
  - intros H. right. by apply IH.
Qed.

(** A key that no object inherits is assigned as an own property. *)
Lemma obj_put_set o k v : inherited k = false -> obj_put k v o = obj_set k v o.
Proof.
  intros Hk. unfold obj_put.
  destruct (String.eqb k "__proto__") eqn:E; [|reflexivity].
  apply String.eqb_eq in E. subst k. discriminate Hk.
Qed.

(** Reading after the assignment [o[k] = v]. *)
Lemma obj_get_put o k v k' :
  obj_get (obj_put k v o) k'
  = if String.eqb k "__proto__" && negb (obj_has o k) then obj_get o k'
    else if String.eqb k k' then Some v else obj_get o k'.
Proof.
  unfold obj_put.
  destruct (String.eqb k "__proto__" && negb (obj_has o k)); [reflexivity|].
  apply obj_get_set.
Qed.

Lemma obj_keys_get o k : In k (obj_keys o) -> is_Some (obj_get o k).
Proof.
  induction o as [|[k0 v0] o IH]; [intros []|]. simpl.
  intros [->|Hin].
  - rewrite String.eqb_refl. eauto.
  - destruct (String.eqb k0 k); [eauto|by apply IH].
Qed.

End JSObjectFacts.

(** ** [splitAttributes] *)

Section SplitFacts.
Import _Properties.
Variables reflect_ priv_ passed : JSObj JSValue.

(** Every value of the new [attributes] object is [undefined]. *)
Definition all_undefined (o : JSObj JSValue) : Prop :=
  forall k v, obj_get o k = Some v -> v = VUndefined.

(** No group names the key, and it is no name of [Object.prototype]: the
    two tests [key in reflect] and [key in priv] fail. *)
Definition unclaimed (key : string) : Prop :=
  obj_in reflect_ key = false /\ obj_in priv_ key = false.

Lemma unclaimed_own key :
  unclaimed key
  <-> obj_has reflect_ key || obj_has priv_ key || inherited key = false.
Proof.
  unfold unclaimed, obj_in.
  destruct (obj_has reflect_ key), (obj_has priv_ key), (inherited key);
    cbn [orb]; intuition congruence.
Qed.

Lemma split_step_attributes acc key :
  all_undefined (attributes acc) ->
  all_undefined (attributes (split_step reflect_ priv_ passed acc key))
  /\ (forall k, is_Some (obj_get (attributes acc) k) ->
        is_Some (obj_get (attributes (split_step reflect_ priv_ passed acc key)) k))
  /\ (unclaimed key ->
        obj_get (attributes (split_step reflect_ priv_ passed acc key)) key
        = Some VUndefined)
  /\ (forall k, is_Some (obj_get (attributes (split_step reflect_ priv_ passed acc key)) k) ->
        is_Some (obj_get (attributes acc) k) \/ (k = key /\ unclaimed key)).
Proof.
  intros Hall. destruct acc as [attribs pub prv]. unfold split_step, unclaimed. simpl in *.
  destruct (obj_in reflect_ key) eqn:Hr; simpl.
  { split; [exact Hall|]. split; [auto|]. split; [intros []; discriminate|]. auto. }
  destruct (obj_in priv_ key) eqn:Hp; simpl.
  { split; [exact Hall|]. split; [auto|]. split; [intros []; discriminate|]. auto. }
  assert (Hv : default VUndefined (obj_get attribs key) = VUndefined).
  { destruct (obj_get attribs key) as [v|] eqn:Hg; [|reflexivity]. simpl. eauto. }
  assert (Hown : inherited key = false).
  { unfold obj_in in Hr. apply orb_false_iff in Hr. tauto. }
  rewrite Hv, (obj_put_set _ _ _ Hown). split; [|split; [|split]].
  - intros k v. rewrite obj_get_set.
    destruct (String.eqb key k); [congruence|apply Hall].
  - intros k Hk. rewrite obj_get_set. destruct (String.eqb key k); eauto.
  - intros _. apply obj_get_set_eq.
  - intros k. rewrite obj_get_set.
    destruct (String.eqb key k) eqn:E; [|auto].
    apply String.eqb_eq in E. subst k. intros _. right. done.
Qed.

Lemma split_fold_attributes keys : forall acc,
  all_undefined (attributes acc) ->
  let r := fold_left (split_step reflect_ priv_ passed) keys acc in
  all_undefined (attributes r)
  /\ (forall k, is_Some (obj_get (attributes acc) k) -> is_Some (obj_get (attributes r) k))
  /\ (forall k, In k keys -> unclaimed k -> is_Some (obj_get (attributes r) k))
  /\ (forall k, is_Some (obj_get (attributes r) k) ->
        is_Some (obj_get (attributes acc) k) \/ (In k keys /\ unclaimed k)).
Proof.
  induction keys as [|key keys IH]; intros acc Hall; simpl.
  - split; [exact Hall|]. split; [auto|]. split; [intros k []|auto].
  - destruct (split_step_attributes acc key Hall) as (Hall' & Hkeep & Hnew & Hold).
    destruct (IH _ Hall') as (Hall'' & Hkeep' & Hnew' & Hold').
    split; [exact Hall''|]. split; [auto|]. split.
    + intros k [->|Hin] Hu; [|by apply Hnew'].
      apply Hkeep'. rewrite (Hnew Hu). eauto.
    + intros k Hk. destruct (Hold' k Hk) as [Hk'|[Hin Hu]]; [|right; split; [by right|done]].
      destruct (Hold k Hk') as [Hk''|[-> Hu]]; [by left|right; split; [by left|done]].
Qed.

End SplitFacts.

(** C10, as the code has it. When the props config declares [reflect] or
    [priv] (one group at least), every passed key that neither group names
    and that is no name of a property of [Object.prototype] is present in the
    returned [attributes] and bound to [undefined], whatever value was
    passed; a key that a group names is not in it, and neither is a key such
    as [constructor] or [toString], for which [key in reflect] holds by
    inheritance. When the config declares neither group, the passed
    attribute map is returned as it is. *)
Theorem splitAttributes_unclaimed_keys_undefined
    (config : _Properties.PropsConfig) (attributes : JSObj JSValue) :
  let r := _Properties.splitAttributes
             (Some {| _Properties.__config := Some config |}) attributes in
  let reflect := default [] (_Properties.reflect config) in
  let priv := default [] (_Properties.priv config) in
  (is_Some (_Properties.reflect config) \/ is_Some (_Properties.priv config) ->
     forall key, In key (obj_keys attributes) ->
       if obj_has reflect key || obj_has priv key || inherited key
       then obj_get (_Properties.attributes r) key = None
       else obj_get (_Properties.attributes r) key = Some VUndefined)
  /\ (_Properties.reflect config = None /\ _Properties.priv config = None ->
        _Properties.attributes r = attributes).
Proof.
  intros r reflect priv. split.
  - intros Hdecl key Hin.
    assert (Hr : r = fold_left (_Properties.split_step reflect priv attributes)
                       (obj_keys attributes) (_Properties.Build_Split [] [] [])).
    { unfold r, _Properties.splitAttributes, reflect, priv. simpl.
      destruct (_Properties.reflect config), (_Properties.priv config);
        try reflexivity.
      destruct Hdecl as [[? ?]|[? ?]]; discriminate. }
    rewrite Hr.
    destruct (split_fold_attributes reflect priv attributes (obj_keys attributes)
                (_Properties.Build_Split [] [] [])) as (Hall & _ & Hnew & Hold).
    { intros k v H. discriminate. }
    destruct (obj_has reflect key || obj_has priv key || inherited key) eqn:Hc.
    + destruct (obj_get _ key) as [v|] eqn:Hg; [|reflexivity].
      destruct (Hold key (ex_intro _ v Hg)) as [[? ?]|[_ Hu]]; [discriminate|].
      apply unclaimed_own in Hu. rewrite Hu in Hc. discriminate.
    + apply unclaimed_own in Hc.
      destruct (Hnew key Hin Hc) as [v Hv].
      rewrite Hv. f_equal. eapply Hall; eauto.
  - intros [Hr Hp]. unfold r, _Properties.splitAttributes. simpl.
    rewrite Hr, Hp. reflexivity.
Qed.

(** Without [props], or without a config on it, the map is returned as it
    is. *)
Lemma splitAttributes_without_config (attributes : JSObj JSValue) :
  _Properties.attributes (_Properties.splitAttributes None attributes) = attributes
  /\ _Properties.attributes
       (_Properties.splitAttributes (Some {| _Properties.__config := None |}) attributes)
     = attributes.
Proof. split; reflexivity. Qed.

(** A config that reflects [name]; the instance is passed [name] and [id]. *)
Definition ex_reflect_config : _Properties.PropsConfig :=
  {| _Properties.reflect := Some [("name", VStr "string")]; _Properties.priv := None |}.

Definition ex_passed : JSObj JSValue := [("name", VStr "n"); ("id", VStr "main")].

Lemma splitAttributes_witness :
  is_Some (_Properties.reflect ex_reflect_config)
  /\ In "id" (obj_keys ex_passed)
  /\ obj_get (_Properties.attributes
                (_Properties.splitAttributes
                   (Some {| _Properties.__config := Some ex_reflect_config |}) ex_passed))
       "id" = Some VUndefined.
Proof.
  split; [by eexists|]. split; [right; by left|].
  exact (proj1 (splitAttributes_unclaimed_keys_undefined ex_reflect_config ex_passed)
           (or_introl (ex_intro _ _ eq_refl)) "id" (or_intror (or_introl eq_refl))).
Defined.

Example splitAttributes_example :
  _Properties.splitAttributes
    (Some {| _Properties.__config := Some ex_reflect_config |}) ex_passed
  = _Properties.Build_Split [("id", VUndefined)] [("name", VStr "n")] [].
Proof. reflexivity. Qed.

(** The claim C10 at the passed key [constructor], which neither group
    names: the test [key in reflect] holds for it by inheritance, so the key
    is not in the returned [attributes] at all, and its value is in
    [publicProps]. *)
Example splitAttributes_inherited_key_reflected :
  let passed := [("constructor", VStr "x"); ("id", VStr "main")] in
  let r := _Properties.splitAttributes
             (Some {| _Properties.__config := Some ex_reflect_config |}) passed in
  is_Some (_Properties.reflect ex_reflect_config)
  /\ obj_has (default [] (_Properties.reflect ex_reflect_config)) "constructor" = false
  /\ obj_has (default [] (_Properties.priv ex_reflect_config)) "constructor" = false
  /\ In "constructor" (obj_keys passed)
  /\ obj_get (_Properties.attributes r) "constructor" = None
  /\ obj_get (_Properties.publicProps r) "constructor" = Some (VStr "x")
  /\ r = _Properties.Build_Split [("id", VUndefined)] [("constructor", VStr "x")] [].
Proof.
  split; [by eexists|]. split; [reflexivity|]. split; [reflexivity|].
  split; [by left|]. repeat split; reflexivity.
Qed.

(** ** Slot resolution *)

(** C4, on the code: for the receiver tree
    [<div><slot name=a></slot><slot></slot></div>] no receiver is found, the
    handler returning [void] at the [div] and [walk] then stopping there; the
    caller's content is dropped and the tree stays as it was, which is not
    the tree of the claim. *)
Example nested_slot_receivers_not_found :
  @_Slots._findSlotReceivers unit 10 [0%nat] slot_heap
  = Some (Normal {| _Slots.r_named := []; _Slots.r_unnamed := None |}, slot_heap)
  /\ @_Slots.applySlots unit 10 7 8 slot_heap = Some (Normal tt, slot_heap)
  /\ markup_of 10 slot_heap 0
     = Some (Element "div" []
               [Element "slot" [("name", VStr "a")] []; Element "slot" [] []])
  /\ markup_of 10 slot_heap 0
     <> Some (Element "div" []
                [Element "slot" [("name", VStr "a")]
                   [Element "span" [("slot", VStr "a")] [Text "X"]];
                 Element "slot" [] [Element "b" [] [Text "Y"]]]).
Proof. repeat split; try reflexivity. discriminate. Qed.

(** The same slots as direct children of the expanded element are found and
    filled as the claim says. *)
Example top_level_slot_receivers_filled :
  exists h,
    @_Slots.applySlots unit 10 7 8 flat_slot_heap = Some (Normal tt, h)
    /\ markup_of 10 h 7
       = Some (Element "my-el" []
                 [Element "slot" [("name", VStr "a")]
                    [Element "span" [("slot", VStr "a")] [Text "X"]];
                  Element "slot" [] [Element "b" [] [Text "Y"]]]).
Proof. eexists. split; reflexivity. Qed.

Lemma mapM_cons {E S A B} (f : A -> M E S B) (a : A) (l : list A) :
  mapM f (a :: l) = (b ← f a; bs ← mapM f l; mret (b :: bs)).
Proof. reflexivity. Qed.

Section SlottableFacts.
Context {E : Type}.
Import _Slots.

Lemma instanceof_cases node :
  instanceof_TextTag node = negb (instanceof_Tag node).
Proof. destruct node; reflexivity. Qed.

(** At a top-level node the walk of [_findSlottables] runs the handler once
    and stops: nothing is allocated and nothing below the node is visited. *)
Lemma walk_slottable fuel h sl t :
  (exists node, tags h !! t = Some node
                /\ (instanceof_Tag node = true ->
                    is_Some (objs h !! tag_attributes node))) ->
  walk (S fuel) (slottable_handler (E := E)) t (h, sl)
  = Some (Normal t, (h, slottable_step h sl t)).
Proof.
  intros (node & Hnode & Hattrs).
  unfold slottable_step, attribute_key. rewrite Hnode.
  simpl. unfold mbind, M_bind, getTag. simpl. rewrite Hnode.
  rewrite instanceof_cases.
  destruct (instanceof_Tag node) eqn:Htag; simpl; [|reflexivity].
  unfold slottable_handler, mbind, M_bind, getTag, getObj, getS, putS. simpl.
  rewrite Hnode, Htag. simpl.
  destruct (Hattrs eq_refl) as [attributes Ha]. rewrite Ha. simpl.
  unfold obj_has.
  destruct (obj_get attributes "slot") as [v|]; simpl; rewrite Hnode;
    rewrite instanceof_cases, Htag; reflexivity.
Qed.

Lemma mapM_walk_slottable fuel h root : forall sl,
  valid_roots h root ->
  mapM (walk (S fuel) (slottable_handler (E := E))) root (h, sl)
  = Some (Normal root, (h, fold_left (slottable_step h) root sl)).
Proof.
  induction root as [|t root IH]; intros sl Hvalid; [reflexivity|].
  rewrite mapM_cons. unfold mbind, M_bind.
  rewrite walk_slottable by (apply Hvalid; by left).
  rewrite IH by (intros t' Ht'; apply Hvalid; by right).
  reflexivity.
Qed.

(** [_findSlottables], as a fold over the top-level nodes. *)
Lemma _findSlottables_fold fuel h root :
  valid_roots h root ->
  _findSlottables (E := E) (S fuel) root h
  = Some (Normal (fold_left (slottable_step h) root
                    {| s_named := []; s_unnamed := [] |}), h).
Proof.
  intros Hvalid. unfold _findSlottables, forEachM, mbind, M_bind.
  rewrite mapM_walk_slottable by exact Hvalid. reflexivity.
Qed.

End SlottableFacts.

Section SlottableFold.
Import _Slots.
Variable h : Heap.

(** [t] is a tag whose [slot] attribute is [n]. *)
Definition slotted_as (n : string) (t : nat) : bool :=
  bool_decide (attribute_key h "slot" t = Some n).

(** What the assignment of [_findSlottables] stores under the name [n] at
    the first tag [t] of that name. *)
Definition stored (n : string) (t : nat) : Slotted :=
  if inherited n then SInherited else STag t.

Lemma slottable_step_unslotted sl t :
  attribute_key h "slot" t = None ->
  s_named (slottable_step h sl t) = s_named sl.
Proof.
  intros Hk. unfold slottable_step. rewrite Hk.
  destruct (tags h !! t) as [node|]; [|reflexivity].
  destruct (instanceof_Tag node); reflexivity.
Qed.

Lemma slottable_step_named sl t n :
  obj_get (s_named (slottable_step h sl t)) n
  = match obj_get (s_named sl) n with
    | Some x => Some x
    | None =>
        if slotted_as n t && negb (String.eqb n "__proto__")
        then Some (stored n t) else None
    end.
Proof.
  destruct (attribute_key h "slot" t) as [m|] eqn:Hkey.
  - assert (Hstep : s_named (slottable_step h sl t)
                    = obj_put m (default (STag t) (named_get (s_named sl) m))
                        (s_named sl)).
    { unfold slottable_step. rewrite Hkey.
      unfold attribute_key in Hkey.
      destruct (tags h !! t) as [node|]; [|discriminate].
      destruct (instanceof_Tag node); [reflexivity|discriminate]. }
    rewrite Hstep, obj_get_put. unfold slotted_as, named_get, stored, obj_has.
    destruct (String.eqb m n) eqn:Hmn.
    + apply String.eqb_eq in Hmn. subst m.
      rewrite bool_decide_eq_true_2 by (by rewrite Hkey).
      destruct (obj_get (s_named sl) n) as [x|] eqn:Hx; simpl.
      * rewrite andb_false_r. reflexivity.
      * rewrite andb_true_r.
        destruct (String.eqb n "__proto__") eqn:Hp; simpl; [reflexivity|].
        destruct (inherited n); reflexivity.
    + rewrite bool_decide_eq_false_2.
      * simpl. destruct (String.eqb m "__proto__" && _);
          destruct (obj_get (s_named sl) n); reflexivity.
      * rewrite Hkey. intros Heq. inversion Heq. subst.
        rewrite String.eqb_refl in Hmn. discriminate.
  - rewrite slottable_step_unslotted by exact Hkey.
    unfold slotted_as. rewrite bool_decide_eq_false_2 by (rewrite Hkey; discriminate).
    destruct (obj_get (s_named sl) n); reflexivity.
Qed.

(** The named slottable of [n] is the first top-level tag slotted as [n], or
    the function [Object.prototype] has under that name; the assignment to
    [__proto__] leaves no property. *)
Lemma fold_slottable_named root : forall sl n,
  obj_get (s_named (fold_left (slottable_step h) root sl)) n
  = match obj_get (s_named sl) n with
    | Some x => Some x
    | None =>
        if String.eqb n "__proto__" then None
        else option_map (stored n) (List.find (slotted_as n) root)
    end.
Proof.
  induction root as [|t root IH]; intros sl n; simpl.
  - destruct (obj_get (s_named sl) n); [reflexivity|].
    destruct (String.eqb n "__proto__"); reflexivity.
  - rewrite IH, slottable_step_named.
    destruct (obj_get (s_named sl) n); [reflexivity|].
    destruct (slotted_as n t); simpl; [|reflexivity].
    destruct (String.eqb n "__proto__"); reflexivity.
Qed.

(** The unnamed slottables are top-level nodes without a [slot] attribute. *)
Lemma fold_slottable_unnamed root : forall sl t,
  In t (s_unnamed (fold_left (slottable_step h) root sl)) ->
  In t (s_unnamed sl) \/ (In t root /\ attribute_key h "slot" t = None).
Proof.
  induction root as [|t0 root IH]; intros sl t Hin; simpl in Hin; [by left|].
  apply IH in Hin. destruct Hin as [Hin|[Hin Hk]]; [|right; split; [by right|done]].
  unfold slottable_step in Hin.
  destruct (tags h !! t0) as [node|]; [|by left].
  destruct (instanceof_Tag node); [|by left].
  destruct (attribute_key h "slot" t0) as [m|] eqn:Hkey; simpl in Hin; [by left|].
  apply in_app_or in Hin. destruct Hin as [Hin|[<-|[]]]; [by left|].
  right. split; [by left|done].
Qed.

Lemma find_first_at (P : nat -> bool) (root : list nat) (i : nat) (first : nat) :
  root !! i = Some first ->
  P first = true ->
  (forall i' t, (i' < i)%nat -> root !! i' = Some t -> P t = false) ->
  List.find P root = Some first.
Proof.
  revert i. induction root as [|t root IH]; intros i Hi HP Hbefore; [discriminate|].
  destruct i as [|i]; simpl in *.
  - inversion Hi; subst. by rewrite HP.
  - rewrite (Hbefore 0%nat t) by (lia || reflexivity).
    apply (IH i); [exact Hi|exact HP|].
    intros i' t' Hlt Ht'. apply (Hbefore (S i') t'); [lia|exact Ht'].
Qed.

Lemma find_is_first (P : nat -> bool) (root : list nat) (x : nat) :
  List.find P root = Some x ->
  exists i, root !! i = Some x /\ P x = true
            /\ forall i' t, (i' < i)%nat -> root !! i' = Some t -> P t = false.
Proof.
  induction root as [|t root IH]; [discriminate|]. simpl.
  destruct (P t) eqn:HP.
  - intros Heq. inversion Heq; subst. exists 0%nat.
    split; [reflexivity|]. split; [exact HP|]. intros; lia.
  - intros Hfind. destruct (IH Hfind) as (i & Hi & HPx & Hbefore).
    exists (S i). split; [exact Hi|]. split; [exact HPx|].
    intros [|i'] t' Hlt Ht'; simpl in Ht'.
    + inversion Ht'; subst. exact HP.
    + apply (Hbefore i' t'); [lia|exact Ht'].
Qed.

(** What [_findSlottables] finds: the names it stores are the [slot] values
    of the top-level tags other than [__proto__], and a name holds a function
    in place of a tag exactly when it is a name of [Object.prototype]. *)
Lemma found_slottables root n v :
  obj_get (s_named (fold_left (slottable_step h) root
                      {| s_named := []; s_unnamed := [] |})) n = Some v ->
  n <> "__proto__"
  /\ exists t, In t root /\ attribute_key h "slot" t = Some n /\ v = stored n t.
Proof.
  rewrite fold_slottable_named. simpl.
  destruct (String.eqb n "__proto__") eqn:Hp; [discriminate|].
  destruct (List.find (slotted_as n) root) as [t|] eqn:Hfind; [|discriminate].
  intros Hv. inversion Hv; subst v. split.
  - intros ->. discriminate.
  - apply List.find_some in Hfind. destruct Hfind as [Hin HP].
    exists t. split; [exact Hin|]. split; [|reflexivity].
    by apply bool_decide_eq_true in HP.
Qed.

Lemma found_slottables_wf root :
  named_wf (s_named (fold_left (slottable_step h) root
                       {| s_named := []; s_unnamed := [] |})).
Proof.
  intros n v Hv. apply found_slottables in Hv.
  destruct Hv as (_ & t & _ & _ & ->). unfold stored.
  destruct (inherited n); split; congruence.
Qed.

Lemma slotted_name_found root t n :
  In t root ->
  attribute_key h "slot" t = Some n ->
  n <> "__proto__" ->
  In n (obj_keys (s_named (fold_left (slottable_step h) root
                             {| s_named := []; s_unnamed := [] |}))).
Proof.
  intros Hin Hkey Hp.
  destruct (obj_get (s_named (fold_left (slottable_step h) root
                                {| s_named := []; s_unnamed := [] |})) n)
    as [v|] eqn:Hv.
  - apply obj_get_In in Hv. apply (in_map fst) in Hv. exact Hv.
  - rewrite fold_slottable_named in Hv. simpl in Hv.
    destruct (String.eqb n "__proto__") eqn:Hn;
      [apply String.eqb_eq in Hn; done|].
    destruct (List.find (slotted_as n) root) eqn:Hfind; [discriminate|].
    pose proof (List.find_none _ _ Hfind t Hin) as Hf.
    unfold slotted_as in Hf. rewrite bool_decide_eq_true_2 in Hf by done.
    discriminate.
Qed.

End SlottableFold.

Section ForEachFacts.
Context {E : Type}.

Lemma forEachM_cons {St A B} (f : A -> M E St B) (a : A) (l : list A) (st : St) :
  forEachM f (a :: l) st
  = match f a st with
    | Some (Normal _, st') => forEachM f l st'
    | Some (Throw e, st') => Some (Throw e, st')
    | None => None
    end.
Proof.
  unfold forEachM, mbind, M_bind. simpl. unfold mbind, M_bind.
  destruct (f a st) as [[[b|e] st']|]; try reflexivity.
  destruct (mapM f l st') as [[[bs|e] st'']|]; reflexivity.
Qed.

Lemma setChildren_run {St} (r : nat) (cs : list nat) (hc : Heap) (u : St) node :
  tags hc !! r = Some node ->
  setChildren (E := E) r cs (hc, u)
  = Some (Normal r,
          ({| tags := <[r := with__children node cs]> (tags hc); objs := objs hc |}, u)).
Proof.
  intros Hr. unfold setChildren, mbind, M_bind, getTag, setTag. simpl.
  rewrite Hr. reflexivity.
Qed.

Lemma children_of_set hc r node cs x :
  tags hc !! r = Some node ->
  instanceof_Tag node = true ->
  children_of {| tags := <[r := with__children node cs]> (tags hc); objs := objs hc |} x
  = if decide (x = r) then cs else children_of hc x.
Proof.
  intros Hr Htag. unfold children_of. simpl.
  case_decide as Hx.
  - subst x. rewrite list_lookup_insert_eq by (eapply lookup_lt_Some; eauto).
    destruct node; try discriminate; reflexivity.
  - rewrite list_lookup_insert_ne by done. reflexivity.
Qed.

End ForEachFacts.

Section ReplaceFacts.
Context {E : Type}.
Import _Slots.

Variable h : Heap.
Variable receivers : SlotReceivers.
Variable sl : Slottables.
Hypothesis Hwf : receivers_wf h receivers.
Hypothesis Hsl : named_wf (s_named sl).

(** What holds of the heap and of [unslotted] throughout [_replaceSlots]. *)
Definition replace_inv (st : Heap * list nat) : Prop :=
  (forall x node, tags h !! x = Some node ->
     exists node', tags (fst st) !! x = Some node'
                   /\ instanceof_Tag node' = instanceof_Tag node)
  /\ (forall x, children_of (fst st) x = children_of h x
                \/ exists n v, obj_get (s_named sl) n = Some (STag v)
                               /\ children_of (fst st) x = [v])
  /\ (forall t, In t (snd st) ->
        In t (s_unnamed sl) \/ exists n, obj_get (s_named sl) n = Some (STag t)).

Lemma replace_inv_set hc u r cs node :
  replace_inv (hc, u) ->
  tags hc !! r = Some node ->
  instanceof_Tag node = true ->
  (cs = children_of h r
   \/ exists n v, obj_get (s_named sl) n = Some (STag v) /\ cs = [v]) ->
  replace_inv ({| tags := <[r := with__children node cs]> (tags hc); objs := objs hc |}, u).
Proof.
  intros (Hv & Hc & Hu) Hr Htag Hcs. split; [|split].
  - intros x nodex Hx. simpl.
    destruct (decide (x = r)) as [->|Hne].
    + rewrite list_lookup_insert_eq by (eapply lookup_lt_Some; eauto).
      destruct (Hv _ _ Hx) as (node' & Hn' & Hi'). simpl in Hn'.
      rewrite Hr in Hn'. inversion Hn'; subst node'.
      eexists. split; [reflexivity|]. rewrite <- Hi'.
      destruct node; reflexivity.
    + rewrite list_lookup_insert_ne by done. by apply Hv.
  - intros x. simpl. rewrite (children_of_set _ _ _ _ _ Hr Htag).
    case_decide as Hx; [subst x; exact Hcs|apply Hc].
  - exact Hu.
Qed.

(** Under a name that [Object.prototype] does not have, the slottable is a
    tag, and the receiver is a tag or there is none. *)
Lemma plain_name_cases k :
  In k (obj_keys (s_named sl)) ->
  inherited k = false ->
  (exists t, obj_get (s_named sl) k = Some (STag t))
  /\ ((exists r, obj_get (r_named receivers) k = Some (STag r)
                 /\ named_get (r_named receivers) k = Some (STag r))
      \/ (obj_get (r_named receivers) k = None
          /\ named_get (r_named receivers) k = None)).
Proof.
  intros Hk Hplain. split.
  - destruct (obj_keys_get _ _ Hk) as [[t|] Hv]; [eauto|].
    apply Hsl in Hv. rewrite Hplain in Hv.
    destruct Hv as [Hv _]. specialize (Hv eq_refl). discriminate.
  - unfold named_get. rewrite Hplain.
    destruct (obj_get (r_named receivers) k) as [[r|]|] eqn:Hr.
    + left. eauto.
    + apply (wf_named_tags _ _ Hwf) in Hr. rewrite Hplain in Hr.
      destruct Hr as [Hr _]. specialize (Hr eq_refl). discriminate.
    + by right.
Qed.

Lemma replace_step_run k st :
  In k (obj_keys (s_named sl)) ->
  inherited k = false ->
  replace_inv st ->
  exists st',
    replace_step (E := E) receivers sl k st = Some (Normal tt, st')
    /\ replace_inv st'
    /\ (forall r v, obj_get (r_named receivers) k = Some (STag r) ->
          obj_get (s_named sl) k = Some (STag v) -> children_of (fst st') r = [v])
    /\ (forall x, obj_get (r_named receivers) k <> Some (STag x) ->
          children_of (fst st') x = children_of (fst st) x).
Proof.
  intros Hk Hplain Hinv. destruct st as [hc u].
  destruct (plain_name_cases k Hk Hplain) as [[v Hv] [(r & Hr & Hget)|[Hr Hget]]];
    unfold replace_step; rewrite Hv, Hget.
  - destruct (wf_named_valid _ _ Hwf _ _ Hr) as (node0 & Hn0 & Ht0).
    destruct (proj1 Hinv _ _ Hn0) as (node & Hn & Ht). simpl in Hn.
    rewrite Ht0 in Ht.
    unfold mbind, M_bind. rewrite (setChildren_run _ _ _ _ _ Hn).
    eexists. split; [reflexivity|]. split; [|split].
    + apply replace_inv_set; try done. right. eauto.
    + intros r' v' Hr' Hv'. rewrite Hr in Hr'. inversion Hr'; subst r'.
      inversion Hv'; subst v'.
      simpl. rewrite (children_of_set _ _ _ _ _ Hn Ht). by rewrite decide_True.
    + intros x Hx. simpl. rewrite (children_of_set _ _ _ _ _ Hn Ht).
      rewrite decide_False; [reflexivity|]. intros ->. by apply Hx.
  - unfold mbind, M_bind, getS, putS. simpl.
    eexists. split; [reflexivity|]. split; [|split].
    + destruct Hinv as (H1 & H2 & H3). split; [exact H1|]. split; [exact H2|].
      simpl. intros t Ht. apply in_app_or in Ht. destruct Ht as [Ht|[<-|[]]].
      * by apply H3.
      * right. eauto.
    + intros r v' Hr'. rewrite Hr in Hr'. discriminate.
    + reflexivity.
Qed.

(** Under a name of [Object.prototype] the receiver read is a function, and
    the call of [setChildren] on it throws. *)
Lemma replace_step_throws k st :
  In k (obj_keys (s_named sl)) ->
  inherited k = true ->
  replace_step (E := E) receivers sl k st = Some (Throw TypeError, st).
Proof.
  intros Hk Hinh. destruct (obj_keys_get _ _ Hk) as [v Hv].
  unfold replace_step, named_get. rewrite Hv, Hinh.
  destruct (obj_get (r_named receivers) k) as [x|] eqn:Hr; [|reflexivity].
  apply (wf_named_tags _ _ Hwf) in Hr. destruct Hr as [_ Hr].
  rewrite (Hr Hinh). reflexivity.
Qed.

(** The loop of [_replaceSlots] over the keys [ks]; [s] is a slot name whose
    receiver, if it has one, ends up with the slottable of [s] as its only
    child. *)
Lemma replace_loop_run s ks : forall st,
  (forall k, In k ks -> In k (obj_keys (s_named sl))) ->
  (forall k, In k ks -> inherited k = false) ->
  replace_inv st ->
  exists st',
    forEachM (replace_step (E := E) receivers sl) ks st = Some (Normal tt, st')
    /\ replace_inv st'
    /\ (forall r v, obj_get (r_named receivers) s = Some (STag r) ->
          obj_get (s_named sl) s = Some (STag v) ->
          In s ks \/ children_of (fst st) r = [v] ->
          children_of (fst st') r = [v]).
Proof.
  induction ks as [|k ks IH]; intros st Hks Hplain Hinv.
  - exists st. split; [reflexivity|]. split; [exact Hinv|].
    intros r v _ _ [[]|H]. exact H.
  - destruct (replace_step_run k st (Hks k (or_introl eq_refl))
                (Hplain k (or_introl eq_refl)) Hinv)
      as (st1 & Hrun & Hinv1 & Hset & Hother).
    destruct (IH st1 (fun k' H => Hks k' (or_intror H))
                (fun k' H => Hplain k' (or_intror H)) Hinv1)
      as (st' & Hrun' & Hinv' & Htarget).
    exists st'. rewrite forEachM_cons, Hrun. split; [exact Hrun'|].
    split; [exact Hinv'|].
    intros r v Hr Hv Hcase. apply (Htarget r v Hr Hv).
    destruct (decide (k = s)) as [->|Hne].
    + right. by apply Hset.
    + destruct Hcase as [[Heq|Hin]|Hch]; [done|by left|].
      right. rewrite Hother; [exact Hch|].
      intros Hk. apply Hne. eapply (wf_named_inj _ _ Hwf); eauto.
Qed.

(** The loop stops with a [TypeError] at the first name of
    [Object.prototype] among the keys. *)
Lemma replace_loop_throws ks : forall st,
  (forall k, In k ks -> In k (obj_keys (s_named sl))) ->
  (exists k, In k ks /\ inherited k = true) ->
  replace_inv st ->
  exists st',
    forEachM (replace_step (E := E) receivers sl) ks st = Some (Throw TypeError, st').
Proof.
  induction ks as [|k ks IH]; intros st Hks (k0 & Hin & Hinh) Hinv; [destruct Hin|].
  rewrite forEachM_cons.
  destruct (inherited k) eqn:Hk.
  - rewrite (replace_step_throws k st (Hks k (or_introl eq_refl)) Hk). eauto.
  - destruct (replace_step_run k st (Hks k (or_introl eq_refl)) Hk Hinv)
      as (st1 & Hrun & Hinv1 & _). rewrite Hrun.
    apply IH; [intros k' H; apply Hks; by right| |exact Hinv1].
    exists k0. split; [|exact Hinh].
    destruct Hin as [->|Hin]; [congruence|exact Hin].
Qed.

Lemma replace_inv_start : replace_inv (h, s_unnamed sl).
Proof.
  split; [|split].
  - intros x node Hx. exists node. split; [exact Hx|reflexivity].
  - intros x. by left.
  - intros t Ht. by left.
Qed.

(** [_replaceSlots] returns when no slot name is a name of
    [Object.prototype]; the receiver of [s] holds the slottable of [s], and a
    node has as children, besides what it had, only named or unnamed
    slottables. *)
Lemma _replaceSlots_run s :
  (forall k, In k (obj_keys (s_named sl)) -> inherited k = false) ->
  exists h',
    _replaceSlots (E := E) receivers sl h = Some (Normal tt, h')
    /\ (forall r v, obj_get (r_named receivers) s = Some (STag r) ->
          obj_get (s_named sl) s = Some (STag v) -> children_of h' r = [v])
    /\ (forall x t, In t (children_of h' x) ->
          In t (children_of h x)
          \/ In t (s_unnamed sl)
          \/ exists n, obj_get (s_named sl) n = Some (STag t)).
Proof.
  intros Hplain.
  destruct (replace_loop_run s (obj_keys (s_named sl)) (h, s_unnamed sl)
              (fun k H => H) Hplain replace_inv_start)
    as ([h1 u1] & Hrun & Hinv1 & Htarget).
  assert (Htarget' : forall r v, obj_get (r_named receivers) s = Some (STag r) ->
            obj_get (s_named sl) s = Some (STag v) -> children_of h1 r = [v]).
  { intros r v Hr Hv. apply (Htarget r v Hr Hv). left.
    apply obj_get_In in Hv. apply (in_map fst) in Hv. exact Hv. }
  assert (Hchildren1 : forall x t, In t (children_of h1 x) ->
            In t (children_of h x) \/ In t (s_unnamed sl)
            \/ exists n, obj_get (s_named sl) n = Some (STag t)).
  { intros x t Ht. destruct Hinv1 as (_ & Hc & _). simpl in Hc.
    destruct (Hc x) as [Heq|(n & v & Hv & Heq)]; rewrite Heq in Ht; [by left|].
    destruct Ht as [<-|[]]. right. right. eauto. }
  unfold _replaceSlots, mbind, M_bind. rewrite Hrun. unfold getS. simpl.
  destruct (r_unnamed receivers) as [u|] eqn:Hu.
  - destruct (wf_unnamed_valid _ _ Hwf _ Hu) as (node0 & Hn0 & Ht0).
    destruct (proj1 Hinv1 _ _ Hn0) as (node & Hn & Ht). simpl in Hn. rewrite Ht0 in Ht.
    unfold mbind, M_bind. rewrite (setChildren_run _ _ _ _ _ Hn).
    eexists. split; [reflexivity|]. split.
    + intros r v Hr Hv. rewrite (children_of_set _ _ _ _ _ Hn Ht).
      rewrite decide_False; [by apply Htarget'|].
      intros ->. eapply (wf_unnamed_fresh _ _ Hwf); eauto.
    + intros x t. rewrite (children_of_set _ _ _ _ _ Hn Ht).
      case_decide as Hx; [|apply Hchildren1].
      intros Hin. right. destruct Hinv1 as (_ & _ & H3). by apply H3.
  - exists h1. split; [reflexivity|]. split; [exact Htarget'|exact Hchildren1].
Qed.

(** [_replaceSlots] throws a [TypeError] when a slot name is a name of
    [Object.prototype]. *)
Lemma _replaceSlots_throws :
  (exists k, In k (obj_keys (s_named sl)) /\ inherited k = true) ->
  exists h', _replaceSlots (E := E) receivers sl h = Some (Throw TypeError, h').
Proof.
  intros Hex.
  destruct (replace_loop_throws (obj_keys (s_named sl)) (h, s_unnamed sl)
              (fun k H => H) Hex replace_inv_start) as ([h1 u1] & Hrun).
  unfold _replaceSlots, mbind, M_bind. rewrite Hrun. eauto.
Qed.

End ReplaceFacts.

(** C9, as the code has it. Of several top-level elements of the caller's
    content that carry the same [slot] value [s], where [s] is no name of a
    property of [Object.prototype], the first in document order is the named
    slottable of that value, and a later one is neither a named nor an
    unnamed slottable. When no top-level element has a [slot] value that
    names a function of [Object.prototype], [_replaceSlots] returns: the
    first element is then the only child of the named receiver of [s], if
    there is one, and the later one is a child of no node that did not have
    it as a child before. When some top-level element has such a [slot]
    value, [constructor] or [toString] say, [_replaceSlots] throws a
    [TypeError]. *)
Theorem later_duplicate_slottables_dropped {E : Type}
    (fuel : nat) (h : Heap) (root : list nat) (receivers : _Slots.SlotReceivers)
    (i j first dup : nat) (s : string) :
  valid_roots h root ->
  NoDup root ->
  receivers_wf h receivers ->
  (i < j)%nat ->
  root !! i = Some first ->
  root !! j = Some dup ->
  attribute_key h "slot" first = Some s ->
  attribute_key h "slot" dup = Some s ->
  (forall i' t, (i' < i)%nat -> root !! i' = Some t ->
     attribute_key h "slot" t <> Some s) ->
  inherited s = false ->
  exists sl,
    _Slots._findSlottables (E := E) (S fuel) root h = Some (Normal sl, h)
    /\ obj_get (_Slots.s_named sl) s = Some (_Slots.STag first)
    /\ (forall n, obj_get (_Slots.s_named sl) n <> Some (_Slots.STag dup))
    /\ ~ In dup (_Slots.s_unnamed sl)
    /\ ((forall t k, In t root -> attribute_key h "slot" t = Some k ->
           shadowed k = false) ->
        exists h',
          _Slots._replaceSlots (E := E) receivers sl h = Some (Normal tt, h')
          /\ (forall r, obj_get (_Slots.r_named receivers) s = Some (_Slots.STag r) ->
                children_of h' r = [first])
          /\ (forall x, In dup (children_of h' x) -> In dup (children_of h x)))
    /\ ((exists t k, In t root /\ attribute_key h "slot" t = Some k
                     /\ shadowed k = true) ->
        exists h',
          _Slots._replaceSlots (E := E) receivers sl h = Some (Throw TypeError, h')).
Proof.
  intros Hvalid Hnodup Hwf Hij Hi Hj Hfirst Hdup Hbefore Hplain.
  set (sl := fold_left (slottable_step h) root
               {| _Slots.s_named := []; _Slots.s_unnamed := [] |}).
  assert (Hsl : named_wf (_Slots.s_named sl)) by apply found_slottables_wf.
  assert (Hs : obj_get (_Slots.s_named sl) s = Some (_Slots.STag first)).
  { unfold sl. rewrite fold_slottable_named. simpl.
    destruct (String.eqb s "__proto__") eqn:Hp;
      [apply String.eqb_eq in Hp; subst s; discriminate|].
    rewrite (find_first_at _ _ i first); [|exact Hi| |].
    - simpl. unfold stored. by rewrite Hplain.
    - unfold slotted_as. by apply bool_decide_eq_true_2.
    - intros i' t Hlt Ht. unfold slotted_as. apply bool_decide_eq_false_2. eauto. }
  assert (Hne : first <> dup).
  { intros ->. apply Nat.lt_neq in Hij. apply Hij.
    eapply NoDup_lookup; eauto. }
  assert (Hnot_named : forall n, obj_get (_Slots.s_named sl) n <> Some (_Slots.STag dup)).
  { intros n Hn. destruct (found_slottables h root n _ Hn) as (_ & t & _ & Hk & Hst).
    unfold stored in Hst. destruct (inherited n); [discriminate|].
    inversion Hst; subst t. rewrite Hdup in Hk. inversion Hk; subst n.
    rewrite Hs in Hn. inversion Hn. done. }
  assert (Hnot_unnamed : ~ In dup (_Slots.s_unnamed sl)).
  { intros Hin. unfold sl in Hin. apply fold_slottable_unnamed in Hin.
    destruct Hin as [[]|[_ Hk]]. rewrite Hdup in Hk. discriminate. }
  exists sl.
  split; [by apply _findSlottables_fold|].
  split; [exact Hs|]. split; [exact Hnot_named|]. split; [exact Hnot_unnamed|].
  split.
  - intros Hall.
    destruct (_replaceSlots_run (E := E) h receivers sl Hwf Hsl s)
      as (h' & Hrun & Htarget & Hch).
    { intros k Hk. destruct (obj_keys_get _ _ Hk) as [v Hv].
      destruct (found_slottables h root k v Hv) as (Hp & t & Hin & Hkey & _).
      specialize (Hall t k Hin Hkey). unfold shadowed in Hall.
      destruct (inherited k); [|reflexivity].
      destruct (String.eqb k "__proto__") eqn:Hk';
        [apply String.eqb_eq in Hk'; done|discriminate]. }
    exists h'. split; [exact Hrun|].
    split; [intros r Hr; by apply Htarget|].
    intros x Hin. destruct (Hch x dup Hin) as [H|[H|[n H]]]; [exact H|done|].
    by apply Hnot_named in H.
  - intros (t & k & Hin & Hkey & Hsh).
    apply (_replaceSlots_throws (E := E) h receivers sl Hwf Hsl).
    unfold shadowed in Hsh. apply andb_true_iff in Hsh. destruct Hsh as [Hinh Hp].
    exists k. split; [|exact Hinh].
    apply (slotted_name_found h root t k Hin Hkey).
    intros ->. discriminate.
Qed.

(** The receivers of [duplicate_slot_heap]: slot 1 is named [a], slot 2 is
    the unnamed one. *)
Definition ex_receivers : _Slots.SlotReceivers :=
  {| _Slots.r_named := [("a", _Slots.STag 1%nat)]; _Slots.r_unnamed := Some 2%nat |}.

Lemma obj_get_singleton {V} (k : string) (v : V) n r :
  obj_get [(k, v)] n = Some r -> n = k /\ r = v.
Proof.
  change (obj_get [(k, v)] n) with (if String.eqb k n then Some v else None).
  destruct (String.eqb k n) eqn:En; [|discriminate].
  apply String.eqb_eq in En. intros H. inversion H. by subst.
Qed.

Lemma ex_receivers_wf : receivers_wf duplicate_slot_heap ex_receivers.
Proof.
  split.
  - intros n r H. apply obj_get_singleton in H. destruct H as [-> H].
    inversion H; subst. eexists. split; reflexivity.
  - intros r H. inversion H; subst. eexists. split; reflexivity.
  - intros n n' r H H'. apply obj_get_singleton in H, H'.
    destruct H as [-> _], H' as [-> _]. reflexivity.
  - intros n r H Hu. apply obj_get_singleton in H. destruct H as [-> H].
    inversion H; subst. discriminate.
  - intros n v H. apply obj_get_singleton in H. destruct H as [-> ->].
    split; discriminate.
Qed.

Lemma ex_duplicate_roots_valid : valid_roots duplicate_slot_heap [3; 7; 5]%nat.
Proof.
  intros t [<-|[<-|[<-|[]]]]; eexists; (split; [reflexivity|intros _; by eexists]).
Qed.

Lemma ex_duplicate_roots_plain t k :
  In t [3; 7; 5]%nat ->
  attribute_key duplicate_slot_heap "slot" t = Some k ->
  shadowed k = false.
Proof.
  intros [<-|[<-|[<-|[]]]] Hk; vm_compute in Hk; try discriminate;
    inversion Hk; reflexivity.
Qed.

Lemma later_duplicate_slottables_witness :
  valid_roots duplicate_slot_heap [3; 7; 5]%nat
  /\ NoDup [3; 7; 5]%nat
  /\ receivers_wf duplicate_slot_heap ex_receivers
  /\ attribute_key duplicate_slot_heap "slot" 3 = Some "a"
  /\ attribute_key duplicate_slot_heap "slot" 7 = Some "a"
  /\ inherited "a" = false
  /\ exists sl,
      @_Slots._findSlottables unit 1 [3; 7; 5]%nat duplicate_slot_heap
      = Some (Normal sl, duplicate_slot_heap)
      /\ obj_get (_Slots.s_named sl) "a" = Some (_Slots.STag 3%nat)
      /\ (forall n, obj_get (_Slots.s_named sl) n <> Some (_Slots.STag 7%nat))
      /\ ~ In 7%nat (_Slots.s_unnamed sl)
      /\ exists h',
          @_Slots._replaceSlots unit ex_receivers sl duplicate_slot_heap
          = Some (Normal tt, h')
          /\ (forall r, obj_get (_Slots.r_named ex_receivers) "a"
                        = Some (_Slots.STag r) ->
                children_of h' r = [3%nat])
          /\ (forall x, In 7%nat (children_of h' x) ->
                In 7%nat (children_of duplicate_slot_heap x)).
Proof.
  split; [exact ex_duplicate_roots_valid|].
  split; [compute_done|].
  split; [exact ex_receivers_wf|].
  split; [reflexivity|]. split; [reflexivity|]. split; [reflexivity|].
  destruct (later_duplicate_slottables_dropped (E := unit) 0 duplicate_slot_heap
              [3; 7; 5]%nat ex_receivers 0 1 3 7 "a"
              ex_duplicate_roots_valid ltac:(compute_done) ex_receivers_wf
              ltac:(lia) eq_refl eq_refl eq_refl eq_refl
              ltac:(intros i' t Hlt; lia) eq_refl)
    as (sl & Hfind & Hs & Hn & Hu & Hrun & _).
  exists sl. split; [exact Hfind|]. split; [exact Hs|]. split; [exact Hn|].
  split; [exact Hu|]. exact (Hrun ex_duplicate_roots_plain).
Defined.

(** On [duplicate_slot_heap]: the span fills the slot [a], the unnamed slot
    gets the [b], and the second element for [a], the [i], is nowhere. *)
Example duplicate_slottable_dropped_example :
  exists sl h',
    @_Slots._findSlottables unit 1 [3; 7; 5]%nat duplicate_slot_heap
    = Some (Normal sl, duplicate_slot_heap)
    /\ sl = {| _Slots.s_named := [("a", _Slots.STag 3%nat)];
               _Slots.s_unnamed := [5%nat] |}
    /\ @_Slots._replaceSlots unit ex_receivers sl duplicate_slot_heap = Some (Normal tt, h')
    /\ children_of h' 1 = [3%nat]
    /\ children_of h' 2 = [5%nat].
Proof. do 2 eexists. repeat split; reflexivity. Qed.

(** The claim C9 at the slot name [constructor]: of the two elements that
    carry it the first is not used. [_findSlotReceivers] and
    [_findSlottables] store under that name the function they read from
    [Object.prototype], no tag, and [_replaceSlots] throws a [TypeError] at
    the call of [setChildren] on it, so that [applySlots] fills no slot at
    all. *)
Example inherited_slot_name_throws :
  attribute_key constructor_slot_heap "name" 1 = Some "constructor"
  /\ attribute_key constructor_slot_heap "slot" 3 = Some "constructor"
  /\ attribute_key constructor_slot_heap "slot" 7 = Some "constructor"
  /\ @_Slots._findSlotReceivers unit 10 [1; 2]%nat constructor_slot_heap
     = Some (Normal {| _Slots.r_named := [("constructor", _Slots.SInherited)];
                       _Slots.r_unnamed := Some 2%nat |}, constructor_slot_heap)
  /\ @_Slots._findSlottables unit 10 [3; 7; 5]%nat constructor_slot_heap
     = Some (Normal {| _Slots.s_named := [("constructor", _Slots.SInherited)];
                       _Slots.s_unnamed := [5%nat] |}, constructor_slot_heap)
  /\ @_Slots.applySlots unit 10 8 9 constructor_slot_heap
     = Some (Throw TypeError, constructor_slot_heap)
  /\ children_of constructor_slot_heap 1 = [].
Proof. repeat split; reflexivity. Qed.

(** ** The renderer's monad *)

Section MonadFacts.
Context {E St : Type}.

Lemma bind_Normal_inv {A B} (m : M E St A) (k : A -> M E St B) st b st2 :
  (m ≫= k) st = Some (Normal b, st2) ->
  exists a st1, m st = Some (Normal a, st1) /\ k a st1 = Some (Normal b, st2).
Proof.
  unfold mbind, M_bind.
  destruct (m st) as [[[a|e] st1]|]; [eauto|discriminate|discriminate].
Qed.

(** [P] holds of the state after [m] whenever it holds before, whatever the
    outcome. *)
Definition preserves {A} (P : St -> St -> Prop) (m : M E St A) : Prop :=
  forall st c st', m st = Some (c, st') -> P st st'.

Variable P : St -> St -> Prop.
Hypothesis P_refl : forall st, P st st.
Hypothesis P_trans : forall a b c, P a b -> P b c -> P a c.

Lemma preserves_ret {A} (a : A) : preserves P (mret a : M E St A).
Proof. intros st c st' H. inversion H; subst. apply P_refl. Qed.

Lemma preserves_throw {A} (e : E) : preserves P (throw e : M E St A).
Proof. intros st c st' H. inversion H; subst. apply P_refl. Qed.

Lemma preserves_stuck {A} : preserves P (stuck : M E St A).
Proof. intros st c st' H. discriminate. Qed.

Lemma preserves_bind {A B} (m : M E St A) (k : A -> M E St B) :
  preserves P m -> (forall a, preserves P (k a)) -> preserves P (m ≫= k).
Proof.
  intros Hm Hk st c st'. unfold mbind, M_bind.
  destruct (m st) as [[[a|e] st1]|] eqn:Hrun; [| |discriminate].
  - intros H. eapply P_trans; [eapply Hm; eauto|eapply Hk; eauto].
  - intros H. inversion H; subst. eapply Hm; eauto.
Qed.

Lemma preserves_mapM {A B} (f : A -> M E St B) (l : list A) :
  (forall a, preserves P (f a)) -> preserves P (mapM f l).
Proof.
  intros Hf. induction l as [|a l IH]; [apply preserves_ret|].
  rewrite mapM_cons. apply preserves_bind; [apply Hf|].
  intros b. apply preserves_bind; [exact IH|]. intros bs. apply preserves_ret.
Qed.

Lemma preserves_forEachM {A B} (f : A -> M E St B) (l : list A) :
  (forall a, preserves P (f a)) -> preserves P (forEachM f l).
Proof.
  intros Hf. unfold forEachM. apply preserves_bind; [by apply preserves_mapM|].
  intros _. apply preserves_ret.
Qed.

End MonadFacts.

(** ** What the heap operations leave alone *)

Section HeapOpsFacts.
Context {E St X : Type}.
Variable f : St -> X.

(** The part [f] of the state besides the heap is the same before and
    after. *)
Definition keeps (st st' : Heap * St) : Prop := f (snd st') = f (snd st).

Lemma keeps_refl st : keeps st st.
Proof. reflexivity. Qed.

Lemma keeps_trans a b c : keeps a b -> keeps b c -> keeps a c.
Proof. unfold keeps. congruence. Qed.

Lemma preserves_getTag l : preserves (E := E) keeps (getTag l).
Proof.
  intros st c st'. unfold getTag. destruct (tags (fst st) !! l); [|discriminate].
  intros H. inversion H; subst. reflexivity.
Qed.

Lemma preserves_setTag l t : preserves (E := E) keeps (setTag l t).
Proof. intros st c st' H. inversion H; subst. reflexivity. Qed.

Lemma preserves_allocTag t : preserves (E := E) keeps (allocTag t).
Proof. intros st c st' H. inversion H; subst. reflexivity. Qed.

Lemma preserves_getObj l : preserves (E := E) keeps (getObj l).
Proof.
  intros st c st'. unfold getObj. destruct (objs (fst st) !! l); [|discriminate].
  intros H. inversion H; subst. reflexivity.
Qed.

Lemma preserves_setObj l o : preserves (E := E) keeps (setObj l o).
Proof. intros st c st' H. inversion H; subst. reflexivity. Qed.

Lemma preserves_allocObj o : preserves (E := E) keeps (allocObj o).
Proof. intros st c st' H. inversion H; subst. reflexivity. Qed.

Lemma preserves_getHeap : preserves (E := E) keeps getHeap.
Proof. intros st c st' H. inversion H; subst. reflexivity. Qed.

Lemma preserves_getS : preserves (E := E) keeps getS.
Proof. intros st c st' H. inversion H; subst. reflexivity. Qed.

Lemma preserves_putS s : 
  (forall st : Heap * St, f s = f (snd st)) -> preserves (E := E) keeps (putS s).
Proof. intros Hs st c st' H. inversion H; subst. apply Hs. Qed.

Lemma preserves_copy l : preserves (E := E) keeps (copy l).
Proof.
  apply preserves_bind; [apply keeps_trans|apply preserves_getTag|].
  intros t. apply preserves_allocTag.
Qed.

Lemma preserves_setChildren l cs : preserves (E := E) keeps (setChildren l cs).
Proof.
  apply preserves_bind; [apply keeps_trans|apply preserves_getTag|].
  intros t. apply preserves_bind; [apply keeps_trans|apply preserves_setTag|].
  intros _. apply preserves_ret, keeps_refl.
Qed.

Lemma preserves_walk fuel handler : forall this,
  (forall t, preserves (E := E) keeps (handler t)) ->
  preserves (E := E) keeps (walk fuel handler this).
Proof.
  induction fuel as [|fuel IH]; intros this Hh; [apply preserves_stuck|].
  simpl. apply preserves_bind; [apply keeps_trans|apply preserves_getTag|].
  intros t. destruct (instanceof_TextTag t); [apply preserves_ret, keeps_refl|].
  apply preserves_bind; [apply keeps_trans|apply Hh|].
  intros result. destruct (default (this, true) result) as [newTag stop].
  apply preserves_bind; [apply keeps_trans|apply preserves_getTag|].
  intros nt. destruct (instanceof_TextTag nt || stop); [apply preserves_ret, keeps_refl|].
  apply preserves_bind; [apply keeps_trans|apply preserves_copy|].
  intros c. apply preserves_bind; [apply keeps_trans| |].
  - apply preserves_mapM; [apply keeps_refl|apply keeps_trans|].
    intros a. by apply IH.
  - intros cs. apply preserves_setChildren.
Qed.

End HeapOpsFacts.

Lemma preserves_mapM_Forall {E St A B} (P : St -> St -> Prop)
    (f : A -> M E St B) (l : list A) :
  (forall st, P st st) -> (forall a b c, P a b -> P b c -> P a c) ->
  Forall (fun a => preserves P (f a)) l -> preserves P (mapM f l).
Proof.
  intros Hrefl Htrans Hl. induction Hl as [|a l Ha _ IH]; [by apply preserves_ret|].
  rewrite mapM_cons. apply preserves_bind; [exact Htrans|exact Ha|].
  intros b. apply preserves_bind; [exact Htrans|exact IH|].
  intros bs. by apply preserves_ret.
Qed.

(** ** The receivers [_findSlotReceivers] finds *)

Section ReceiverFacts.
Context {E : Type}.
Import _Slots.

(** The names are, after the step, still filled as the finders fill them. *)
Definition named_stays (st st' : Heap * SlotReceivers) : Prop :=
  named_wf (r_named (snd st)) -> named_wf (r_named (snd st')).

Lemma named_stays_refl st : named_stays st st.
Proof. intros H. exact H. Qed.

Lemma named_stays_trans a b c : named_stays a b -> named_stays b c -> named_stays a c.
Proof. intros Hab Hbc H. apply Hbc, Hab, H. Qed.

Lemma named_stays_of_kept {A} (m : M (Exn E) (Heap * SlotReceivers) A) :
  preserves (keeps (fun s : SlotReceivers => s)) m -> preserves named_stays m.
Proof.
  intros Hm st c st' Hrun Hwf. specialize (Hm st c st' Hrun).
  unfold keeps in Hm. by rewrite Hm.
Qed.

(** The assignment [named[slotName] = named[slotName] || tag]. *)
Lemma named_wf_put named slotName tag :
  named_wf named ->
  named_wf (obj_put slotName (default (STag tag) (named_get named slotName)) named).
Proof.
  intros Hwf n v. rewrite obj_get_put.
  destruct (String.eqb slotName "__proto__" && negb (obj_has named slotName));
    [apply Hwf|].
  destruct (String.eqb slotName n) eqn:Hn; [|apply Hwf].
  apply String.eqb_eq in Hn. subst n. unfold named_get.
  destruct (obj_get named slotName) as [x|] eqn:Hx.
  - intros Hv. inversion Hv; subst v. by apply (Hwf slotName).
  - destruct (inherited slotName); intros Hv; inversion Hv; subst v;
      split; (reflexivity || discriminate).
Qed.

Lemma receiver_handler_named tag :
  preserves named_stays (receiver_handler (E := E) tag).
Proof.
  intros [h slots] c st'.
  unfold receiver_handler, mbind, M_bind, getTag, getObj, getS, putS, mret, M_ret.
  cbn [fst snd].
  destruct (tags h !! tag) as [t|]; [|intros H; discriminate H].
  destruct (instanceof_Tag t && String.eqb (tag_tagName t) "slot").
  - cbn [fst snd].
    destruct (objs h !! tag_attributes t) as [attributes|]; [|intros H; discriminate H].
    cbn [fst snd].
    destruct (obj_has attributes "name"); cbn [fst snd]; intros H; inversion H; subst;
      intros Hwf; cbn [snd r_named]; [by apply named_wf_put|exact Hwf].
  - intros H. inversion H; subst. apply named_stays_refl.
Qed.

Local Ltac kept :=
  apply named_stays_of_kept;
  first [ apply preserves_getTag | apply preserves_copy | apply preserves_setChildren
        | apply preserves_ret; apply keeps_refl ].

Lemma walk_receivers_named fuel : forall this,
  preserves named_stays (walk fuel (receiver_handler (E := E)) this).
Proof.
  induction fuel as [|fuel IH]; intros this; [intros st c st' H; discriminate H|].
  simpl. apply preserves_bind; [exact named_stays_trans|kept|].
  intros t. destruct (instanceof_TextTag t); [kept|].
  apply preserves_bind; [exact named_stays_trans|apply receiver_handler_named|].
  intros result. destruct (default (this, true) result) as [newTag stop].
  apply preserves_bind; [exact named_stays_trans|kept|].
  intros nt. destruct (instanceof_TextTag nt || stop); [kept|].
  apply preserves_bind; [exact named_stays_trans|kept|].
  intros c. apply preserves_bind; [exact named_stays_trans| |intros cs; kept].
  apply preserves_mapM; [exact named_stays_refl|exact named_stays_trans|exact IH].
Qed.

(** In what [_findSlotReceivers] returns a name holds a function, and no
    tag, exactly when it is a name of [Object.prototype]: with the same fact
    for [_findSlottables], [found_slottables_wf], the turns of [_replaceSlots]
    that have no model are never reached from [applySlots]. *)
Lemma found_receivers_wf fuel root h receivers h' :
  _findSlotReceivers (E := E) fuel root h = Some (Normal receivers, h') ->
  named_wf (r_named receivers).
Proof.
  unfold _findSlotReceivers.
  destruct (forEachM _ root _) as [[[u|e] [h1 slots]]|] eqn:Hrun; try discriminate.
  intros H. inversion H; subst.
  apply (preserves_forEachM named_stays named_stays_refl named_stays_trans) in Hrun.
  - apply Hrun. intros n v Hv. discriminate Hv.
  - apply walk_receivers_named.
Qed.

End ReceiverFacts.

(** ** The session during CSS scoping *)

Section SessionFacts.
Context {U Err : Type}.
Variable classes : nat -> BaseClass U Err.
Variable parseHTML : string -> list DomNode.
Variable parseCSS : string -> Completion (Exn Err) Stylesheet.
Variable stringifyCSS : Stylesheet -> string.
Variable textRenderer : nat.

Abbreviation keeps_session :=
  (keeps (St := SSRState U) (fun st => session st)).
Abbreviation session_kept m :=
  (preserves (E := SSRExn Err) keeps_session m).

Local Ltac step :=
  first
    [ apply preserves_ret; apply keeps_refl
    | apply preserves_throw; apply keeps_refl
    | apply preserves_stuck
    | apply preserves_getTag | apply preserves_setTag | apply preserves_allocTag
    | apply preserves_getObj | apply preserves_setObj | apply preserves_allocObj
    | apply preserves_getHeap | apply preserves_getS
    | apply preserves_bind; [apply keeps_trans| |intros ?] ].

Lemma session_kept_domToTag cssClasses : forall node,
  session_kept (domToTag cssClasses node).
Proof.
  fix IH 1. intros [nodeValue|tagName attribs children|]; simpl.
  - step.
  - step; [step|]. step; [|step].
    apply preserves_mapM_Forall; [apply keeps_refl|apply keeps_trans|].
    induction children as [|c cs IHcs]; constructor; [apply IH|exact IHcs].
  - step.
Qed.

Lemma session_kept_parse cssClasses text :
  session_kept (parse parseHTML cssClasses text).
Proof.
  apply preserves_mapM; [apply keeps_refl|apply keeps_trans|].
  apply session_kept_domToTag.
Qed.

Lemma session_kept_tryRender instance template attrs :
  session_kept (_tryRender textRenderer instance template attrs).
Proof.
  unfold _tryRender. destruct template as [t|]; [|step].
  intros [h st] c st'. unfold mbind, M_bind, getS, putS. simpl.
  destruct (renderAsText _ _ _ _ _) as [[text|e] w']; simpl;
    intros H; inversion H; subst; reflexivity.
Qed.

Lemma session_kept_setChangeOn fuel changeOn : forall this,
  session_kept (setChangeOn fuel changeOn this).
Proof.
  induction fuel as [|fuel IH]; intros this; [step|].
  simpl. step; [step|].
  destruct a; try step.
  - apply preserves_forEachM; [apply keeps_refl|apply keeps_trans|apply IH].
  - step; [step|]. destruct a0; step.
Qed.

Lemma session_kept_parseTemplateCSS fuel instance acc template :
  session_kept (parseTemplateCSS parseHTML textRenderer fuel instance acc template).
Proof.
  unfold parseTemplateCSS.
  step; [apply session_kept_tryRender|]. destruct a as [text attrs].
  step; [apply session_kept_parse|].
  step; [step|].
  step; [|step].
  apply preserves_forEachM; [apply keeps_refl|apply keeps_trans|].
  apply session_kept_setChangeOn.
Qed.

Lemma session_kept_parseElementCSS fuel element instance attrs :
  session_kept
    (_parseElementCSS classes parseHTML textRenderer fuel element instance attrs).
Proof.
  unfold _parseElementCSS. destruct (css (classes element)) as [c|]; [|step].
  generalize (match c with CssSingle t => [t] | CssArray ts => ts end) as templates.
  intros templates.
  assert (H : forall m : M (SSRExn Err) (Heap * SSRState U) (list (list nat) * JSObj JSValue),
            session_kept m ->
            session_kept
              (fold_left (fun acc template =>
                            a ← acc;
                            parseTemplateCSS parseHTML textRenderer fuel instance a template)
                 templates m)).
  { induction templates as [|t ts IH]; intros m Hm; [exact Hm|].
    simpl. apply IH. step; [exact Hm|]. apply session_kept_parseTemplateCSS. }
  apply H. step.
Qed.

Lemma session_kept_cssParsed this : session_kept (cssParsed parseCSS this).
Proof.
  unfold cssParsed. step; [step|].
  destruct a as [| | |content co [sheet|]]; try step.
  destruct (parseCSS content); [|step]. step; step.
Qed.

Lemma session_kept_addPrefix prefix this :
  session_kept (addPrefix parseCSS prefix this).
Proof.
  unfold addPrefix. step; [apply session_kept_cssParsed|].
  destruct (stylesheet a); [|step]. step; [step|]. destruct a0; step.
Qed.

Lemma session_kept_stringify this :
  session_kept (stringify parseCSS stringifyCSS this).
Proof.
  unfold stringify. step; [apply session_kept_cssParsed|].
  step; [step|]. destruct a0; step.
Qed.

Lemma session_kept_walkCSSSheets fuel handler : forall tags,
  (forall t, session_kept (handler t)) ->
  session_kept (_walkCSSSheets fuel handler tags).
Proof.
  induction fuel as [|fuel IH]; intros tags Hh; [step|].
  simpl. apply preserves_mapM; [apply keeps_refl|apply keeps_trans|].
  intros tag. step; [step|].
  destruct a; try (step; [apply Hh|step]).
  step; [by apply IH|step].
Qed.

Lemma session_kept_addCSSPrefixes fuel templates uniqueID componentID :
  session_kept
    (_addCSSPrefixes parseCSS stringifyCSS fuel templates uniqueID componentID).
Proof.
  unfold _addCSSPrefixes.
  apply preserves_mapM; [apply keeps_refl|apply keeps_trans|]. intros template.
  apply preserves_mapM; [apply keeps_refl|apply keeps_trans|]. intros sheet.
  step; [step|]. step; [|step].
  apply session_kept_walkCSSSheets. intros t.
  step; [apply session_kept_addPrefix|apply session_kept_stringify].
Qed.

Lemma session_kept_html_prefix_handler uniqueID componentID tag :
  session_kept (html_prefix_handler (U := U) (Err := Err) uniqueID componentID tag).
Proof.
  unfold html_prefix_handler. step; [step|].
  destruct (instanceof_TextTag a); [step|].
  step; [step|]. step; [step|step].
Qed.

Lemma session_kept_addHTMLPrefixes fuel tags uniqueID componentID :
  session_kept (_addHTMLPrefixes (U := U) (Err := Err) fuel tags uniqueID componentID).
Proof.
  unfold _addHTMLPrefixes.
  apply preserves_mapM; [apply keeps_refl|apply keeps_trans|]. intros t.
  apply preserves_walk. apply session_kept_html_prefix_handler.
Qed.

End SessionFacts.

(** ** Unique identifiers *)

Lemma string_of_nat_inj n m : string_of_nat n = string_of_nat m -> n = m.
Proof.
  unfold string_of_nat. intros H.
  assert (Hnil : forall k, Nat.to_uint k <> Decimal.Nil).
  { intros k Hk. pose proof (DecimalNat.Unsigned.of_to k) as Hof.
    rewrite Hk in Hof. simpl in Hof. subst k. discriminate. }
  apply DecimalNat.Unsigned.to_uint_inj.
  pose proof (NilZero.usu _ (Hnil n)) as Hn.
  pose proof (NilZero.usu _ (Hnil m)) as Hm.
  rewrite H in Hn. congruence.
Qed.

Lemma append_inj_l (p x y : string) : p +:+ x = p +:+ y -> x = y.
Proof.
  induction p as [|a p IH]; simpl; [done|]. intros H. inversion H. by apply IH.
Qed.

(** Distinct counts give distinct identifiers. *)
Lemma uniqueID_inj tagName n m :
  "css-" +:+ tagName +:+ "-" +:+ string_of_nat n
  = "css-" +:+ tagName +:+ "-" +:+ string_of_nat m ->
  n = m.
Proof.
  intros H. do 3 apply append_inj_l in H. by apply string_of_nat_inj.
Qed.

(** [_generateUniqueID] in terms of the count. *)
Lemma _generateUniqueID_spec element tagName s :
  fst (_generateUniqueID element tagName s)
  = "css-" +:+ tagName +:+ "-" +:+ string_of_nat (expansions (css_state s) element)
  /\ _cssIdentifierMap (snd (_generateUniqueID element tagName s))
     = <[element := S (expansions (css_state s) element)]> (_cssIdentifierMap s)
  /\ _sheetSet (snd (_generateUniqueID element tagName s)) = _sheetSet s.
Proof.
  unfold _generateUniqueID, expansions, css_state. simpl.
  destruct (_cssIdentifierMap s !! element) as [n|] eqn:Hn; simpl.
  - rewrite Hn. simpl. rewrite Nat.add_1_r. done.
  - rewrite lookup_insert_eq. simpl. rewrite insert_insert_eq. done.
Qed.

Lemma _flatten_inr {V} (l : list (list V)) : _flatten (map inr l) = concat l.
Proof.
  unfold _flatten. induction l as [|x l IH]; [reflexivity|].
  simpl. by rewrite IH.
Qed.

Lemma _flatten_inl {V} (l : list V) : _flatten (map inl l) = l.
Proof.
  unfold _flatten. induction l as [|x l IH]; [reflexivity|].
  simpl. by rewrite IH.
Qed.

(** ** Two expansions of one definition *)

Definition ex_template (id : nat) (text : string) (mask : Z) : SSRTemplateFn unit unit :=
  {| t_id := id;
     _template := Some (fun _ env => (Normal (Some (RText text)), env));
     changeOn := mask |}.

(** [x-b] has a THEME-masked sheet (global) and a PROP-masked one (unique);
    [my-el] uses [x-b] in its markup. *)
Definition ex_classes (n : nat) : BaseClass unit unit :=
  match n with
  | 0%nat => {| is_ := Some "my-el"; dependencies := Some [1%nat];
                html := Some (ex_template 10 "outer" CHANGE_TYPE.PROP);
                css := None; props := None |}
  | 1%nat => {| is_ := Some "x-b"; dependencies := None;
                html := Some (ex_template 11 "inner" CHANGE_TYPE.PROP);
                css := Some (CssArray [ex_template 12 "sheet" CHANGE_TYPE.THEME;
                                       ex_template 13 "sheet" CHANGE_TYPE.PROP]);
                props := None |}
  | _ => plain_class
  end.

(** A parser that knows the three texts of [ex_classes]. *)
Definition ex_parseHTML (text : string) : list DomNode :=
  if String.eqb text "outer" then
    [DomElement "x-b" [("k", VStr "v")] [DomElement "i" [] []];
     DomElement "x-b" [] []]
  else if String.eqb text "inner" then [DomElement "slot" [] []]
  else if String.eqb text "sheet" then [DomElement "style" [] [DomText ".foo{}"]]
  else [].

Definition ex_parseCSS (text : string) : Completion (Exn unit) Stylesheet :=
  Normal {| stylesheet := Some [{| selectors := Some [".foo"]; declarations := "{}" |}] |}.

Definition ex_stringifyCSS (sheet : Stylesheet) : string :=
  String.concat ""
    (map (fun rule => String.concat "," (default [] (selectors rule)) +:+ declarations rule)
       (default [] (stylesheet sheet))).

Definition ex_ssr_world : World SSRInstance (JSObj JSValue) (SSREnv unit) :=
  {| templaterMap := ∅;
     userEnv := {| thisAttributes := []; user := tt |};
     invocations := [] |}.

Definition ex_instance (id : nat) : Component SSRInstance (JSObj JSValue) :=
  {| c_id := id;
     c_props := {| i_tagName := "x-b"; i_attribs := []; i_props := None |};
     c_getTheme := Some [] |}.

Abbreviation ex_getCSSApplied id state :=
  (getCSSApplied ex_classes ex_parseHTML ex_parseCSS ex_stringifyCSS 99 10
     1 (ex_instance id) "x-b" [] [] state).

(** The heap and the state after the first expansion of [x-b] in a new
    session, and what the second expansion returns from there. *)
Definition ex_first_expansion : option (Heap * SSRState unit) :=
  Eval vm_compute in
  match
    ex_getCSSApplied 0
      (empty_heap,
       {| session := new_DocumentSession; world := ex_ssr_world; nextInstance := 1 |})
  with
  | Some (Normal _, state) => Some state
  | _ => None
  end.

Definition ex_heap_after_first : Heap :=
  Eval vm_compute in
  match ex_first_expansion with Some state => fst state | None => empty_heap end.

Definition ex_state_after_first : SSRState unit :=
  Eval vm_compute in
  match ex_first_expansion with
  | Some state => snd state
  | None => {| session := new_DocumentSession; world := ex_ssr_world; nextInstance := 1 |}
  end.

Definition ex_second_expansion
  : option (Completion (SSRExn unit) (list nat * JSObj JSValue) * (Heap * SSRState unit)) :=
  Eval vm_compute in ex_getCSSApplied 1 (ex_heap_after_first, ex_state_after_first).

(** The first expansion puts out both sheets, the global one scoped with
    [css-x-b] and the unique one with [css-x-b-0]; the second puts out the
    unique sheet only, scoped with [css-x-b-1]. *)
Example css_two_expansions_example :
  match
    ex_getCSSApplied 0
      (empty_heap,
       {| session := new_DocumentSession; world := ex_ssr_world; nextInstance := 1 |})
  with
  | Some (Normal (out1, _), state1) =>
      match ex_getCSSApplied 1 state1 with
      | Some (Normal (out2, _), state2) =>
          map (toText 5 (fst state2)) out1
          = [Some "<style>css-x-b-.foo{}</style>"; Some "<style>css-x-b-0-.foo{}</style>"]
          /\ map (toText 5 (fst state2)) out2 = [Some "<style>css-x-b-1-.foo{}</style>"]
      | _ => False
      end
  | _ => False
  end.
Proof. vm_compute. split; reflexivity. Qed.

Lemma ex_second_expansion_run :
  ex_getCSSApplied 1 (ex_heap_after_first, ex_state_after_first) = ex_second_expansion.
Proof. vm_compute. reflexivity. Qed.

(** ** Computations on the heap alone *)

Section HeapOnly.
Context {E St : Type}.

(** [m] reads and writes the heap only: the rest of the state comes back as
    it was, and has no influence on the outcome. *)
Definition heap_only {A} (m : M E (Heap * St) A) : Prop :=
  forall h st st',
    match m (h, st), m (h, st') with
    | Some (c, (h1, s1)), Some (c', (h1', s1')) =>
        c = c' /\ h1 = h1' /\ s1 = st /\ s1' = st'
    | None, None => True
    | _, _ => False
    end.

Lemma heap_only_ret {A} (a : A) : heap_only (mret a).
Proof. intros h st st'. simpl. done. Qed.

Lemma heap_only_throw {A} (e : E) : heap_only (throw e : M E (Heap * St) A).
Proof. intros h st st'. simpl. done. Qed.

Lemma heap_only_stuck {A} : heap_only (stuck : M E (Heap * St) A).
Proof. intros h st st'. simpl. done. Qed.

Lemma heap_only_bind {A B} (m : M E (Heap * St) A) (k : A -> M E (Heap * St) B) :
  heap_only m -> (forall a, heap_only (k a)) -> heap_only (m ≫= k).
Proof.
  intros Hm Hk h st st'. unfold mbind, M_bind.
  specialize (Hm h st st').
  destruct (m (h, st)) as [[[a|e] [h1 s1]]|], (m (h, st')) as [[[a'|e'] [h1' s1']]|];
    try done.
  - destruct Hm as (Ha & Hh & -> & ->). inversion Ha; subst. apply Hk.
  - destruct Hm as (Ha & _). discriminate.
  - destruct Hm as (Ha & _). discriminate.
  - destruct Hm as (Ha & Hh & -> & ->). inversion Ha; subst. done.
Qed.

Lemma heap_only_mapM {A B} (f : A -> M E (Heap * St) B) (l : list A) :
  Forall (fun a => heap_only (f a)) l -> heap_only (mapM f l).
Proof.
  induction 1 as [|a l Ha _ IH]; [apply heap_only_ret|].
  rewrite mapM_cons. apply heap_only_bind; [exact Ha|].
  intros b. apply heap_only_bind; [exact IH|]. intros bs. apply heap_only_ret.
Qed.

Lemma heap_only_mapM_all {A B} (f : A -> M E (Heap * St) B) (l : list A) :
  (forall a, heap_only (f a)) -> heap_only (mapM f l).
Proof. intros Hf. apply heap_only_mapM. apply Forall_forall. intros; apply Hf. Qed.

Lemma heap_only_forEachM {A B} (f : A -> M E (Heap * St) B) (l : list A) :
  (forall a, heap_only (f a)) -> heap_only (forEachM f l).
Proof.
  intros Hf. apply heap_only_bind; [by apply heap_only_mapM_all|].
  intros _. apply heap_only_ret.
Qed.

Lemma heap_only_getTag l : heap_only (getTag l).
Proof. intros h st st'. unfold getTag. simpl. destruct (tags h !! l); done. Qed.

Lemma heap_only_setTag l t : heap_only (setTag l t).
Proof. intros h st st'. simpl. done. Qed.

Lemma heap_only_allocTag t : heap_only (allocTag t).
Proof. intros h st st'. simpl. done. Qed.

Lemma heap_only_getObj l : heap_only (getObj l).
Proof. intros h st st'. unfold getObj. simpl. destruct (objs h !! l); done. Qed.

Lemma heap_only_setObj l o : heap_only (setObj l o).
Proof. intros h st st'. simpl. done. Qed.

Lemma heap_only_allocObj o : heap_only (allocObj o).
Proof. intros h st st'. simpl. done. Qed.

Lemma heap_only_getHeap : heap_only getHeap.
Proof. intros h st st'. simpl. done. Qed.

Lemma heap_only_copy l : heap_only (copy l).
Proof.
  apply heap_only_bind; [apply heap_only_getTag|]. intros t. apply heap_only_allocTag.
Qed.

Lemma heap_only_setChildren l cs : heap_only (setChildren l cs).
Proof.
  apply heap_only_bind; [apply heap_only_getTag|]. intros t.
  apply heap_only_bind; [apply heap_only_setTag|]. intros _. apply heap_only_ret.
Qed.

Lemma heap_only_walk fuel handler : forall this,
  (forall t, heap_only (handler t)) -> heap_only (walk fuel handler this).
Proof.
  induction fuel as [|fuel IH]; intros this Hh; [apply heap_only_stuck|].
  simpl. apply heap_only_bind; [apply heap_only_getTag|].
  intros t. destruct (instanceof_TextTag t); [apply heap_only_ret|].
  apply heap_only_bind; [apply Hh|].
  intros result. destruct (default (this, true) result) as [newTag stop].
  apply heap_only_bind; [apply heap_only_getTag|].
  intros nt. destruct (instanceof_TextTag nt || stop); [apply heap_only_ret|].
  apply heap_only_bind; [apply heap_only_copy|].
  intros c. apply heap_only_bind; [|intros cs; apply heap_only_setChildren].
  apply heap_only_mapM_all. intros a. by apply IH.
Qed.

End HeapOnly.

Section HeapOnlySSR.
Context {U Err : Type}.
Variable parseHTML : string -> list DomNode.
Variable parseCSS : string -> Completion (Exn Err) Stylesheet.
Variable stringifyCSS : Stylesheet -> string.

Abbreviation on_heap m := (heap_only (E := SSRExn Err) (St := SSRState U) m).

Local Ltac hstep :=
  first
    [ apply heap_only_ret | apply heap_only_throw | apply heap_only_stuck
    | apply heap_only_getTag | apply heap_only_setTag | apply heap_only_allocTag
    | apply heap_only_getObj | apply heap_only_setObj | apply heap_only_allocObj
    | apply heap_only_getHeap
    | apply heap_only_bind; [|intros ?] ].

Lemma on_heap_domToTag cssClasses : forall node, on_heap (domToTag cssClasses node).
Proof.
  fix IH 1. intros [nodeValue|tagName attribs children|]; simpl.
  - hstep.
  - hstep; [hstep|]. hstep; [|hstep].
    apply heap_only_mapM.
    induction children as [|c cs IHcs]; constructor; [apply IH|exact IHcs].
  - hstep.
Qed.

Lemma on_heap_parse cssClasses text : on_heap (parse parseHTML cssClasses text).
Proof. apply heap_only_mapM_all. apply on_heap_domToTag. Qed.

Lemma on_heap_setChangeOn fuel changeOn : forall this,
  on_heap (setChangeOn fuel changeOn this).
Proof.
  induction fuel as [|fuel IH]; intros this; [hstep|].
  simpl. hstep; [hstep|].
  destruct a; try hstep.
  - apply heap_only_forEachM. apply IH.
  - hstep; [hstep|]. destruct a0; hstep.
Qed.

Lemma on_heap_cssParsed this : on_heap (cssParsed parseCSS this).
Proof.
  unfold cssParsed. hstep; [hstep|].
  destruct a as [| | |content co [sheet|]]; try hstep.
  destruct (parseCSS content); [|hstep]. hstep; hstep.
Qed.

Lemma on_heap_addPrefix prefix this : on_heap (addPrefix parseCSS prefix this).
Proof.
  unfold addPrefix. hstep; [apply on_heap_cssParsed|].
  destruct (stylesheet a); [|hstep]. hstep; [hstep|]. destruct a0; hstep.
Qed.

Lemma on_heap_stringify this : on_heap (stringify parseCSS stringifyCSS this).
Proof.
  unfold stringify. hstep; [apply on_heap_cssParsed|].
  hstep; [hstep|]. destruct a0; hstep.
Qed.

Lemma on_heap_walkCSSSheets fuel handler : forall tags,
  (forall t, on_heap (handler t)) -> on_heap (_walkCSSSheets fuel handler tags).
Proof.
  induction fuel as [|fuel IH]; intros tags Hh; [hstep|].
  simpl. apply heap_only_mapM_all.
  intros tag. hstep; [hstep|].
  destruct a; try (hstep; [apply Hh|hstep]).
  hstep; [by apply IH|hstep].
Qed.

Lemma on_heap_addCSSPrefixes fuel templates uniqueID componentID :
  on_heap (_addCSSPrefixes parseCSS stringifyCSS fuel templates uniqueID componentID).
Proof.
  unfold _addCSSPrefixes.
  apply heap_only_mapM_all. intros template.
  apply heap_only_mapM_all. intros sheet.
  hstep; [hstep|]. hstep; [|hstep].
  apply on_heap_walkCSSSheets. intros t.
  hstep; [apply on_heap_addPrefix|apply on_heap_stringify].
Qed.

Lemma on_heap_html_prefix_handler uniqueID componentID tag :
  on_heap (html_prefix_handler uniqueID componentID tag).
Proof.
  unfold html_prefix_handler. hstep; [hstep|].
  destruct (instanceof_TextTag a); [hstep|].
  hstep; [hstep|]. hstep; [hstep|hstep].
Qed.

Lemma on_heap_addHTMLPrefixes fuel tags uniqueID componentID :
  on_heap (_addHTMLPrefixes fuel tags uniqueID componentID).
Proof.
  unfold _addHTMLPrefixes. apply heap_only_mapM_all. intros t.
  apply heap_only_walk. apply on_heap_html_prefix_handler.
Qed.

Lemma on_heap_liftHeap {A} (f : Heap -> option (Completion (SSRExn Err) A * Heap)) :
  on_heap (liftHeap f).
Proof.
  intros h st st'. unfold liftHeap. simpl.
  destruct (f h) as [[c h']|]; done.
Qed.

End HeapOnlySSR.

(** ** Two renders side by side *)

Section TwoRuns.
Context {U Err : Type}.
Variable textRenderer : nat.

Abbreviation RS := (Heap * SSRState U)%type.
Abbreviation RM := (M (SSRExn Err) (Heap * SSRState U)).

(** The cached results of the instance [c1] in one run are those of the
    instance [c2] in the other. *)
Definition agree (c1 c2 : nat) (s1 s2 : RS) : Prop :=
  forall k,
    cache_entry (templaterMap (world (snd s1))) textRenderer c1 k
    = cache_entry (templaterMap (world (snd s2))) textRenderer c2 k.

(** The states of two renders that have gone through the same steps: the
    same heap of tags and the same session; [pairs] lists, for the elements
    being expanded, the instance of the one run with the instance of the
    other. Nothing is asked of the user state or of the rest of the
    caches. *)
Record related (pairs : list (nat * nat)) (s1 s2 : RS) : Prop := {
  rel_heap : fst s1 = fst s2;
  rel_session : session (snd s1) = session (snd s2);
  rel_fresh1 : fresh_instances textRenderer (world (snd s1)) (nextInstance (snd s1));
  rel_fresh2 : fresh_instances textRenderer (world (snd s2)) (nextInstance (snd s2));
  rel_pairs :
    forall c1 c2, In (c1, c2) pairs ->
      (c1 < nextInstance (snd s1))%nat /\ (c2 < nextInstance (snd s2))%nat
      /\ agree c1 c2 s1 s2;
  rel_inj :
    forall c1 c2 d1 d2, In (c1, c2) pairs -> In (d1, d2) pairs -> (c1 = d1 <-> c2 = d2)
}.

(** Run side by side from related states, [m1] and [m2] have the same
    outcome and end in related states. *)
Definition rel2 (pairs : list (nat * nat)) {A} (m1 m2 : RM A) : Prop :=
  forall s1 s2, related pairs s1 s2 ->
    match m1 s1, m2 s2 with
    | Some (c1, s1'), Some (c2, s2') => c1 = c2 /\ related pairs s1' s2'
    | None, None => True
    | _, _ => False
    end.

Lemma rel2_ret pairs {A} (a : A) : rel2 pairs (mret a) (mret a).
Proof. intros s1 s2 H. simpl. done. Qed.

Lemma rel2_throw pairs {A} e : rel2 pairs (throw e : RM A) (throw e).
Proof. intros s1 s2 H. simpl. done. Qed.

Lemma rel2_stuck pairs {A} : rel2 pairs (stuck : RM A) stuck.
Proof. intros s1 s2 H. simpl. done. Qed.

Lemma rel2_bind pairs {A B} (m1 m2 : RM A) (k1 k2 : A -> RM B) :
  rel2 pairs m1 m2 -> (forall a, rel2 pairs (k1 a) (k2 a)) ->
  rel2 pairs (m1 ≫= k1) (m2 ≫= k2).
Proof.
  intros Hm Hk s1 s2 H. unfold mbind, M_bind. specialize (Hm s1 s2 H).
  destruct (m1 s1) as [[[a1|e1] s1']|], (m2 s2) as [[[a2|e2] s2']|]; try done.
  - destruct Hm as [Ha Hr]. inversion Ha; subst. by apply Hk.
  - destruct Hm as [Ha _]. discriminate.
  - destruct Hm as [Ha _]. discriminate.
  - destruct Hm as [Ha Hr]. inversion Ha; subst. done.
Qed.

Lemma rel2_mapM pairs {A B} (f1 f2 : A -> RM B) (l : list A) :
  (forall a, rel2 pairs (f1 a) (f2 a)) -> rel2 pairs (mapM f1 l) (mapM f2 l).
Proof.
  intros Hf. induction l as [|a l IH]; [apply rel2_ret|].
  rewrite !mapM_cons. apply rel2_bind; [apply Hf|].
  intros b. apply rel2_bind; [exact IH|]. intros bs. apply rel2_ret.
Qed.

(** A computation on the heap alone is related to itself. *)
Lemma rel2_heap_only pairs {A} (m : RM A) : heap_only m -> rel2 pairs m m.
Proof.
  intros Hm [h1 st1] [h2 st2] H. destruct H as [Hh Hs Hf1 Hf2 Hp Hi]. simpl in *.
  subst h2. specialize (Hm h1 st1 st2).
  destruct (m (h1, st1)) as [[c [h1' s1']]|], (m (h1, st2)) as [[c' [h2' s2']]|]; try done.
  destruct Hm as (-> & -> & -> & ->). split; [reflexivity|].
  split; simpl; try done.
Qed.

Lemma rel2_getSession pairs : rel2 pairs getSession getSession.
Proof.
  intros [h1 st1] [h2 st2] H. unfold getSession, mbind, M_bind, getS. simpl.
  split; [|exact H]. f_equal. apply (rel_session _ _ _ H).
Qed.

Lemma rel2_putSession pairs s : rel2 pairs (putSession s) (putSession s).
Proof.
  intros [h1 st1] [h2 st2] H. unfold putSession, mbind, M_bind, getS, putS. simpl.
  split; [reflexivity|]. destruct H as [Hh Hs Hf1 Hf2 Hp Hi]. split; simpl in *; done.
Qed.

Lemma rel2_walk pairs fuel (handler1 handler2 : nat -> RM (option (nat * bool))) :
  forall this,
  (forall t, rel2 pairs (handler1 t) (handler2 t)) ->
  rel2 pairs (walk fuel handler1 this) (walk fuel handler2 this).
Proof.
  induction fuel as [|fuel IH]; intros this Hh; [apply rel2_stuck|].
  simpl. apply rel2_bind; [apply rel2_heap_only, heap_only_getTag|].
  intros t. destruct (instanceof_TextTag t); [apply rel2_ret|].
  apply rel2_bind; [apply Hh|].
  intros result. destruct (default (this, true) result) as [newTag stop].
  apply rel2_bind; [apply rel2_heap_only, heap_only_getTag|].
  intros nt. destruct (instanceof_TextTag nt || stop); [apply rel2_ret|].
  apply rel2_bind; [apply rel2_heap_only, heap_only_copy|].
  intros c. apply rel2_bind; [|intros cs; apply rel2_heap_only, heap_only_setChildren].
  apply rel2_mapM. intros a. by apply IH.
Qed.

(** Forgetting the pair of an element whose expansion is over. *)
Lemma related_tail p pairs s1 s2 : related (p :: pairs) s1 s2 -> related pairs s1 s2.
Proof.
  intros [Hh Hs Hf1 Hf2 Hp Hi]. split; try done.
  - intros c1 c2 Hin. apply Hp. by right.
  - intros c1 c2 d1 d2 H1 H2. apply Hi; by right.
Qed.

End TwoRuns.

(** ** The memoizer in two runs *)

(** A render call changes the entries of its templater and component
    only. *)
Lemma render_frame {Props Theme Env Err}
    (self : TemplateFn Props Theme Env Err) changeType
    (component : Component Props Theme) templater (w : World Props Theme Env) t c k :
  ~ (t = effective_templater component templater /\ c = c_id component) ->
  cache_entry
    (templaterMap (snd (_renderWithTemplater self changeType component templater w))) t c k
  = cache_entry (templaterMap w) t c k.
Proof.
  intros Hne. rewrite render_unfold.
  set (key := effective_templater component templater) in *.
  assert (Hstore : forall r,
    cache_entry
      (<[key := <[c_id component := <[t_id self := r]>
                   (inner_templateMap (templaterMap w) key (c_id component))]>
                  (inner_componentMap (templaterMap w) key (c_id component))]>
         (with_inner_maps (templaterMap w) key (c_id component))) t c k
    = cache_entry (templaterMap w) t c k).
  { intros r. rewrite cache_entry_store. rewrite decide_False; [reflexivity|].
    intros (-> & -> & _). by apply Hne. }
  assert (Hcall : forall f,
    cache_entry
      (templaterMap
         (snd (call_and_store self f changeType component key
                 (with_inner_maps (templaterMap w) key (c_id component))
                 (inner_componentMap (templaterMap w) key (c_id component))
                 (inner_templateMap (templaterMap w) key (c_id component)) w))) t c k
    = cache_entry (templaterMap w) t c k).
  { intros f. unfold call_and_store. destruct (f _ _) as [[r|e] env']; simpl.
    - apply Hstore.
    - apply cache_entry_with_inner_maps. }
  destruct (truthy_num (js_band (changeOn self) CHANGE_TYPE.NEVER)).
  - destruct (truthy_cached _); [apply cache_entry_with_inner_maps|].
    destruct (_template self) as [f|]; [apply Hcall|apply Hstore].
  - destruct (truthy_num _ || _); [|apply cache_entry_with_inner_maps].
    destruct (_template self) as [f|]; [apply Hcall|apply cache_entry_with_inner_maps].
Qed.

Section RenderTwoRuns.
Context {U Err : Type}.
Variable textRenderer : nat.
Implicit Types (w : World SSRInstance (JSObj JSValue) (SSREnv U)).
Implicit Types (i : Component SSRInstance (JSObj JSValue)).

(** The same template rendered for two instances with the same inputs and
    the same cached results, in two worlds: the same outcome, the same
    attributes left on the instance, and the same cached results again. *)
Lemma render_two_runs (self : SSRTemplateFn U Err) changeType i1 i2 w1 w2 :
  c_props i1 = c_props i2 ->
  c_getTheme i1 = c_getTheme i2 ->
  deterministic_template self ->
  thisAttributes (userEnv w1) = thisAttributes (userEnv w2) ->
  (forall k, cache_entry (templaterMap w1) textRenderer (c_id i1) k
             = cache_entry (templaterMap w2) textRenderer (c_id i2) k) ->
  let o1 := _renderWithTemplater self changeType i1 (Some textRenderer) w1 in
  let o2 := _renderWithTemplater self changeType i2 (Some textRenderer) w2 in
  fst o1 = fst o2
  /\ thisAttributes (userEnv (snd o1)) = thisAttributes (userEnv (snd o2))
  /\ (forall k, cache_entry (templaterMap (snd o1)) textRenderer (c_id i1) k
                = cache_entry (templaterMap (snd o2)) textRenderer (c_id i2) k).
Proof.
  intros Hprops Htheme Hdet Hattrs Hagree o1 o2. unfold o1, o2.
  rewrite !render_unfold. simpl effective_templater.
  rewrite <- (Hagree (t_id self)).
  set (entry := cache_entry (templaterMap w1) textRenderer (c_id i1) (t_id self)).
  assert (Hstore : forall r k,
    cache_entry
      (<[textRenderer := <[c_id i1 := <[t_id self := r]>
                   (inner_templateMap (templaterMap w1) textRenderer (c_id i1))]>
                  (inner_componentMap (templaterMap w1) textRenderer (c_id i1))]>
         (with_inner_maps (templaterMap w1) textRenderer (c_id i1)))
      textRenderer (c_id i1) k
    = cache_entry
      (<[textRenderer := <[c_id i2 := <[t_id self := r]>
                   (inner_templateMap (templaterMap w2) textRenderer (c_id i2))]>
                  (inner_componentMap (templaterMap w2) textRenderer (c_id i2))]>
         (with_inner_maps (templaterMap w2) textRenderer (c_id i2)))
      textRenderer (c_id i2) k).
  { intros r k. rewrite !cache_entry_store.
    destruct (decide (k = t_id self)) as [->|Hk].
    - rewrite !decide_True; done.
    - rewrite !decide_False; [apply Hagree| |]; intros (_ & _ & ?); done. }
  assert (Hinner : forall k,
    cache_entry (with_inner_maps (templaterMap w1) textRenderer (c_id i1))
      textRenderer (c_id i1) k
    = cache_entry (with_inner_maps (templaterMap w2) textRenderer (c_id i2))
      textRenderer (c_id i2) k).
  { intros k. rewrite !cache_entry_with_inner_maps. apply Hagree. }
  assert (Hcall : forall f, _template self = Some f ->
    let c1 := call_and_store self f changeType i1 textRenderer
                (with_inner_maps (templaterMap w1) textRenderer (c_id i1))
                (inner_componentMap (templaterMap w1) textRenderer (c_id i1))
                (inner_templateMap (templaterMap w1) textRenderer (c_id i1)) w1 in
    let c2 := call_and_store self f changeType i2 textRenderer
                (with_inner_maps (templaterMap w2) textRenderer (c_id i2))
                (inner_componentMap (templaterMap w2) textRenderer (c_id i2))
                (inner_templateMap (templaterMap w2) textRenderer (c_id i2)) w2 in
    fst c1 = fst c2
    /\ thisAttributes (userEnv (snd c1)) = thisAttributes (userEnv (snd c2))
    /\ (forall k, cache_entry (templaterMap (snd c1)) textRenderer (c_id i1) k
                  = cache_entry (templaterMap (snd c2)) textRenderer (c_id i2) k)).
  { intros f Hf. unfold call_and_store.
    destruct (Hdet f Hf (template_args i1 textRenderer changeType)
                (template_args i2 textRenderer changeType) (userEnv w1) (userEnv w2))
      as [Hres Hatt].
    { unfold same_inputs, template_args. simpl. rewrite Hprops, Htheme. done. }
    { exact Hattrs. }
    destruct (f (template_args i1 textRenderer changeType) (userEnv w1)) as [[r1|e1] env1],
             (f (template_args i2 textRenderer changeType) (userEnv w2)) as [[r2|e2] env2];
      simpl in Hres, Hatt; inversion Hres; subst; simpl.
    - split; [reflexivity|]. split; [exact Hatt|]. apply Hstore.
    - split; [reflexivity|]. split; [exact Hatt|]. apply Hinner. }
  destruct (truthy_num (js_band (changeOn self) CHANGE_TYPE.NEVER)).
  - destruct (truthy_cached entry); [simpl; done|].
    destruct (_template self) as [f|] eqn:Hf; [by apply Hcall|].
    simpl. split; [reflexivity|]. split; [exact Hattrs|]. apply Hstore.
  - destruct (truthy_num _ || _); [|simpl; done].
    destruct (_template self) as [f|] eqn:Hf; [by apply Hcall|]. simpl. done.
Qed.

End RenderTwoRuns.

(** ** The driver in two runs *)

Section DriverTwoRuns.
Context {U Err : Type}.
Variable classes : nat -> BaseClass U Err.
Variable parseHTML : string -> list DomNode.
Variable parseCSS : string -> Completion (Exn Err) Stylesheet.
Variable stringifyCSS : Stylesheet -> string.
Variable onConnect : SSRInstance -> JSObj JSValue.
Variable textRenderer : nat.
Hypothesis Hdet : deterministic_classes classes.

Implicit Types (i : Component SSRInstance (JSObj JSValue)).
Implicit Types (pairs : list (nat * nat)).

Abbreviation rel pairs m1 m2 := (rel2 (U := U) (Err := Err) textRenderer pairs m1 m2).

(** The instances of two runs that stand for each other. *)
Definition paired pairs i1 i2 : Prop :=
  In (c_id i1, c_id i2) pairs
  /\ c_props i1 = c_props i2
  /\ c_getTheme i1 = c_getTheme i2.

Lemma rel_tryRender pairs i1 i2 template attrs :
  paired pairs i1 i2 ->
  (forall t, template = Some t -> deterministic_template t) ->
  rel pairs (_tryRender textRenderer i1 template attrs)
            (_tryRender textRenderer i2 template attrs).
Proof.
  intros (Hin & Hprops & Htheme) Hdt.
  destruct template as [t|]; [|apply rel2_ret].
  intros [h1 st1] [h2 st2] Hrel.
  destruct Hrel as [Hh Hs Hf1 Hf2 Hp Hi]. simpl in *.
  unfold _tryRender, mbind, M_bind, getS, putS, renderAsText. simpl.
  set (w10 := {| templaterMap := templaterMap (world st1);
                 userEnv := {| thisAttributes := attrs; user := user (userEnv (world st1)) |};
                 invocations := invocations (world st1) |}).
  set (w20 := {| templaterMap := templaterMap (world st2);
                 userEnv := {| thisAttributes := attrs; user := user (userEnv (world st2)) |};
                 invocations := invocations (world st2) |}).
  destruct (Hp _ _ Hin) as (Hlt1 & Hlt2 & Hag).
  destruct (render_two_runs textRenderer t CHANGE_TYPE.ALWAYS i1 i2 w10 w20
              Hprops Htheme (Hdt t eq_refl) eq_refl Hag) as (Hres & Hatt & Hag').
  pose proof (fun t0 c k => render_frame t CHANGE_TYPE.ALWAYS i1 (Some textRenderer)
                              w10 t0 c k) as F1.
  pose proof (fun t0 c k => render_frame t CHANGE_TYPE.ALWAYS i2 (Some textRenderer)
                              w20 t0 c k) as F2.
  simpl effective_templater in F1, F2.
  destruct (_renderWithTemplater t CHANGE_TYPE.ALWAYS i1 (Some textRenderer) w10)
    as [c1 w1'].
  destruct (_renderWithTemplater t CHANGE_TYPE.ALWAYS i2 (Some textRenderer) w20)
    as [c2 w2'].
  simpl in Hres, Hatt, Hag', F1, F2. subst c2.
  assert (Hrelated :
    related textRenderer pairs
      (h1, {| session := session st1; world := w1'; nextInstance := nextInstance st1 |})
      (h2, {| session := session st2; world := w2'; nextInstance := nextInstance st2 |})).
  { split; simpl; try done.
    - intros c k Hc. rewrite F1; [by apply Hf1|]. intros [_ ->]. lia.
    - intros c k Hc. rewrite F2; [by apply Hf2|]. intros [_ ->]. lia.
    - intros d1 d2 Hd. destruct (Hp _ _ Hd) as (Hd1 & Hd2 & Hagd).
      split; [exact Hd1|]. split; [exact Hd2|].
      intros k. unfold agree in *. simpl in *.
      destruct (decide (d1 = c_id i1)) as [->|Hne].
      + assert (d2 = c_id i2) as -> by (by apply (Hi _ _ _ _ Hd Hin)).
        apply Hag'.
      + assert (d2 <> c_id i2) by (intros ->; apply Hne; by apply (Hi _ _ _ _ Hd Hin)).
        rewrite F1, F2; [apply Hagd| |]; intros [_ ?]; done. }
  destruct c1 as [r|e]; simpl.
  - destruct (rendered r) as [[]|]; simpl;
      (split; [first [by rewrite Hatt|reflexivity]|exact Hrelated]).
  - split; [reflexivity|exact Hrelated].
Qed.

Local Ltac pure_step :=
  apply rel2_heap_only;
  first
    [ apply heap_only_ret | apply heap_only_getTag | apply heap_only_getObj
    | apply heap_only_allocObj | apply heap_only_allocTag | apply heap_only_getHeap
    | apply on_heap_parse | apply on_heap_addCSSPrefixes | apply on_heap_addHTMLPrefixes
    | apply on_heap_liftHeap
    | apply heap_only_forEachM; apply on_heap_setChangeOn ].

Local Ltac rstep :=
  first
    [ apply rel2_ret | apply rel2_throw | apply rel2_stuck
    | apply rel2_getSession | apply rel2_putSession
    | pure_step
    | apply rel2_bind; [|intros ?] ].

Lemma rel_parseTemplateCSS pairs i1 i2 fuel acc template :
  paired pairs i1 i2 ->
  deterministic_template template ->
  rel pairs (parseTemplateCSS parseHTML textRenderer fuel i1 acc template)
            (parseTemplateCSS parseHTML textRenderer fuel i2 acc template).
Proof.
  intros Hpaired Hdt. unfold parseTemplateCSS.
  rstep.
  { apply rel_tryRender; [exact Hpaired|]. intros t Ht. inversion Ht; subst. exact Hdt. }
  destruct a as [text attrs]. rstep; [rstep|]. rstep; [rstep|]. rstep; rstep.
Qed.

Lemma rel_parseElementCSS pairs i1 i2 fuel element attrs :
  paired pairs i1 i2 ->
  rel pairs
    (_parseElementCSS classes parseHTML textRenderer fuel element i1 attrs)
    (_parseElementCSS classes parseHTML textRenderer fuel element i2 attrs).
Proof.
  intros Hpaired. unfold _parseElementCSS.
  assert (Htemplates : forall t,
            In t (match css (classes element) with
                  | Some (CssSingle t) => [t] | Some (CssArray ts) => ts | None => []
                  end) -> deterministic_template t).
  { intros t Ht. apply (Hdet element). unfold class_templates.
    apply in_or_app. by right. }
  destruct (css (classes element)) as [c|]; [|rstep].
  assert (Hlist : forall t, In t (match c with CssSingle t => [t] | CssArray ts => ts end) ->
                    deterministic_template t).
  { intros t Ht. apply Htemplates. destruct c; exact Ht. }
  clear Htemplates.
  generalize dependent (match c with CssSingle t => [t] | CssArray ts => ts end).
  intros templates Hlist.
  assert (H : forall m1 m2 : M (SSRExn Err) (Heap * SSRState U)
                             (list (list nat) * JSObj JSValue),
            rel pairs m1 m2 ->
            rel pairs
              (fold_left (fun acc template =>
                            a ← acc;
                            parseTemplateCSS parseHTML textRenderer fuel i1 a template)
                 templates m1)
              (fold_left (fun acc template =>
                            a ← acc;
                            parseTemplateCSS parseHTML textRenderer fuel i2 a template)
                 templates m2)).
  { induction templates as [|t ts IH]; intros m1 m2 Hm; [exact Hm|].
    simpl. apply IH; [intros t' Ht'; apply Hlist; by right|].
    apply rel2_bind; [exact Hm|]. intros a.
    apply rel_parseTemplateCSS; [exact Hpaired|]. apply Hlist. by left. }
  apply H. rstep.
Qed.

Lemma rel_getCSSApplied pairs i1 i2 fuel element tagName children attrs :
  paired pairs i1 i2 ->
  rel pairs
    (getCSSApplied classes parseHTML parseCSS stringifyCSS textRenderer fuel
       element i1 tagName children attrs)
    (getCSSApplied classes parseHTML parseCSS stringifyCSS textRenderer fuel
       element i2 tagName children attrs).
Proof.
  intros Hpaired. unfold getCSSApplied.
  rstep; [rstep|]. destruct (_generateUniqueID element tagName a) as [uniqueID s1].
  rstep; [rstep|]. rstep; [by apply rel_parseElementCSS|].
  destruct a1 as [parsed attrs']. rstep; [rstep|]. rstep; [rstep|].
  rstep; [rstep|]. rstep; [rstep|]. rstep; rstep.
Qed.

(** A new instance in each run: the two stand for each other from then
    on. *)
Lemma rel_newInstance_bind pairs {A} element tagName attribs theme
    (k : Component SSRInstance (JSObj JSValue) -> M (SSRExn Err) (Heap * SSRState U) A) :
  (forall i1 i2, c_props i1 = c_props i2 -> c_getTheme i1 = c_getTheme i2 ->
     rel ((c_id i1, c_id i2) :: pairs) (k i1) (k i2)) ->
  rel pairs (newInstance classes element tagName attribs theme ≫= k)
            (newInstance classes element tagName attribs theme ≫= k).
Proof.
  intros Hk [h1 st1] [h2 st2] Hrel.
  unfold newInstance, mbind, M_bind, getS, putS. simpl.
  set (i1 := {| c_id := nextInstance st1;
                c_props := {| i_tagName := tagName; i_attribs := attribs;
                              i_props := props (classes element) |};
                c_getTheme := Some theme |}).
  set (i2 := {| c_id := nextInstance st2;
                c_props := {| i_tagName := tagName; i_attribs := attribs;
                              i_props := props (classes element) |};
                c_getTheme := Some theme |}).
  set (s1 := (h1, {| session := session st1; world := world st1;
                     nextInstance := S (nextInstance st1) |})).
  set (s2 := (h2, {| session := session st2; world := world st2;
                     nextInstance := S (nextInstance st2) |})).
  assert (Hnew : related textRenderer ((c_id i1, c_id i2) :: pairs) s1 s2).
  { destruct Hrel as [Hh Hs Hf1 Hf2 Hp Hi]. simpl in *. split; simpl; try done.
    - intros c k0 Hc. apply Hf1. lia.
    - intros c k0 Hc. apply Hf2. lia.
    - intros c1 c2 [Heq|Hin].
      + inversion Heq; subst. split; [lia|]. split; [lia|].
        intros k0. unfold agree. simpl. rewrite Hf1, Hf2; [reflexivity|lia|lia].
      + destruct (Hp _ _ Hin) as (H1 & H2 & H3). split; [lia|]. split; [lia|exact H3].
    - intros c1 c2 d1 d2 [Hc|Hc] [Hd|Hd].
      + inversion Hc; inversion Hd; subst. done.
      + inversion Hc; subst. destruct (Hp _ _ Hd) as (H1 & H2 & _). split; lia.
      + inversion Hd; subst. destruct (Hp _ _ Hc) as (H1 & H2 & _). split; lia.
      + by apply Hi. }
  specialize (Hk i1 i2 eq_refl eq_refl s1 s2 Hnew).
  destruct (k i1 s1) as [[c1 s1']|], (k i2 s2) as [[c2 s2']|]; try done.
  destruct Hk as [Hc Hr]. split; [exact Hc|]. by apply related_tail in Hr.
Qed.

Lemma rel_mapTag pairs fuel
    (nested : nat -> JSObj JSValue -> JSObj JSValue -> M (SSRExn Err) (Heap * SSRState U) nat)
    theme tag :
  (forall element attribs theme, rel pairs (nested element attribs theme)
                                           (nested element attribs theme)) ->
  rel pairs (_mapTag fuel nested theme tag) (_mapTag fuel nested theme tag).
Proof.
  intros Hnested. unfold _mapTag.
  rstep; [rstep|]. destruct (instanceof_TextTag a); [rstep|].
  rstep; [rstep|].
  destruct (negb (includes_dash (tag_tagName a)) || _); [rstep|].
  destruct (_elementMap a0 !! tag_tagName a) as [element|]; [|rstep].
  rstep; [rstep|]. rstep; [apply Hnested|]. rstep; rstep.
Qed.

Lemma rel_elementToTag fuel : forall pairs element attribs theme,
  rel pairs
    (elementToTag classes parseHTML parseCSS stringifyCSS onConnect textRenderer
       fuel element attribs theme)
    (elementToTag classes parseHTML parseCSS stringifyCSS onConnect textRenderer
       fuel element attribs theme).
Proof.
  induction fuel as [|fuel IH]; intros pairs element attribs theme; [apply rel2_stuck|].
  simpl. rstep; [rstep|].
  rstep.
  { destruct (truthy_str (is_ (classes element))); [rstep|]. rstep; rstep. }
  apply rel_newInstance_bind. intros i1 i2 Hprops Htheme.
  assert (Hpaired : paired ((c_id i1, c_id i2) :: pairs) i1 i2).
  { split; [by left|done]. }
  rewrite Hprops.
  rstep.
  { apply rel_tryRender; [exact Hpaired|].
    intros t Ht. apply (Hdet element). unfold class_templates.
    apply in_or_app. left. rewrite Ht. by left. }
  destruct a1 as [text attrs]. rstep; [rstep|].
  rstep.
  { apply rel2_mapM. intros t. apply rel2_walk. intros t'.
    apply rel_mapTag. intros e a' th. apply IH. }
  rstep; [by apply rel_getCSSApplied|].
  destruct a3 as [cssApplied attrs']. rstep; rstep.
Qed.

Lemma rel_render pairs fuel element attributes theme :
  rel pairs
    (render classes parseHTML parseCSS stringifyCSS onConnect textRenderer
       fuel element attributes theme)
    (render classes parseHTML parseCSS stringifyCSS onConnect textRenderer
       fuel element attributes theme).
Proof.
  unfold render. rstep; [apply rel_elementToTag|]. rstep; [rstep|].
  destruct (toText fuel a0 a); rstep.
Qed.

Lemma rel_renderElement pairs fuel element props attributes theme :
  rel pairs
    (renderElement classes parseHTML parseCSS stringifyCSS onConnect textRenderer
       fuel element props attributes theme)
    (renderElement classes parseHTML parseCSS stringifyCSS onConnect textRenderer
       fuel element props attributes theme).
Proof.
  unfold renderElement.
  destruct (Dependencies.buildMap fuel classes element ∅); [|rstep].
  rstep; [rstep|]. rstep; [rstep|]. apply rel_render.
Qed.

(** Two renders of the same inputs, each in a session of its own, in any two
    worlds: the same outcome. *)
Lemma ssr_two_worlds fuel element props attributes theme w1 n1 w2 n2 :
  fresh_instances textRenderer w1 n1 ->
  fresh_instances textRenderer w2 n2 ->
  match
    ssr classes parseHTML parseCSS stringifyCSS onConnect textRenderer
      fuel element props attributes theme w1 n1,
    ssr classes parseHTML parseCSS stringifyCSS onConnect textRenderer
      fuel element props attributes theme w2 n2
  with
  | Some (c1, st1), Some (c2, st2) =>
      c1 = c2
      /\ fresh_instances textRenderer (world st1) (nextInstance st1)
      /\ fresh_instances textRenderer (world st2) (nextInstance st2)
  | None, None => True
  | _, _ => False
  end.
Proof.
  intros Hf1 Hf2. unfold ssr.
  pose proof (rel_renderElement [] fuel element props attributes theme
                (empty_heap, {| session := new_DocumentSession; world := w1;
                                nextInstance := n1 |})
                (empty_heap, {| session := new_DocumentSession; world := w2;
                                nextInstance := n2 |})) as H.
  destruct (renderElement _ _ _ _ _ _ _ _ _ _ _ (empty_heap, {| world := w1 |}))
    as [[c1 [h1 st1]]|],
    (renderElement _ _ _ _ _ _ _ _ _ _ _ (empty_heap, {| world := w2 |}))
    as [[c2 [h2 st2]]|].
  - destruct H as [Hc Hr]; [split; simpl; done|].
    split; [exact Hc|]. split; [apply (rel_fresh1 _ _ _ _ Hr)|apply (rel_fresh2 _ _ _ _ Hr)].
  - apply H. split; simpl; done.
  - apply H. split; simpl; done.
  - exact I.
Qed.

End DriverTwoRuns.

(** C8. With deterministic render functions, rendering the same definition,
    props, attributes and theme in a new session gives the same text in any
    two worlds in which the instances still to be created have no cached
    result, whatever the caches of earlier renders and the state of user
    code hold; the world a render leaves is such a world again, so the
    second of two renders in a row is covered. *)
Theorem ssr_same_output_in_fresh_sessions {U Err : Type}
    (classes : nat -> BaseClass U Err)
    (parseHTML : string -> list DomNode)
    (parseCSS : string -> Completion (Exn Err) Stylesheet)
    (stringifyCSS : Stylesheet -> string)
    (onConnect : SSRInstance -> JSObj JSValue)
    (textRenderer fuel element : nat) (props attributes theme : JSObj JSValue)
    w1 n1 w2 n2 out st1 :
  deterministic_classes classes ->
  fresh_instances textRenderer w1 n1 ->
  fresh_instances textRenderer w2 n2 ->
  ssr classes parseHTML parseCSS stringifyCSS onConnect textRenderer
    fuel element props attributes theme w1 n1 = Some (Normal out, st1) ->
  exists st2,
    ssr classes parseHTML parseCSS stringifyCSS onConnect textRenderer
      fuel element props attributes theme w2 n2 = Some (Normal out, st2)
    /\ fresh_instances textRenderer (world st1) (nextInstance st1)
    /\ fresh_instances textRenderer (world st2) (nextInstance st2).
Proof.
  intros Hdet Hf1 Hf2 Hrun.
  pose proof (ssr_two_worlds classes parseHTML parseCSS stringifyCSS onConnect
                textRenderer Hdet fuel element props attributes theme
                w1 n1 w2 n2 Hf1 Hf2) as H.
  rewrite Hrun in H.
  destruct (ssr _ _ _ _ _ _ _ _ _ _ _ w2 n2) as [[c2 st2]|]; [|done].
  destruct H as (<- & H1 & H2). exists st2. done.
Qed.

(** Two renders in a row, each in a new session: the second returns the text
    of the first. *)
Lemma ssr_twice_in_a_row {U Err : Type}
    (classes : nat -> BaseClass U Err)
    (parseHTML : string -> list DomNode)
    (parseCSS : string -> Completion (Exn Err) Stylesheet)
    (stringifyCSS : Stylesheet -> string)
    (onConnect : SSRInstance -> JSObj JSValue)
    (textRenderer fuel element : nat) (props attributes theme : JSObj JSValue)
    w n out st1 :
  deterministic_classes classes ->
  fresh_instances textRenderer w n ->
  ssr classes parseHTML parseCSS stringifyCSS onConnect textRenderer
    fuel element props attributes theme w n = Some (Normal out, st1) ->
  exists st2,
    ssr classes parseHTML parseCSS stringifyCSS onConnect textRenderer
      fuel element props attributes theme (world st1) (nextInstance st1)
    = Some (Normal out, st2).
Proof.
  intros Hdet Hf Hrun.
  pose proof (ssr_two_worlds classes parseHTML parseCSS stringifyCSS onConnect
                textRenderer Hdet fuel element props attributes theme
                w n w n Hf Hf) as Hsame.
  rewrite Hrun in Hsame. destruct Hsame as (_ & Hf1 & _).
  pose proof (ssr_two_worlds classes parseHTML parseCSS stringifyCSS onConnect
                textRenderer Hdet fuel element props attributes theme
                w n (world st1) (nextInstance st1) Hf Hf1) as H.
  rewrite Hrun in H.
  destruct (ssr _ _ _ _ _ _ _ _ _ _ _ (world st1) (nextInstance st1)) as [[c2 st2]|];
    [|done].
  destruct H as (<- & _). by exists st2.
Qed.

(** *** A render of [ex_classes] in two worlds *)

Lemma ex_classes_deterministic : deterministic_classes ex_classes.
Proof.
  intros n t Hin f Hf a a' env env' _ Henv.
  destruct n as [|[|n]]; simpl in Hin.
  - destruct Hin as [<-|[]]. inversion Hf; subst. simpl. done.
  - destruct Hin as [<-|[<-|[<-|[]]]]; inversion Hf; subst; simpl; done.
  - destruct Hin.
Qed.

Lemma empty_cache_fresh {U} textRenderer
    (w : World SSRInstance (JSObj JSValue) (SSREnv U)) n :
  templaterMap w = ∅ -> fresh_instances textRenderer w n.
Proof. intros Hw c k _. unfold cache_entry. rewrite Hw, lookup_empty. reflexivity. Qed.

(** A world with other user state and other identities to give out. *)
Definition ex_other_world : World SSRInstance (JSObj JSValue) (SSREnv unit) :=
  {| templaterMap := ∅;
     userEnv := {| thisAttributes := [("stale", VNull)]; user := tt |};
     invocations := [] |}.

Abbreviation ex_ssr w n :=
  (ssr ex_classes ex_parseHTML ex_parseCSS ex_stringifyCSS (fun _ => []) 99 8
     0 [] [("id", VStr "main")] [] w n).

Definition ex_render : option (Completion (SSRExn unit) string * SSRState unit) :=
  Eval vm_compute in ex_ssr ex_ssr_world 0%nat.

Lemma ex_render_run : ex_ssr ex_ssr_world 0%nat = ex_render.
Proof. vm_compute. reflexivity. Qed.

Lemma ssr_same_output_witness :
  deterministic_classes ex_classes
  /\ fresh_instances 99 ex_ssr_world 0
  /\ fresh_instances 99 ex_other_world 7
  /\ exists out st1 st2,
      ex_ssr ex_ssr_world 0%nat = Some (Normal out, st1)
      /\ ex_ssr ex_other_world 7%nat = Some (Normal out, st2).
Proof.
  split; [exact ex_classes_deterministic|].
  split; [by apply empty_cache_fresh|].
  split; [by apply empty_cache_fresh|].
  pose proof ex_render_run as Hrun. unfold ex_render in Hrun.
  match type of Hrun with
  | _ = Some (Normal ?out, ?st1) =>
      destruct (ssr_same_output_in_fresh_sessions ex_classes ex_parseHTML ex_parseCSS
                  ex_stringifyCSS (fun _ => []) 99 8 0 [] [("id", VStr "main")] []
                  ex_ssr_world 0 ex_other_world 7 out st1
                  ex_classes_deterministic
                  (empty_cache_fresh 99 ex_ssr_world 0 eq_refl)
                  (empty_cache_fresh 99 ex_other_world 7 eq_refl)
                  Hrun) as (st2 & Hsecond & _);
      exists out, st1, st2
  end.
  split; [exact Hrun|exact Hsecond].
Defined.

(** The text of that render starts with the tag of [my-el], and ends with
    the second [x-b], which has the unique sheet only. *)
Example ex_render_text :
  match ex_render with
  | Some (Normal text, _) =>
      String.length text = 289%nat
      /\ substring 0 6 text = "<my-el"
      /\ substring 205 37 text = "<style>css-x-b-1-.foo{}</style><slot "
      /\ substring 275 14 text = "</x-b></my-el>"
  | _ => False
  end.
Proof. vm_compute. repeat split; reflexivity. Qed.

(** ** Running a computation step by step *)

Lemma run_bind {E S A B} (m : M E S A) (k : A -> M E S B) st a st1 :
  m st = Some (Normal a, st1) -> (m ≫= k) st = k a st1.
Proof. intros H. unfold mbind, M_bind. rewrite H. reflexivity. Qed.

Lemma run_bind_throw {E S A B} (m : M E S A) (k : A -> M E S B) st e st1 :
  m st = Some (Throw e, st1) -> (m ≫= k) st = Some (Throw e, st1).
Proof. intros H. unfold mbind, M_bind. rewrite H. reflexivity. Qed.

Lemma run_getTag {E St} (l : nat) (t : ParsedTag) (st : Heap * St) :
  tags (fst st) !! l = Some t -> getTag (E := E) l st = Some (Normal t, st).
Proof. intros H. unfold getTag. rewrite H. reflexivity. Qed.

Lemma run_getObj {E St} (l : nat) (o : JSObj JSValue) (st : Heap * St) :
  objs (fst st) !! l = Some o -> getObj (E := E) l st = Some (Normal o, st).
Proof. intros H. unfold getObj. rewrite H. reflexivity. Qed.

Lemma run_mapM_one {E S A B} (f : A -> M E S B) (a : A) st b st1 :
  f a st = Some (Normal b, st1) -> mapM f [a] st = Some (Normal [b], st1).
Proof.
  intros H. rewrite mapM_cons. rewrite (run_bind _ _ _ _ _ H). reflexivity.
Qed.

Lemma run_mapM_one_throw {E S A B} (f : A -> M E S B) (a : A) st e st1 :
  f a st = Some (Throw e, st1) -> mapM f [a] st = Some (Throw e, st1).
Proof.
  intros H. rewrite mapM_cons. rewrite (run_bind_throw _ _ _ _ _ H). reflexivity.
Qed.

Lemma bind_inv {E St A B} (m : M E St A) (k : A -> M E St B) st c st2 :
  (m ≫= k) st = Some (c, st2) ->
  (exists a st1, m st = Some (Normal a, st1) /\ k a st1 = Some (c, st2))
  \/ (exists e, m st = Some (Throw e, st2) /\ c = Throw e).
Proof.
  unfold mbind, M_bind. destruct (m st) as [[[a|e] st1]|]; intros H.
  - left. eauto.
  - right. inversion H; subst. eauto.
  - discriminate H.
Qed.

Lemma getTag_inv {E St} (l : nat) (st : Heap * St) (c : Completion E ParsedTag) st1 :
  getTag l st = Some (c, st1) ->
  st1 = st /\ exists t, c = Normal t /\ tags (fst st) !! l = Some t.
Proof.
  unfold getTag. destruct (tags (fst st) !! l) as [t|] eqn:Ht; intros H; [|discriminate H].
  inversion H; subst. eauto.
Qed.
(** ** Serialising attributes *)

Lemma count_char_app c s s' :
  count_char c (s +:+ s') = (count_char c s + count_char c s')%nat.
Proof.
  induction s as [|a s IH]; simpl; [reflexivity|].
  change (String.append s s') with (s +:+ s'). rewrite IH. lia.
Qed.

Lemma count_char_escape_quotes s :
  count_char quote (_Attributes.escape_quotes s) = 0%nat.
Proof.
  induction s as [|a s IH]; simpl; [reflexivity|].
  destruct (Ascii.eqb a (ascii_of_nat 34)) eqn:Ha.
  - rewrite count_char_app. rewrite IH. reflexivity.
  - simpl. unfold quote at 1. rewrite Ha. exact IH.
Qed.

Lemma concat_cons2 sep (x y : string) l :
  String.concat sep (x :: y :: l) = x +:+ sep +:+ String.concat sep (y :: l).
Proof. reflexivity. Qed.

Lemma count_char_concat c sep parts :
  count_char c (String.concat sep parts)
  = (list_sum (map (count_char c) parts)
     + (length parts - 1) * count_char c sep)%nat.
Proof.
  induction parts as [|x [|y l] IH].
  - reflexivity.
  - simpl. lia.
  - rewrite concat_cons2, !count_char_app, IH. simpl. lia.
Qed.

Lemma count_quotes_parts (attributes : JSObj JSValue) :
  Forall (fun kv => count_char quote (fst kv) = 0%nat) attributes ->
  list_sum
    (map (count_char quote)
       (map (fun kv : string * JSValue =>
               fst kv +:+ "=" +:+ String (ascii_of_nat 34)
                 (_Attributes.escape_quotes (_Attributes._toString (snd kv))
                  +:+ String (ascii_of_nat 34) ""))
          attributes))
  = (2 * length attributes)%nat.
Proof.
  induction 1 as [|kv l Hk Hl IH]; [reflexivity|].
  rewrite !map_cons. change (list_sum (?a :: ?l)) with (a + list_sum l)%nat.
  rewrite IH.
  rewrite !count_char_app. cbn [count_char].
  rewrite count_char_app, count_char_escape_quotes, Hk.
  cbn [count_char length].
  replace (Ascii.eqb (ascii_of_nat 34) quote) with true by reflexivity.
  replace (Ascii.eqb "=" quote) with false by reflexivity. lia.
Qed.

(** Whatever the values are, the text of [n] attributes holds [2 * n] double
    quotes, the ones around the values: a value never ends the quotes it is
    written in. The keys are written as they are. *)
Theorem stringify_quotes_balanced (attributes : JSObj JSValue) :
  Forall (fun kv => count_char quote (fst kv) = 0%nat) attributes ->
  count_char quote (_Attributes.stringify attributes) = (2 * length attributes)%nat.
Proof.
  intros Hkeys. unfold _Attributes.stringify.
  destruct attributes as [|kv attributes]; [reflexivity|].
  cbn [obj_is_empty].
  rewrite count_char_app, count_char_concat, length_map.
  rewrite (count_quotes_parts _ Hkeys).
  change (count_char quote " ") with 0%nat. lia.
Qed.

Lemma stringify_quotes_witness :
  Forall (fun kv : string * JSValue => count_char quote (fst kv) = 0%nat)
    [("title", VStr ("say " +:+ String quote ("hi" +:+ String quote ""))); ("n", VNum 3)]
  /\ count_char quote
    (_Attributes.stringify
       [("title", VStr ("say " +:+ String quote ("hi" +:+ String quote ""))); ("n", VNum 3)])
  = 4%nat.
Proof.
  assert (Hkeys : Forall (fun kv : string * JSValue => count_char quote (fst kv) = 0%nat)
            [("title", VStr ("say " +:+ String quote ("hi" +:+ String quote "")));
             ("n", VNum 3)])
    by (repeat constructor).
  split; [exact Hkeys|].
  exact (stringify_quotes_balanced _ Hkeys).
Defined.

(** ** [splitAttributes]: the two groups of properties *)

Section SplitGroups.
Import _Properties.
Variables reflect_ priv_ passed : JSObj JSValue.

Lemma obj_get_keys {V} (o : JSObj V) k : is_Some (obj_get o k) -> In k (obj_keys o).
Proof.
  intros [v Hv]. apply obj_get_In in Hv. unfold obj_keys.
  apply in_map_iff. exists (k, v). split; [reflexivity|exact Hv].
Qed.

Lemma obj_has_keys {V} (o : JSObj V) k : obj_has o k = true <-> In k (obj_keys o).
Proof.
  unfold obj_has. split.
  - intros H. apply obj_get_keys. destruct (obj_get o k); [eauto|discriminate].
  - intros H. apply obj_keys_get in H. destruct H as [v ->]. reflexivity.
Qed.

Lemma split_step_groups acc key k :
  In key (obj_keys passed) ->
  obj_get (publicProps acc) "__proto__" = None ->
  obj_get (publicProps (split_step reflect_ priv_ passed acc key)) k
  = (if String.eqb key k && obj_in reflect_ key && negb (String.eqb key "__proto__")
     then obj_get passed k
     else obj_get (publicProps acc) k)
  /\ obj_get (privateProps (split_step reflect_ priv_ passed acc key)) k
     = (if String.eqb key k && negb (obj_in reflect_ key) && obj_in priv_ key
        then obj_get passed k
        else obj_get (privateProps acc) k).
Proof.
  intros Hkey Hproto. apply obj_keys_get in Hkey. destruct Hkey as [v Hv].
  destruct acc as [a pub pri]. cbn [publicProps] in Hproto. unfold split_step.
  assert (Hk : String.eqb key k = true -> obj_get passed k = Some v).
  { intros Hk. apply String.eqb_eq in Hk. subst k. exact Hv. }
  destruct (obj_in reflect_ key) eqn:Hr.
  - cbn [publicProps privateProps]. rewrite obj_get_put, Hv. cbn [default].
    destruct (String.eqb key "__proto__") eqn:Hp.
    + apply String.eqb_eq in Hp. subst key. unfold obj_has. rewrite Hproto.
      cbn [andb negb]. rewrite !andb_false_r. split; reflexivity.
    + cbn [andb negb]. rewrite !andb_true_r, andb_false_r.
      destruct (String.eqb key k); [rewrite Hk by reflexivity|]; split; reflexivity.
  - assert (Hinh : inherited key = false).
    { unfold obj_in in Hr. apply orb_false_iff in Hr. tauto. }
    rewrite andb_false_r. cbn [negb]. rewrite andb_true_r.
    destruct (obj_in priv_ key) eqn:Hq; cbn [publicProps privateProps].
    + rewrite obj_put_set by exact Hinh. rewrite obj_get_set, Hv. cbn [default].
      rewrite andb_true_r.
      destruct (String.eqb key k); [rewrite Hk by reflexivity|]; split; reflexivity.
    + rewrite andb_false_r. split; reflexivity.
Qed.

Lemma split_fold_groups keys : forall acc k,
  (forall key, In key keys -> In key (obj_keys passed)) ->
  obj_get (publicProps acc) "__proto__" = None ->
  let r := fold_left (split_step reflect_ priv_ passed) keys acc in
  obj_get (publicProps r) k
  = (if bool_decide (k ∈ keys) && obj_in reflect_ k && negb (String.eqb k "__proto__")
     then obj_get passed k
     else obj_get (publicProps acc) k)
  /\ obj_get (privateProps r) k
     = (if bool_decide (k ∈ keys) && negb (obj_in reflect_ k) && obj_in priv_ k
        then obj_get passed k
        else obj_get (privateProps acc) k).
Proof.
  induction keys as [|key keys IH]; intros acc k Hin Hproto; cbn [fold_left].
  - rewrite bool_decide_eq_false_2 by (apply not_elem_of_nil). split; reflexivity.
  - cbv zeta in IH.
    assert (Hkey : In key (obj_keys passed)) by (apply Hin; by left).
    destruct (IH (split_step reflect_ priv_ passed acc key) k) as [IHpub IHpri].
    { intros key' H'. apply Hin. right. exact H'. }
    { rewrite (proj1 (split_step_groups acc key "__proto__" Hkey Hproto)).
      destruct (String.eqb key "__proto__");
        rewrite ?andb_false_r; cbn [andb]; [exact Hproto..]. }
    cbv zeta. rewrite IHpub, IHpri.
    destruct (split_step_groups acc key k Hkey Hproto) as [Hpub Hpri].
    rewrite Hpub, Hpri.
    destruct (String.eqb key k) eqn:Hk;
      [apply String.eqb_eq in Hk; subst k|apply String.eqb_neq in Hk];
      cbn [andb]; repeat case_bool_decide; cbn [andb negb];
      try (destruct (obj_in reflect_ _), (obj_in priv_ _),
             (String.eqb _ "__proto__"); split; reflexivity);
      exfalso;
      repeat match goal with
             | H : context [_ ∈ _ :: _] |- _ => rewrite elem_of_cons in H
             end; intuition congruence.
Qed.

End SplitGroups.

(** C10 says what becomes of the keys that neither group names; this is the
    rest of [splitAttributes], for a config that declares a group. A passed
    key for which [key in reflect] holds is a public property with the
    passed value: a key [reflect] names, and also a name of
    [Object.prototype] such as [constructor], whatever the groups name; only
    the assignment to [__proto__] leaves no property. A passed key for which
    [key in reflect] fails and [key in priv] holds is a private property with
    the passed value. The two objects hold nothing else. *)
Theorem splitAttributes_reflect_and_priv
    (config : _Properties.PropsConfig) (attributes : JSObj JSValue) (key : string) :
  is_Some (_Properties.reflect config) \/ is_Some (_Properties.priv config) ->
  let r := _Properties.splitAttributes
             (Some {| _Properties.__config := Some config |}) attributes in
  let reflect := default [] (_Properties.reflect config) in
  let priv := default [] (_Properties.priv config) in
  obj_get (_Properties.publicProps r) key
  = (if obj_in reflect key && negb (String.eqb key "__proto__")
     then obj_get attributes key else None)
  /\ obj_get (_Properties.privateProps r) key
     = (if obj_in reflect key then None
        else if obj_in priv key then obj_get attributes key else None).
Proof.
  intros Hdecl r reflect priv.
  assert (Hr : r = fold_left (_Properties.split_step reflect priv attributes)
                     (obj_keys attributes) (_Properties.Build_Split [] [] [])).
  { subst r reflect priv. unfold _Properties.splitAttributes. cbn [_Properties.__config].
    destruct (_Properties.reflect config), (_Properties.priv config);
      try reflexivity.
    destruct Hdecl as [[? H]|[? H]]; discriminate H. }
  rewrite Hr.
  destruct (split_fold_groups reflect priv attributes (obj_keys attributes)
              (_Properties.Build_Split [] [] []) key (fun _ H => H) eq_refl)
    as [Hpub Hpri].
  cbv zeta in Hpub, Hpri. rewrite Hpub, Hpri.
  cbn [_Properties.publicProps _Properties.privateProps obj_get].
  destruct (bool_decide (key ∈ obj_keys attributes)) eqn:Hin; cbn [andb].
  - destruct (obj_in reflect key), (obj_in priv key); split; reflexivity.
  - apply bool_decide_eq_false_1 in Hin.
    assert (obj_get attributes key = None) as ->.
    { destruct (obj_get attributes key) eqn:Hg; [|reflexivity].
      exfalso. apply Hin. apply list_elem_of_In, obj_get_keys. eauto. }
    destruct (obj_in reflect key), (obj_in priv key),
      (String.eqb key "__proto__"); split; reflexivity.
Qed.

Lemma splitAttributes_groups_witness :
  is_Some (_Properties.reflect ex_reflect_config)
  /\ obj_get (_Properties.publicProps
                (_Properties.splitAttributes
                   (Some {| _Properties.__config := Some ex_reflect_config |}) ex_passed))
       "name" = Some (VStr "n")
  /\ obj_get (_Properties.privateProps
                (_Properties.splitAttributes
                   (Some {| _Properties.__config := Some ex_reflect_config |}) ex_passed))
       "name" = None.
Proof.
  assert (Hdecl : is_Some (_Properties.reflect ex_reflect_config)) by (eexists; reflexivity).
  split; [exact Hdecl|].
  exact (splitAttributes_reflect_and_priv ex_reflect_config ex_passed "name"
           (or_introl Hdecl)).
Defined.

(** A private property named like a property of [Object.prototype] comes
    out as a public one: [toString in reflect] holds by inheritance. *)
Example splitAttributes_private_name_inherited :
  let config := {| _Properties.reflect := None;
                   _Properties.priv := Some [("toString", VStr "string")] |} in
  let r := _Properties.splitAttributes
             (Some {| _Properties.__config := Some config |})
             [("toString", VStr "t")] in
  r = _Properties.Build_Split [] [("toString", VStr "t")] [].
Proof. reflexivity. Qed.

(** ** Class names *)

Lemma split_spaces_aux_cons s : forall cur,
  exists first rest, split_spaces_aux s cur = first :: rest.
Proof.
  induction s as [|a s IH]; intros cur; cbn [split_spaces_aux].
  - eauto.
  - destruct (Ascii.eqb a " "); eauto.
Qed.

Lemma append_assoc (a b c : string) : (a +:+ b) +:+ c = a +:+ (b +:+ c).
Proof.
  induction a as [|x a IH]; [reflexivity|].
  change (String x ((a +:+ b) +:+ c) = String x (a +:+ (b +:+ c))).
  rewrite IH. reflexivity.
Qed.

Lemma append_empty_r (a : string) : a +:+ "" = a.
Proof.
  induction a as [|x a IH]; [reflexivity|].
  change (String x (a +:+ "") = String x a). rewrite IH. reflexivity.
Qed.

(** [s.split(' ').join(' ')] is [s]. *)
Lemma join_split_spaces_aux s : forall cur,
  String.concat " " (split_spaces_aux s cur) = cur +:+ s.
Proof.
  induction s as [|a s IH]; intros cur; cbn [split_spaces_aux].
  - cbn [String.concat]. rewrite append_empty_r. reflexivity.
  - destruct (Ascii.eqb a " ") eqn:Ha.
    + apply Ascii.eqb_eq in Ha. subst a.
      destruct (split_spaces_aux_cons s "") as (first & rest & Hs).
      pose proof (IH "") as IH'. rewrite Hs in IH' |- *.
      change (String.concat " " (cur :: first :: rest))
        with (cur +:+ " " +:+ String.concat " " (first :: rest)).
      rewrite IH'. reflexivity.
    + rewrite IH. rewrite append_assoc. reflexivity.
Qed.

Lemma join_split_spaces s : String.concat " " (split_spaces s) = s.
Proof. unfold split_spaces. rewrite join_split_spaces_aux. reflexivity. Qed.

Lemma concat_snoc2 sep (first : string) rest a b :
  String.concat sep ((first :: rest) ++ [a; b])
  = String.concat sep (first :: rest) +:+ sep +:+ a +:+ sep +:+ b.
Proof.
  revert first. induction rest as [|x rest IH]; intros first.
  - reflexivity.
  - change ((first :: x :: rest) ++ [a; b]) with (first :: ((x :: rest) ++ [a; b])).
    change (String.concat sep (first :: (x :: rest) ++ [a; b]))
      with (first +:+ sep +:+ String.concat sep ((x :: rest) ++ [a; b])).
    rewrite IH.
    change (String.concat sep (first :: x :: rest))
      with (first +:+ sep +:+ String.concat sep (x :: rest)).
    rewrite !append_assoc. reflexivity.
Qed.

Section ClassNames.
Context {U Err : Type}.

(** The handler of [_addHTMLPrefixes] keeps the class list of an element as
    it is and appends the unique identifier and the component identifier, in
    this order; a missing class list, or one that is not a string, becomes
    the two identifiers. The write goes to the attribute object of the tag
    itself, nothing is copied; the walk goes on below the tag unless its
    name holds a dash. *)
Theorem html_prefix_handler_appends_ids
    (uniqueID componentID : string) (tag : nat) (st : Heap * SSRState U)
    (t : ParsedTag) (attributes : JSObj JSValue) :
  tags (fst st) !! tag = Some t ->
  instanceof_TextTag t = false ->
  objs (fst st) !! tag_attributes t = Some attributes ->
  html_prefix_handler (Err := Err) uniqueID componentID tag st
  = Some (Normal (Some (tag, includes_dash (tag_tagName t))),
          ({| tags := tags (fst st);
              objs := <[tag_attributes t :=
                          obj_set "class"
                            (VStr (prefixed_class attributes uniqueID componentID))
                            attributes]> (objs (fst st)) |},
           snd st)).
Proof.
  intros Ht Htext Hobj.
  unfold html_prefix_handler, mbind, M_bind, getTag, getObj, setObj, mret, M_ret.
  rewrite Ht, Htext, Hobj. cbv beta iota.
  do 4 f_equal. unfold prefixed_class.
  destruct (obj_get attributes "class") as [[| | | |classNames|]|]; try reflexivity.
  destruct (split_spaces_aux_cons classNames "") as (first & rest & Hs).
  unfold split_spaces at 1. rewrite Hs, concat_snoc2, <- Hs.
  fold (split_spaces classNames). rewrite join_split_spaces.
  rewrite ?append_assoc. reflexivity.
Qed.

End ClassNames.

Lemma html_prefix_handler_witness :
  tags flat_slot_heap !! 3%nat = Some (Tag "span" 3 false [4%nat])
  /\ html_prefix_handler (U := unit) (Err := unit) "css-x-b-0" "css-x-b" 3
       (flat_slot_heap,
        {| session := new_DocumentSession; world := ex_ssr_world; nextInstance := 0 |})
     = Some (Normal (Some (3%nat, false)),
             ({| tags := tags flat_slot_heap;
                 objs := <[3%nat := obj_set "class" (VStr "css-x-b-0 css-x-b")
                                      [("slot", VStr "a")]]> (objs flat_slot_heap) |},
              {| session := new_DocumentSession; world := ex_ssr_world;
                 nextInstance := 0 |})).
Proof.
  split; [reflexivity|].
  exact (html_prefix_handler_appends_ids (Err := unit) "css-x-b-0" "css-x-b" 3
           (flat_slot_heap,
            {| session := new_DocumentSession; world := ex_ssr_world; nextInstance := 0 |})
           (Tag "span" 3 false [4%nat]) [("slot", VStr "a")]
           eq_refl eq_refl eq_refl).
Defined.

(** ** The memoizer: what [renderAsText] caches *)

Section MemoizerFrame.
Context {Props Theme Env Err : Type}.
Implicit Types (self : TemplateFn Props Theme Env Err).
Implicit Types (component : Component Props Theme).
Implicit Types (w : World Props Theme Env).

(** [renderAsText] stores the result of the render function before it turns
    it into text. When the result has no text form, the call throws, and the
    result stays in the cache: a later call for a change the mask does not
    cover (or any later call, for a NEVER mask) throws again, and the render
    function is not invoked. *)
Theorem renderAsText_caches_result_without_text_form
    (textRenderer : nat) self changeType changeType' component w f env' :
  _template self = Some f ->
  cache_entry (templaterMap w) textRenderer (c_id component) (t_id self) = None ->
  f (template_args component textRenderer changeType) (userEnv w)
  = (Normal (Some ROther), env') ->
  truthy_num (js_band (changeOn self) CHANGE_TYPE.NEVER) = true
  \/ js_band (changeOn self) changeType' = 0 ->
  let first := renderAsText textRenderer self changeType component w in
  let second := renderAsText textRenderer self changeType' component (snd first) in
  fst first = Throw NoTextForm
  /\ cache_entry (templaterMap (snd first)) textRenderer (c_id component) (t_id self)
     = Some (Some ROther)
  /\ fst second = Throw NoTextForm
  /\ invocations (snd second) = invocations (snd first).
Proof.
  intros Hf Hnone Hrun Hmask first second.
  assert (Hfirst :
    _renderWithTemplater self changeType component (Some textRenderer) w
    = call_and_store self f changeType component textRenderer
        (with_inner_maps (templaterMap w) textRenderer (c_id component))
        (inner_componentMap (templaterMap w) textRenderer (c_id component))
        (inner_templateMap (templaterMap w) textRenderer (c_id component)) w).
  { rewrite render_unfold. cbv zeta. cbn [effective_templater].
    rewrite Hnone, Hf. cbn [truthy_cached is_Some].
    rewrite bool_decide_eq_false_2 by (intros [? H]; discriminate H).
    rewrite orb_true_r. destruct (truthy_num _); reflexivity. }
  assert (Hentry :
    cache_entry (templaterMap (snd first)) textRenderer (c_id component) (t_id self)
    = Some (Some ROther)).
  { subst first. unfold renderAsText. rewrite Hfirst. unfold call_and_store.
    rewrite Hrun. cbn [snd templaterMap rendered].
    rewrite cache_entry_store. rewrite decide_True by done. reflexivity. }
  assert (Hsecond :
    _renderWithTemplater self changeType' component (Some textRenderer) (snd first)
    = (Normal {| changed := false; rendered := Some ROther |},
       {| templaterMap :=
            with_inner_maps (templaterMap (snd first)) textRenderer (c_id component);
          userEnv := userEnv (snd first);
          invocations := invocations (snd first) |})).
  { rewrite render_unfold. cbv zeta. cbn [effective_templater].
    rewrite Hentry. cbn [truthy_cached truthy_result default].
    destruct (truthy_num (js_band (changeOn self) CHANGE_TYPE.NEVER)) eqn:Hnever;
      [reflexivity|].
    destruct Hmask as [Hm|Hm]; [discriminate Hm|].
    rewrite Hm. cbn [truthy_num Z.eqb negb orb].
    rewrite bool_decide_eq_true_2 by (eexists; reflexivity). reflexivity. }
  split; [|split; [exact Hentry|split]].
  - subst first. unfold renderAsText. rewrite Hfirst. unfold call_and_store.
    rewrite Hrun. reflexivity.
  - subst second. unfold renderAsText at 1. rewrite Hsecond. reflexivity.
  - subst second. unfold renderAsText at 1. rewrite Hsecond. reflexivity.
Qed.

End MemoizerFrame.

(** A template whose function returns an object of no recognised shape. *)
Definition ex_shapeless : TemplateFn unit unit unit unit :=
  {| t_id := 10;
     _template := Some (fun _ env => (Normal (Some ROther), env));
     changeOn := CHANGE_TYPE.PROP |}.

Lemma renderAsText_caches_witness :
  _template ex_shapeless = Some (fun _ env => (Normal (Some ROther), env))
  /\ cache_entry (templaterMap ex_world) 99 (c_id ex_component) (t_id ex_shapeless) = None
  /\ js_band (changeOn ex_shapeless) CHANGE_TYPE.THEME = 0
  /\ fst (renderAsText 99 ex_shapeless CHANGE_TYPE.THEME ex_component
            (snd (renderAsText 99 ex_shapeless CHANGE_TYPE.PROP ex_component ex_world)))
     = Throw NoTextForm
  /\ invocations
       (snd (renderAsText 99 ex_shapeless CHANGE_TYPE.THEME ex_component
               (snd (renderAsText 99 ex_shapeless CHANGE_TYPE.PROP ex_component ex_world))))
     = invocations (snd (renderAsText 99 ex_shapeless CHANGE_TYPE.PROP ex_component ex_world)).
Proof.
  split; [reflexivity|]. split; [reflexivity|]. split; [reflexivity|].
  destruct (renderAsText_caches_result_without_text_form 99 ex_shapeless
              CHANGE_TYPE.PROP CHANGE_TYPE.THEME ex_component ex_world
              (fun _ env => (Normal (Some ROther), env)) tt
              eq_refl eq_refl eq_refl (or_intror eq_refl))
    as (_ & _ & Hthrow & Hlog).
  split; [exact Hthrow|exact Hlog].
Defined.

(** ** Scoping a stylesheet *)

Section CSSScoping.
Context {U Err : Type}.
Variable parseCSS : string -> Completion (Exn Err) Stylesheet.
Variable stringifyCSS : Stylesheet -> string.

Lemma lookup_tag_insert (l : list ParsedTag) (i : nat) (t t' : ParsedTag) :
  l !! i = Some t -> <[i := t']> l !! i = Some t'.
Proof.
  intros H. apply list_lookup_insert_eq. by apply lookup_lt_Some in H.
Qed.

(** [addPrefix] then [stringify] on a text that has not been parsed yet. *)
Lemma scope_css_text prefix this content co sheet (st : Heap * SSRState U) :
  tags (fst st) !! this = Some (CSSText content co None) ->
  parseCSS content = Normal sheet ->
  (addPrefix parseCSS prefix this;; stringify parseCSS stringifyCSS this) st
  = Some (Normal tt,
          ({| tags := <[this := CSSText (stringifyCSS (prefixed_sheet prefix sheet)) co
                                  (Some (prefixed_sheet prefix sheet))]> (tags (fst st));
              objs := objs (fst st) |},
           snd st)).
Proof.
  intros Ht Hparse. destruct st as [h s]. cbn [fst snd] in *.
  unfold addPrefix, stringify, cssParsed, prefixed_sheet,
    mbind, M_bind, getTag, setTag, mret, M_ret.
  cbn [fst snd]. rewrite Ht, Hparse.
  destruct (stylesheet sheet) as [rules|] eqn:Hrules;
    repeat (cbv beta iota; cbn [fst snd tags objs];
            rewrite ?(lookup_tag_insert _ _ _ _ Ht), ?list_insert_insert_eq);
    reflexivity.
Qed.

(** A [style] element with one text in it, as the parser leaves it: every
    selector of the text gets the prefix of the sheet and a dash put before
    it (the selector [.foo] becomes [css-my-el-0-.foo]), and the text of the
    element becomes what the [css] package writes for the rewritten sheet.
    Rules without selectors stay as they are. *)
Theorem style_element_scoped
    (fuel : nat) (sheetTag text : nat) (uniqueID componentID : string)
    (st : Heap * SSRState U)
    tagName attributes isSelfClosing _children mask content co sheet :
  tags (fst st) !! sheetTag
  = Some (CSSTag tagName attributes isSelfClosing _children mask [text]) ->
  tags (fst st) !! text = Some (CSSText content co None) ->
  parseCSS content = Normal sheet ->
  let prefix := sheet_prefix mask uniqueID componentID in
  let sheet' := prefixed_sheet prefix sheet in
  _addCSSPrefixes parseCSS stringifyCSS (S fuel) [[sheetTag]] uniqueID componentID st
  = Some (Normal [[sheetTag]],
          ({| tags := <[text := CSSText (stringifyCSS sheet') co (Some sheet')]>
                        (tags (fst st));
              objs := objs (fst st) |},
           snd st))
  /\ (forall rules, stylesheet sheet = Some rules ->
        stylesheet sheet'
        = Some (map (fun rule =>
                       match selectors rule with
                       | Some sel =>
                           {| selectors :=
                                Some (map (fun s => prefix +:+ "-" +:+ s) sel);
                              declarations := declarations rule |}
                       | None => rule
                       end) rules)).
Proof.
  intros Hsheet Htext Hparse prefix sheet'. split.
  - unfold _addCSSPrefixes.
    apply run_mapM_one. apply run_mapM_one.
    rewrite (run_bind _ _ _ _ _ (run_getTag _ _ _ Hsheet)).
    assert (Hp : (if elementGlobal
                       (CSSTag tagName attributes isSelfClosing _children mask [text])
                  then componentID else uniqueID) = prefix).
    { subst prefix. unfold sheet_prefix, elementGlobal. destruct mask; reflexivity. }
    rewrite Hp. cbn [tag_children _walkCSSSheets].
    erewrite run_bind; [reflexivity|].
    apply run_mapM_one.
    rewrite (run_bind _ _ _ _ _ (run_getTag _ _ _ Htext)).
    erewrite run_bind; [reflexivity|].
    exact (scope_css_text prefix text content co sheet st Htext Hparse).
  - intros rules Hrules. subst sheet'. unfold prefixed_sheet. rewrite Hrules.
    cbn [stylesheet]. reflexivity.
Qed.


End CSSScoping.

(** A [style] element of a template with the mask PROP, in a heap of its
    own: the element is tag 0, its text tag 1. *)
Definition ex_style_heap : Heap :=
  {| tags := [ CSSTag "style" 0 false [1%nat] (Some CHANGE_TYPE.PROP) [1%nat];
               CSSText ".foo{}" (Some CHANGE_TYPE.PROP) None ];
     objs := [ [] ] |}.

Definition ex_style_state : Heap * SSRState unit :=
  (ex_style_heap,
   {| session := new_DocumentSession; world := ex_ssr_world; nextInstance := 0 |}).

Lemma style_element_scoped_witness :
  tags ex_style_heap !! 1%nat = Some (CSSText ".foo{}" (Some CHANGE_TYPE.PROP) None)
  /\ ex_parseCSS ".foo{}"
     = Normal {| stylesheet :=
                   Some [{| selectors := Some [".foo"]; declarations := "{}" |}] |}
  /\ _addCSSPrefixes ex_parseCSS ex_stringifyCSS 1 [[0%nat]] "css-my-el-0" "css-my-el"
       ex_style_state
     = Some (Normal [[0%nat]],
             ({| tags :=
                   <[1%nat :=
                       CSSText "css-my-el-0-.foo{}" (Some CHANGE_TYPE.PROP)
                         (Some {| stylesheet :=
                                    Some [{| selectors := Some ["css-my-el-0-.foo"];
                                             declarations := "{}" |}] |})]>
                     (tags ex_style_heap);
                 objs := objs ex_style_heap |},
              snd ex_style_state)).
Proof.
  split; [reflexivity|]. split; [reflexivity|].
  exact (proj1 (style_element_scoped ex_parseCSS ex_stringifyCSS 0 0 1
                  "css-my-el-0" "css-my-el" ex_style_state
                  "style" 0%nat false [1%nat] (Some CHANGE_TYPE.PROP) ".foo{}"
                  (Some CHANGE_TYPE.PROP)
                  {| stylesheet :=
                       Some [{| selectors := Some [".foo"]; declarations := "{}" |}] |}
                  eq_refl eq_refl eq_refl)).
Defined.


(** ** What [replace] expands *)

Section ReplaceSkips.
Context {U Err : Type}.
Variable classes : nat -> BaseClass U Err.
Variable parseHTML : string -> list DomNode.
Variable parseCSS : string -> Completion (Exn Err) Stylesheet.
Variable stringifyCSS : Stylesheet -> string.
Variable onConnect : SSRInstance -> JSObj JSValue.
Variable textRenderer : nat.

Lemma mapTag_void fuel nested theme (st : Heap * SSRState U) (l : nat) t :
  tags (fst st) !! l = Some t ->
  instanceof_TextTag t = false ->
  includes_dash (tag_tagName t) = false
  \/ _elementMap (session (snd st)) !! tag_tagName t = None ->
  _mapTag (Err := Err) fuel nested theme l st = Some (Normal None, st).
Proof.
  intros Ht Htext Hwhy. unfold _mapTag.
  rewrite (run_bind _ _ _ _ _ (run_getTag _ _ _ Ht)). rewrite Htext.
  erewrite run_bind; [|reflexivity]. cbv beta.
  destruct Hwhy as [Hdash|Hmap].
  - rewrite Hdash. reflexivity.
  - rewrite Hmap. rewrite bool_decide_eq_false_2 by (intros [? H]; discriminate H).
    rewrite orb_true_r. reflexivity.
Qed.

Lemma walk_not_expanded fuel fuel' nested theme (st : Heap * SSRState U) (l : nat) :
  not_expanded st l ->
  walk (S fuel) (_mapTag (Err := Err) fuel' nested theme) l st = Some (Normal l, st).
Proof.
  intros (t & Ht & Hwhy). cbn [walk].
  rewrite (run_bind _ _ _ _ _ (run_getTag _ _ _ Ht)).
  destruct (instanceof_TextTag t) eqn:Htext; [reflexivity|].
  destruct Hwhy as [Hwhy|Hwhy]; [discriminate Hwhy|].
  rewrite (run_bind _ _ _ _ _ (mapTag_void fuel' nested theme st l t Ht Htext Hwhy)).
  cbn [default].
  rewrite (run_bind _ _ _ _ _ (run_getTag _ _ _ Ht)). rewrite Htext.
  reflexivity.
Qed.

(** [replace] expands the custom elements at the top of the markup only. A
    tag that is not itself a custom element the session knows comes back as
    it is, and the walk does not go below it: whatever its children are,
    registered custom elements included, nothing is expanded and the state
    is as before. *)
Theorem replace_leaves_plain_elements
    (fuel : nat) (tags : list nat) (theme : JSObj JSValue) (st : Heap * SSRState U) :
  Forall (not_expanded st) tags ->
  replace classes parseHTML parseCSS stringifyCSS onConnect textRenderer
    (S fuel) tags theme st
  = Some (Normal tags, st).
Proof.
  unfold replace. induction 1 as [|l tags Hl _ IH]; [reflexivity|].
  rewrite mapM_cons.
  rewrite (run_bind _ _ _ _ _ (walk_not_expanded _ _ _ _ _ _ Hl)).
  rewrite (run_bind _ _ _ _ _ IH). reflexivity.
Qed.

End ReplaceSkips.

(** The markup [<div><x-b></x-b></div>] in a session that knows [x-b]. *)
Definition ex_nested_state : Heap * SSRState unit :=
  ({| tags := [ Tag "div" 0 false [1%nat]; Tag "x-b" 1 false [] ];
      objs := [ []; [] ] |},
   {| session := {| _cssIdentifierMap := ∅; _sheetSet := ∅; _unnamedElements := 1;
                    _elementMap := {[ "x-b" := 1%nat ]} |};
      world := ex_ssr_world;
      nextInstance := 0 |}).

Lemma replace_leaves_plain_elements_witness :
  Forall (not_expanded ex_nested_state) [0%nat]
  /\ _elementMap (session (snd ex_nested_state)) !! "x-b" = Some 1%nat
  /\ replace ex_classes ex_parseHTML ex_parseCSS ex_stringifyCSS (fun _ => []) 99
       5 [0%nat] [] ex_nested_state
     = Some (Normal [0%nat], ex_nested_state).
Proof.
  assert (Hplain : Forall (not_expanded ex_nested_state) [0%nat]).
  { constructor; [|constructor].
    exists (Tag "div" 0 false [1%nat]). split; [reflexivity|].
    right. left. reflexivity. }
  split; [exact Hplain|]. split; [reflexivity|].
  exact (replace_leaves_plain_elements ex_classes ex_parseHTML ex_parseCSS
           ex_stringifyCSS (fun _ => []) 99 4 [0%nat] [] ex_nested_state Hplain).
Defined.

(** ** [walk] and the tags that exist *)

Lemma prefix_insert_beyond {A} (l l' : list A) (i : nat) (x : A) :
  l `prefix_of` l' -> (length l <= i)%nat -> l `prefix_of` <[i := x]> l'.
Proof.
  intros [k ->] Hi. rewrite insert_app_r_alt by exact Hi. by eexists.
Qed.

Section WalkKeeps.
Context {E St : Type}.
Implicit Types (st : Heap * St).

Lemma tags_kept_refl st : tags_kept st st.
Proof. unfold tags_kept. reflexivity. Qed.

Lemma tags_kept_trans st1 st2 st3 :
  tags_kept st1 st2 -> tags_kept st2 st3 -> tags_kept st1 st3.
Proof. unfold tags_kept. intros H1 H2. by etrans. Qed.

Lemma walk_keeps_tags
    (fuel : nat) (handler : nat -> M E (Heap * St) (option (nat * bool))) :
  (forall t, preserves tags_kept (handler t)) ->
  forall this, preserves tags_kept (walk fuel handler this).
Proof.
  intros Hhandler. induction fuel as [|fuel IH]; intros this st c st' Hrun.
  - discriminate Hrun.
  - cbn [walk] in Hrun.
    apply bind_inv in Hrun as [(t & st1 & Ht & Hrun)|(e & Ht & _)];
      [|apply getTag_inv in Ht as (_ & ? & ? & _); discriminate].
    apply getTag_inv in Ht as (-> & _).
    destruct (instanceof_TextTag t).
    { inversion Hrun; subst. apply tags_kept_refl. }
    apply bind_inv in Hrun as [(result & st1 & Hh & Hrun)|(e & Hh & _)];
      [|exact (Hhandler _ _ _ _ Hh)].
    apply Hhandler in Hh.
    destruct (default (this, true) result) as [newTag stop].
    apply bind_inv in Hrun as [(nt & st2 & Hnt & Hrun)|(e & Hnt & _)];
      [|apply getTag_inv in Hnt as (_ & ? & ? & _); discriminate].
    apply getTag_inv in Hnt as (-> & _).
    destruct (instanceof_TextTag nt || stop).
    { inversion Hrun; subst. exact Hh. }
    apply bind_inv in Hrun as [(copied & st2 & Hcopy & Hrun)|(e & Hcopy & _)].
    2:{ unfold copy in Hcopy.
        apply bind_inv in Hcopy as [(? & ? & Hg & Ha)|(? & Hg & _)];
          [apply getTag_inv in Hg as (-> & _); discriminate Ha
          |apply getTag_inv in Hg as (_ & ? & ? & _); discriminate]. }
    unfold copy in Hcopy.
    apply bind_inv in Hcopy as [(x & st1' & Hg & Ha)|(? & Hg & _)];
      [|apply getTag_inv in Hg as (_ & ? & ? & _); discriminate].
    apply getTag_inv in Hg as (-> & _).
    unfold allocTag in Ha. inversion Ha; subst copied st2; clear Ha.
    match type of Hrun with
    | (mapM _ _ ≫= _) ?s = _ => set (st2 := s) in *
    end.
    assert (H12 : tags_kept st1 st2).
    { unfold tags_kept. subst st2. cbn [fst tags]. by apply prefix_app_r. }
    apply bind_inv in Hrun as [(children & st3 & Hmap & Hrun)|(e & Hmap & _)].
    2:{ apply (preserves_mapM tags_kept tags_kept_refl tags_kept_trans) in Hmap;
          [|exact IH].
        eapply tags_kept_trans; [exact Hh|].
        eapply tags_kept_trans; [exact H12|exact Hmap]. }
    apply (preserves_mapM tags_kept tags_kept_refl tags_kept_trans) in Hmap;
      [|exact IH].
    unfold setChildren in Hrun.
    apply bind_inv in Hrun as [(x' & st3' & Hg & Hrun)|(? & Hg & _)];
      [|apply getTag_inv in Hg as (_ & ? & ? & _); discriminate].
    apply getTag_inv in Hg as (-> & _).
    apply bind_inv in Hrun as [(? & st4 & Hset & Hrun)|(? & Hset & _)];
      [|discriminate Hset].
    unfold setTag in Hset. inversion Hset; subst st4; clear Hset.
    inversion Hrun; subst c st'; clear Hrun.
    unfold tags_kept in *. cbn [fst tags].
    apply prefix_insert_beyond.
    + etrans; [exact Hh|]. etrans; [exact H12|exact Hmap].
    + apply prefix_length in Hh. lia.
Qed.

(** [walk] builds what it returns from new copies: when the handler changes
    no tag that exists, the walk changes none either. Every reference into
    the tree that was walked still denotes the tag, and the children, it
    denoted before. *)
Theorem walk_changes_no_existing_tag
    (fuel : nat) (handler : nat -> M E (Heap * St) (option (nat * bool))) :
  (forall t, preserves tags_kept (handler t)) ->
  forall this, preserves tags_kept (walk fuel handler this).
Proof. exact (walk_keeps_tags fuel handler). Qed.

End WalkKeeps.

Lemma walk_changes_no_existing_tag_witness :
  (forall t : nat,
     preserves (E := unit) (St := Heap * unit) tags_kept
       (mret (Some (t, false)) : M unit (Heap * unit) (option (nat * bool))))
  /\ forall c st',
       walk (E := unit) 5 (fun t => mret (Some (t, false))) 0 (slot_heap, tt) = Some (c, st') ->
       tags slot_heap `prefix_of` tags (fst st').
Proof.
  assert (Hhandler : forall t : nat,
            preserves (E := unit) (St := Heap * unit) tags_kept
              (mret (Some (t, false)) : M unit (Heap * unit) (option (nat * bool)))).
  { intros t st c st' H. inversion H; subst. apply tags_kept_refl. }
  split; [exact Hhandler|].
  intros c st' Hrun.
  exact (walk_changes_no_existing_tag 5 (fun t => mret (Some (t, false))) Hhandler 0
           (slot_heap, tt) c st' Hrun).
Defined.

(** ** Failures of a render *)

Section RenderFailures.
Context {U Err : Type}.
Variable classes : nat -> BaseClass U Err.
Variable parseHTML : string -> list DomNode.
Variable parseCSS : string -> Completion (Exn Err) Stylesheet.
Variable stringifyCSS : Stylesheet -> string.
Variable onConnect : SSRInstance -> JSObj JSValue.
Variable textRenderer : nat.

(** Whatever goes wrong in [_tryRender] comes out as a [RenderError] that
    carries the cause: what the render function threw, the [TypeError] of a
    missing render function, or the error of a result without a text form.
    Without a template there is nothing to go wrong: the text is empty. *)
Theorem tryRender_wraps_every_failure
    (instance : Component SSRInstance (JSObj JSValue))
    (template : option (SSRTemplateFn U Err)) (_attributes : JSObj JSValue)
    (st : Heap * SSRState U) (x : SSRExn Err) (st' : Heap * SSRState U) :
  _tryRender textRenderer instance template _attributes st = Some (Throw x, st') ->
  exists t e,
    template = Some t
    /\ x = RenderError e
    /\ fst (renderAsText textRenderer t CHANGE_TYPE.ALWAYS instance
              (world_for (world (snd st)) _attributes)) = Throw e.
Proof.
  unfold _tryRender. destruct template as [t|]; [|intros H; discriminate H].
  intros Hrun. exists t.
  apply bind_inv in Hrun as [(s & st1 & Hs & Hrun)|(e & Hs & _)]; [|discriminate Hs].
  inversion Hs; subst s st1; clear Hs.
  fold (world_for (world (snd st)) _attributes) in Hrun.
  destruct (renderAsText textRenderer t CHANGE_TYPE.ALWAYS instance
              (world_for (world (snd st)) _attributes)) as [[text|e] w'] eqn:Hr.
  - apply bind_inv in Hrun as [(? & ? & ? & Hret)|(? & Hput & _)];
      [discriminate Hret|discriminate Hput].
  - exists e. split; [reflexivity|]. split; [|reflexivity].
    apply bind_inv in Hrun as [(? & ? & ? & Hthrow)|(? & Hput & _)];
      [|discriminate Hput].
    unfold throw in Hthrow. by inversion Hthrow.
Qed.

Lemma tryRender_throws instance (t : SSRTemplateFn U Err) _attributes
    (st : Heap * SSRState U) e w' :
  renderAsText textRenderer t CHANGE_TYPE.ALWAYS instance
    (world_for (world (snd st)) _attributes) = (Throw e, w') ->
  _tryRender textRenderer instance (Some t) _attributes st
  = Some (Throw (RenderError e),
          (fst st, {| session := session (snd st); world := w';
                      nextInstance := nextInstance (snd st) |})).
Proof.
  intros Hr. unfold _tryRender.
  erewrite run_bind; [|reflexivity].
  fold (world_for (world (snd st)) _attributes). rewrite Hr.
  erewrite run_bind; [|reflexivity]. reflexivity.
Qed.

(** A template of an instance the cache does not know invokes its render
    function; when that throws, so does [renderAsText]. *)
Lemma renderAsText_throws (t : SSRTemplateFn U Err) f e changeType
    (instance : Component SSRInstance (JSObj JSValue)) w :
  _template t = Some f ->
  (forall args env, fst (f args env) = Throw e) ->
  cache_entry (templaterMap w) textRenderer (c_id instance) (t_id t) = None ->
  exists w', renderAsText textRenderer t changeType instance w = (Throw e, w').
Proof.
  intros Hf Hthrows Hnone. unfold renderAsText.
  rewrite render_unfold. cbv zeta. cbn [effective_templater].
  rewrite Hnone, Hf. cbn [truthy_cached].
  rewrite bool_decide_eq_false_2 by (intros [? H]; discriminate H).
  rewrite orb_true_r.
  assert (Hcall : forall tm2 ctm1 tm,
            exists w', call_and_store t f changeType instance textRenderer tm2 ctm1 tm w
                       = (Throw e, w')).
  { intros tm2 ctm1 tm. unfold call_and_store.
    pose proof (Hthrows (template_args instance textRenderer changeType) (userEnv w)) as H.
    destruct (f _ _) as [[r|e'] env']; cbn [fst] in H; [discriminate H|].
    inversion H; subst. eauto. }
  destruct (truthy_num _);
    destruct (Hcall (with_inner_maps (templaterMap w) textRenderer (c_id instance))
                (inner_componentMap (templaterMap w) textRenderer (c_id instance))
                (inner_templateMap (templaterMap w) textRenderer (c_id instance)))
      as [w' ->]; eauto.
Qed.

Lemma elementToTag_html_throws fuel element attribs theme
    (st : Heap * SSRState U) (t : SSRTemplateFn U Err) f e :
  html (classes element) = Some t ->
  _template t = Some f ->
  (forall args env, fst (f args env) = Throw e) ->
  fresh_instances textRenderer (world (snd st)) (nextInstance (snd st)) ->
  exists st',
    elementToTag classes parseHTML parseCSS stringifyCSS onConnect textRenderer
      (S fuel) element attribs theme st
    = Some (Throw (RenderError e), st').
Proof.
  intros Hhtml Hf Hthrows Hfresh. cbn [elementToTag].
  erewrite run_bind; [|reflexivity].
  destruct (truthy_str (is_ (classes element)));
    (erewrite run_bind; [|reflexivity]);
    (erewrite run_bind; [|reflexivity]);
    rewrite Hhtml;
    match goal with
    | |- context [(_tryRender _ ?i (Some t) ?a ≫= _) ?s] =>
        destruct (renderAsText_throws t f e CHANGE_TYPE.ALWAYS i
                    (world_for (world (snd s)) a) Hf Hthrows) as [w' Hr];
          [cbn [world_for templaterMap world snd fst c_id]; apply Hfresh; cbn [c_id nextInstance]; lia|]
    end;
    eexists; apply run_bind_throw; exact (tryRender_throws _ _ _ _ _ _ Hr).
Qed.

(** When the render function of the markup of the root definition throws,
    [ssr] throws a [RenderError] that carries what was thrown; there is no
    text, not even a part of it. *)
Theorem ssr_render_failure_aborts
    (fuel : nat) (element : nat) (props attributes theme : JSObj JSValue)
    (w : World SSRInstance (JSObj JSValue) (SSREnv U)) (next : nat)
    (t : SSRTemplateFn U Err) f (e : Exn Err) (map : gmap string nat) :
  html (classes element) = Some t ->
  _template t = Some f ->
  (forall args env, fst (f args env) = Throw e) ->
  fresh_instances textRenderer w next ->
  Dependencies.buildMap (S fuel) classes element ∅ = Some map ->
  exists st,
    ssr classes parseHTML parseCSS stringifyCSS onConnect textRenderer (S fuel)
      element props attributes theme w next
    = Some (Throw (RenderError e), st).
Proof.
  intros Hhtml Hf Hthrows Hfresh Hbuild.
  unfold ssr, renderElement. rewrite Hbuild.
  erewrite run_bind; [|reflexivity].
  erewrite run_bind; [|reflexivity].
  unfold render.
  match goal with
  | |- context [(elementToTag _ _ _ _ _ _ _ _ ?a ?th ≫= _) ?s] =>
      destruct (elementToTag_html_throws fuel element a th s t f e Hhtml Hf Hthrows)
        as [[h' s'] Hrun]; [exact Hfresh|]
  end.
  rewrite (run_bind_throw _ _ _ _ _ Hrun). eauto.
Qed.

End RenderFailures.

(** A definition whose markup cannot be rendered. *)
Definition ex_failing_classes (n : nat) : BaseClass unit unit :=
  match n with
  | 0%nat => {| is_ := Some "my-el"; dependencies := None;
                html := Some {| t_id := 20;
                                _template :=
                                  Some (fun _ env => (Throw (UserError tt), env));
                                changeOn := CHANGE_TYPE.PROP |};
                css := None; props := None |}
  | _ => plain_class
  end.

Lemma ex_tryRender_fails :
  exists st',
    _tryRender 99 (ex_instance 0) (html (ex_failing_classes 0)) []
      (empty_heap,
       {| session := new_DocumentSession; world := ex_ssr_world; nextInstance := 0 |})
    = Some (Throw (RenderError (UserError tt)), st').
Proof. vm_compute. eexists. reflexivity. Qed.

Lemma tryRender_wraps_witness :
  exists st' t e,
    _tryRender 99 (ex_instance 0) (html (ex_failing_classes 0)) []
      (empty_heap,
       {| session := new_DocumentSession; world := ex_ssr_world; nextInstance := 0 |})
    = Some (Throw (RenderError (UserError tt)), st')
    /\ html (ex_failing_classes 0) = Some t
    /\ RenderError (Err := unit) (UserError tt) = RenderError e.
Proof.
  destruct ex_tryRender_fails as [st' Hrun].
  destruct (tryRender_wraps_every_failure 99 (ex_instance 0)
              (html (ex_failing_classes 0)) []
              (empty_heap,
               {| session := new_DocumentSession; world := ex_ssr_world;
                  nextInstance := 0 |})
              _ _ Hrun) as (t & e & Ht & He & _).
  exists st', t, e. split; [exact Hrun|]. split; [exact Ht|exact He].
Defined.

Lemma ssr_render_failure_witness :
  fresh_instances 99 ex_ssr_world 0
  /\ Dependencies.buildMap 1 ex_failing_classes 0 ∅ = Some {[ "my-el" := 0%nat ]}
  /\ exists st,
      ssr ex_failing_classes ex_parseHTML ex_parseCSS ex_stringifyCSS (fun _ => []) 99 1
        0 [] [] [] ex_ssr_world 0
      = Some (Throw (RenderError (UserError tt)), st).
Proof.
  split; [by apply empty_cache_fresh|]. split; [reflexivity|].
  exact (ssr_render_failure_aborts ex_failing_classes ex_parseHTML ex_parseCSS
           ex_stringifyCSS (fun _ => []) 99 0 0 [] [] [] ex_ssr_world 0
           _ (fun _ env => (Throw (UserError tt), env)) (UserError tt)
           {[ "my-el" := 0%nat ]}
           eq_refl eq_refl (fun _ _ => eq_refl)
           (empty_cache_fresh 99 ex_ssr_world 0 eq_refl) eq_refl).
Defined.

(** ** From the DOM to tags, and back to text *)

Lemma DomNode_ind' (P : DomNode -> Prop) :
  (forall nodeValue, P (DomText nodeValue)) ->
  P DomOther ->
  (forall tagName attribs children,
     Forall P children -> P (DomElement tagName attribs children)) ->
  forall node, P node.
Proof.
  intros Ht Ho He. fix IH 1. intros [v|n a ch|]; [apply Ht| |apply Ho].
  apply He. induction ch as [|c ch IHch]; constructor; [apply IH|exact IHch].
Qed.

Lemma heap_extends_refl h : heap_extends h h.
Proof. split; reflexivity. Qed.

Lemma heap_extends_trans h1 h2 h3 :
  heap_extends h1 h2 -> heap_extends h2 h3 -> heap_extends h1 h3.
Proof. intros [? ?] [? ?]. split; by etrans. Qed.

Lemma toText_children_Some fuel h cs texts :
  Forall2 (fun c text => toText fuel h c = Some text) cs texts ->
  foldr (fun c acc =>
           match toText fuel h c, acc with
           | Some x, Some xs => Some (x :: xs)
           | _, _ => None
           end) (Some []) cs
  = Some texts.
Proof.
  induction 1 as [|c text cs texts Hc _ IH]; [reflexivity|].
  cbn [foldr]. rewrite Hc, IH. reflexivity.
Qed.

Lemma toText_children_inv fuel h cs texts :
  foldr (fun c acc =>
           match toText fuel h c, acc with
           | Some x, Some xs => Some (x :: xs)
           | _, _ => None
           end) (Some []) cs
  = Some texts ->
  Forall2 (fun c text => toText fuel h c = Some text) cs texts.
Proof.
  revert texts. induction cs as [|c cs IH]; intros texts H; cbn [foldr] in H.
  - inversion H. constructor.
  - destruct (toText fuel h c) as [x|] eqn:Hc; [|discriminate H].
    destruct (foldr _ _ cs) as [xs|] eqn:Hcs; [|discriminate H].
    inversion H; subst. constructor; [exact Hc|]. by apply IH.
Qed.

(** The text of a tag does not change when the heap grows. *)
Lemma toText_extends fuel : forall h h' l text,
  heap_extends h h' ->
  toText fuel h l = Some text ->
  toText fuel h' l = Some text.
Proof.
  induction fuel as [|fuel IH]; intros h h' l text [Htags Hobjs] H; [discriminate H|].
  cbn [toText] in *.
  destruct (tags h !! l) as [t|] eqn:Ht; [|discriminate H].
  rewrite (prefix_lookup_Some _ _ _ _ Ht Htags).
  destruct (instanceof_TextTag t); [exact H|].
  destruct (objs h !! tag_attributes t) as [attributes|] eqn:Ha; [|discriminate H].
  rewrite (prefix_lookup_Some _ _ _ _ Ha Hobjs).
  destruct (tag_isSelfClosing t && bool_decide (tag_children t = [])); [exact H|].
  destruct (foldr _ _ (tag__children t)) as [texts|] eqn:Hcs; [|discriminate H].
  apply toText_children_inv in Hcs.
  rewrite (toText_children_Some fuel h' (tag__children t) texts); [exact H|].
  eapply Forall2_impl; [exact Hcs|].
  intros c x Hc. cbv beta in *. eapply IH; [split; eassumption|exact Hc].
Qed.

Section ParseFacts.
Context {U Err : Type}.
Implicit Types (st : Heap * SSRState U).

(** What [domToTag] leaves behind when it returns the reference [l]: the
    state of the renderer is as before, the heap has grown, and the text of
    [l] is the markup of the node. *)
Definition parsed_as (node : DomNode) st (l : nat) st' : Prop :=
  snd st' = snd st
  /\ heap_extends (fst st) (fst st')
  /\ forall fuel, (dom_depth node < fuel)%nat ->
       toText fuel (fst st') l = Some (dom_text node).

Definition domToTag_spec (cssClasses : bool) (node : DomNode) : Prop :=
  forall st,
    if has_other node
    then exists st',
           domToTag (Err := Err) cssClasses node st
           = Some (Throw (Uncaught TypeError), st')
    else exists l st',
           domToTag (Err := Err) cssClasses node st = Some (Normal l, st')
           /\ parsed_as node st l st'.

Lemma dom_depth_le (c : DomNode) children :
  In c children -> (dom_depth c <= list_max (map dom_depth children))%nat.
Proof.
  induction children as [|x children IH]; intros Hin; [destruct Hin|].
  cbn [map list_max foldr]. destruct Hin as [->|Hin]; [lia|].
  specialize (IH Hin). unfold list_max in IH. lia.
Qed.

Lemma domToTags_run cssClasses children :
  Forall (domToTag_spec cssClasses) children ->
  forall st,
    if existsb has_other children
    then exists st',
           mapM (domToTag (Err := Err) cssClasses) children st
           = Some (Throw (Uncaught TypeError), st')
    else exists ls st',
           mapM (domToTag (Err := Err) cssClasses) children st = Some (Normal ls, st')
           /\ snd st' = snd st
           /\ heap_extends (fst st) (fst st')
           /\ Forall2 (fun node l =>
                         forall fuel, (dom_depth node < fuel)%nat ->
                           toText fuel (fst st') l = Some (dom_text node))
                children ls.
Proof.
  induction 1 as [|c children Hc _ IH]; intros st.
  - cbn [existsb]. exists [], st. split; [reflexivity|]. split; [reflexivity|].
    split; [apply heap_extends_refl|constructor].
  - cbn [existsb]. rewrite mapM_cons. specialize (Hc st).
    destruct (has_other c); cbn [orb].
    + destruct Hc as [st' Hc]. exists st'. exact (run_bind_throw _ _ _ _ _ Hc).
    + destruct Hc as (l & st1 & Hc & Hsnd1 & Hext1 & Htext1).
      rewrite (run_bind _ _ _ _ _ Hc). specialize (IH st1).
      destruct (existsb has_other children).
      * destruct IH as [st' IH]. exists st'. exact (run_bind_throw _ _ _ _ _ IH).
      * destruct IH as (ls & st2 & IH & Hsnd2 & Hext2 & Htext2).
        exists (l :: ls), st2. rewrite (run_bind _ _ _ _ _ IH).
        split; [reflexivity|]. split; [congruence|].
        split; [by eapply heap_extends_trans|].
        constructor; [|exact Htext2].
        intros fuel Hfuel. eapply toText_extends; [exact Hext2|by apply Htext1].
Qed.

Lemma domToTag_run cssClasses : forall node, domToTag_spec cssClasses node.
Proof.
  induction node as [nodeValue| |tagName attribs children IH] using DomNode_ind';
    intros st.
  - cbn [has_other domToTag]. eexists _, _. split; [reflexivity|].
    split; [reflexivity|]. split.
    { split; cbn [fst tags objs]; [by apply prefix_app_r|reflexivity]. }
    intros [|fuel] Hfuel; [lia|]. cbn [toText fst tags].
    rewrite list_lookup_middle by reflexivity.
    destruct cssClasses; reflexivity.
  - cbn [has_other domToTag]. eexists. reflexivity.
  - cbn [has_other domToTag].
    erewrite run_bind; [|reflexivity].
    match goal with
    | |- context [(mapM _ children ≫= _) ?s] => set (sta := s)
    end.
    pose proof (domToTags_run cssClasses children IH sta) as Hch.
    destruct (existsb has_other children).
    { destruct Hch as [st' Hch]. exists st'. exact (run_bind_throw _ _ _ _ _ Hch). }
    destruct Hch as (ls & st2 & Hch & Hsnd & Hext & Htexts).
    rewrite (run_bind _ _ _ _ _ Hch).
    eexists _, _. split; [reflexivity|].
    assert (Hexta : heap_extends (fst st) (fst sta)).
    { subst sta. split; cbn [fst tags objs]; [reflexivity|by apply prefix_app_r]. }
    split; [cbn [snd]; subst sta; exact Hsnd|]. split.
    { eapply heap_extends_trans; [exact Hexta|].
      eapply heap_extends_trans; [exact Hext|].
      split; cbn [fst tags objs]; [by apply prefix_app_r|reflexivity]. }
    intros [|fuel] Hfuel; [lia|]. cbn [dom_depth] in Hfuel.
    cbn [toText fst tags objs].
    rewrite list_lookup_middle by reflexivity.
    assert (Hobj : objs (fst st2) !! length (objs (fst st)) = Some attribs).
    { destruct Hext as [_ Hobjs]. eapply prefix_lookup_Some; [|exact Hobjs].
      subst sta. cbn [fst objs]. by rewrite list_lookup_middle. }
    assert (Hkids : Forall2 (fun c text =>
                               toText fuel
                                 {| tags := tags (fst st2)
                                            ++ [if cssClasses
                                                then CSSTag tagName (length (objs (fst st)))
                                                       (includes_str _VOID_TAGS
                                                          (toLowerCase tagName))
                                                       ls None ls
                                                else Tag tagName (length (objs (fst st)))
                                                       (includes_str _VOID_TAGS
                                                          (toLowerCase tagName)) ls];
                                    objs := objs (fst st2) |} c = Some text)
                      ls (map dom_text children)).
    { apply Forall2_flip. apply Forall2_fmap_l.
      eapply Forall2_impl.
      - apply Forall2_same_length_lookup_2.
        + by eapply Forall2_length.
        + intros i x y Hx Hy. 
          pose proof (Forall2_lookup_lr _ _ _ _ _ _ Htexts Hx Hy) as Hxy.
          exact (conj (list_elem_of_lookup_2 _ _ _ Hx) Hxy).
      - intros c l [Hin Hc]. cbv beta.
        eapply toText_extends; [|apply Hc].
        + split; cbn [tags objs]; [by apply prefix_app_r|reflexivity].
        + apply list_elem_of_In, dom_depth_le in Hin. lia. }
    apply (toText_children_Some fuel) in Hkids.
    assert (Hnil : bool_decide (ls = []) = match children with [] => true | _ => false end).
    { apply Forall2_length in Htexts. destruct children, ls; try discriminate Htexts;
        reflexivity. }
    destruct cssClasses;
      cbn [instanceof_TextTag tag_attributes tag_isSelfClosing tag_children
             tag__children tag_tagName];
      rewrite Hobj, Hnil;
      cbn [dom_text];
      destruct (includes_str _VOID_TAGS (toLowerCase tagName)
                && match children with [] => true | _ => false end);
      try reflexivity; rewrite Hkids; reflexivity.
Qed.

Lemma domToTag_run_all cssClasses dom : Forall (domToTag_spec cssClasses) dom.
Proof. apply List.Forall_forall. intros node _. apply domToTag_run. Qed.

(** [_domToTags] on a forest of texts and elements returns one tag for every
    node, changes nothing that was in the heap, and [toText] of the tag is
    the markup of the node: the name and the attributes as the parser gave
    them, the children in their order, and [<name/>] for a void element
    without children. *)
Theorem parsed_markup_serialises_back
    (cssClasses : bool) (dom : list DomNode) st :
  existsb has_other dom = false ->
  exists ls st',
    _domToTags (Err := Err) cssClasses dom st = Some (Normal ls, st')
    /\ snd st' = snd st
    /\ heap_extends (fst st) (fst st')
    /\ Forall2 (fun node l =>
                  forall fuel, (dom_depth node < fuel)%nat ->
                    toText fuel (fst st') l = Some (dom_text node))
         dom ls.
Proof.
  intros Hdom. unfold _domToTags.
  pose proof (domToTags_run cssClasses dom (domToTag_run_all cssClasses dom) st) as H.
  rewrite Hdom in H. exact H.
Qed.

(** A node that is neither a text nor an element, a comment for one, has no
    children to map over: wherever it is in the forest, [_domToTags] throws
    a [TypeError], which nothing below [ssr] catches. *)
Theorem parse_throws_on_other_nodes
    (cssClasses : bool) (dom : list DomNode) st :
  existsb has_other dom = true ->
  exists st',
    _domToTags (Err := Err) cssClasses dom st = Some (Throw (Uncaught TypeError), st').
Proof.
  intros Hdom. unfold _domToTags.
  pose proof (domToTags_run cssClasses dom (domToTag_run_all cssClasses dom) st) as H.
  rewrite Hdom in H. exact H.
Qed.

End ParseFacts.

(** [<br><p id=x>hi</p>], and the same with a comment in the paragraph. *)
Definition ex_dom : list DomNode :=
  [DomElement "br" [] []; DomElement "p" [("id", VStr "x")] [DomText "hi"]].

Definition ex_dom_with_comment : list DomNode :=
  [DomElement "br" [] []; DomElement "p" [("id", VStr "x")] [DomText "hi"; DomOther]].

Lemma parsed_markup_witness :
  existsb has_other ex_dom = false
  /\ map dom_text ex_dom
     = ["<br/>"; "<p id=" +:+ String quote ("x" +:+ String quote ">hi</p>")]
  /\ exists ls st',
      _domToTags (Err := unit) false ex_dom ex_style_state = Some (Normal ls, st')
      /\ snd st' = snd ex_style_state
      /\ heap_extends (fst ex_style_state) (fst st')
      /\ Forall2 (fun node l =>
                    forall fuel, (dom_depth node < fuel)%nat ->
                      toText fuel (fst st') l = Some (dom_text node))
           ex_dom ls.
Proof.
  split; [reflexivity|]. split; [reflexivity|].
  exact (parsed_markup_serialises_back false ex_dom ex_style_state eq_refl).
Defined.

Lemma parse_throws_witness :
  existsb has_other ex_dom_with_comment = true
  /\ exists st',
      _domToTags (Err := unit) false ex_dom_with_comment ex_style_state
      = Some (Throw (Uncaught TypeError), st').
Proof.
  split; [reflexivity|].
  exact (parse_throws_on_other_nodes false ex_dom_with_comment ex_style_state eq_refl).
Defined.

(** ** ssr.ts: the stylesheets of a template *)

Lemma css_tree_element (P : option Z -> Prop) h tagName attribs children l :
  css_tree P h (DomElement tagName attribs children) l
  <-> exists attributes ls m,
        tags h !! l
        = Some (CSSTag tagName attributes
                  (includes_str _VOID_TAGS (toLowerCase tagName)) ls m ls)
        /\ objs h !! attributes = Some attribs
        /\ P m
        /\ Forall2 (css_tree P h) children ls.
Proof.
  cbn [css_tree].
  assert (Hall : forall nodes ls,
            (fix all (nodes : list DomNode) (ls : list nat) {struct nodes} : Prop :=
               match nodes, ls with
               | [], [] => True
               | node :: nodes, l :: ls => css_tree P h node l /\ all nodes ls
               | _, _ => False
               end) nodes ls
            <-> Forall2 (css_tree P h) nodes ls).
  { induction nodes as [|node nodes IH]; intros [|l' ls].
    - split; [constructor|trivial].
    - split; [intros []|intros H; inversion H].
    - split; [intros []|intros H; inversion H].
    - rewrite IH. split.
      + intros [Hn Hr]. by constructor.
      + intros H. inversion H; subst. by split. }
  split; intros (a & ls & m & Ht & Ho & Hm & Hc); exists a, ls, m;
    (split; [exact Ht|]); (split; [exact Ho|]); (split; [exact Hm|]);
    by apply Hall.
Qed.

(** A tree stays a tree on a heap that holds its tags up to [_changeOn]. *)
Lemma css_tree_transfer (P P' : option Z -> Prop) (h h' : Heap) :
  (forall l v m, tags h !! l = Some (CSSText v m None) -> P m ->
     exists m', tags h' !! l = Some (CSSText v m' None) /\ P' m') ->
  (forall l n a b c m cc, tags h !! l = Some (CSSTag n a b c m cc) -> P m ->
     exists m', tags h' !! l = Some (CSSTag n a b c m' cc) /\ P' m') ->
  (forall l o, objs h !! l = Some o -> objs h' !! l = Some o) ->
  forall node l, css_tree P h node l -> css_tree P' h' node l.
Proof.
  intros Htext Htag Hobj.
  induction node as [v| |n a cs IH] using DomNode_ind'; intros l.
  - intros (m & Ht & Hm). destruct (Htext _ _ _ Ht Hm) as (m' & Ht' & Hm').
    exists m'. by split.
  - intros [].
  - rewrite !css_tree_element. intros (al & ls & m & Ht & Ho & Hm & Hc).
    destruct (Htag _ _ _ _ _ _ _ Ht Hm) as (m' & Ht' & Hm').
    exists al, ls, m'. split; [exact Ht'|]. split; [by apply Hobj|]. split; [exact Hm'|].
    clear Ht Ht'. revert ls Hc. induction IH as [|c cs Hc' _ IHcs]; intros ls Hc.
    + inversion Hc; subst. constructor.
    + inversion Hc; subst. constructor; [by apply Hc'|by apply IHcs].
Qed.

Lemma css_tree_extends (P : option Z -> Prop) h h' node l :
  heap_extends h h' -> css_tree P h node l -> css_tree P h' node l.
Proof.
  intros [Htags Hobjs]. apply css_tree_transfer.
  - intros l0 v m Ht Hm. exists m. split; [|exact Hm].
    eapply prefix_lookup_Some; [exact Ht|exact Htags].
  - intros l0 n a b c m cc Ht Hm. exists m. split; [|exact Hm].
    eapply prefix_lookup_Some; [exact Ht|exact Htags].
  - intros l0 o Ho. eapply prefix_lookup_Some; [exact Ho|exact Hobjs].
Qed.

Lemma css_tree_remasked (P : option Z -> Prop) changeOn h h' node l :
  P (Some changeOn) -> remasked changeOn h h' ->
  css_tree P h node l -> css_tree P h' node l.
Proof.
  intros HP (Ho & _ & Ht). apply css_tree_transfer.
  - intros l0 v m Hl Hm. destruct (Ht _ _ Hl) as [Hl'|Hl'].
    + exists m. by split.
    + exists (Some changeOn). by split.
  - intros l0 n a b c m cc Hl Hm. destruct (Ht _ _ Hl) as [Hl'|Hl'].
    + exists m. by split.
    + exists (Some changeOn). by split.
  - intros l0 o Hl. by rewrite Ho.
Qed.

Lemma css_tree_shape (P : option Z -> Prop) h node l :
  css_tree P h node l -> css_tree (fun _ => True) h node l.
Proof.
  apply css_tree_transfer.
  - intros l0 v m Hl _. exists m. by split.
  - intros l0 n a b c m cc Hl _. exists m. by split.
  - auto.
Qed.

Lemma with_changeOn_idemp changeOn t :
  with_changeOn changeOn (with_changeOn changeOn t) = with_changeOn changeOn t.
Proof. destruct t; reflexivity. Qed.

Lemma remasked_refl changeOn h : remasked changeOn h h.
Proof. split; [reflexivity|]. split; [reflexivity|]. intros l t Ht. by left. Qed.

Lemma remasked_trans changeOn h1 h2 h3 :
  remasked changeOn h1 h2 -> remasked changeOn h2 h3 -> remasked changeOn h1 h3.
Proof.
  intros (Ho1 & Hl1 & Ht1) (Ho2 & Hl2 & Ht2).
  split; [congruence|]. split; [congruence|].
  intros l t Hl. destruct (Ht1 _ _ Hl) as [H1|H1]; destruct (Ht2 _ _ H1) as [H2|H2];
    rewrite ?with_changeOn_idemp in H2; auto.
Qed.

Lemma remasked_set changeOn h l t :
  tags h !! l = Some t ->
  remasked changeOn h
    {| tags := <[l := with_changeOn changeOn t]> (tags h); objs := objs h |}.
Proof.
  intros Hl. split; [reflexivity|]. split; [apply length_insert|].
  cbn [tags]. intros l0 t0 Hl0. destruct (decide (l0 = l)) as [->|Hne].
  - right. rewrite Hl in Hl0. inversion Hl0; subst.
    apply list_lookup_insert_eq. by apply lookup_lt_Some in Hl.
  - left. by rewrite list_lookup_insert_ne.
Qed.

Section TemplateCSS.
Context {U Err : Type}.
Variable classes : nat -> BaseClass U Err.
Variable parseHTML : string -> list DomNode.
Variable textRenderer : nat.
Implicit Types (s : SSRState U).

(** [setChangeOn] on a tree whose depth the fuel covers. *)
Definition setChangeOn_spec (changeOn : Z) (node : DomNode) : Prop :=
  forall fuel l h s,
    css_tree (fun _ => True) h node l ->
    (dom_depth node < fuel)%nat ->
    exists h',
      setChangeOn (Err := Err) fuel changeOn l (h, s) = Some (Normal tt, (h', s))
      /\ remasked changeOn h h'
      /\ css_tree (eq (Some changeOn)) h' node l.

Lemma setChangeOn_all changeOn fuel : forall nodes ls h s,
  Forall (setChangeOn_spec changeOn) nodes ->
  Forall2 (css_tree (fun _ => True) h) nodes ls ->
  Forall (fun node => (dom_depth node < fuel)%nat) nodes ->
  exists h',
    forEachM (setChangeOn (Err := Err) fuel changeOn) ls (h, s) = Some (Normal tt, (h', s))
    /\ remasked changeOn h h'
    /\ Forall2 (css_tree (eq (Some changeOn)) h') nodes ls.
Proof.
  induction nodes as [|node nodes IH]; intros ls h s Hspec Htrees Hdepth.
  - inversion Htrees; subst. exists h. split; [reflexivity|].
    split; [apply remasked_refl|constructor].
  - inversion Htrees as [|? l ? ls' Htree Htrees']; subst.
    inversion Hspec as [|? ? Hnode Hspec']; subst.
    inversion Hdepth as [|? ? Hd Hdepth']; subst.
    destruct (Hnode fuel l h s Htree Hd) as (h1 & Hrun1 & Hre1 & Hmarked1).
    destruct (IH ls' h1 s Hspec') as (h' & Hrun & Hre & Hmarked).
    { eapply Forall2_impl; [exact Htrees'|].
      intros c l0. by apply (css_tree_remasked _ changeOn). }
    { exact Hdepth'. }
    exists h'. rewrite forEachM_cons, Hrun1. split; [exact Hrun|].
    split; [by eapply remasked_trans|].
    constructor; [|exact Hmarked].
    by apply (css_tree_remasked _ changeOn h1).
Qed.

Lemma setChangeOn_run changeOn : forall node, setChangeOn_spec changeOn node.
Proof.
  induction node as [v| |n a cs IH] using DomNode_ind'; intros fuel l h s Htree Hfuel.
  - destruct fuel as [|fuel]; [lia|]. destruct Htree as (m & Hl & _).
    cbn [setChangeOn]. rewrite (run_bind _ _ _ _ _ (run_getTag l _ (h, s) Hl)).
    eexists. split; [reflexivity|]. split.
    + exact (remasked_set changeOn h l _ Hl).
    + exists (Some changeOn). split; [|reflexivity]. cbn [tags].
      apply list_lookup_insert_eq. by apply lookup_lt_Some in Hl.
  - destruct Htree.
  - destruct fuel as [|fuel]; [lia|]. cbn [dom_depth] in Hfuel.
    apply css_tree_element in Htree as (al & ls & m & Hl & Ho & _ & Hc).
    destruct (setChangeOn_all changeOn fuel cs ls h s IH Hc) as (h1 & Hrun1 & Hre1 & Hmarked).
    { apply List.Forall_forall. intros c Hin. apply dom_depth_le in Hin. lia. }
    cbn [setChangeOn]. rewrite (run_bind _ _ _ _ _ (run_getTag l _ (h, s) Hl)).
    rewrite (run_bind _ _ _ _ _ Hrun1).
    assert (Hl1 : exists m1,
              tags h1 !! l
              = Some (CSSTag n al (includes_str _VOID_TAGS (toLowerCase n)) ls m1 ls)).
    { destruct Hre1 as (_ & _ & Ht). destruct (Ht _ _ Hl) as [H1|H1]; eauto. }
    destruct Hl1 as [m1 Hl1].
    rewrite (run_bind _ _ _ _ _ (run_getTag l _ (h1, s) Hl1)).
    eexists. split; [reflexivity|].
    pose proof (remasked_set changeOn h1 l _ Hl1) as Hre2. cbn [with_changeOn] in Hre2.
    split; [by eapply remasked_trans|].
    apply css_tree_element. exists al, ls, (Some changeOn).
    split; [cbn [tags]; apply list_lookup_insert_eq; by apply lookup_lt_Some in Hl1|].
    split; [change (objs h1 !! al = Some a); destruct Hre1 as [-> _]; exact Ho|].
    split; [reflexivity|].
    eapply Forall2_impl; [exact Hmarked|].
    intros c l0. by apply (css_tree_remasked _ changeOn).
Qed.

(** The tags [domToTag] makes for a stylesheet template. *)
Definition css_parsed_spec (node : DomNode) : Prop :=
  has_other node = false ->
  forall st : Heap * SSRState U,
  exists l st',
    domToTag (Err := Err) true node st = Some (Normal l, st')
    /\ snd st' = snd st
    /\ heap_extends (fst st) (fst st')
    /\ css_tree (eq None) (fst st') node l.

Lemma css_parsed_all : forall nodes (st : Heap * SSRState U),
  Forall css_parsed_spec nodes ->
  existsb has_other nodes = false ->
  exists ls st',
    mapM (domToTag (Err := Err) true) nodes st = Some (Normal ls, st')
    /\ snd st' = snd st
    /\ heap_extends (fst st) (fst st')
    /\ Forall2 (css_tree (eq None) (fst st')) nodes ls.
Proof.
  induction nodes as [|node nodes IH]; intros st Hspec Hother.
  - exists [], st. split; [reflexivity|]. split; [reflexivity|].
    split; [apply heap_extends_refl|constructor].
  - cbn [existsb] in Hother. apply orb_false_iff in Hother as [Hnode Hnodes].
    inversion Hspec as [|? ? Hc Hspec']; subst.
    destruct (Hc Hnode st) as (l & st1 & Hrun1 & Hs1 & Hext1 & Htree1).
    destruct (IH st1 Hspec' Hnodes) as (ls & st2 & Hrun2 & Hs2 & Hext2 & Htrees2).
    exists (l :: ls), st2. rewrite mapM_cons.
    rewrite (run_bind _ _ _ _ _ Hrun1), (run_bind _ _ _ _ _ Hrun2).
    split; [reflexivity|]. split; [congruence|].
    split; [by eapply heap_extends_trans|].
    constructor; [by eapply css_tree_extends|exact Htrees2].
Qed.

Lemma css_parsed_run : forall node, css_parsed_spec node.
Proof.
  induction node as [v| |n a cs IH] using DomNode_ind'; intros Hother st.
  - cbn [domToTag]. eexists _, _. split; [reflexivity|]. split; [reflexivity|].
    split.
    { split; cbn [fst tags objs]; [by apply prefix_app_r|reflexivity]. }
    exists None. split; [|reflexivity]. cbn [fst tags].
    by rewrite list_lookup_middle.
  - discriminate Hother.
  - cbn [has_other] in Hother. cbn [domToTag].
    erewrite run_bind; [|reflexivity].
    match goal with
    | |- context [(mapM _ cs ≫= _) ?s] => set (sta := s)
    end.
    destruct (css_parsed_all cs sta IH Hother) as (ls & st2 & Hrun & Hs & Hext & Htrees).
    rewrite (run_bind _ _ _ _ _ Hrun).
    eexists _, _. split; [reflexivity|].
    assert (Hexta : heap_extends (fst st) (fst sta)).
    { subst sta. split; cbn [fst tags objs]; [reflexivity|by apply prefix_app_r]. }
    assert (Hextz : heap_extends (fst st2)
                      {| tags := tags (fst st2)
                                 ++ [CSSTag n (length (objs (fst st)))
                                       (includes_str _VOID_TAGS (toLowerCase n))
                                       ls None ls];
                         objs := objs (fst st2) |}).
    { split; cbn [tags objs]; [by apply prefix_app_r|reflexivity]. }
    split; [cbn [snd]; subst sta; exact Hs|]. split.
    { eapply heap_extends_trans; [exact Hexta|].
      eapply heap_extends_trans; [exact Hext|exact Hextz]. }
    apply css_tree_element. exists (length (objs (fst st))), ls, None.
    cbn [fst tags objs].
    split; [by rewrite list_lookup_middle|]. split.
    { destruct Hext as [_ Hobjs]. eapply prefix_lookup_Some; [|exact Hobjs].
      subst sta. cbn [fst objs]. by rewrite list_lookup_middle. }
    split; [reflexivity|].
    eapply Forall2_impl; [exact Htrees|].
    intros c l0. by apply css_tree_extends.
Qed.

Lemma style_tags_filter (P : option Z -> Prop) h : forall nodes ls,
  Forall2 (css_tree P h) nodes ls ->
  Forall2 (css_tree P h) (List.filter is_element nodes)
    (List.filter (fun t => match tags h !! t with
                           | Some x => instanceof_Tag x
                           | None => false
                           end) ls).
Proof.
  induction 1 as [|node l nodes ls Hnode _ IH]; [constructor|].
  cbn [List.filter]. destruct node as [v|n a cs|].
  - destruct Hnode as (m & -> & _). exact IH.
  - pose proof Hnode as Hnode'.
    apply css_tree_element in Hnode' as (al & ls' & m & -> & _).
    cbn [is_element instanceof_Tag]. by constructor.
  - destruct Hnode.
Qed.

(** [_parseElementCSS] keeps, of what a stylesheet template renders, the
    elements at the top of the markup, in their order, and sets the mask of
    the template on every tag of theirs, so that the sheets of one template
    are all global or all local; a text at the top of the markup, styles
    outside of an element, is left out. *)
Theorem css_template_keeps_top_elements
    (fuel : nat) (instance : Component SSRInstance (JSObj JSValue))
    (acc : list (list nat) * JSObj JSValue) (template : SSRTemplateFn U Err)
    (text : string) (_attributes : JSObj JSValue) (st st1 : Heap * SSRState U) :
  _tryRender textRenderer instance (Some template) (snd acc) st
  = Some (Normal (text, _attributes), st1) ->
  existsb has_other (parseHTML text) = false ->
  Forall (fun node => (dom_depth node < fuel)%nat) (parseHTML text) ->
  exists styleTags st',
    parseTemplateCSS parseHTML textRenderer fuel instance acc template st
    = Some (Normal (fst acc ++ [styleTags], _attributes), st')
    /\ snd st' = snd st1
    /\ Forall2 (css_tree (eq (Some (changeOn template))) (fst st'))
         (List.filter is_element (parseHTML text)) styleTags.
Proof.
  intros Hrender Hother Hdepth. unfold parseTemplateCSS.
  rewrite (run_bind _ _ _ _ _ Hrender). unfold parse, _domToTags.
  destruct (css_parsed_all (parseHTML text) st1) as (ls & st2 & Hparse & Hs & Hext & Htrees).
  { apply List.Forall_forall. intros node _. apply css_parsed_run. }
  { exact Hother. }
  rewrite (run_bind _ _ _ _ _ Hparse).
  erewrite run_bind; [|reflexivity]. cbn [fst].
  apply style_tags_filter in Htrees.
  destruct st2 as [h2 s2]. cbn [fst snd] in *.
  eapply Forall2_impl in Htrees; [|intros c l0; apply css_tree_shape].
  destruct (setChangeOn_all (changeOn template) fuel _ _ h2 s2
              (proj2 (List.Forall_forall _ _)
                 (fun node _ => setChangeOn_run (changeOn template) node))
              Htrees)
    as (h' & Hrun & Hre & Hmarked).
  { apply List.Forall_forall. intros node Hin. apply List.filter_In in Hin as [Hin _].
    rewrite List.Forall_forall in Hdepth. by apply Hdepth. }
  cbn [fst] in Hrun. rewrite (run_bind _ _ _ _ _ Hrun).
  eexists _, _. split; [reflexivity|]. split; [exact Hs|exact Hmarked].
Qed.

End TemplateCSS.

(** A template that renders a loose rule before its style element. *)
Definition ex_parseHTML_mixed (text : string) : list DomNode :=
  if String.eqb text "mixed"
  then [DomText ".loose{}"; DomElement "style" [] [DomText ".foo{}"]]
  else [].

Abbreviation ex_new_state :=
  (empty_heap,
   {| session := new_DocumentSession; world := ex_ssr_world; nextInstance := 0%nat |}).

Lemma ex_mixed_renders :
  exists st1,
    _tryRender 99 (ex_instance 0) (Some (ex_template 40 "mixed" CHANGE_TYPE.THEME)) []
      ex_new_state
    = Some (Normal ("mixed", []), st1).
Proof. vm_compute. eexists. reflexivity. Qed.

Lemma ex_mixed_depth :
  Forall (fun node => (dom_depth node < 8)%nat) (ex_parseHTML_mixed "mixed").
Proof. apply List.Forall_forall. intros node [<-|[<-|[]]]; cbn; lia. Qed.

Lemma css_template_witness :
  exists st1 styleTags st',
    _tryRender 99 (ex_instance 0) (Some (ex_template 40 "mixed" CHANGE_TYPE.THEME)) []
      ex_new_state
    = Some (Normal ("mixed", []), st1)
    /\ existsb has_other (ex_parseHTML_mixed "mixed") = false
    /\ Forall (fun node => (dom_depth node < 8)%nat) (ex_parseHTML_mixed "mixed")
    /\ parseTemplateCSS ex_parseHTML_mixed 99 8 (ex_instance 0) ([], [])
         (ex_template 40 "mixed" CHANGE_TYPE.THEME) ex_new_state
       = Some (Normal ([] ++ [styleTags], []), st')
    /\ snd st' = snd st1
    /\ Forall2 (css_tree (eq (Some CHANGE_TYPE.THEME)) (fst st'))
         (List.filter is_element (ex_parseHTML_mixed "mixed")) styleTags.
Proof.
  destruct ex_mixed_renders as [st1 Hrender].
  destruct (css_template_keeps_top_elements ex_parseHTML_mixed 99 8 (ex_instance 0)
              ([], []) (ex_template 40 "mixed" CHANGE_TYPE.THEME) "mixed" []
              ex_new_state st1 Hrender eq_refl ex_mixed_depth)
    as (styleTags & st' & Hrun & Hs & Htrees).
  exists st1, styleTags, st'.
  split; [exact Hrender|]. split; [reflexivity|]. split; [exact ex_mixed_depth|].
  split; [exact Hrun|]. split; [exact Hs|exact Htrees].
Defined.
(** ** Stylesheets on the heap *)

Lemma scoped_sheet_prefixed prefix sheet :
  prefixed_sheet prefix sheet = scoped_sheet prefix sheet.
Proof.
  unfold scoped_sheet, prefixed_sheet. destruct sheet as [[rules|]]; cbn; [|reflexivity].
  f_equal. f_equal. apply List.map_ext. intros [[sel|] d]; reflexivity.
Qed.

Lemma same_outside_refl lo hi h : same_outside lo hi h h.
Proof. split; [reflexivity|]. split; reflexivity. Qed.

Lemma same_outside_trans lo hi h1 h2 h3 :
  same_outside lo hi h1 h2 -> same_outside lo hi h2 h3 -> same_outside lo hi h1 h3.
Proof.
  intros (Ho1 & Hl1 & Ht1) (Ho2 & Hl2 & Ht2).
  split; [congruence|]. split; [congruence|].
  intros l Hl. rewrite Ht2, Ht1 by exact Hl. reflexivity.
Qed.

Lemma same_outside_widen lo hi lo' hi' h h' :
  (lo' <= lo)%nat -> (hi <= hi')%nat ->
  same_outside lo hi h h' -> same_outside lo' hi' h h'.
Proof.
  intros Hlo Hhi (Ho & Hl & Ht). split; [exact Ho|]. split; [exact Hl|].
  intros l Hout. apply Ht. lia.
Qed.

Lemma same_outside_set lo hi h l t :
  (lo <= l < hi)%nat ->
  same_outside lo hi h {| tags := <[l := t]> (tags h); objs := objs h |}.
Proof.
  intros Hl. split; [reflexivity|]. split; [apply length_insert|].
  cbn [tags]. intros l0 Hout. apply list_lookup_insert_ne. lia.
Qed.

(** What lies from [lo] up to [hi] is untouched by a change from [a] up to
    [b] when the two stretches do not meet. *)
Lemma same_outside_stay a b lo hi h h' :
  same_outside a b h h' -> (hi <= a \/ b <= lo)%nat ->
  forall l t, (lo <= l < hi)%nat -> tags h !! l = Some t -> tags h' !! l = Some t.
Proof.
  intros (_ & _ & Ht) Hdisj l t Hl Hlook. rewrite Ht by lia. exact Hlook.
Qed.

Lemma tags_stay_refl h : tags_stay h h.
Proof. intros l t H. exact H. Qed.

Lemma tags_stay_trans h1 h2 h3 : tags_stay h1 h2 -> tags_stay h2 h3 -> tags_stay h1 h3.
Proof. intros H1 H2 l t H. apply H2, H1, H. Qed.

Lemma tags_stay_prefix h h' : tags h `prefix_of` tags h' -> tags_stay h h'.
Proof. intros Hp l t H. eapply prefix_lookup_Some; eauto. Qed.

Lemma tags_stay_length h h' : tags_stay h h' -> (length (tags h) <= length (tags h'))%nat.
Proof.
  intros Hs. destruct (tags h) as [|t0 ts] eqn:Ht; [cbn; lia|].
  assert (Hlast : is_Some (tags h !! length ts)).
  { apply lookup_lt_is_Some. rewrite Ht. cbn. lia. }
  destruct Hlast as [t Hl]. apply Hs in Hl. apply lookup_lt_Some in Hl. cbn. lia.
Qed.

(** A change above the tags of [h] leaves them where they are. *)
Lemma tags_stay_outside lo hi h h1 h2 :
  tags_stay h h1 -> same_outside lo hi h1 h2 -> (length (tags h) <= lo)%nat ->
  tags_stay h h2.
Proof.
  intros Hs (_ & _ & Ht) Hlo l t Hl. rewrite Ht.
  - by apply Hs.
  - left. apply lookup_lt_Some in Hl. lia.
Qed.

Section LaidFacts.
Variable text_ok : string -> ParsedTag -> Prop.
Variable mask : option Z.

Lemma css_laid_element h n a cs lo hi l :
  css_laid text_ok mask h (DomElement n a cs) lo hi l
  <-> (lo <= l < hi)%nat
      /\ exists attributes ls,
           tags h !! l
           = Some (CSSTag n attributes (includes_str _VOID_TAGS (toLowerCase n))
                     ls mask ls)
           /\ css_chain text_ok mask h cs lo l ls.
Proof.
  cbn [css_laid].
  assert (Hchain : forall nodes from ls,
            (fix chain (nodes : list DomNode) (from : nat) (ls : list nat)
                 {struct nodes} : Prop :=
               match nodes, ls with
               | [], [] => (from <= l)%nat
               | node :: nodes, l' :: ls =>
                   exists mid, css_laid text_ok mask h node from mid l'
                               /\ chain nodes mid ls
               | _, _ => False
               end) nodes from ls
            <-> css_chain text_ok mask h nodes from l ls).
  { induction nodes as [|node nodes IH]; intros from [|l' ls]; cbn [css_chain];
      try reflexivity.
    split; intros (mid & Hn & Hr); exists mid; (split; [exact Hn|]); by apply IH. }
  split; intros (Hb & al & ls & Ht & Hc); (split; [exact Hb|]); exists al, ls;
    (split; [exact Ht|]); by apply Hchain.
Qed.

Lemma css_laid_bounds h node lo hi l :
  css_laid text_ok mask h node lo hi l -> (lo <= l < hi)%nat.
Proof. destruct node; cbn [css_laid]; [tauto|tauto|intros []]. Qed.

Lemma css_chain_bounds h nodes : forall lo hi ls,
  css_chain text_ok mask h nodes lo hi ls -> (lo <= hi)%nat.
Proof.
  induction nodes as [|node nodes IH]; intros lo hi [|l ls]; cbn [css_chain];
    try tauto.
  intros (mid & Hn & Hr). apply css_laid_bounds in Hn. apply IH in Hr. lia.
Qed.

Lemma css_chain_length h nodes : forall lo hi ls,
  css_chain text_ok mask h nodes lo hi ls -> length ls = length nodes.
Proof.
  induction nodes as [|node nodes IH]; intros lo hi [|l ls]; cbn [css_chain];
    try tauto.
  intros (mid & _ & Hr). cbn. f_equal. by apply IH in Hr.
Qed.

(** Induction on a tree and on the list of its children at once. *)
Lemma laid_chain_ind (P : DomNode -> Prop) (Q : list DomNode -> Prop) :
  (forall nodeValue, P (DomText nodeValue)) ->
  P DomOther ->
  (forall tagName attribs children, Q children -> P (DomElement tagName attribs children)) ->
  Q [] ->
  (forall node nodes, P node -> Q nodes -> Q (node :: nodes)) ->
  (forall node, P node) /\ (forall nodes, Q nodes).
Proof.
  intros Ht Ho He Hn Hc.
  assert (HP : forall node, P node).
  { induction node as [v| |n a cs IH] using DomNode_ind'; [apply Ht|apply Ho|].
    apply He. induction IH as [|c cs Hc' _ IHcs]; [exact Hn|by apply Hc]. }
  split; [exact HP|].
  induction nodes as [|node nodes IH]; [exact Hn|apply Hc; [apply HP|exact IH]].
Qed.

Lemma css_laid_chain_widen h :
  (forall node lo hi lo' hi' l,
     (lo' <= lo)%nat -> (hi <= hi')%nat ->
     css_laid text_ok mask h node lo hi l -> css_laid text_ok mask h node lo' hi' l)
  /\ (forall nodes lo hi lo' hi' ls,
        (lo' <= lo)%nat -> (hi <= hi')%nat ->
        css_chain text_ok mask h nodes lo hi ls ->
        css_chain text_ok mask h nodes lo' hi' ls).
Proof.
  apply laid_chain_ind.
  - intros v lo hi lo' hi' l Hlo Hhi (Hb & Ht). split; [lia|exact Ht].
  - intros lo hi lo' hi' l _ _ [].
  - intros n a cs IH lo hi lo' hi' l Hlo Hhi. rewrite !css_laid_element.
    intros (Hb & al & ls & Ht & Hc). split; [lia|]. exists al, ls.
    split; [exact Ht|]. eapply IH; [exact Hlo| |exact Hc]. lia.
  - intros lo hi lo' hi' [|l ls] Hlo Hhi; cbn [css_chain]; [lia|tauto].
  - intros node nodes IHn IHc lo hi lo' hi' [|l ls] Hlo Hhi; cbn [css_chain]; [tauto|].
    intros (mid & Hn & Hr). exists mid. split.
    + eapply IHn; [exact Hlo| |exact Hn]. lia.
    + eapply IHc; [|exact Hhi|exact Hr]. lia.
Qed.

Lemma css_laid_widen h node lo hi lo' hi' l :
  (lo' <= lo)%nat -> (hi <= hi')%nat ->
  css_laid text_ok mask h node lo hi l -> css_laid text_ok mask h node lo' hi' l.
Proof. apply css_laid_chain_widen. Qed.

Lemma css_chain_widen h nodes lo hi lo' hi' ls :
  (lo' <= lo)%nat -> (hi <= hi')%nat ->
  css_chain text_ok mask h nodes lo hi ls -> css_chain text_ok mask h nodes lo' hi' ls.
Proof. apply css_laid_chain_widen. Qed.

(** A tree stays where it is on a heap that holds its tags. *)
Lemma css_laid_chain_transfer h h' :
  (forall node lo hi l,
     (forall l0 t, (lo <= l0 < hi)%nat -> tags h !! l0 = Some t -> tags h' !! l0 = Some t) ->
     css_laid text_ok mask h node lo hi l -> css_laid text_ok mask h' node lo hi l)
  /\ (forall nodes lo hi ls,
        (forall l0 t, (lo <= l0 < hi)%nat -> tags h !! l0 = Some t ->
           tags h' !! l0 = Some t) ->
        css_chain text_ok mask h nodes lo hi ls ->
        css_chain text_ok mask h' nodes lo hi ls).
Proof.
  apply laid_chain_ind.
  - intros v lo hi l Hstay (Hb & t & Ht & Hok). split; [exact Hb|].
    exists t. split; [by apply Hstay|exact Hok].
  - intros lo hi l _ [].
  - intros n a cs IH lo hi l Hstay. rewrite !css_laid_element.
    intros (Hb & al & ls & Ht & Hc). split; [exact Hb|]. exists al, ls.
    split; [by apply Hstay|]. apply IH; [|exact Hc].
    intros l0 t Hl0. apply Hstay. lia.
  - intros lo hi [|l ls] _; cbn [css_chain]; tauto.
  - intros node nodes IHn IHc lo hi [|l ls] Hstay; cbn [css_chain]; [tauto|].
    intros (mid & Hn & Hr). exists mid.
    pose proof (css_laid_bounds _ _ _ _ _ Hn) as Hb.
    pose proof (css_chain_bounds _ _ _ _ _ Hr) as Hb'.
    split.
    + apply IHn; [|exact Hn]. intros l0 t Hl0. apply Hstay. lia.
    + apply IHc; [|exact Hr]. intros l0 t Hl0. apply Hstay. lia.
Qed.

Lemma css_laid_stay h h' node lo hi l :
  tags_stay h h' ->
  css_laid text_ok mask h node lo hi l -> css_laid text_ok mask h' node lo hi l.
Proof. intros Hs. apply css_laid_chain_transfer. intros l0 t _. apply Hs. Qed.

Lemma css_chain_stay h h' nodes lo hi ls :
  tags_stay h h' ->
  css_chain text_ok mask h nodes lo hi ls -> css_chain text_ok mask h' nodes lo hi ls.
Proof. intros Hs. apply css_laid_chain_transfer. intros l0 t _. apply Hs. Qed.

Lemma css_laid_outside a b h h' node lo hi l :
  same_outside a b h h' -> (hi <= a \/ b <= lo)%nat ->
  css_laid text_ok mask h node lo hi l -> css_laid text_ok mask h' node lo hi l.
Proof.
  intros Hs Hd. apply css_laid_chain_transfer. by apply (same_outside_stay a b).
Qed.

Lemma css_chain_outside a b h h' nodes lo hi ls :
  same_outside a b h h' -> (hi <= a \/ b <= lo)%nat ->
  css_chain text_ok mask h nodes lo hi ls -> css_chain text_ok mask h' nodes lo hi ls.
Proof.
  intros Hs Hd. apply css_laid_chain_transfer. by apply (same_outside_stay a b).
Qed.

(** The elements of a chain, with the references of elements. *)
Lemma css_chain_elements h nodes : forall lo hi ls,
  css_chain text_ok mask h nodes lo hi ls ->
  (forall v t, text_ok v t -> instanceof_Tag t = false) ->
  css_chain text_ok mask h (List.filter is_element nodes) lo hi
    (List.filter (fun t => match tags h !! t with
                           | Some x => instanceof_Tag x
                           | None => false
                           end) ls).
Proof.
  induction nodes as [|node nodes IH]; intros lo hi [|l ls]; cbn [css_chain];
    try tauto.
  intros (mid & Hn & Hr) Htext. cbn [List.filter].
  pose proof (css_laid_bounds _ _ _ _ _ Hn) as Hb.
  destruct node as [v|n a cs|].
  - destruct Hn as (_ & t & Ht & Hok). rewrite Ht, (Htext _ _ Hok).
    cbn [is_element]. eapply css_chain_widen; [| |by apply IH]; lia.
  - pose proof Hn as Hn'. apply css_laid_element in Hn' as (_ & al & ls' & Ht & _).
    rewrite Ht. cbn [is_element instanceof_Tag css_chain].
    exists mid. split; [exact Hn|by apply IH].
  - destruct Hn.
Qed.

End LaidFacts.
(** ** Parsing, masking and scoping the stylesheets of a template *)

Section SheetSteps.
Context {U Err : Type}.
Variable parseCSS : string -> Completion (Exn Err) Stylesheet.
Variable stringifyCSS : Stylesheet -> string.
Implicit Types (s : SSRState U) (st : Heap * SSRState U).

Lemma tags_stay_app h t :
  tags_stay h {| tags := tags h ++ [t]; objs := objs h |}.
Proof. apply tags_stay_prefix. cbn [tags]. by apply prefix_app_r. Qed.

(** [domToTag] lays a tree at new references. *)
Lemma css_parsed_laid :
  (forall node, has_other node = false ->
     forall st, exists l st',
       domToTag (Err := Err) true node st = Some (Normal l, st')
       /\ snd st' = snd st
       /\ tags_stay (fst st) (fst st')
       /\ css_laid parsed_text None (fst st') node
            (length (tags (fst st))) (length (tags (fst st'))) l)
  /\ (forall nodes, existsb has_other nodes = false ->
        forall st, exists ls st',
          mapM (domToTag (Err := Err) true) nodes st = Some (Normal ls, st')
          /\ snd st' = snd st
          /\ tags_stay (fst st) (fst st')
          /\ css_chain parsed_text None (fst st') nodes
               (length (tags (fst st))) (length (tags (fst st'))) ls).
Proof.
  apply laid_chain_ind.
  - intros v _ st. cbn [domToTag]. eexists _, _. split; [reflexivity|].
    split; [reflexivity|]. split; [apply tags_stay_app|].
    cbn [fst tags css_laid]. rewrite length_app. cbn [length]. split; [lia|].
    eexists. split; [by rewrite list_lookup_middle|reflexivity].
  - intros Hother. discriminate Hother.
  - intros n a cs IH Hother st. cbn [has_other] in Hother. cbn [domToTag].
    erewrite run_bind; [|reflexivity].
    match goal with
    | |- context [(mapM _ cs ≫= _) ?x] => set (sta := x)
    end.
    destruct (IH Hother sta) as (ls & st2 & Hrun & Hs & Hstay & Hchain).
    rewrite (run_bind _ _ _ _ _ Hrun).
    eexists _, _. split; [reflexivity|]. split; [exact Hs|].
    assert (Hz : tags_stay (fst st2)
                   {| tags := tags (fst st2)
                              ++ [CSSTag n (length (objs (fst st)))
                                    (includes_str _VOID_TAGS (toLowerCase n))
                                    ls None ls];
                      objs := objs (fst st2) |}) by apply tags_stay_app.
    split.
    { eapply tags_stay_trans; [|exact Hz]. exact Hstay. }
    apply css_laid_element. cbn [fst tags]. rewrite length_app. cbn [length].
    apply css_chain_bounds in Hchain as Hb. subst sta. cbn [fst tags] in Hb, Hchain.
    split; [lia|]. eexists _, ls. split; [by rewrite list_lookup_middle|].
    by apply (css_chain_stay _ _ (fst st2)).
  - intros _ st. exists [], st. split; [reflexivity|]. split; [reflexivity|].
    split; [apply tags_stay_refl|]. cbn [css_chain]. lia.
  - intros node nodes IHn IHc Hother st. cbn [existsb] in Hother.
    apply orb_false_iff in Hother as [Hnode Hnodes].
    destruct (IHn Hnode st) as (l & st1 & Hrun1 & Hs1 & Hstay1 & Hlaid1).
    destruct (IHc Hnodes st1) as (ls & st2 & Hrun2 & Hs2 & Hstay2 & Hchain2).
    exists (l :: ls), st2. rewrite mapM_cons.
    rewrite (run_bind _ _ _ _ _ Hrun1), (run_bind _ _ _ _ _ Hrun2).
    split; [reflexivity|]. split; [congruence|].
    split; [by eapply tags_stay_trans|].
    cbn [css_chain]. exists (length (tags (fst st1))). split; [|exact Hchain2].
    by apply (css_laid_stay _ _ (fst st1)).
Qed.

(** [setChangeOn] sets the mask on every tag of a tree, and on no other
    tag. *)
Lemma css_masked_laid (changeOn : Z) :
  (forall node fuel l lo hi h s,
     css_laid parsed_text None h node lo hi l ->
     (dom_depth node < fuel)%nat ->
     exists h',
       setChangeOn (Err := Err) fuel changeOn l (h, s) = Some (Normal tt, (h', s))
       /\ same_outside lo hi h h'
       /\ css_laid (masked_text changeOn) (Some changeOn) h' node lo hi l)
  /\ (forall nodes fuel ls lo hi h s,
        css_chain parsed_text None h nodes lo hi ls ->
        Forall (fun node => (dom_depth node < fuel)%nat) nodes ->
        exists h',
          forEachM (setChangeOn (Err := Err) fuel changeOn) ls (h, s)
          = Some (Normal tt, (h', s))
          /\ same_outside lo hi h h'
          /\ css_chain (masked_text changeOn) (Some changeOn) h' nodes lo hi ls).
Proof.
  apply laid_chain_ind.
  - intros v fuel l lo hi h s (Hb & t & Hl & ->) Hfuel.
    destruct fuel as [|fuel]; [lia|]. cbn [setChangeOn].
    rewrite (run_bind _ _ _ _ _ (run_getTag l _ (h, s) Hl)).
    eexists. split; [reflexivity|]. split; [by apply same_outside_set|].
    split; [exact Hb|]. eexists. split; [|reflexivity]. cbn [tags].
    apply list_lookup_insert_eq. by apply lookup_lt_Some in Hl.
  - intros fuel l lo hi h s [].
  - intros n a cs IH fuel l lo hi h s Hlaid Hfuel.
    destruct fuel as [|fuel]; [lia|]. cbn [dom_depth] in Hfuel.
    apply css_laid_element in Hlaid as (Hb & al & ls & Hl & Hc).
    destruct (IH fuel ls lo l h s Hc) as (h1 & Hrun1 & Hout1 & Hc1).
    { apply List.Forall_forall. intros c Hin. apply dom_depth_le in Hin. lia. }
    cbn [setChangeOn]. rewrite (run_bind _ _ _ _ _ (run_getTag l _ (h, s) Hl)).
    rewrite (run_bind _ _ _ _ _ Hrun1).
    assert (Hl1 : tags h1 !! l
                  = Some (CSSTag n al (includes_str _VOID_TAGS (toLowerCase n))
                            ls None ls)).
    { destruct Hout1 as (_ & _ & Ht). rewrite Ht by lia. exact Hl. }
    rewrite (run_bind _ _ _ _ _ (run_getTag l _ (h1, s) Hl1)).
    eexists. split; [reflexivity|].
    assert (Hset : same_outside lo hi h1
                     {| tags := <[l := CSSTag n al
                                         (includes_str _VOID_TAGS (toLowerCase n))
                                         ls (Some changeOn) ls]> (tags h1);
                        objs := objs h1 |}) by (by apply same_outside_set).
    split.
    { eapply same_outside_trans; [|exact Hset].
      eapply same_outside_widen; [| |exact Hout1]; lia. }
    apply css_laid_element. split; [exact Hb|]. exists al, ls. split.
    { cbn [tags]. apply list_lookup_insert_eq. by apply lookup_lt_Some in Hl1. }
    eapply (css_chain_outside _ _ l (S l)); [|left; lia|exact Hc1].
    apply same_outside_set. lia.
  - intros fuel [|l ls] lo hi h s; cbn [css_chain]; [|tauto].
    intros Hb _. exists h. split; [reflexivity|].
    split; [apply same_outside_refl|exact Hb].
  - intros node nodes IHn IHc fuel [|l ls] lo hi h s; cbn [css_chain]; [tauto|].
    intros (mid & Hn & Hr) Hdepth.
    inversion Hdepth as [|? ? Hd Hdepth']; subst.
    pose proof (css_laid_bounds _ _ _ _ _ _ _ Hn) as Hb.
    pose proof (css_chain_bounds _ _ _ _ _ _ _ Hr) as Hb'.
    destruct (IHn fuel l lo mid h s Hn Hd) as (h1 & Hrun1 & Hout1 & Hn1).
    destruct (IHc fuel ls mid hi h1 s) as (h2 & Hrun2 & Hout2 & Hr2).
    { eapply css_chain_outside; [exact Hout1|right; lia|exact Hr]. }
    { exact Hdepth'. }
    exists h2. rewrite forEachM_cons, Hrun1. split; [exact Hrun2|]. split.
    { eapply same_outside_trans;
        (eapply same_outside_widen; [| |eassumption]); lia. }
    exists mid. split; [|exact Hr2].
    eapply css_laid_outside; [exact Hout2|left; lia|exact Hn1].
Qed.

(** The handler of [_addCSSPrefixes] at one tag. *)
Definition css_step (fuel : nat) (prefix : string) (tag : nat)
  : M (SSRExn Err) (Heap * SSRState U) nat :=
  t ← getTag tag;
  match t with
  | CSSTag _ _ _ _ _ cc =>
      _ ← _walkCSSSheets fuel
            (fun tag => addPrefix parseCSS prefix tag;; stringify parseCSS stringifyCSS tag)
            cc;
      mret tag
  | _ => (addPrefix parseCSS prefix tag;; stringify parseCSS stringifyCSS tag);; mret tag
  end.

Lemma walkCSSSheets_step fuel prefix ls :
  _walkCSSSheets (S fuel)
    (fun tag => addPrefix parseCSS prefix tag;; stringify parseCSS stringifyCSS tag) ls
  = mapM (css_step fuel prefix) ls.
Proof. reflexivity. Qed.

(** The walk of [_addCSSPrefixes] scopes every text of a tree, and changes
    no other tag. *)
Lemma css_scoped_laid (changeOn : Z) (prefix : string) :
  (forall node fuel l lo hi h s,
     css_laid (masked_text changeOn) (Some changeOn) h node lo hi l ->
     css_parses parseCSS node = true ->
     (dom_depth node <= fuel)%nat ->
     exists h',
       css_step fuel prefix l (h, s) = Some (Normal l, (h', s))
       /\ same_outside lo hi h h'
       /\ css_laid (scoped_text parseCSS stringifyCSS changeOn prefix) (Some changeOn)
            h' node lo hi l)
  /\ (forall nodes fuel ls lo hi h s,
        css_chain (masked_text changeOn) (Some changeOn) h nodes lo hi ls ->
        forallb (css_parses parseCSS) nodes = true ->
        Forall (fun node => (dom_depth node <= fuel)%nat) nodes ->
        exists h',
          mapM (css_step fuel prefix) ls (h, s) = Some (Normal ls, (h', s))
          /\ same_outside lo hi h h'
          /\ css_chain (scoped_text parseCSS stringifyCSS changeOn prefix)
               (Some changeOn) h' nodes lo hi ls).
Proof.
  apply laid_chain_ind.
  - intros v fuel l lo hi h s (Hb & t & Hl & ->) Hparses _.
    cbn [css_parses] in Hparses.
    destruct (parseCSS v) as [sheet|e] eqn:Hsheet; [|discriminate Hparses].
    unfold css_step. rewrite (run_bind _ _ _ _ _ (run_getTag l _ (h, s) Hl)).
    erewrite run_bind;
      [|exact (scope_css_text parseCSS stringifyCSS prefix l v (Some changeOn) sheet
                 (h, s) Hl Hsheet)].
    rewrite scoped_sheet_prefixed. cbn [fst snd].
    eexists. split; [reflexivity|]. split; [by apply same_outside_set|].
    split; [exact Hb|]. eexists. split.
    + cbn [tags]. apply list_lookup_insert_eq. by apply lookup_lt_Some in Hl.
    + exists sheet. split; [exact Hsheet|reflexivity].
  - intros fuel l lo hi h s [].
  - intros n a cs IH fuel l lo hi h s Hlaid Hparses Hfuel.
    cbn [css_parses] in Hparses. cbn [dom_depth] in Hfuel.
    destruct fuel as [|fuel]; [lia|].
    apply css_laid_element in Hlaid as (Hb & al & ls & Hl & Hc).
    destruct (IH fuel ls lo l h s Hc Hparses) as (h1 & Hrun1 & Hout1 & Hc1).
    { apply List.Forall_forall. intros c Hin. apply dom_depth_le in Hin. lia. }
    unfold css_step. rewrite (run_bind _ _ _ _ _ (run_getTag l _ (h, s) Hl)).
    cbv beta iota. rewrite walkCSSSheets_step.
    rewrite (run_bind _ _ _ _ _ Hrun1).
    exists h1. split; [reflexivity|]. split.
    { eapply same_outside_widen; [| |exact Hout1]; lia. }
    apply css_laid_element. split; [exact Hb|]. exists al, ls. split; [|exact Hc1].
    destruct Hout1 as (_ & _ & Ht). rewrite Ht by lia. exact Hl.
  - intros fuel [|l ls] lo hi h s; cbn [css_chain]; [|tauto].
    intros Hb _ _. exists h. split; [reflexivity|].
    split; [apply same_outside_refl|exact Hb].
  - intros node nodes IHn IHc fuel [|l ls] lo hi h s; cbn [css_chain]; [tauto|].
    intros (mid & Hn & Hr) Hparses Hdepth. cbn [forallb] in Hparses.
    apply andb_true_iff in Hparses as [Hp Hps].
    inversion Hdepth as [|? ? Hd Hdepth']; subst.
    pose proof (css_laid_bounds _ _ _ _ _ _ _ Hn) as Hb.
    pose proof (css_chain_bounds _ _ _ _ _ _ _ Hr) as Hb'.
    destruct (IHn fuel l lo mid h s Hn Hp Hd) as (h1 & Hrun1 & Hout1 & Hn1).
    destruct (IHc fuel ls mid hi h1 s) as (h2 & Hrun2 & Hout2 & Hr2).
    { eapply css_chain_outside; [exact Hout1|right; lia|exact Hr]. }
    { exact Hps. }
    { exact Hdepth'. }
    exists h2. rewrite mapM_cons.
    rewrite (run_bind _ _ _ _ _ Hrun1), (run_bind _ _ _ _ _ Hrun2).
    split; [reflexivity|]. split.
    { eapply same_outside_trans;
        (eapply same_outside_widen; [| |eassumption]); lia. }
    exists mid. split; [|exact Hr2].
    eapply css_laid_outside; [exact Hout2|left; lia|exact Hn1].
Qed.

End SheetSteps.
(** ** The stylesheets of the templates of a definition *)

Lemma css_chain_Forall2 text_ok mask h nodes : forall lo hi ls,
  css_chain text_ok mask h nodes lo hi ls ->
  Forall2 (fun node l => css_laid text_ok mask h node lo hi l) nodes ls.
Proof.
  induction nodes as [|node nodes IH]; intros lo hi [|l ls]; cbn [css_chain];
    try tauto; [constructor|].
  intros (mid & Hn & Hr).
  pose proof (css_laid_bounds _ _ _ _ _ _ _ Hn) as Hb.
  pose proof (css_chain_bounds _ _ _ _ _ _ _ Hr) as Hb'.
  constructor.
  - eapply css_laid_widen; [| |exact Hn]; lia.
  - eapply Forall2_impl; [apply (IH _ _ _ Hr)|].
    intros node' l'. apply css_laid_widen; lia.
Qed.

Lemma css_templates_bounds text_ok h templates : forall lo hi parsed,
  css_laid_templates text_ok h templates lo hi parsed -> (lo <= hi)%nat.
Proof.
  induction templates as [|t templates IH]; intros lo hi [|ls parsed];
    cbn [css_laid_templates]; try tauto.
  intros (mid & Hc & Hr). apply css_chain_bounds in Hc. apply IH in Hr. lia.
Qed.

Lemma css_templates_transfer text_ok h h' templates : forall lo hi parsed,
  (forall l0 t, (lo <= l0 < hi)%nat -> tags h !! l0 = Some t -> tags h' !! l0 = Some t) ->
  css_laid_templates text_ok h templates lo hi parsed ->
  css_laid_templates text_ok h' templates lo hi parsed.
Proof.
  induction templates as [|t templates IH]; intros lo hi [|ls parsed] Hstay;
    cbn [css_laid_templates]; try tauto.
  intros (mid & Hc & Hr).
  pose proof (css_chain_bounds _ _ _ _ _ _ _ Hc) as Hb.
  pose proof (css_templates_bounds _ _ _ _ _ _ Hr) as Hb'.
  exists mid. split.
  - eapply (proj2 (css_laid_chain_transfer _ _ h h')); [|exact Hc].
    intros l0 t0 Hl0. apply Hstay. lia.
  - apply IH; [|exact Hr]. intros l0 t0 Hl0. apply Hstay. lia.
Qed.

Lemma css_templates_widen text_ok h templates : forall lo hi lo' parsed,
  (lo' <= lo)%nat ->
  css_laid_templates text_ok h templates lo hi parsed ->
  css_laid_templates text_ok h templates lo' hi parsed.
Proof.
  destruct templates as [|t templates]; intros lo hi lo' [|ls parsed] Hlo;
    cbn [css_laid_templates]; try tauto; [lia|].
  intros (mid & Hc & Hr). exists mid. split; [|exact Hr].
  eapply css_chain_widen; [exact Hlo| |exact Hc]. lia.
Qed.

(** All the [style] elements of the templates, in the order of the output. *)
Lemma css_templates_Forall2 text_ok h templates : forall lo hi parsed,
  css_laid_templates text_ok h templates lo hi parsed ->
  Forall2 (fun sheet l =>
             css_laid (text_ok (fst sheet)) (Some (fst sheet)) h (snd sheet) lo hi l)
    (flat_map (fun t => map (pair (fst t)) (snd t)) templates) (concat parsed).
Proof.
  induction templates as [|t templates IH]; intros lo hi [|ls parsed];
    cbn [css_laid_templates]; try tauto; [constructor|].
  intros (mid & Hc & Hr).
  pose proof (css_chain_bounds _ _ _ _ _ _ _ Hc) as Hb.
  pose proof (css_templates_bounds _ _ _ _ _ _ Hr) as Hb'.
  cbn [flat_map concat]. apply Forall2_app.
  - apply css_chain_Forall2 in Hc. apply Forall2_fmap_l.
    eapply Forall2_impl; [exact Hc|].
    intros node l. cbn [fst snd]. apply css_laid_widen; lia.
  - eapply Forall2_impl; [exact (IH _ _ _ Hr)|].
    intros sheet l. apply css_laid_widen; lia.
Qed.

Lemma Forall2_filter {A B} (R : A -> B -> Prop) (p : A -> bool) (q : B -> bool) xs ys :
  Forall2 R xs ys ->
  (forall x y, R x y -> p x = q y) ->
  Forall2 (fun x y => R x y /\ p x = true) (List.filter p xs) (List.filter q ys).
Proof.
  intros H Hpq. induction H as [|x y xs ys Hxy _ IH]; [constructor|].
  cbn [List.filter]. rewrite <- (Hpq x y Hxy).
  destruct (p x) eqn:Hp; [constructor; [by split|exact IH]|exact IH].
Qed.

Section TemplateSheets.
Context {U Err : Type}.
Variable classes : nat -> BaseClass U Err.
Variable parseHTML : string -> list DomNode.
Variable parseCSS : string -> Completion (Exn Err) Stylesheet.
Variable stringifyCSS : Stylesheet -> string.
Variable textRenderer : nat.
Implicit Types (s : SSRState U) (st : Heap * SSRState U).

(** The state with another world. *)
Definition with_world s (w : World SSRInstance (JSObj JSValue) (SSREnv U))
  : SSRState U :=
  {| session := session s; world := w; nextInstance := nextInstance s |}.

(** [_tryRender] is the render of the memoizer on the world of the state;
    it does not look at the heap. *)
Lemma tryRender_run instance (t : SSRTemplateFn U Err) a h s :
  _tryRender textRenderer instance (Some t) a (h, s)
  = match renderAsText textRenderer t CHANGE_TYPE.ALWAYS instance
            (world_for (world s) a) with
    | (Normal text, w') =>
        Some (Normal (text, thisAttributes (userEnv w')), (h, with_world s w'))
    | (Throw e, w') => Some (Throw (RenderError e), (h, with_world s w'))
    end.
Proof.
  unfold _tryRender, world_for, with_world, mbind, M_bind, getS, putS. cbn [fst snd].
  destruct (renderAsText _ _ _ _ _) as [[text|e] w']; reflexivity.
Qed.

(** The masks and the [style] elements of the templates. *)
Definition template_sheets (templates : list (SSRTemplateFn U Err))
    (texts : list string) : list (Z * list DomNode) :=
  map (fun tt => (changeOn (fst tt), List.filter is_element (parseHTML (snd tt))))
    (combine templates texts).

Lemma sheets_of_template_sheets templates texts :
  sheets_of parseHTML templates texts
  = flat_map (fun t => map (pair (fst t)) (snd t)) (template_sheets templates texts).
Proof.
  unfold sheets_of, template_sheets.
  induction (combine templates texts) as [|tt l IH]; [reflexivity|].
  cbn [flat_map map fst snd]. by rewrite IH.
Qed.

Lemma css_markup_ok_elements fuel nodes :
  css_markup_ok parseCSS fuel nodes = true ->
  existsb has_other nodes = false
  /\ Forall (fun node => (dom_depth node < fuel)%nat /\ css_parses parseCSS node = true)
       (List.filter is_element nodes).
Proof.
  unfold css_markup_ok. intros H. apply andb_true_iff in H as [Ho Hf].
  split; [by apply negb_true_iff in Ho|].
  apply List.Forall_forall. intros node Hin.
  rewrite List.forallb_forall in Hf. specialize (Hf node Hin).
  apply andb_true_iff in Hf as [Hd Hp]. apply Nat.ltb_lt in Hd. by split.
Qed.

(** One template: its [style] elements are laid at new references, with the
    mask of the template. *)
Lemma parseTemplateCSS_laid fuel instance acc a (t : SSRTemplateFn U Err) text w' h s :
  renderAsText textRenderer t CHANGE_TYPE.ALWAYS instance (world_for (world s) a)
  = (Normal text, w') ->
  css_markup_ok parseCSS fuel (parseHTML text) = true ->
  exists styleTags h',
    parseTemplateCSS parseHTML textRenderer fuel instance (acc, a) t (h, s)
    = Some (Normal (acc ++ [styleTags], thisAttributes (userEnv w')),
            (h', with_world s w'))
    /\ tags_stay h h'
    /\ css_chain (masked_text (changeOn t)) (Some (changeOn t)) h'
         (List.filter is_element (parseHTML text))
         (length (tags h)) (length (tags h')) styleTags.
Proof.
  intros Hrender Hok. apply css_markup_ok_elements in Hok as [Hother Hels].
  unfold parseTemplateCSS. cbn [fst snd].
  erewrite run_bind; [|rewrite tryRender_run, Hrender; reflexivity].
  cbv beta iota. unfold parse, _domToTags.
  destruct (proj2 (css_parsed_laid (U := U) (Err := Err)) (parseHTML text) Hother
              (h, with_world s w'))
    as (ls & [h2 s2] & Hparse & Hs & Hstay & Hchain).
  cbn [fst snd] in Hs, Hstay, Hchain. subst s2.
  rewrite (run_bind _ _ _ _ _ Hparse).
  erewrite run_bind; [|reflexivity]. cbn [fst].
  apply css_chain_elements in Hchain; [|by intros v t0 ->].
  destruct (proj2 (css_masked_laid (U := U) (Err := Err) (changeOn t))
              _ fuel _ _ _ h2 (with_world s w') Hchain)
    as (h3 & Hmask & Hout & Hmasked).
  { eapply Forall_impl; [exact Hels|]. by intros node [Hd _]. }
  rewrite (run_bind _ _ _ _ _ Hmask).
  eexists _, h3. split; [reflexivity|]. split.
  - eapply tags_stay_outside; [exact Hstay|exact Hout|lia].
  - destruct Hout as (_ & Hlen & _). rewrite Hlen. exact Hmasked.
Qed.

(** All the templates, in the fold of [_parseElementCSS]. *)
Lemma parseElementCSS_fold fuel instance : forall (ts : list (SSRTemplateFn U Err))
    texts m st acc a h s a1 w1,
  m st = Some (Normal (acc, a), (h, s)) ->
  css_texts textRenderer instance ts a (world s) = Some (texts, a1, w1) ->
  Forall (fun text => css_markup_ok parseCSS fuel (parseHTML text) = true) texts ->
  exists parsed h',
    fold_left (fun acc template =>
                 a ← acc; parseTemplateCSS parseHTML textRenderer fuel instance a template)
      ts m st
    = Some (Normal (acc ++ parsed, a1), (h', with_world s w1))
    /\ tags_stay h h'
    /\ css_laid_templates masked_text h' (template_sheets ts texts)
         (length (tags h)) (length (tags h')) parsed.
Proof.
  induction ts as [|t ts IH]; intros texts m st acc a h s a1 w1 Hm Htexts Hok.
  - cbn [css_texts] in Htexts. inversion Htexts; subst texts a1 w1.
    exists [], h. cbn [fold_left]. rewrite app_nil_r.
    split; [rewrite Hm; by destruct s|]. split; [apply tags_stay_refl|].
    cbn [template_sheets combine map css_laid_templates]. lia.
  - cbn [css_texts] in Htexts.
    destruct (renderAsText _ _ _ _ _) as [[text|e] w'] eqn:Hrender;
      [|discriminate Htexts].
    destruct (css_texts _ _ ts _ w') as [[[texts' a'] w'']|] eqn:Hrest;
      [|discriminate Htexts].
    inversion Htexts; subst texts a1 w1. clear Htexts.
    inversion Hok as [|? ? Hok1 Hok']; subst.
    destruct (parseTemplateCSS_laid fuel instance acc a t text w' h s Hrender Hok1)
      as (styleTags & h1 & Hrun1 & Hstay1 & Hchain1).
    cbn [fold_left].
    destruct (IH texts'
                (a0 ← m; parseTemplateCSS parseHTML textRenderer fuel instance a0 t)
                st (acc ++ [styleTags]) (thisAttributes (userEnv w')) h1
                (with_world s w') a' w'')
      as (parsed & h' & Hrun & Hstay & Hlaid).
    { rewrite (run_bind _ _ _ _ _ Hm). exact Hrun1. }
    { exact Hrest. }
    { exact Hok'. }
    exists (styleTags :: parsed), h'. split.
    { rewrite Hrun. rewrite <- app_assoc. reflexivity. }
    split; [by eapply tags_stay_trans|].
    cbn [template_sheets combine map css_laid_templates fst snd].
    exists (length (tags h1)). split; [|exact Hlaid].
    by apply (css_chain_stay _ _ h1).
Qed.

(** What [_addCSSPrefixes] does with one sheet. *)
Definition sheet_step (fuel : nat) (uniqueID componentID : string) (sheet : nat)
  : M (SSRExn Err) (Heap * SSRState U) nat :=
  t ← getTag sheet;
  let prefix := if elementGlobal t then componentID else uniqueID in
  _ ← _walkCSSSheets fuel
        (fun tag => addPrefix parseCSS prefix tag;; stringify parseCSS stringifyCSS tag)
        (tag_children t);
  mret sheet.

Lemma addCSSPrefixes_steps fuel templates uniqueID componentID :
  _addCSSPrefixes parseCSS stringifyCSS fuel templates uniqueID componentID
  = mapM (mapM (sheet_step fuel uniqueID componentID)) templates.
Proof. reflexivity. Qed.

(** The prefix of a sheet with the mask [changeOn]. *)
Definition prefix_of (uniqueID componentID : string) (changeOn : Z) : string :=
  if global_mask changeOn then componentID else uniqueID.

Lemma sheets_scoped fuel uniqueID componentID changeOn : forall nodes ls lo hi h s,
  css_chain (masked_text changeOn) (Some changeOn) h nodes lo hi ls ->
  Forall (fun node => is_element node = true) nodes ->
  Forall (fun node => (dom_depth node < fuel)%nat /\ css_parses parseCSS node = true)
    nodes ->
  exists h',
    mapM (sheet_step fuel uniqueID componentID) ls (h, s) = Some (Normal ls, (h', s))
    /\ same_outside lo hi h h'
    /\ css_chain
         (scoped_text parseCSS stringifyCSS changeOn
            (prefix_of uniqueID componentID changeOn))
         (Some changeOn) h' nodes lo hi ls.
Proof.
  induction nodes as [|node nodes IH]; intros [|l ls] lo hi h s; cbn [css_chain];
    try contradiction.
  - intros Hb _ _. exists h. split; [reflexivity|].
    split; [apply same_outside_refl|exact Hb].
  - intros (mid & Hn & Hr) Hel Hok.
    inversion Hel as [|? ? Hel1 Hel']; subst.
    inversion Hok as [|? ? [Hd Hp] Hok']; subst.
    pose proof (css_laid_bounds _ _ _ _ _ _ _ Hn) as Hb.
    pose proof (css_chain_bounds _ _ _ _ _ _ _ Hr) as Hb'.
    destruct node as [v|n a cs|]; try discriminate Hel1.
    apply css_laid_element in Hn as (_ & al & ls' & Hl & Hc).
    cbn [dom_depth] in Hd. cbn [css_parses] in Hp.
    destruct fuel as [|fuel]; [lia|].
    destruct (proj2 (css_scoped_laid parseCSS stringifyCSS changeOn
                       (prefix_of uniqueID componentID changeOn))
                cs fuel ls' lo l h s Hc Hp)
      as (h1 & Hrun1 & Hout1 & Hc1).
    { apply List.Forall_forall. intros c Hin. apply dom_depth_le in Hin. lia. }
    assert (Hstep : sheet_step (S fuel) uniqueID componentID l (h, s)
                    = Some (Normal l, (h1, s))).
    { unfold sheet_step. rewrite (run_bind _ _ _ _ _ (run_getTag l _ (h, s) Hl)).
      cbv zeta. cbn [tag_children]. rewrite walkCSSSheets_step.
      change (elementGlobal _) with (global_mask changeOn).
      fold (prefix_of uniqueID componentID changeOn).
      rewrite (run_bind _ _ _ _ _ Hrun1). reflexivity. }
    assert (Hout1' : same_outside lo mid h h1).
    { eapply same_outside_widen; [| |exact Hout1]; lia. }
    destruct (IH ls mid hi h1 s) as (h2 & Hrun2 & Hout2 & Hr2).
    { eapply css_chain_outside; [exact Hout1'|right; lia|exact Hr]. }
    { exact Hel'. }
    { exact Hok'. }
    exists h2. rewrite mapM_cons.
    rewrite (run_bind _ _ _ _ _ Hstep), (run_bind _ _ _ _ _ Hrun2).
    split; [reflexivity|]. split.
    { eapply same_outside_trans;
        (eapply same_outside_widen; [| |eassumption]); lia. }
    exists mid. split; [|exact Hr2].
    eapply css_laid_outside; [exact Hout2|left; lia|].
    apply css_laid_element. split; [lia|]. exists al, ls'. split; [|exact Hc1].
    destruct Hout1 as (_ & _ & Ht). rewrite Ht by lia. exact Hl.
Qed.

Lemma templates_scoped fuel uniqueID componentID : forall templates parsed lo hi h s,
  css_laid_templates masked_text h templates lo hi parsed ->
  Forall (fun t =>
            Forall (fun node => is_element node = true) (snd t)
            /\ Forall (fun node => (dom_depth node < fuel)%nat
                                   /\ css_parses parseCSS node = true) (snd t))
    templates ->
  exists h',
    _addCSSPrefixes parseCSS stringifyCSS fuel parsed uniqueID componentID (h, s)
    = Some (Normal parsed, (h', s))
    /\ same_outside lo hi h h'
    /\ css_laid_templates
         (fun changeOn =>
            scoped_text parseCSS stringifyCSS changeOn
              (prefix_of uniqueID componentID changeOn))
         h' templates lo hi parsed.
Proof.
  intros templates parsed. rewrite addCSSPrefixes_steps. revert parsed.
  induction templates as [|t templates IH]; intros [|ls parsed] lo hi h s;
    cbn [css_laid_templates]; try contradiction.
  - intros Hb _. exists h. split; [reflexivity|].
    split; [apply same_outside_refl|exact Hb].
  - intros (mid & Hc & Hr) Hok.
    inversion Hok as [|? ? [Hel Hok1] Hok']; subst.
    pose proof (css_chain_bounds _ _ _ _ _ _ _ Hc) as Hb.
    pose proof (css_templates_bounds _ _ _ _ _ _ Hr) as Hb'.
    destruct (sheets_scoped fuel uniqueID componentID (fst t) (snd t) ls lo mid h s
                Hc Hel Hok1) as (h1 & Hrun1 & Hout1 & Hc1).
    destruct (IH parsed mid hi h1 s) as (h2 & Hrun2 & Hout2 & Hr2).
    { eapply css_templates_transfer; [|exact Hr].
      apply (same_outside_stay lo mid); [exact Hout1|right; lia]. }
    { exact Hok'. }
    exists h2. rewrite mapM_cons.
    rewrite (run_bind _ _ _ _ _ Hrun1), (run_bind _ _ _ _ _ Hrun2).
    split; [reflexivity|]. split.
    { eapply same_outside_trans;
        (eapply same_outside_widen; [| |eassumption]); lia. }
    exists mid. split; [|exact Hr2].
    eapply css_chain_outside; [exact Hout2|left; lia|exact Hc1].
Qed.

Lemma template_sheets_ok fuel : forall (templates : list (SSRTemplateFn U Err)) texts,
  Forall (fun text => css_markup_ok parseCSS fuel (parseHTML text) = true) texts ->
  Forall (fun t =>
            Forall (fun node => is_element node = true) (snd t)
            /\ Forall (fun node => (dom_depth node < fuel)%nat
                                   /\ css_parses parseCSS node = true) (snd t))
    (template_sheets templates texts).
Proof.
  unfold template_sheets.
  induction templates as [|t templates IH]; intros [|text texts] Hok;
    cbn [combine map]; try constructor.
  - inversion Hok as [|? ? Hok1 _]; subst. cbn [snd]. split.
    + apply List.Forall_forall. intros node Hin.
      by apply List.filter_In in Hin as [_ Hin].
    + by apply css_markup_ok_elements in Hok1 as [_ Hok1].
  - inversion Hok; subst. by apply IH.
Qed.

End TemplateSheets.
(** ** Expansions of a definition within one session *)

Section ExpansionSheets.
Context {U Err : Type}.
Variable classes : nat -> BaseClass U Err.
Variable parseHTML : string -> list DomNode.
Variable parseCSS : string -> Completion (Exn Err) Stylesheet.
Variable stringifyCSS : Stylesheet -> string.
Variable textRenderer : nat.

Lemma parseElementCSS_templates fuel element instance _attributes :
  _parseElementCSS classes parseHTML textRenderer fuel element instance _attributes
  = fold_left (fun acc template =>
                 a ← acc; parseTemplateCSS parseHTML textRenderer fuel instance a template)
      (css_templates_of (classes element)) (mret ([], _attributes)).
Proof.
  unfold _parseElementCSS, css_templates_of.
  destruct (css (classes element)) as [[t|ts]|]; reflexivity.
Qed.

Lemma html_prefix_handler_keeps_tags uniqueID componentID tag :
  preserves tags_kept (html_prefix_handler (U := U) (Err := Err) uniqueID componentID tag).
Proof.
  intros st c st'. unfold html_prefix_handler, mbind, M_bind, getTag, getObj, setObj.
  destruct (tags (fst st) !! tag) as [t|]; [|discriminate].
  destruct (instanceof_TextTag t).
  { intros H. inversion H; subst. apply tags_kept_refl. }
  destruct (objs (fst st) !! tag_attributes t) as [attributes|]; [|discriminate].
  intros H. inversion H; subst. unfold tags_kept. reflexivity.
Qed.

Lemma addHTMLPrefixes_keeps_tags fuel children uniqueID componentID :
  preserves tags_kept
    (_addHTMLPrefixes (U := U) (Err := Err) fuel children uniqueID componentID).
Proof.
  unfold _addHTMLPrefixes.
  apply preserves_mapM; [apply tags_kept_refl|apply tags_kept_trans|].
  intros t. apply walk_keeps_tags. apply html_prefix_handler_keeps_tags.
Qed.

(** The mask of a scoped sheet decides whether it is global. *)
Lemma scoped_elementGlobal changeOn prefix h node lo hi l :
  css_laid (scoped_text parseCSS stringifyCSS changeOn prefix) (Some changeOn)
    h node lo hi l ->
  sheet_elementGlobal h l = global_mask changeOn.
Proof.
  unfold sheet_elementGlobal. destruct node as [v|n a cs|].
  - intros (_ & t & -> & sheet & _ & ->). reflexivity.
  - intros H. apply css_laid_element in H as (_ & al & ls & -> & _). reflexivity.
  - intros [].
Qed.


End ExpansionSheets.
(** The second expansion of [x-b] in the session of [ex_state_after_first]:
    what its two stylesheet templates render, and the world they leave. *)
Definition ex_world_after_sheets : World SSRInstance (JSObj JSValue) (SSREnv unit) :=
  Eval vm_compute in
  match css_texts 99 (ex_instance 1) (css_templates_of (ex_classes 1)) []
          (world ex_state_after_first) with
  | Some (_, _, w) => w
  | None => ex_ssr_world
  end.

Lemma ex_css_texts :
  css_texts 99 (ex_instance 1) (css_templates_of (ex_classes 1)) []
    (world ex_state_after_first)
  = Some (["sheet"; "sheet"], [], ex_world_after_sheets).
Proof. vm_compute. reflexivity. Qed.

Lemma ex_css_markup_ok :
  Forall (fun text => css_markup_ok ex_parseCSS 10 (ex_parseHTML text) = true)
    ["sheet"; "sheet"].
Proof. repeat constructor. Qed.

Lemma ex_second_not_first :
  negb (bool_decide (1%nat ∈ _sheetSet (session ex_state_after_first))) = false.
Proof. vm_compute. reflexivity. Qed.

Lemma ex_second_uniqueID :
  "css-" +:+ "x-b" +:+ "-"
  +:+ string_of_nat (expansions (css_state (session ex_state_after_first)) 1)
  = "css-x-b-1".
Proof. vm_compute. reflexivity. Qed.

Lemma ex_local_sheets :
  List.filter (fun sheet : Z * DomNode => negb (global_mask (fst sheet)))
    (sheets_of ex_parseHTML (css_templates_of (ex_classes 1)) ["sheet"; "sheet"])
  = [(CHANGE_TYPE.PROP, DomElement "style" [] [DomText ".foo{}"])].
Proof. vm_compute. reflexivity. Qed.


(** The tags of the two expansions of [css_two_expansions_example], read off
    the heap: the text of the unique sheet of the second expansion is the
    one of the theorem. *)
Example css_second_expansion_sheet :
  match ex_second_expansion with
  | Some (Normal (out, _), (h', _)) =>
      exists l text,
        out = [l]
        /\ tags h' !! l
           = Some (CSSTag "style" 3 false [text] (Some CHANGE_TYPE.PROP) [text])
        /\ tags h' !! text
           = Some (CSSText "css-x-b-1-.foo{}" (Some CHANGE_TYPE.PROP)
                     (Some {| stylesheet :=
                                Some [{| selectors := Some ["css-x-b-1-.foo"];
                                         declarations := "{}" |}] |}))
  | _ => False
  end.
Proof. vm_compute. do 2 eexists. repeat split; reflexivity. Qed.

(** ** ssr.ts: what a render leaves in the session *)

Section SessionGrows.
Context {U Err : Type}.
Variable classes : nat -> BaseClass U Err.
Variable parseHTML : string -> list DomNode.
Variable parseCSS : string -> Completion (Exn Err) Stylesheet.
Variable stringifyCSS : Stylesheet -> string.
Variable onConnect : SSRInstance -> JSObj JSValue.
Variable textRenderer : nat.

Definition grows (st st' : Heap * SSRState U) : Prop :=
  session_grows (session (snd st)) (session (snd st')).

Lemma session_grows_refl s : session_grows s s.
Proof. repeat split; [lia|set_solver|lia]. Qed.

Lemma session_grows_trans a b c :
  session_grows a b -> session_grows b c -> session_grows a c.
Proof.
  intros (He1 & Hu1 & Hs1 & Hx1) (He2 & Hu2 & Hs2 & Hx2).
  split; [congruence|]. split; [lia|]. split; [set_solver|].
  intros e. specialize (Hx1 e). specialize (Hx2 e). lia.
Qed.

Lemma grows_refl st : grows st st.
Proof. apply session_grows_refl. Qed.

Lemma grows_trans a b c : grows a b -> grows b c -> grows a c.
Proof. apply session_grows_trans. Qed.

Lemma grows_of_kept {A} (m : M (SSRExn Err) (Heap * SSRState U) A) :
  preserves (keeps (fun st : SSRState U => session st)) m -> preserves grows m.
Proof.
  intros Hm st c st' Hrun. specialize (Hm st c st' Hrun).
  unfold keeps in Hm. unfold grows. rewrite Hm. apply session_grows_refl.
Qed.

Lemma grows_bind {A B} (m : M (SSRExn Err) (Heap * SSRState U) A)
    (k : A -> M (SSRExn Err) (Heap * SSRState U) B) :
  preserves grows m -> (forall a, preserves grows (k a)) -> preserves grows (m ≫= k).
Proof. apply preserves_bind. exact grows_trans. Qed.

Local Ltac kept :=
  apply grows_of_kept;
  first [ apply preserves_getTag | apply preserves_setTag | apply preserves_allocTag
        | apply preserves_getObj | apply preserves_setObj | apply preserves_allocObj
        | apply preserves_getHeap | apply preserves_getS
        | apply preserves_copy | apply preserves_setChildren
        | apply preserves_ret; apply keeps_refl
        | apply preserves_throw; apply keeps_refl
        | apply preserves_stuck ].

Lemma grows_walk fuel handler : forall this,
  (forall t, preserves grows (handler t)) ->
  preserves grows
    (walk (E := SSRExn Err) (St := SSRState U) fuel handler this).
Proof.
  induction fuel as [|fuel IH]; intros this Hh; [kept|].
  simpl. apply grows_bind; [kept|].
  intros t. destruct (instanceof_TextTag t); [kept|].
  apply grows_bind; [apply Hh|].
  intros result. destruct (default (this, true) result) as [newTag stop].
  apply grows_bind; [kept|].
  intros nt. destruct (instanceof_TextTag nt || stop); [kept|].
  apply grows_bind; [kept|].
  intros c. apply grows_bind; [|intros cs; kept].
  apply preserves_mapM; [exact grows_refl|exact grows_trans|].
  intros a. by apply IH.
Qed.

Lemma grows_getSession : preserves grows (getSession (U := U) (Err := Err)).
Proof. intros st c st' H. inversion H; subst. apply grows_refl. Qed.

Lemma grows_liftHeap {A} (f : Heap -> option (Completion (SSRExn Err) A * Heap)) :
  preserves grows (liftHeap (U := U) f).
Proof.
  intros st c st'. unfold liftHeap. destruct (f (fst st)) as [[c' h']|]; [|discriminate].
  intros H. inversion H; subst. apply session_grows_refl.
Qed.

Lemma grows_newInstance element tagName attribs theme :
  preserves grows (newInstance (U := U) (Err := Err) classes element tagName attribs theme).
Proof. intros st c st' H. inversion H; subst. apply session_grows_refl. Qed.

Lemma generateUniqueID_grows element tagName s :
  session_grows s (snd (_generateUniqueID element tagName s)).
Proof.
  unfold _generateUniqueID, session_grows, expansions, css_state. cbn [snd fst
    _elementMap _unnamedElements _sheetSet _cssIdentifierMap].
  split; [reflexivity|]. split; [lia|]. split; [set_solver|].
  intros e. destruct (decide (e = element)) as [->|Hne].
  - rewrite lookup_insert_eq. cbn [default from_option Datatypes.id].
    destruct (_cssIdentifierMap s !! element) as [n|] eqn:Hn; cbn [default from_option Datatypes.id].
    + rewrite Hn. cbn. lia.
    + lia.
  - rewrite lookup_insert_ne by congruence.
    destruct (_cssIdentifierMap s !! element) as [n|] eqn:Hn.
    + reflexivity.
    + rewrite lookup_insert_ne by congruence. reflexivity.
Qed.

Lemma grows_after {A} (m m' : M (SSRExn Err) (Heap * SSRState U) A) st st1 :
  m st = m' st1 -> grows st st1 -> preserves grows m' ->
  forall c st', m st = Some (c, st') -> grows st st'.
Proof.
  intros Heq Hg Hm c st' Hrun. rewrite Heq in Hrun.
  eapply grows_trans; [exact Hg|]. eapply Hm. exact Hrun.
Qed.

Lemma grows_getCSSApplied fuel element instance tagName children _attributes :
  preserves grows
    (getCSSApplied classes parseHTML parseCSS stringifyCSS textRenderer fuel
       element instance tagName children _attributes).
Proof.
  intros [h st]. unfold getCSSApplied.
  pose proof (generateUniqueID_grows element tagName (session st)) as Hgrows.
  destruct (_generateUniqueID element tagName (session st)) as [uniqueID s1] eqn:Hid.
  eapply grows_after.
  { erewrite run_bind; [|reflexivity]. cbn [snd]. rewrite Hid.
    erewrite run_bind; [|reflexivity]. reflexivity. }
  { exact Hgrows. }
  apply grows_bind; [apply grows_of_kept, session_kept_parseElementCSS|].
  intros [parsed attrs]. apply grows_bind; [apply grows_of_kept, session_kept_addCSSPrefixes|].
  intros prefixed. apply grows_bind; [apply grows_of_kept, session_kept_addHTMLPrefixes|].
  intros htmlPrefixed.
  intros [h2 st2] c st'. erewrite run_bind; [|reflexivity]. cbn [snd session].
  erewrite run_bind; [|reflexivity].
  erewrite run_bind; [|reflexivity].
  intros H. inversion H; subst. unfold grows, session_grows. cbn.
  split; [reflexivity|]. split; [lia|]. split; [set_solver|]. intros e. apply Nat.le_refl.
Qed.

Lemma grows_mapTag fuel (elementToTag : nat -> JSObj JSValue -> JSObj JSValue ->
                                        M (SSRExn Err) (Heap * SSRState U) nat) theme tag :
  (forall element attribs theme, preserves grows (elementToTag element attribs theme)) ->
  preserves grows (_mapTag fuel elementToTag theme tag).
Proof.
  intros Hel. unfold _mapTag. apply grows_bind; [kept|].
  intros t. destruct (instanceof_TextTag t); [kept|].
  apply grows_bind; [apply grows_getSession|].
  intros s. destruct (_ || _); [kept|].
  destruct (_elementMap s !! tag_tagName t) as [element|]; [|kept].
  apply grows_bind; [kept|]. intros attribs.
  apply grows_bind; [apply Hel|]. intros newTag.
  apply grows_bind; [apply grows_liftHeap|]. intros _. kept.
Qed.

Lemma elementToTag_unfold fuel element attribs theme :
  elementToTag classes parseHTML parseCSS stringifyCSS onConnect textRenderer
    (S fuel) element attribs theme
  = (s0 ← getSession;
     tagName ←
       (if truthy_str (is_ (classes element))
        then mret (default "" (is_ (classes element)))
        else
          putSession {| _cssIdentifierMap := _cssIdentifierMap s0;
                        _sheetSet := _sheetSet s0;
                        _unnamedElements := S (_unnamedElements s0);
                        _elementMap := _elementMap s0 |};;
          mret ("wclib-element" +:+ string_of_nat (_unnamedElements s0)));
     expansion classes parseHTML parseCSS stringifyCSS onConnect textRenderer
       fuel element attribs theme tagName).
Proof. reflexivity. Qed.

(** The state in which [elementToTag] goes on once the tag name is known. *)
Lemma elementToTag_named fuel element attribs theme h st :
  elementToTag classes parseHTML parseCSS stringifyCSS onConnect textRenderer
    (S fuel) element attribs theme (h, st)
  = expansion classes parseHTML parseCSS stringifyCSS onConnect textRenderer
      fuel element attribs theme (tagName_of (classes element) (session st))
      (h, if truthy_str (is_ (classes element)) then st
          else {| session :=
                    {| _cssIdentifierMap := _cssIdentifierMap (session st);
                       _sheetSet := _sheetSet (session st);
                       _unnamedElements := S (_unnamedElements (session st));
                       _elementMap := _elementMap (session st) |};
                  world := world st;
                  nextInstance := nextInstance st |}).
Proof.
  rewrite elementToTag_unfold. unfold tagName_of.
  erewrite run_bind; [|reflexivity]. cbn [snd].
  destruct (truthy_str (is_ (classes element))).
  - erewrite run_bind; [|reflexivity]. reflexivity.
  - erewrite run_bind; [|erewrite run_bind; [|reflexivity]; reflexivity]. reflexivity.
Qed.

Lemma grows_expansion fuel element attribs theme tagName :
  (forall element attribs theme,
     preserves grows
       (elementToTag classes parseHTML parseCSS stringifyCSS onConnect textRenderer
          fuel element attribs theme)) ->
  preserves grows
    (expansion classes parseHTML parseCSS stringifyCSS onConnect textRenderer
       fuel element attribs theme tagName).
Proof.
  intros IH. unfold expansion.
  apply grows_bind; [apply grows_newInstance|].
  intros instance. apply grows_bind; [apply grows_of_kept, session_kept_tryRender|].
  intros [text attrs]. apply grows_bind; [apply grows_of_kept, session_kept_parse|].
  intros tags. apply grows_bind.
  { apply preserves_mapM; [exact grows_refl|exact grows_trans|].
    intros tag. apply grows_walk. intros t. apply grows_mapTag. apply IH. }
  intros children. apply grows_bind; [apply grows_getCSSApplied|].
  intros [cssApplied attrs']. apply grows_bind; [kept|]. intros attributes. kept.
Qed.

Lemma grows_elementToTag : forall fuel element attribs theme,
  preserves grows
    (elementToTag classes parseHTML parseCSS stringifyCSS onConnect textRenderer
       fuel element attribs theme).
Proof.
  induction fuel as [|fuel IH]; intros element attribs theme; [kept|].
  intros [h st]. eapply grows_after; [apply elementToTag_named| |by apply grows_expansion].
  destruct (truthy_str (is_ (classes element))); [apply grows_refl|].
  unfold grows, session_grows. cbn.
  split; [reflexivity|]. split; [lia|]. split; [set_solver|].
  intros e. apply Nat.le_refl.
Qed.

Lemma grows_render fuel element attributes theme :
  preserves grows
    (render classes parseHTML parseCSS stringifyCSS onConnect textRenderer
       fuel element attributes theme).
Proof.
  unfold render. apply grows_bind; [apply grows_elementToTag|].
  intros dom. apply grows_bind; [kept|]. intros h.
  destruct (toText fuel h dom); kept.
Qed.


(** The tag an expansion returns. *)
Lemma expansion_result fuel element attribs theme tagName st dom h' st' :
  expansion classes parseHTML parseCSS stringifyCSS onConnect textRenderer
    fuel element attribs theme tagName st
  = Some (Normal dom, (h', st')) ->
  exists attributes o children,
    tags h' !! dom = Some (Tag tagName attributes false children)
    /\ objs h' !! attributes = Some o.
Proof.
  unfold expansion. intros Hrun.
  apply bind_Normal_inv in Hrun as (instance & st1 & _ & Hrun).
  apply bind_Normal_inv in Hrun as ([text attrs] & st2 & _ & Hrun).
  apply bind_Normal_inv in Hrun as (tags' & st3 & _ & Hrun).
  apply bind_Normal_inv in Hrun as (children & st4 & _ & Hrun).
  apply bind_Normal_inv in Hrun as ([cssApplied attrs'] & st5 & _ & Hrun).
  apply bind_Normal_inv in Hrun as (attributes & st6 & Hobj & Hrun).
  destruct st5 as [h5 s5]. inversion Hobj; subst. clear Hobj.
  inversion Hrun; subst. clear Hrun. cbn [fst snd tags objs].
  eexists _, _, cssApplied. split.
  - apply list_lookup_middle. reflexivity.
  - apply list_lookup_middle. reflexivity.
Qed.

Lemma toText_of_element fuel h dom tagName attributes o children text :
  tags h !! dom = Some (Tag tagName attributes false children) ->
  objs h !! attributes = Some o ->
  toText fuel h dom = Some text ->
  exists texts,
    text = "<" +:+ tagName +:+ _Attributes.stringify o +:+ ">"
           +:+ String.concat "" texts +:+ "</" +:+ tagName +:+ ">".
Proof.
  intros Htag Hobj. destruct fuel as [|fuel]; [discriminate|].
  cbn [toText]. rewrite Htag. cbn [instanceof_TextTag tag_attributes tag_isSelfClosing
    tag_tagName tag__children tag_children andb]. rewrite Hobj.
  destruct (foldr _ _ _) as [texts|]; [|discriminate].
  intros H. inversion H; subst. exists texts. reflexivity.
Qed.


End SessionGrows.

(** A session that has rendered before. *)
Definition ex_used_session : DocumentSession :=
  {| _cssIdentifierMap := {[ 1%nat := 2%nat ]};
     _sheetSet := {[ 1%nat ]};
     _unnamedElements := 3;
     _elementMap := {[ "x-b" := 1%nat ]} |}.

(** A definition without a name. *)
Definition ex_unnamed_classes (n : nat) : BaseClass unit unit :=
  match n with
  | 0%nat => {| is_ := None; dependencies := None;
                html := Some (ex_template 30 "plain" CHANGE_TYPE.PROP);
                css := None; props := None |}
  | _ => ex_classes n
  end.

Abbreviation ex_render_in classes :=
  (renderElement classes ex_parseHTML ex_parseCSS ex_stringifyCSS (fun _ => []) 99 8
     0 [] [] []
     (empty_heap,
      {| session := ex_used_session; world := ex_ssr_world; nextInstance := 0 |})).

Lemma ex_failing_in_session :
  exists h' st',
    ex_render_in ex_failing_classes = Some (Throw (RenderError (UserError tt)), (h', st')).
Proof. vm_compute. eexists _, _. reflexivity. Qed.

Lemma ex_unnamed_in_session :
  exists h' st',
    ex_render_in ex_unnamed_classes
    = Some (Normal "<wclib-element3></wclib-element3>", (h', st')).
Proof. vm_compute. eexists _, _. reflexivity. Qed.



(** ** listeners.ts: listening again *)

Ltac lsimpl :=
  cbn [Listeners.listenedToElements Listeners.eventMaps Listeners.usedElements
       Listeners.newMap Listeners._supportsPassive Listeners.targets
       Listeners.dollar Listeners.nextListener].

Tactic Notation "lsimpl" "in" "*" :=
  cbn [Listeners.listenedToElements Listeners.eventMaps Listeners.usedElements
       Listeners.newMap Listeners._supportsPassive Listeners.targets
       Listeners.dollar Listeners.nextListener] in *.

Lemma run_registry_of base r s :
  Listeners.listenedToElements s !! base = Some r ->
  Listeners.registry_of base s = Some (Normal r, s).
Proof. intros H. unfold Listeners.registry_of, mbind, M_bind, Listeners.get. rewrite H. reflexivity. Qed.

Lemma run_get_eventMap ref m s :
  Listeners.eventMaps s !! ref = Some m -> Listeners.get_eventMap ref s = Some (Normal m, s).
Proof. intros H. unfold Listeners.get_eventMap. rewrite H. reflexivity. Qed.

Ltac lstep :=
  erewrite run_bind;
  [|first [ reflexivity
          | apply run_registry_of; eassumption
          | apply run_get_eventMap; eassumption ]];
  lsimpl.

Section ListenFacts.
Import Listeners.

(** [doListen] for an id and an event the [Map] of the id has a record of. *)
Lemma listen_again_run
    (readsPassive : bool) (base : nat) (type : ListenType) (el : nat) (id event : string)
    (options : option Options) (s : State) (r : Registry) (ref : nat)
    (m : JSMap nat) (old : nat) :
  listenedToElements s !! base = Some r ->
  map_get (usedMap_of type r) id = Some {| l_element := Some el; l_map := ref |} ->
  eventMaps s !! ref = Some m ->
  map_get m event = Some old ->
  exists s',
    doListen readsPassive base type (Some el) id event options s
    = Some (Normal (RemoveListened ref event (nextListener s) (Some el)), s')
    /\ listenedToElements s' = listenedToElements s
    /\ eventMaps s' = eventMaps s
    /\ attached s' el
       = dom_add (event, nextListener s, capture_used readsPassive s options)
           (dom_remove (event, old, false) (attached s el))
    /\ (forall t, t <> el -> attached s' t = attached s t)
    /\ nextListener s' = S (nextListener s).
Proof.
  intros Hreg Hid Hmap Hold.
  destruct s as [lte ems ue nm sp tg dl nl]. lsimpl in *.
  unfold doListen.
  lstep. lstep.
  assert (Hhas : map_has (usedMap_of type r) id = true).
  { unfold map_has, obj_has. unfold map_get in Hid. rewrite Hid. reflexivity. }
  rewrite Hhas.
  lstep. lstep. rewrite Hid. lstep. rewrite Hold. lstep.
  rewrite bool_decide_eq_true_2 by reflexivity.
  lstep.
  destruct options as [o|];
    [destruct sp as [[|]|]; [| |destruct readsPassive]|];
    (eexists; split; [reflexivity|]);
    unfold attached, capture_used; lsimpl; cbn [default andb capture_of];
    (split; [reflexivity|]); (split; [reflexivity|]);
    (split; [rewrite !lookup_insert_eq; reflexivity|]);
    (split; [|reflexivity]);
    intros t Ht; rewrite !lookup_insert_ne by congruence; reflexivity.
Qed.

End ListenFacts.

Section FirstListen.
Import Listeners.

Lemma dom_remove_absent (a : Attached) (l : list Attached) :
  Forall (fun b => snd (fst b) <> snd (fst a)) l -> dom_remove a l = l.
Proof.
  induction 1 as [|b l Hb _ IH]; [reflexivity|].
  unfold dom_remove in *. cbn [List.filter].
  assert (same_listener a b = false) as ->.
  { unfold same_listener. apply andb_false_iff. left. apply andb_false_iff. right.
    apply Nat.eqb_neq. congruence. }
  cbn [negb]. rewrite IH. reflexivity.
Qed.

Lemma dom_add_absent (a : Attached) (l : list Attached) :
  Forall (fun b => snd (fst b) <> snd (fst a)) l -> dom_add a l = l ++ [a].
Proof.
  intros H. unfold dom_add.
  assert (existsb (same_listener a) l = false) as ->; [|reflexivity].
  induction H as [|b l Hb _ IH]; [reflexivity|].
  cbn [existsb]. rewrite IH, orb_false_r.
  unfold same_listener. apply andb_false_iff. left. apply andb_false_iff. right.
  apply Nat.eqb_neq. congruence.
Qed.

Lemma same_listener_refl (a : Attached) : same_listener a a = true.
Proof.
  unfold same_listener. rewrite String.eqb_refl, Nat.eqb_refl.
  destruct (snd a); reflexivity.
Qed.

Lemma dom_remove_app_last (a : Attached) (l : list Attached) :
  Forall (fun b => snd (fst b) <> snd (fst a)) l -> dom_remove a (l ++ [a]) = l.
Proof.
  intros H. unfold dom_remove. rewrite List.filter_app. cbn [List.filter].
  rewrite same_listener_refl. cbn [negb]. rewrite app_nil_r.
  exact (dom_remove_absent a l H).
Qed.

Lemma bound_before_fresh next (l : list Attached) (a : Attached) :
  bound_before next l -> (next <= snd (fst a))%nat ->
  Forall (fun b => snd (fst b) <> snd (fst a)) l.
Proof.
  unfold bound_before. intros H Ha. eapply Forall_impl; [exact H|].
  intros b Hb. cbv beta in Hb. lia.
Qed.

(** The first [doListen] for an id: the new listener is attached to the
    element and recorded in a new [Map] of the id. *)
Lemma first_listen_run (readsPassive : bool) (base : nat) (type : ListenType)
    (el : nat) (id event : string) (options : option Options) (s : State) :
  map_get (usedMap_of type (registry_or_new s base)) id = None ->
  exists s',
    doListen readsPassive base type (Some el) id event options s
    = Some (Normal (RemoveListened (length (eventMaps s)) event (nextListener s) (Some el)),
            s')
    /\ listenedToElements s'
       = <[base := with_usedMap type (registry_or_new s base)
                     (map_set id {| l_element := Some el; l_map := length (eventMaps s) |}
                        (usedMap_of type (registry_or_new s base)))]>
           (listenedToElements s)
    /\ eventMaps s' = eventMaps s ++ [[(event, nextListener s)]]
    /\ attached s' el
       = dom_add (event, nextListener s, capture_used readsPassive s options)
           (attached s el)
    /\ (forall t, t <> el -> attached s' t = attached s t)
    /\ nextListener s' = S (nextListener s)
    /\ (usedElements s' = usedElements s /\ newMap s' = newMap s /\ dollar s' = dollar s)
    /\ default readsPassive (_supportsPassive s')
       = default readsPassive (_supportsPassive s)
    /\ (exists r', listenedToElements s' !! base = Some r'
                   /\ map_get (usedMap_of type r') id
                      = Some {| l_element := Some el; l_map := length (eventMaps s) |}).
Proof.
  intros Hid. unfold registry_or_new in *.
  destruct s as [lte ems ue nm sp tg dl nl]. lsimpl in *.
  set (r0 := default new_Registry (lte !! base)) in *.
  unfold doListen.
  lstep.
  assert (Hreg0 : exists st0,
            registry_of base
              {| listenedToElements := lte; eventMaps := ems; usedElements := ue;
                 newMap := nm; _supportsPassive := sp; targets := tg; dollar := dl;
                 nextListener := S nl |}
            = Some (Normal r0, st0)
            /\ listenedToElements st0 !! base = Some r0
            /\ <[base := r0]> (listenedToElements st0) = <[base := r0]> lte
            /\ eventMaps st0 = ems /\ usedElements st0 = ue /\ newMap st0 = nm
            /\ _supportsPassive st0 = sp /\ targets st0 = tg /\ dollar st0 = dl
            /\ nextListener st0 = S nl).
  { unfold registry_of, mbind, M_bind, get, set_registry, modify. lsimpl.
    subst r0. destruct (lte !! base) as [r|] eqn:Hr; cbn [default].
    - eexists. split; [reflexivity|]. lsimpl. repeat split; try reflexivity. exact Hr.
    - eexists. split; [reflexivity|]. lsimpl. repeat split; try reflexivity.
      + apply lookup_insert_eq.
      + apply insert_insert_eq. }
  destruct Hreg0 as (st0 & Hrun0 & Hreg & Hins & He & Hu & Hn & Hp & Ht & Hd & Hnl).
  destruct st0 as [lte0 ems0 ue0 nm0 sp0 tg0 dl0 nl0]. lsimpl in *.
  subst ems0 ue0 nm0 sp0 tg0 dl0 nl0.
  assert (Hins' : forall x, <[base := x]> lte0 = <[base := x]> lte).
  { intros x. transitivity (<[base := x]> (<[base := r0]> lte0));
      [symmetry; apply insert_insert_eq|].
    rewrite Hins. apply insert_insert_eq. }
  rewrite (run_bind _ _ _ _ _ Hrun0).
  assert (Hhas : map_has (usedMap_of type r0) id = false).
  { unfold map_has, obj_has. unfold map_get in Hid. rewrite Hid. reflexivity. }
  rewrite Hhas.
  erewrite run_bind;
    [|erewrite run_bind; [|reflexivity]; lsimpl;
      erewrite run_bind; [|apply run_registry_of; lsimpl; exact Hreg];
      reflexivity].
  lsimpl.
  erewrite run_bind;
    [|apply run_registry_of; lsimpl; apply lookup_insert_eq].
  assert (Hget : map_get
                   (usedMap_of type
                      (with_usedMap type r0
                         (map_set id {| l_element := Some el; l_map := length ems |}
                            (usedMap_of type r0)))) id
                 = Some {| l_element := Some el; l_map := length ems |}).
  { assert (Hused : forall m, usedMap_of type (with_usedMap type r0 m) = m)
      by (intros m; destruct type; reflexivity).
    rewrite Hused. unfold map_get, map_set. unfold map_has, obj_has in Hhas.
    unfold obj_has. destruct (obj_get (usedMap_of type r0) id); [discriminate Hhas|].
    rewrite obj_get_app. unfold map_get in Hid. rewrite Hid. cbn [obj_get].
    rewrite String.eqb_refl. reflexivity. }
  rewrite Hget.
  erewrite run_bind;
    [|apply run_get_eventMap; lsimpl; by rewrite list_lookup_middle].
  cbn [map_get obj_get].
  lstep. rewrite bool_decide_eq_true_2 by reflexivity. lstep.
  destruct options as [o|];
    [destruct sp as [[|]|]; [| |destruct readsPassive]|];
    (eexists; split; [reflexivity|]);
    unfold attached, capture_used; lsimpl; cbn [default andb capture_of map_set obj_has obj_get];
    rewrite ?insert_insert_eq, ?Hins';
    (split; [reflexivity|]);
    (split; [by rewrite insert_app_r_alt, Nat.sub_diag by lia|]);
    (split; [rewrite !lookup_insert_eq; reflexivity|]);
    (split; [intros t Ht; rewrite !lookup_insert_ne by congruence; reflexivity|]);
    (split; [reflexivity|]); (split; [repeat split|]); (split; [reflexivity|]);
    (eexists; split; [apply lookup_insert_eq|exact Hget]).
Qed.

End FirstListen.

(** ** listeners.ts: the function a listen returns *)

Section Removers.
Import Listeners.

Lemma map_delete_singleton (event : string) (b : nat) :
  map_delete event [(event, b)] = [].
Proof. cbn [map_delete]. rewrite String.eqb_refl. reflexivity. Qed.

(** The function [doListen] returns, called when the [Map] of the id still
    records the listener of that call. *)
Lemma call_remover_recorded ref event b el m s :
  eventMaps s !! ref = Some m ->
  map_get m event = Some b ->
  exists s',
    call_remover (RemoveListened ref event b (Some el)) s = Some (Normal tt, s')
    /\ listenedToElements s' = listenedToElements s
    /\ eventMaps s' = <[ref := map_delete event m]> (eventMaps s)
    /\ attached s' el = dom_remove (event, b, false) (attached s el)
    /\ (forall t, t <> el -> attached s' t = attached s t)
    /\ nextListener s' = nextListener s.
Proof.
  intros Hmap Hget. destruct s as [lte ems ue nm sp tg dl nl]. lsimpl in *.
  unfold call_remover. lstep. rewrite Hget.
  rewrite bool_decide_eq_true_2 by reflexivity.
  lstep. lstep.
  eexists. split; [reflexivity|]. unfold attached. lsimpl.
  split; [reflexivity|]. split; [reflexivity|].
  split; [rewrite lookup_insert_eq; reflexivity|].
  split; [|reflexivity].
  intros t Ht. rewrite lookup_insert_ne by congruence. reflexivity.
Qed.

(** The function [doListen] returns, called when the [Map] of the id
    records another listener for the event, or none: nothing happens. *)
Lemma call_remover_not_recorded ref event b el m s :
  eventMaps s !! ref = Some m ->
  map_get m event <> Some b ->
  call_remover (RemoveListened ref event b el) s = Some (Normal tt, s).
Proof.
  intros Hmap Hget. unfold call_remover.
  rewrite (run_bind _ _ _ _ _ (run_get_eventMap _ _ _ Hmap)).
  rewrite bool_decide_eq_false_2 by exact Hget. reflexivity.
Qed.

(** The function a first [listen] returns takes the listener off the
    element again and empties the record of the event. A listener that was
    registered with the capture flag stays on the element all the same:
    [removeEventListener] is called without the flag, so it removes
    nothing, and the record is dropped. *)
Theorem listen_then_remove
    (readsPassive : bool) (base : nat) (type : ListenType) (el : nat)
    (id event : string) (options : option Options) (s : State) :
  map_get (usedMap_of type (registry_or_new s base)) id = None ->
  bound_before (nextListener s) (attached s el) ->
  exists remover s' s'',
    doListen readsPassive base type (Some el) id event options s
    = Some (Normal remover, s')
    /\ call_remover remover s' = Some (Normal tt, s'')
    /\ eventMaps s'' !! length (eventMaps s) = Some []
    /\ attached s'' el
       = (if capture_used readsPassive s options
          then attached s el ++ [(event, nextListener s, true)]
          else attached s el).
Proof.
  intros Hid Hfresh.
  destruct (first_listen_run readsPassive base type el id event options s Hid)
    as (s' & Hrun & _ & Hmaps & Hatt & _).
  assert (Hnew : Forall (fun b : Attached =>
                           snd (fst b)
                           <> snd (fst (event, nextListener s,
                                        capture_used readsPassive s options)))
                   (attached s el)).
  { apply (bound_before_fresh (nextListener s)); [exact Hfresh|]. cbn [fst snd]. lia. }
  rewrite (dom_add_absent _ _ Hnew) in Hatt.
  destruct (call_remover_recorded (length (eventMaps s)) event (nextListener s) el
              [(event, nextListener s)] s') as (s'' & Hcall & _ & Hmaps' & Hatt' & _).
  { rewrite Hmaps. by rewrite list_lookup_middle. }
  { cbn [map_get obj_get]. rewrite String.eqb_refl. reflexivity. }
  exists (RemoveListened (length (eventMaps s)) event (nextListener s) (Some el)), s', s''.
  split; [exact Hrun|]. split; [exact Hcall|]. split.
  - rewrite Hmaps', Hmaps, map_delete_singleton.
    rewrite insert_app_r_alt by reflexivity.
    rewrite lookup_app_r by reflexivity.
    rewrite !Nat.sub_diag. reflexivity.
  - rewrite Hatt', Hatt.
    destruct (capture_used readsPassive s options).
    + unfold dom_remove. rewrite List.filter_app. cbn [List.filter].
      assert (same_listener (event, nextListener s, false) (event, nextListener s, true)
              = false) as ->.
      { unfold same_listener. cbn [fst snd]. rewrite String.eqb_refl, Nat.eqb_refl.
        reflexivity. }
      cbn [negb]. f_equal.
      exact (dom_remove_absent (event, nextListener s, false) (attached s el) Hnew).
    + exact (dom_remove_app_last (event, nextListener s, false) (attached s el) Hnew).
Qed.

End Removers.

(** ** listeners.ts: one listener for an id and an event? *)

Section ListenAgain.
Import Listeners.

(** [doListen] for an id and an event that have a record already, on the
    element of the record: the listener taken off the element is the one
    the record names, and the record stays as it is, so it goes on naming
    the listener of the first call. The new listener is attached, and the
    function the call returns does nothing, now or later, as long as the
    record names another listener. *)
Theorem listen_again_keeps_first_record
    (readsPassive : bool) (base : nat) (type : ListenType) (el : nat) (id event : string)
    (options : option Options) (s : State) (r : Registry) (ref : nat)
    (m : JSMap nat) (old : nat) :
  listenedToElements s !! base = Some r ->
  map_get (usedMap_of type r) id = Some {| l_element := Some el; l_map := ref |} ->
  eventMaps s !! ref = Some m ->
  map_get m event = Some old ->
  old <> nextListener s ->
  exists remover s',
    doListen readsPassive base type (Some el) id event options s
    = Some (Normal remover, s')
    /\ listenedToElements s' = listenedToElements s
    /\ eventMaps s' = eventMaps s
    /\ attached s' el
       = dom_add (event, nextListener s, capture_used readsPassive s options)
           (dom_remove (event, old, false) (attached s el))
    /\ call_remover remover s' = Some (Normal tt, s').
Proof.
  intros Hreg Hid Hmap Hold Hfresh.
  destruct (listen_again_run readsPassive base type el id event options s r ref m old
              Hreg Hid Hmap Hold) as (s' & Hrun & Hl & He & Hatt & _).
  exists (RemoveListened ref event (nextListener s) (Some el)), s'.
  split; [exact Hrun|]. split; [exact Hl|]. split; [exact He|]. split; [exact Hatt|].
  apply (call_remover_not_recorded ref event (nextListener s) (Some el) m).
  - rewrite He. exact Hmap.
  - rewrite Hold. congruence.
Qed.

Lemma bound_from_S event first n :
  bound_from event first (S n) = (event, first, false) :: bound_from event (S first) n.
Proof.
  unfold bound_from. cbn [seq map]. rewrite Nat.add_0_r. f_equal.
  rewrite <- seq_shift, map_map. apply map_ext. intros i. do 2 f_equal. lia.
Qed.

Lemma bound_before_app next l l' :
  bound_before next l -> bound_before next l' -> bound_before next (l ++ l').
Proof. unfold bound_before. intros H H'. apply Forall_app. by split. Qed.

Lemma bound_before_mono next next' l :
  bound_before next l -> (next <= next')%nat -> bound_before next' l.
Proof.
  unfold bound_before. intros H Hle. eapply Forall_impl; [exact H|].
  intros a Ha. cbv beta in Ha. lia.
Qed.

(** Further calls, once the listener of the record is off the element:
    every call adds a listener, no call removes one. *)
Lemma listen_more (readsPassive : bool) (base : nat) (type : ListenType) (el : nat)
    (id event : string) (r : Registry) (ref : nat) (m : JSMap nat) (old : nat) :
  forall n s,
    listenedToElements s !! base = Some r ->
    map_get (usedMap_of type r) id = Some {| l_element := Some el; l_map := ref |} ->
    eventMaps s !! ref = Some m ->
    map_get m event = Some old ->
    bound_before (nextListener s) (attached s el) ->
    Forall (fun a : Attached => snd (fst a) <> old) (attached s el) ->
    (old < nextListener s)%nat ->
    exists s',
      doListen_times readsPassive n base type (Some el) id event None s
      = Some (Normal tt, s')
      /\ eventMaps s' = eventMaps s
      /\ attached s' el = attached s el ++ bound_from event (nextListener s) n.
Proof.
  induction n as [|n IH]; intros s Hreg Hid Hmap Hold Hbound Hoff Hlt.
  - exists s. split; [reflexivity|]. split; [reflexivity|].
    unfold bound_from. cbn [seq map]. by rewrite app_nil_r.
  - destruct (listen_again_run readsPassive base type el id event None s r ref m old
                Hreg Hid Hmap Hold) as (s1 & Hrun & Hl & He & Hatt & _ & Hnext).
    cbn [capture_used] in Hatt.
    rewrite (dom_remove_absent (event, old, false)) in Hatt by exact Hoff.
    rewrite dom_add_absent in Hatt
      by (apply (bound_before_fresh (nextListener s)); [exact Hbound|cbn [fst snd]; lia]).
    destruct (IH s1) as (s' & Hrest & He' & Hatt').
    + by rewrite Hl.
    + exact Hid.
    + by rewrite He.
    + exact Hold.
    + rewrite Hatt, Hnext. apply bound_before_app.
      * eapply bound_before_mono; [exact Hbound|lia].
      * constructor; [cbn [fst snd]; lia|constructor].
    + rewrite Hatt. apply Forall_app. split; [exact Hoff|].
      constructor; [cbn [fst snd]; lia|constructor].
    + rewrite Hnext. lia.
    + exists s'. cbn [doListen_times].
      rewrite (run_bind _ _ _ _ _ Hrun). split; [exact Hrest|].
      split; [congruence|].
      rewrite Hatt', Hatt, Hnext, bound_from_S, <- app_assoc. reflexivity.
Qed.

(** The listeners of an id and an event add up. The first call of [listen]
    for an id records its listener; the second takes that one off the
    element; every call from the third on finds the first listener in the
    record still, takes nothing off, and adds its own. After [n + 2] calls
    without options the element has the listeners of the last [n + 1]
    calls, and the record names the first. *)
Theorem repeated_listen_accumulates
    (readsPassive : bool) (base : nat) (type : ListenType) (el : nat)
    (id event : string) (s : State) (n : nat) :
  map_get (usedMap_of type (registry_or_new s base)) id = None ->
  bound_before (nextListener s) (attached s el) ->
  exists s',
    doListen_times readsPassive (S (S n)) base type (Some el) id event None s
    = Some (Normal tt, s')
    /\ eventMaps s' !! length (eventMaps s) = Some [(event, nextListener s)]
    /\ attached s' el
       = attached s el ++ bound_from event (S (nextListener s)) (S n).
Proof.
  intros Hid Hbound.
  destruct (first_listen_run readsPassive base type el id event None s Hid)
    as (s1 & Hrun1 & _ & Hmaps1 & Hatt1 & _ & Hnext1 & _ & _ & r1 & Hreg1 & Hid1).
  cbn [capture_used] in Hatt1.
  assert (Hnew : Forall (fun b : Attached => snd (fst b) <> nextListener s)
                   (attached s el)).
  { apply (bound_before_fresh (nextListener s) _ (event, nextListener s, false));
      [exact Hbound|cbn [fst snd]; lia]. }
  rewrite dom_add_absent in Hatt1 by exact Hnew.
  assert (Hmap1 : eventMaps s1 !! length (eventMaps s) = Some [(event, nextListener s)]).
  { rewrite Hmaps1. by rewrite list_lookup_middle. }
  assert (Hold : map_get [(event, nextListener s)] event = Some (nextListener s)).
  { cbn [map_get obj_get]. by rewrite String.eqb_refl. }
  destruct (listen_again_run readsPassive base type el id event None s1 r1
              (length (eventMaps s)) [(event, nextListener s)] (nextListener s)
              Hreg1 Hid1 Hmap1 Hold) as (s2 & Hrun2 & Hl2 & He2 & Hatt2 & _ & Hnext2).
  cbn [capture_used] in Hatt2.
  rewrite Hatt1, (dom_remove_app_last (event, nextListener s, false)) in Hatt2
    by exact Hnew.
  rewrite dom_add_absent in Hatt2
    by (apply (bound_before_fresh (nextListener s)); [exact Hbound|cbn [fst snd]; lia]).
  destruct (listen_more readsPassive base type el id event r1 (length (eventMaps s))
              [(event, nextListener s)] (nextListener s) n s2)
    as (s' & Hrest & He' & Hatt').
  - by rewrite Hl2.
  - exact Hid1.
  - by rewrite He2.
  - exact Hold.
  - rewrite Hatt2, Hnext2, Hnext1. apply bound_before_app.
    + eapply bound_before_mono; [exact Hbound|lia].
    + constructor; [cbn [fst snd]; lia|constructor].
  - rewrite Hatt2. apply Forall_app. split; [exact Hnew|].
    constructor; [cbn [fst snd]; lia|constructor].
  - rewrite Hnext2, Hnext1. lia.
  - exists s'. cbn [doListen_times].
    rewrite (run_bind _ _ _ _ _ Hrun1), (run_bind _ _ _ _ _ Hrun2).
    split; [exact Hrest|]. split; [by rewrite He', He2|].
    rewrite Hatt', Hatt2, Hnext2, Hnext1.
    rewrite (bound_from_S event (S (nextListener s)) n), <- app_assoc. reflexivity.
Qed.

End ListenAgain.

(** ** listeners.ts: new elements *)

Section NewElements.
Import Listeners.

Lemma isNewElement_run (e : nat) (context : Context) (s : State) :
  exists s',
    isNewElement (Some e) context s
    = Some (Normal (negb (bool_decide (e ∈ seen s context))), s')
    /\ (forall c, seen s' c
                  = if decide (c = context) then {[e]} ∪ seen s context else seen s c).
Proof.
  destruct s as [lte ems ue nm sp tg dl nl]. unfold isNewElement, seen. lsimpl.
  lstep. unfold modify.
  destruct (ue !! context) as [used|] eqn:Hused; cbn [default].
  - rewrite Hused. cbn [default].
    eexists. split; [reflexivity|]. lsimpl.
    intros c. destruct (decide (c = context)) as [->|Hne].
    + case_bool_decide as Hin.
      * rewrite Hused. cbn [default]. apply set_eq. intros x.
        rewrite elem_of_union, elem_of_singleton.
        split; [tauto|intros [->|?]; assumption].
      * rewrite lookup_insert_eq. reflexivity.
    + case_bool_decide; [reflexivity|]. by rewrite lookup_insert_ne.
  - rewrite lookup_insert_eq. cbn [default].
    rewrite bool_decide_eq_false_2 by apply not_elem_of_empty.
    eexists. split; [reflexivity|]. lsimpl.
    intros c. destruct (decide (c = context)) as [->|Hne].
    + rewrite lookup_insert_eq. reflexivity.
    + rewrite !lookup_insert_ne by congruence. reflexivity.
Qed.

(** [isNewElement] says yes once for every element and context: in a row of
    calls, a call returns [true] exactly when it has an element, the context
    has not seen the element before the row, and no earlier call of the row
    had the same element and context. What one context has seen does not
    count for another. *)
Theorem isNewElement_first_time_only (calls : list (option nat * Context)) :
  forall (s : State),
  exists results s',
    mapM (fun call => isNewElement (fst call) (snd call)) calls s
    = Some (Normal results, s')
    /\ length results = length calls
    /\ forall i element context,
         calls !! i = Some (element, context) ->
         (results !! i = Some true
          <-> exists e, element = Some e
                        /\ (e ∉ seen s context)
                        /\ (Some e, context) ∉ take i calls).
Proof.
  induction calls as [|[element context] calls IH]; intros s.
  - exists [], s. split; [reflexivity|]. split; [reflexivity|].
    intros i e c H. discriminate H.
  - rewrite mapM_cons. cbn [fst snd].
    assert (Hfirst : exists b s1,
              isNewElement element context s = Some (Normal b, s1)
              /\ (b = true <-> exists e, element = Some e /\ (e ∉ seen s context))
              /\ (forall e c, (e ∉ seen s1 c)
                              <-> (e ∉ seen s c) /\ (Some e, c) <> (element, context))).
    { destruct element as [e|].
      - destruct (isNewElement_run e context s) as (s1 & Hrun & Hseen).
        eexists _, s1. split; [exact Hrun|]. split.
        + case_bool_decide; cbn [negb]; split; try discriminate.
          * intros (e' & He' & Hnot). inversion He'; subst. contradiction.
          * intros _. eauto.
          * reflexivity.
        + intros e' c. rewrite Hseen. destruct (decide (c = context)) as [->|Hne].
          * split.
            -- rewrite elem_of_union, elem_of_singleton. intros Hnot.
               split; [tauto|]. intros Heq. inversion Heq; subst. tauto.
            -- rewrite elem_of_union, elem_of_singleton. intros [Hnot Hne] [->|Hin];
                 [by apply Hne|by apply Hnot].
          * split; [intros Hnot; split; [exact Hnot|congruence]|tauto].
      - exists false, s. split; [reflexivity|]. split.
        + split; [discriminate|]. intros (e & He & _). discriminate He.
        + intros e c. split; [intros H; split; [exact H|discriminate]|tauto]. }
    destruct Hfirst as (b & s1 & Hrun & Hb & Hseen).
    rewrite (run_bind _ _ _ _ _ Hrun).
    destruct (IH s1) as (results & s' & Hrest & Hlen & Hresults).
    rewrite (run_bind _ _ _ _ _ Hrest).
    exists (b :: results), s'. split; [reflexivity|].
    split; [cbn [length]; by rewrite Hlen|].
    intros [|i] element' context' Hcall.
    + cbn in Hcall. inversion Hcall; subst. cbn [lookup list_lookup take].
      split.
      * intros Htrue. inversion Htrue as [Htrue']. apply Hb in Htrue'.
        destruct Htrue' as (e & He & Hnot). exists e. split; [exact He|].
        split; [exact Hnot|apply not_elem_of_nil].
      * intros (e & He & Hnot & _). f_equal. apply Hb. eauto.
    + cbn in Hcall. change ((b :: results) !! S i) with (results !! i).
      rewrite (Hresults i element' context' Hcall).
      change (take (S i) ((element, context) :: calls))
        with ((element, context) :: take i calls).
      split; intros (e & He & Hnot & Hearlier); exists e; (split; [exact He|]).
      * apply Hseen in Hnot. destruct Hnot as [Hnot Hne].
        split; [exact Hnot|]. rewrite not_elem_of_cons. split; assumption.
      * rewrite not_elem_of_cons in Hearlier. destruct Hearlier as [Hne Hearlier].
        split; [apply Hseen; split; assumption|exact Hearlier].
Qed.

End NewElements.

(** ** listeners.ts: listeners on the component itself *)

Section ComponentListeners.
Import Listeners.

Lemma map_get_set_eq {V} (k : string) (v : V) (m : JSMap V) :
  map_get (map_set k v m) k = Some v.
Proof.
  unfold map_get, map_set, obj_has.
  destruct (obj_get m k) as [x|] eqn:Hk.
  - rewrite obj_get_update, String.eqb_refl, Hk. reflexivity.
  - rewrite obj_get_app, Hk. cbn [obj_get]. by rewrite String.eqb_refl.
Qed.

Lemma map_set_set_eq {V} (k : string) (v v' : V) (m : JSMap V) :
  map_set k v' (map_set k v m) = map_set k v' m.
Proof.
  unfold map_set at 1. fold (map_has (map_set k v m) k).
  unfold map_has, obj_has. fold (map_get (map_set k v m) k).
  rewrite map_get_set_eq. unfold map_set, obj_has.
  destruct (obj_get m k) as [x|] eqn:Hk.
  - clear Hk. induction m as [|[k' x'] m IH]; [reflexivity|].
    cbn [obj_update]. destruct (String.eqb k' k) eqn:Hkk.
    + cbn [obj_update]. rewrite Hkk. reflexivity.
    + cbn [obj_update]. rewrite Hkk, IH. reflexivity.
  - induction m as [|[k' x'] m IH].
    + cbn [app obj_update]. rewrite String.eqb_refl. reflexivity.
    + cbn [obj_get] in Hk. destruct (String.eqb k' k) eqn:Hkk; [discriminate Hk|].
      cbn [app obj_update]. rewrite Hkk. f_equal. exact (IH Hk).
Qed.

(** [registry_of] returns the registry of [base] and leaves it in
    [listenedToElements]. *)
Lemma registry_of_run (base : nat) (s : State) :
  registry_of base s
  = Some (Normal (registry_or_new s base),
          {| listenedToElements :=
               <[base := registry_or_new s base]> (listenedToElements s);
             eventMaps := eventMaps s;
             usedElements := usedElements s;
             newMap := newMap s;
             _supportsPassive := _supportsPassive s;
             targets := targets s;
             dollar := dollar s;
             nextListener := nextListener s |}).
Proof.
  destruct s as [lte ems ue nm sp tg dl nl].
  unfold registry_of, registry_or_new, mbind, M_bind, get, set_registry, modify. lsimpl.
  destruct (lte !! base) as [r|] eqn:Hr; cbn [default]; [|reflexivity].
  rewrite insert_id by exact Hr. reflexivity.
Qed.

Lemma listenToComponent_run (base : nat) (event : string) (s : State) :
  exists s',
    listenToComponent base event s
    = Some (Normal (RemoveSelf base event (nextListener s)), s')
    /\ listenedToElements s' !! base
       = Some {| self := map_set event (recorded_self s base event ++ [nextListener s])
                           (self (registry_or_new s base));
                 selfUnique := selfUnique (registry_or_new s base);
                 identifiers := identifiers (registry_or_new s base);
                 elements := elements (registry_or_new s base) |}
    /\ attached s' base = dom_add (event, nextListener s, false) (attached s base)
    /\ nextListener s' = S (nextListener s).
Proof.
  unfold listenToComponent.
  erewrite run_bind; [|reflexivity].
  erewrite run_bind; [|apply registry_of_run].
  unfold recorded_self, attached.
  destruct s as [lte ems ue nm sp tg dl nl]. lsimpl.
  change (registry_or_new
            {| listenedToElements := lte; eventMaps := ems; usedElements := ue;
               newMap := nm; _supportsPassive := sp; targets := tg; dollar := dl;
               nextListener := S nl |} base)
    with (registry_or_new
            {| listenedToElements := lte; eventMaps := ems; usedElements := ue;
               newMap := nm; _supportsPassive := sp; targets := tg; dollar := dl;
               nextListener := nl |} base).
  set (r0 := registry_or_new _ base).
  lstep. unfold addEventListener. lstep.
  eexists. split; [reflexivity|]. lsimpl.
  split; [|split; [by rewrite lookup_insert_eq|reflexivity]].
  rewrite lookup_insert_eq. f_equal. f_equal.
  destruct (map_get (self r0) event); reflexivity.
Qed.

Lemma call_RemoveSelf_run (base : nat) (event : string) (b : nat) (s : State)
    (r : Registry) (listeners : list nat) :
  listenedToElements s !! base = Some r ->
  map_get (self r) event = Some listeners ->
  exists s',
    call_remover (RemoveSelf base event b) s = Some (Normal tt, s')
    /\ listenedToElements s' !! base
       = Some {| self := map_set event (splice_indexOf b listeners) (self r);
                 selfUnique := selfUnique r;
                 identifiers := identifiers r;
                 elements := elements r |}
    /\ attached s' base
       = (if bool_decide (is_Some (indexOf b listeners))
          then dom_remove (event, b, false) (attached s base)
          else attached s base)
    /\ nextListener s' = nextListener s.
Proof.
  intros Hr Hget. destruct s as [lte ems ue nm sp tg dl nl]. lsimpl in *.
  unfold call_remover, attached. lstep. rewrite Hr, Hget.
  case_bool_decide.
  - repeat (lstep; rewrite ?Hr).
    eexists. split; [reflexivity|]. lsimpl.
    split; [by rewrite lookup_insert_eq|]. split; [by rewrite lookup_insert_eq|reflexivity].
  - repeat (lstep; rewrite ?Hr).
    eexists. split; [reflexivity|]. lsimpl.
    split; [by rewrite lookup_insert_eq|]. split; reflexivity.
Qed.

Lemma indexOf_app_here (b : nat) (l l' : list nat) :
  Forall (fun x => x <> b) l -> indexOf b (l ++ b :: l') = Some (length l).
Proof.
  induction 1 as [|x l Hx _ IH]; cbn [app indexOf length].
  - by rewrite Nat.eqb_refl.
  - apply Nat.eqb_neq in Hx. rewrite Hx, IH. reflexivity.
Qed.

Lemma indexOf_absent (b : nat) (l : list nat) :
  Forall (fun x => x <> b) l -> indexOf b l = None.
Proof.
  induction 1 as [|x l Hx _ IH]; cbn [indexOf]; [reflexivity|].
  apply Nat.eqb_neq in Hx. rewrite Hx, IH. reflexivity.
Qed.

Lemma splice_middle (l : list nat) (x : nat) (r : list nat) :
  take (length l) (l ++ x :: r) ++ drop (S (length l)) (l ++ x :: r) = l ++ r.
Proof.
  induction l as [|y l IH]; [reflexivity|].
  cbn [length app take drop]. f_equal. exact IH.
Qed.

(** Two listeners on a component, and the function of the first called
    twice. The first call takes the first listener off and out of the
    record. The second call does not find it in the record, and the splice
    at the index -1 takes the last listener of the record out instead: the
    second listener is still on the component, and the record of the event
    no longer holds it, so [removeAllElementListeners] will leave it there. *)
Theorem self_remover_called_twice (base : nat) (event : string) (s : State) :
  bound_before (nextListener s) (attached s base) ->
  Forall (fun l => (l < nextListener s)%nat) (recorded_self s base event) ->
  exists s',
    (first ← listenToComponent base event;
     _ ← listenToComponent base event;
     call_remover first;;
     call_remover first) s
    = Some (Normal tt, s')
    /\ recorded_self s' base event = recorded_self s base event
    /\ attached s' base = attached s base ++ [(event, S (nextListener s), false)].
Proof.
  intros Hatt Hrec.
  destruct (listenToComponent_run base event s) as (s1 & Hrun1 & Hreg1 & Hatt1 & Hnext1).
  destruct (listenToComponent_run base event s1) as (s2 & Hrun2 & Hreg2 & Hatt2 & Hnext2).
  set (b1 := nextListener s) in *. set (prior := recorded_self s base event) in *.
  assert (Hrec1 : recorded_self s1 base event = prior ++ [b1]).
  { unfold recorded_self, registry_or_new. rewrite Hreg1. cbn [default from_option id self].
    by rewrite map_get_set_eq. }
  assert (Hor1 : registry_or_new s1 base
                 = {| self := map_set event (prior ++ [b1]) (self (registry_or_new s base));
                      selfUnique := selfUnique (registry_or_new s base);
                      identifiers := identifiers (registry_or_new s base);
                      elements := elements (registry_or_new s base) |}).
  { unfold registry_or_new at 1. rewrite Hreg1. reflexivity. }
  rewrite Hrec1, Hor1, Hnext1 in Hreg2. cbn [self selfUnique identifiers elements] in Hreg2.
  rewrite map_set_set_eq, <- app_assoc in Hreg2. cbn [app] in Hreg2.
  destruct (call_RemoveSelf_run base event b1 s2 _ (prior ++ [b1; S b1]) Hreg2)
    as (s3 & Hrun3 & Hreg3 & Hatt3 & Hnext3).
  { cbn [self]. apply map_get_set_eq. }
  assert (Hprior : Forall (fun x => x <> b1) prior).
  { eapply Forall_impl; [exact Hrec|]. intros x Hx. cbv beta in Hx. subst b1. lia. }
  assert (Hidx : indexOf b1 (prior ++ [b1; S b1]) = Some (length prior))
    by (apply indexOf_app_here; exact Hprior).
  assert (Hsplice : splice_indexOf b1 (prior ++ [b1; S b1]) = prior ++ [S b1]).
  { unfold splice_indexOf. rewrite Hidx. apply splice_middle. }
  rewrite Hsplice in Hreg3. cbn [self selfUnique identifiers elements] in Hreg3.
  rewrite map_set_set_eq in Hreg3.
  rewrite Hidx, bool_decide_eq_true_2 in Hatt3 by (eexists; reflexivity).
  destruct (call_RemoveSelf_run base event b1 s3 _ (prior ++ [S b1]) Hreg3)
    as (s4 & Hrun4 & Hreg4 & Hatt4 & Hnext4).
  { cbn [self]. apply map_get_set_eq. }
  assert (Hidx' : indexOf b1 (prior ++ [S b1]) = None).
  { apply indexOf_absent. apply Forall_app. split; [exact Hprior|].
    constructor; [lia|constructor]. }
  assert (Hsplice' : splice_indexOf b1 (prior ++ [S b1]) = prior).
  { unfold splice_indexOf. rewrite Hidx'. apply removelast_last. }
  rewrite Hsplice' in Hreg4. cbn [self selfUnique identifiers elements] in Hreg4.
  rewrite map_set_set_eq in Hreg4.
  rewrite Hidx', bool_decide_eq_false_2 in Hatt4 by (intros [? H]; discriminate H).
  exists s4.
  rewrite (run_bind _ _ _ _ _ Hrun1), (run_bind _ _ _ _ _ Hrun2),
    (run_bind _ _ _ _ _ Hrun3).
  split; [exact Hrun4|]. split.
  - unfold recorded_self at 1, registry_or_new at 1. rewrite Hreg4. cbn [default from_option id self].
    by rewrite map_get_set_eq.
  - rewrite Hatt4, Hatt3, Hatt2, Hatt1, Hnext1.
    assert (Hfresh1 : Forall (fun a : Attached => snd (fst a) <> b1) (attached s base)).
    { apply (bound_before_fresh b1 _ (event, b1, false)); [exact Hatt|cbn; lia]. }
    rewrite (dom_add_absent (event, b1, false)) by exact Hfresh1.
    rewrite (dom_add_absent (event, S b1, false)).
    2:{ apply Forall_app. split.
        - apply (bound_before_fresh b1 _ (event, S b1, false)); [exact Hatt|cbn; lia].
        - constructor; [cbn [fst snd]; lia|constructor]. }
    unfold dom_remove. rewrite !List.filter_app. cbn [List.filter].
    rewrite same_listener_refl. cbn [negb].
    assert (same_listener (event, b1, false) (event, S b1, false) = false) as ->.
    { unfold same_listener. cbn [fst snd]. rewrite String.eqb_refl.
      assert (Nat.eqb b1 (S b1) = false) as -> by (apply Nat.eqb_neq; lia).
      reflexivity. }
    cbn [negb app]. rewrite app_nil_r. f_equal.
    exact (dom_remove_absent (event, b1, false) (attached s base) Hfresh1).
Qed.

End ComponentListeners.

(** ** listeners.ts: an id that denotes a new element *)

Section NewElement.
Import Listeners.

Lemma elem_of_dom_remove (a b : Attached) (l : list Attached) :
  In b (dom_remove a l) <-> In b l /\ same_listener a b = false.
Proof.
  unfold dom_remove. rewrite List.filter_In. rewrite negb_true_iff. reflexivity.
Qed.

(** The loop that takes the recorded listeners off the element listened to
    before, run over the keys of the [Map] as it is. *)
Lemma drop_events_run (ref old_el : nat) : forall (m : JSMap nat) (s : State),
  eventMaps s !! ref = Some m ->
  exists s',
    forEachM (drop_event ref (Some old_el)) (obj_keys m) s = Some (Normal tt, s')
    /\ listenedToElements s' = listenedToElements s
    /\ eventMaps s' = <[ref := []]> (eventMaps s)
    /\ (forall a, In a (attached s' old_el)
                  <-> In a (attached s old_el) /\ ~ recorded_in m a)
    /\ (forall t, t <> old_el -> attached s' t = attached s t)
    /\ nextListener s' = nextListener s
    /\ _supportsPassive s' = _supportsPassive s.
Proof.
  induction m as [|[k v] m IH]; intros s Hmap.
  - exists s. split; [reflexivity|]. split; [reflexivity|]. split.
    { symmetry. apply list_insert_id. exact Hmap. }
    split; [|split; [reflexivity|split; reflexivity]].
    intros a. split; [intros H; split; [exact H|]|tauto].
    intros (e & l & Hin & _). destruct Hin.
  - cbn [obj_keys map fst]. rewrite forEachM_cons.
    destruct s as [lte ems ue nm sp tg dl nl]. lsimpl in *.
    assert (Hstep :
      drop_event ref (Some old_el) k
        {| listenedToElements := lte; eventMaps := ems; usedElements := ue;
           newMap := nm; _supportsPassive := sp; targets := tg; dollar := dl;
           nextListener := nl |}
      = Some (Normal tt,
              {| listenedToElements := lte; eventMaps := <[ref := m]> ems;
                 usedElements := ue; newMap := nm; _supportsPassive := sp;
                 targets := <[old_el := dom_remove (k, v, false)
                                          (default [] (tg !! old_el))]> tg;
                 dollar := dl; nextListener := nl |})).
    { unfold drop_event. lstep. cbn [map_get obj_get]. rewrite String.eqb_refl.
      lstep. lstep. unfold set_eventMap, modify. lsimpl.
      cbn [map_delete]. rewrite String.eqb_refl. reflexivity. }
    rewrite Hstep.
    match goal with
    | |- context [forEachM _ _ ?s1] =>
        destruct (IH s1) as (s' & Hrun & Hl & He & Hatt & Hother & Hn & Hp)
    end.
    { lsimpl. apply list_lookup_insert_eq. by apply lookup_lt_Some in Hmap. }
    lsimpl in *. change (map fst m) with (obj_keys m). rewrite Hrun.
    exists s'. split; [reflexivity|]. split; [exact Hl|].
    split; [by rewrite He, list_insert_insert_eq|].
    split; [|split; [|split; assumption]].
    + intros a. rewrite Hatt. unfold attached at 1. lsimpl.
      rewrite lookup_insert_eq. cbn [default from_option Datatypes.id].
      rewrite elem_of_dom_remove. unfold attached. lsimpl.
      split.
      * intros [[Hin Hne] Hnot]. split; [exact Hin|].
        intros (e & l & [Heq|Hin'] & Hsame).
        -- inversion Heq; subst. congruence.
        -- apply Hnot. exists e, l. split; assumption.
      * intros [Hin Hnot]. split; [split; [exact Hin|]|].
        -- destruct (same_listener (k, v, false) a) eqn:Hs; [|reflexivity].
           exfalso. apply Hnot. exists k, v. split; [left; reflexivity|exact Hs].
        -- intros (e & l & Hin' & Hsame). apply Hnot. exists e, l.
           split; [right; exact Hin'|exact Hsame].
    + intros t Ht. rewrite (Hother t Ht). unfold attached. lsimpl.
      by rewrite lookup_insert_ne.
Qed.

Lemma usedMap_of_with (type : ListenType) (r : Registry) (m : JSMap Listened) :
  usedMap_of type (with_usedMap type r m) = m.
Proof. destruct type; reflexivity. Qed.

Lemma bind_assoc_run {E S A B C} (m : M E S A) (f : A -> M E S B) (g : B -> M E S C) st :
  ((m ≫= f) ≫= g) st = (m ≫= (fun x => f x ≫= g)) st.
Proof.
  unfold mbind, M_bind. destruct (m st) as [[[a|e] st1]|]; reflexivity.
Qed.

Lemma recorded_in_removed (m : JSMap nat) (event : string) (old : nat)
    (l : list Attached) (a : Attached) :
  map_get m event = Some old ->
  (In a (dom_remove (event, old, false) l) /\ ~ recorded_in m a)
  <-> (In a l /\ ~ recorded_in m a).
Proof.
  intros Hold. rewrite elem_of_dom_remove. split; [tauto|].
  intros [Hin Hnot]. split; [split; [exact Hin|]|exact Hnot].
  destruct (same_listener (event, old, false) a) eqn:Hs; [|reflexivity].
  exfalso. apply Hnot. exists event, old. split; [|exact Hs].
  unfold map_get in Hold. by apply obj_get_In.
Qed.

Lemma recorded_in_fresh (m : JSMap nat) (event : string) (b : nat) (a : Attached) :
  (snd (fst a) < b)%nat ->
  recorded_in (m ++ [(event, b)]) a <-> recorded_in m a.
Proof.
  intros Hlt. split; intros (e & l & Hin & Hsame).
  - apply in_app_or in Hin. destruct Hin as [Hin|[Heq|[]]].
    + exists e, l. split; assumption.
    + inversion Heq; subst e l. unfold same_listener in Hsame. cbn [fst snd] in Hsame.
      apply andb_true_iff in Hsame as [Hsame _].
      apply andb_true_iff in Hsame as [_ Hsame].
      apply Nat.eqb_eq in Hsame. lia.
  - exists e, l. split; [apply in_or_app; left; exact Hin|exact Hsame].
Qed.

(** When the element of an id is not the one the record has, [doListen]
    takes every recorded listener off the element listened to before, and
    empties the [Map] of the id: the listener it is about to add is not
    recorded either. The new listener is attached to the new element, the
    function the call returns does nothing, and since no record names the
    listener, nothing in the module will ever take it off. *)
Theorem listen_on_new_element
    (readsPassive : bool) (base : nat) (type : ListenType) (old_el el : nat)
    (ident event : string) (options : option Options) (s : State) (r : Registry)
    (ref : nat) (m : JSMap nat) :
  listenedToElements s !! base = Some r ->
  map_get (usedMap_of type r) ident
  = Some {| l_element := Some old_el; l_map := ref |} ->
  old_el <> el ->
  eventMaps s !! ref = Some m ->
  bound_before (nextListener s) (attached s old_el) ->
  exists remover s' r',
    doListen readsPassive base type (Some el) ident event options s
    = Some (Normal remover, s')
    /\ eventMaps s' = <[ref := []]> (eventMaps s)
    /\ listenedToElements s' !! base = Some r'
    /\ map_get (usedMap_of type r') ident
       = Some {| l_element := Some el; l_map := ref |}
    /\ (forall a, In a (attached s' old_el)
                  <-> In a (attached s old_el) /\ ~ recorded_in m a)
    /\ attached s' el
       = dom_add (event, nextListener s, capture_used readsPassive s options)
           (attached s el)
    /\ call_remover remover s' = Some (Normal tt, s').
Proof.
  intros Hreg Hid Hne Hmap Hbound.
  assert (Hhas : map_has (usedMap_of type r) ident = true).
  { unfold map_has, obj_has. unfold map_get in Hid. rewrite Hid. reflexivity. }
  assert (Hlt : (ref < length (eventMaps s))%nat) by (by apply lookup_lt_Some in Hmap).
  destruct s as [lte ems ue nm sp tg dl nl]. lsimpl in *.
  unfold doListen.
  lstep. lstep. rewrite Hhas. lstep. lstep. rewrite Hid. lstep.
  (* the first test on the event *)
  assert (Hfirst : exists m1 tg1,
    (match map_get m event with
     | None => set_eventMap ref (map_set event nl m)
     | Some old => removeEventListener (Some old_el) event old
     end)
      {| listenedToElements := lte; eventMaps := ems; usedElements := ue; newMap := nm;
         _supportsPassive := sp; targets := tg; dollar := dl; nextListener := S nl |}
    = Some (Normal tt,
            {| listenedToElements := lte; eventMaps := <[ref := m1]> ems;
               usedElements := ue; newMap := nm; _supportsPassive := sp;
               targets := tg1; dollar := dl; nextListener := S nl |})
    /\ (forall a, In a (default [] (tg1 !! old_el)) /\ ~ recorded_in m1 a
                  <-> In a (default [] (tg !! old_el)) /\ ~ recorded_in m a)
    /\ (forall t, t <> old_el -> tg1 !! t = tg !! t)).
  { destruct (map_get m event) as [old|] eqn:Hold.
    - exists m, (<[old_el := dom_remove (event, old, false) (default [] (tg !! old_el))]> tg).
      split; [|split].
      + unfold removeEventListener. lstep. unfold set_targets, modify. lsimpl.
        rewrite list_insert_id by exact Hmap. reflexivity.
      + intros a. rewrite lookup_insert_eq. cbn [default from_option Datatypes.id].
        by apply recorded_in_removed.
      + intros t Ht. by rewrite lookup_insert_ne.
    - exists (map_set event nl m), tg. split; [reflexivity|]. split; [|reflexivity].
      intros a.
      assert (Hset : map_set event nl m = m ++ [(event, nl)]).
      { unfold map_set, obj_has. unfold map_get in Hold. by rewrite Hold. }
      rewrite Hset. unfold bound_before, attached in Hbound. lsimpl in *.
      rewrite List.Forall_forall in Hbound.
      split; intros [Hin Hnot]; (split; [exact Hin|]);
        intros Hrec; apply Hnot; by apply (recorded_in_fresh m event nl a (Hbound a Hin)). }
  destruct Hfirst as (m1 & tg1 & Hrun1 & Hatt1 & Hother1).
  rewrite (run_bind _ _ _ _ _ Hrun1).
  rewrite bool_decide_eq_false_2 by congruence.
  rewrite bind_assoc_run.
  erewrite run_bind;
    [|apply run_get_eventMap; lsimpl; apply list_lookup_insert_eq; exact Hlt].
  rewrite bind_assoc_run.
  match goal with
  | |- context [(forEachM _ _ ≫= _) ?s1] =>
      destruct (drop_events_run ref old_el m1 s1)
        as (s2 & Hrun2 & Hl2 & He2 & Hatt2 & Hother2 & Hn2 & Hp2);
        [lsimpl; apply list_lookup_insert_eq; exact Hlt|]
  end.
  rewrite (run_bind _ _ _ _ _ Hrun2).
  lsimpl in *. rewrite list_insert_insert_eq in He2.
  rewrite bind_assoc_run.
  erewrite run_bind; [|apply run_registry_of; rewrite Hl2; exact Hreg].
  set (r' := with_usedMap type r
               (map_set ident {| l_element := Some el; l_map := ref |}
                  (usedMap_of type r))).
  erewrite run_bind; [|reflexivity].
  unfold attached in *. lsimpl in *.
  assert (Hfinal : forall s',
    listenedToElements s' = <[base := r']> (listenedToElements s2) ->
    eventMaps s' = eventMaps s2 ->
    (forall t, t <> el -> targets s' !! t = targets s2 !! t) ->
    eventMaps s' = <[ref := []]> ems
    /\ listenedToElements s' !! base = Some r'
    /\ map_get (usedMap_of type r') ident = Some {| l_element := Some el; l_map := ref |}
    /\ (forall a, In a (default [] (targets s' !! old_el))
                  <-> In a (default [] (tg !! old_el)) /\ ~ recorded_in m a)
    /\ call_remover (RemoveListened ref event nl (Some old_el)) s' = Some (Normal tt, s')).
  { intros s' Hl' He' Hother'.
    split; [rewrite He', He2; reflexivity|]. split; [rewrite Hl'; apply lookup_insert_eq|].
    split; [subst r'; rewrite usedMap_of_with; apply map_get_set_eq|].
    split.
    - intros a. rewrite Hother' by congruence. rewrite Hatt2. exact (Hatt1 a).
    - apply (call_remover_not_recorded ref event nl (Some old_el) []).
      + rewrite He', He2. apply list_lookup_insert_eq. exact Hlt.
      + discriminate. }
  destruct s2 as [lte2 ems2 ue2 nm2 sp2 tg2 dl2 nl2]. lsimpl in *. subst sp2.
  assert (Hel : default [] (tg2 !! el) = default [] (tg !! el)).
  { rewrite Hother2 by congruence. unfold attached. lsimpl.
    by rewrite Hother1 by congruence. }
  unfold capture_used. lsimpl.
  destruct options as [o|];
    [destruct sp as [[|]|]; [| |destruct readsPassive]|];
    (eexists _, _, r'; split; [reflexivity|]);
    match goal with
    | |- eventMaps ?s' = _ /\ _ =>
        destruct (Hfinal s') as (H1 & H2 & H3 & H4 & H5);
          [reflexivity|reflexivity
          |lsimpl; intros t Ht; rewrite ?lookup_insert_ne by congruence; reflexivity|]
    end;
    (split; [exact H1|]); (split; [exact H2|]); (split; [exact H3|]);
    (split; [exact H4|]); (split; [|exact H5]);
    lsimpl; rewrite lookup_insert_eq; cbn [default from_option Datatypes.id andb capture_of];
    rewrite Hel; reflexivity.
Qed.

End NewElement.

(** ** listeners.ts: removing all listeners *)

Section RemoveAll.
Import Listeners.

Lemma removeEventListeners_run (t : nat) (event : string) :
  forall (listeners : list nat) (s : State),
  exists s',
    forEachM (removeEventListener (Some t) event) listeners s = Some (Normal tt, s')
    /\ listenedToElements s' = listenedToElements s
    /\ eventMaps s' = eventMaps s
    /\ (forall a, In a (attached s' t)
                  <-> In a (attached s t)
                      /\ ~ exists listener,
                             In listener listeners
                             /\ same_listener (event, listener, false) a = true)
    /\ (forall t', t' <> t -> attached s' t' = attached s t').
Proof.
  induction listeners as [|l listeners IH]; intros s.
  - exists s. split; [reflexivity|]. split; [reflexivity|]. split; [reflexivity|].
    split; [|reflexivity].
    intros a. split; [intros H; split; [exact H|]|tauto]. intros (? & [] & _).
  - rewrite forEachM_cons.
    destruct s as [lte ems ue nm sp tg dl nl].
    unfold removeEventListener at 1. erewrite run_bind; [|reflexivity].
    unfold set_targets, modify. lsimpl.
    match goal with
    | |- context [forEachM _ _ ?s1] =>
        destruct (IH s1) as (s' & Hrun & Hl & He & Hatt & Hother)
    end.
    rewrite Hrun. exists s'. split; [reflexivity|]. split; [exact Hl|]. split; [exact He|].
    unfold attached in *. lsimpl in *. split.
    + intros a. rewrite Hatt, lookup_insert_eq. cbn [default from_option Datatypes.id].
      rewrite elem_of_dom_remove. split.
      * intros [[Hin Hne] Hnot]. split; [exact Hin|].
        intros (x & [->|Hx] & Hsame); [congruence|]. apply Hnot. eauto.
      * intros [Hin Hnot]. split; [split; [exact Hin|]|].
        -- destruct (same_listener (event, l, false) a) eqn:Hs; [|reflexivity].
           exfalso. apply Hnot. exists l. split; [left; reflexivity|exact Hs].
        -- intros (x & Hx & Hsame). apply Hnot. exists x. split; [right; exact Hx|exact Hsame].
    + intros t' Ht'. rewrite (Hother t' Ht'). by rewrite lookup_insert_ne.
Qed.

Lemma removeListeners_entries_run (t : nat) :
  forall (entries : list (string * list nat)) (s : State),
  exists s',
    removeListeners_entries (Some t) entries s = Some (Normal tt, s')
    /\ listenedToElements s' = listenedToElements s
    /\ eventMaps s' = eventMaps s
    /\ (forall a, In a (attached s' t) <-> In a (attached s t) /\ ~ listed_in entries a)
    /\ (forall t', t' <> t -> attached s' t' = attached s t').
Proof.
  unfold removeListeners_entries.
  induction entries as [|[event listeners] entries IH]; intros s.
  - exists s. split; [reflexivity|]. split; [reflexivity|]. split; [reflexivity|].
    split; [|reflexivity].
    intros a. split; [intros H; split; [exact H|]|tauto]. intros (? & ? & ? & [] & _).
  - rewrite forEachM_cons. cbn [fst snd].
    destruct (removeEventListeners_run t event listeners s)
      as (s1 & Hrun1 & Hl1 & He1 & Hatt1 & Hother1).
    rewrite Hrun1.
    destruct (IH s1) as (s' & Hrun & Hl & He & Hatt & Hother).
    rewrite Hrun. exists s'. split; [reflexivity|].
    split; [congruence|]. split; [congruence|]. split.
    + intros a. rewrite Hatt, Hatt1. split.
      * intros [[Hin Hnot1] Hnot]. split; [exact Hin|].
        intros (e & ls & x & [Heq|Hin'] & Hx & Hsame).
        -- inversion Heq; subst. apply Hnot1. eauto.
        -- apply Hnot. exists e, ls, x. auto.
      * intros [Hin Hnot]. split; [split; [exact Hin|]|].
        -- intros (x & Hx & Hsame). apply Hnot. exists event, listeners, x.
           split; [left; reflexivity|auto].
        -- intros (e & ls & x & Hin' & Hx & Hsame). apply Hnot. exists e, ls, x.
           split; [right; exact Hin'|auto].
    + intros t' Ht'. rewrite (Hother t' Ht'). exact (Hother1 t' Ht').
Qed.

Lemma listed_in_map (m : JSMap nat) (a : Attached) :
  listed_in (map (fun entry => (fst entry, [snd entry])) m) a <-> recorded_in m a.
Proof.
  unfold listed_in, recorded_in. split.
  - intros (e & ls & x & Hin & Hx & Hsame). apply in_map_iff in Hin.
    destruct Hin as ([e' x'] & Heq & Hin). cbn [fst snd] in Heq. inversion Heq; subst.
    destruct Hx as [->|[]]. eauto.
  - intros (e & x & Hin & Hsame). exists e, [x], x.
    split; [|split; [left; reflexivity|exact Hsame]].
    apply in_map_iff. exists (e, x). split; [reflexivity|exact Hin].
Qed.

Lemma removeListeners_of_run (rec : Listened) (t : nat) (m : JSMap nat) (s : State) :
  l_element rec = Some t ->
  eventMaps s !! l_map rec = Some m ->
  exists s',
    removeListeners_of rec s = Some (Normal tt, s')
    /\ listenedToElements s' = listenedToElements s
    /\ eventMaps s' = <[l_map rec := []]> (eventMaps s)
    /\ (forall a, In a (attached s' t) <-> In a (attached s t) /\ ~ recorded_in m a)
    /\ (forall t', t' <> t -> attached s' t' = attached s t').
Proof.
  intros Hel Hmap. unfold removeListeners_of.
  rewrite (run_bind _ _ _ _ _ (run_get_eventMap _ _ _ Hmap)). rewrite Hel.
  destruct (removeListeners_entries_run t (map (fun entry => (fst entry, [snd entry])) m) s)
    as (s1 & Hrun1 & Hl1 & He1 & Hatt1 & Hother1).
  rewrite (run_bind _ _ _ _ _ Hrun1).
  destruct s1 as [lte1 ems1 ue1 nm1 sp1 tg1 dl1 nl1]. unfold attached in *. lsimpl in *.
  eexists. split; [reflexivity|]. lsimpl.
  split; [exact Hl1|]. split; [by rewrite He1|]. split; [|exact Hother1].
  intros a. rewrite Hatt1. by rewrite listed_in_map.
Qed.

(** The loop over the records of the ids. *)
Lemma removeListeners_records_run : forall (records : list Listened) (s : State),
  Forall (fun rec => is_Some (l_element rec) /\ is_Some (eventMaps s !! l_map rec))
    records ->
  NoDup (map l_map records) ->
  exists s',
    forEachM removeListeners_of records s = Some (Normal tt, s')
    /\ listenedToElements s' = listenedToElements s
    /\ (forall ref, eventMaps s' !! ref
                    = if bool_decide (ref ∈ map l_map records)
                      then (match eventMaps s !! ref with Some _ => Some [] | None => None end)
                      else eventMaps s !! ref)
    /\ (forall t a, In a (attached s' t)
                    <-> In a (attached s t)
                        /\ ~ exists rec m,
                               In rec records
                               /\ l_element rec = Some t
                               /\ eventMaps s !! l_map rec = Some m
                               /\ recorded_in m a).
Proof.
  induction records as [|rec records IH]; intros s Hvalid Hnodup.
  - exists s. split; [reflexivity|]. split; [reflexivity|]. split.
    + intros ref. rewrite bool_decide_eq_false_2 by apply not_elem_of_nil. reflexivity.
    + intros t a. split; [intros H; split; [exact H|]|tauto].
      intros (? & ? & [] & _).
  - rewrite forEachM_cons.
    apply Forall_cons in Hvalid as [[[t Hel] [m Hmap]] Hvalid].
    cbn [map] in Hnodup. apply NoDup_cons in Hnodup as [Hfresh Hnodup].
    destruct (removeListeners_of_run rec t m s Hel Hmap)
      as (s1 & Hrun1 & Hl1 & He1 & Hatt1 & Hother1).
    rewrite Hrun1.
    assert (Hkeep : forall ref, ref ∈ map l_map records ->
                      eventMaps s1 !! ref = eventMaps s !! ref).
    { intros ref Hin. rewrite He1. apply list_lookup_insert_ne. intros <-. contradiction. }
    destruct (IH s1) as (s' & Hrun & Hl & He & Hatt).
    { rewrite List.Forall_forall in Hvalid |- *. intros rec' Hin.
      destruct (Hvalid rec' Hin) as [Hel' Hmap']. split; [exact Hel'|].
      rewrite Hkeep; [exact Hmap'|].
      apply list_elem_of_In. apply in_map. exact Hin. }
    { exact Hnodup. }
    rewrite Hrun. exists s'. split; [reflexivity|]. split; [congruence|]. split.
    + intros ref. rewrite He. cbn [map].
      destruct (decide (ref = l_map rec)) as [->|Hne].
      * rewrite (bool_decide_eq_true_2 (l_map rec ∈ l_map rec :: map l_map records))
          by (left).
        rewrite bool_decide_eq_false_2 by exact Hfresh.
        rewrite He1, Hmap. apply list_lookup_insert_eq. by apply lookup_lt_Some in Hmap.
      * assert (bool_decide (ref ∈ l_map rec :: map l_map records)
                = bool_decide (ref ∈ map l_map records)) as ->.
        { apply bool_decide_ext. rewrite elem_of_cons. tauto. }
        rewrite He1, !list_lookup_insert_ne by congruence. reflexivity.
    + intros t' a. rewrite Hatt.
      assert (Hhere : In a (attached s1 t')
                      <-> In a (attached s t') /\ ~ (t' = t /\ recorded_in m a)).
      { destruct (decide (t' = t)) as [->|Hne].
        - rewrite Hatt1. tauto.
        - rewrite (Hother1 t' Hne). tauto. }
      rewrite Hhere. split.
      * intros [[Hin Hnot1] Hnot]. split; [exact Hin|].
        intros (rec' & m' & [<-|Hin'] & Hel' & Hmap' & Hrec').
        -- apply Hnot1. rewrite Hel in Hel'. inversion Hel'; subst.
           rewrite Hmap in Hmap'. inversion Hmap'; subst. tauto.
        -- apply Hnot. exists rec', m'. split; [exact Hin'|]. split; [exact Hel'|].
           split; [|exact Hrec']. rewrite Hkeep; [exact Hmap'|].
           apply list_elem_of_In. apply in_map. exact Hin'.
      * intros [Hin Hnot]. split; [split; [exact Hin|]|].
        -- intros [-> Hrec']. apply Hnot. exists rec, m. split; [left; reflexivity|auto].
        -- intros (rec' & m' & Hin' & Hel' & Hmap' & Hrec'). apply Hnot.
           exists rec', m'. split; [right; exact Hin'|]. split; [exact Hel'|].
           split; [|exact Hrec']. rewrite <- Hkeep; [exact Hmap'|].
           apply list_elem_of_In. apply in_map. exact Hin'.
Qed.

End RemoveAll.

Section RemoveAllTheorem.
Import Listeners.

Lemma removeListeners_entries_on (t : nat) (entries : list (string * list nat))
    (s : State) :
  exists s',
    removeListeners_entries (Some t) entries s = Some (Normal tt, s')
    /\ listenedToElements s' = listenedToElements s
    /\ eventMaps s' = eventMaps s
    /\ (forall t' a, In a (attached s' t')
                     <-> In a (attached s t') /\ ~ (t' = t /\ listed_in entries a)).
Proof.
  destruct (removeListeners_entries_run t entries s) as (s' & Hrun & Hl & He & Hatt & Hother).
  exists s'. split; [exact Hrun|]. split; [exact Hl|]. split; [exact He|].
  intros t' a. destruct (decide (t' = t)) as [->|Hne].
  - rewrite Hatt. tauto.
  - rewrite (Hother t' Hne). tauto.
Qed.

(** [removeAllElementListeners] on a component whose ids each have an
    element and a [Map] of their own: it runs to the end, leaves the
    component an empty registry and every [Map] of an id empty, and takes
    off the targets exactly the listeners the registry has a record of; a
    listener without a record, or one registered with the capture flag,
    stays on its target. *)
Theorem removeAll_takes_recorded_listeners_off (base : nat) (s : State) (r : Registry) :
  listenedToElements s !! base = Some r ->
  registry_wf s r ->
  exists s',
    removeAllElementListeners base s = Some (Normal tt, s')
    /\ listenedToElements s' = <[base := new_Registry]> (listenedToElements s)
    /\ (forall rec, In rec (records_of r) -> eventMaps s' !! l_map rec = Some [])
    /\ (forall t a, In a (attached s' t)
                    <-> In a (attached s t) /\ ~ recorded_on s r base t a).
Proof.
  intros Hreg [Hvalid Hnodup]. unfold records_of in Hvalid, Hnodup.
  apply Forall_app in Hvalid as [HvalidE HvalidI].
  rewrite map_app in Hnodup. apply NoDup_app in Hnodup as (HnodupE & Hdisj & HnodupI).
  unfold removeAllElementListeners. erewrite run_bind; [|reflexivity]. rewrite Hreg.
  (* the ids of elements *)
  destruct (removeListeners_records_run (map snd (elements r)) s HvalidE HnodupE)
    as (s1 & Hrun1 & Hl1 & He1 & Hatt1).
  rewrite (run_bind _ _ _ _ _ Hrun1).
  assert (Hreg1 : listenedToElements s1 !! base = Some r) by (rewrite Hl1; exact Hreg).
  rewrite (run_bind _ _ _ _ _ (run_registry_of _ _ _ Hreg1)).
  destruct s1 as [lte1 ems1 ue1 nm1 sp1 tg1 dl1 nl1]. unfold attached in Hatt1. lsimpl in *.
  erewrite run_bind; [|reflexivity]. lsimpl. cbn [self selfUnique identifiers elements].
  (* the ids of identifiers *)
  match goal with
  | |- context [(forEachM removeListeners_of _ ≫= _) ?st] =>
      destruct (removeListeners_records_run (map snd (identifiers r)) st)
        as (s2 & Hrun2 & Hl2 & He2 & Hatt2)
  end.
  { lsimpl. rewrite List.Forall_forall in HvalidI |- *. intros rec Hin.
    destruct (HvalidI rec Hin) as [Hel [m Hm]]. split; [exact Hel|].
    rewrite He1, Hm. destruct (bool_decide _); eauto. }
  { exact HnodupI. }
  rewrite (run_bind _ _ _ _ _ Hrun2).
  destruct s2 as [lte2 ems2 ue2 nm2 sp2 tg2 dl2 nl2]. unfold attached in Hatt2. lsimpl in *.
  erewrite run_bind;
    [|apply run_registry_of; lsimpl; rewrite Hl2; apply lookup_insert_eq].
  erewrite run_bind; [|reflexivity]. lsimpl. cbn [self selfUnique identifiers elements].
  (* the listeners of the component itself *)
  match goal with
  | |- context [(removeListeners_entries (Some base) (self r) ≫= _) ?st] =>
      destruct (removeListeners_entries_on base (self r) st)
        as (s3 & Hrun3 & Hl3 & He3 & Hatt3)
  end.
  erewrite run_bind; [|exact Hrun3].
  destruct s3 as [lte3 ems3 ue3 nm3 sp3 tg3 dl3 nl3]. unfold attached in Hatt3. lsimpl in *.
  erewrite run_bind;
    [|apply run_registry_of; lsimpl; rewrite Hl3; apply lookup_insert_eq].
  erewrite run_bind; [|reflexivity]. lsimpl. cbn [self selfUnique identifiers elements].
  match goal with
  | |- context [(removeListeners_entries (Some base) ?es ≫= _) ?st] =>
      destruct (removeListeners_entries_on base es st)
        as (s4 & Hrun4 & Hl4 & He4 & Hatt4)
  end.
  erewrite run_bind; [|exact Hrun4].
  destruct s4 as [lte4 ems4 ue4 nm4 sp4 tg4 dl4 nl4]. unfold attached in Hatt4. lsimpl in *.
  erewrite run_bind;
    [|apply run_registry_of; lsimpl; rewrite Hl4; apply lookup_insert_eq].
  eexists. split; [reflexivity|]. unfold attached. lsimpl. cbn [self selfUnique identifiers elements].
  subst lte4 lte3 lte2 lte1 ems4 ems3.
  split; [|split].
  - rewrite !insert_insert_eq. reflexivity.
  - intros rec Hin. apply in_app_or in Hin.
    assert (Hm : is_Some (eventMaps s !! l_map rec)).
    { rewrite List.Forall_forall in HvalidE, HvalidI.
      destruct Hin as [Hin|Hin]; [apply (HvalidE rec Hin)|apply (HvalidI rec Hin)]. }
    destruct Hm as [m Hm]. rewrite He2, !He1. unfold JSMap in *. rewrite ?Hm.
    destruct Hin as [Hin|Hin].
    + rewrite (bool_decide_eq_true_2 (l_map rec ∈ map l_map (map snd (elements r)))).
      * destruct (bool_decide _); rewrite ?Hm; reflexivity.
      * apply list_elem_of_In. apply in_map. exact Hin.
    + rewrite (bool_decide_eq_true_2 (l_map rec ∈ map l_map (map snd (identifiers r)))).
      * destruct (bool_decide _); rewrite ?Hm; reflexivity.
      * apply list_elem_of_In. apply in_map. exact Hin.
  - intros t a. rewrite Hatt4, Hatt3, Hatt2, Hatt1. rewrite listed_in_map.
    assert (Hkeep : forall rec m, In rec (map snd (identifiers r)) ->
              (ems1 !! l_map rec = Some m <-> eventMaps s !! l_map rec = Some m)).
    { intros rec m Hin. rewrite He1. rewrite bool_decide_eq_false_2; [tauto|].
      intros Hin'. apply (Hdisj (l_map rec) Hin').
      apply list_elem_of_In. apply in_map. exact Hin. }
    unfold recorded_on, records_of. split.
    + intros [[[[Hin HnE] HnI] Hn3] Hn4]. split; [exact Hin|].
      intros [(rec & m & Hrec & Hel & Hm & Hr)|[-> [Hs|Hu]]].
      * apply in_app_or in Hrec as [Hrec|Hrec].
        -- apply HnE. eauto 10.
        -- apply HnI. exists rec, m. rewrite (Hkeep rec m Hrec). auto.
      * apply Hn3. auto.
      * apply Hn4. auto.
    + intros [Hin Hnot]. repeat split; try exact Hin.
      * intros (rec & m & Hrec & Hel & Hm & Hr). apply Hnot. left.
        exists rec, m. split; [apply in_or_app; left; exact Hrec|auto].
      * intros (rec & m & Hrec & Hel & Hm & Hr). apply Hnot. left.
        exists rec, m. rewrite (Hkeep rec m Hrec) in Hm.
        split; [apply in_or_app; right; exact Hrec|auto].
      * intros [-> Hs]. apply Hnot. right. auto.
      * intros [-> Hu]. apply Hnot. right. auto.
Qed.

End RemoveAllTheorem.

(** ** listeners.ts: listening on every render *)

Section ListenIfNew.
Import Listeners.

(** [listenIfNew] without [isNew], for an element its component has seen. *)
Lemma listenIfNew_seen_run (readsPassive : bool) (base el : nat) (id event : string)
    (options : option Options) (s : State) :
  dollar s base id = Some el ->
  el ∈ seen s (LinkContext base) ->
  exists s',
    listenIfNew readsPassive base id event None options s
    = Some (Normal RemoveNothing, s')
    /\ targets s' = targets s
    /\ nextListener s' = nextListener s
    /\ dollar s' = dollar s
    /\ seen s' (LinkContext base) = seen s (LinkContext base).
Proof.
  intros Hel Hseen. destruct s as [lte ems ue nm sp tg dl nl].
  unfold seen in *. lsimpl in *. unfold listenIfNew.
  erewrite run_bind; [|reflexivity]. lsimpl. rewrite Hel.
  erewrite run_bind.
  2:{ erewrite run_bind; [|reflexivity]. unfold isNewElement.
      erewrite run_bind; [|reflexivity]. lsimpl.
      erewrite run_bind; [|reflexivity]. reflexivity. }
  destruct (ue !! LinkContext base) as [used|] eqn:Hused; cbn [default from_option] in *.
  - rewrite Hused. cbn [default from_option Datatypes.id].
    rewrite (bool_decide_eq_true_2 _ Hseen). cbn [negb].
    eexists. split; [reflexivity|]. lsimpl. rewrite Hused. repeat split.
  - exfalso. revert Hseen. apply not_elem_of_empty.
Qed.

(** The first [listenIfNew] for an element. *)
Lemma listenIfNew_new_run (readsPassive : bool) (base el : nat) (id event : string)
    (options : option Options) (s : State) :
  dollar s base id = Some el ->
  el ∉ seen s (LinkContext base) ->
  map_get (elements (registry_or_new s base)) id = None ->
  exists remover s',
    listenIfNew readsPassive base id event None options s = Some (Normal remover, s')
    /\ attached s' el
       = dom_add (event, nextListener s, capture_used readsPassive s options)
           (attached s el)
    /\ (forall t, t <> el -> attached s' t = attached s t)
    /\ nextListener s' = S (nextListener s)
    /\ dollar s' = dollar s
    /\ el ∈ seen s' (LinkContext base).
Proof.
  intros Hel Hseen Hid. destruct s as [lte ems ue nm sp tg dl nl].
  unfold seen, registry_or_new in *. lsimpl in *. unfold listenIfNew.
  erewrite run_bind; [|reflexivity]. lsimpl. rewrite Hel.
  erewrite run_bind.
  2:{ erewrite run_bind; [|reflexivity]. unfold isNewElement.
      erewrite run_bind; [|reflexivity]. lsimpl.
      erewrite run_bind; [|reflexivity]. reflexivity. }
  assert (Hnew : bool_decide
                   (el ∈ default ∅
                           (match ue !! LinkContext base with
                            | Some _ => ue
                            | None => <[LinkContext base := ∅]> ue
                            end !! LinkContext base))
                 = false).
  { apply bool_decide_eq_false_2.
    destruct (ue !! LinkContext base) as [used|] eqn:Hused.
    - rewrite Hused. exact Hseen.
    - rewrite lookup_insert_eq. apply not_elem_of_empty. }
  rewrite Hnew. cbn [negb]. unfold listen.
  erewrite run_bind; [|reflexivity]. lsimpl. rewrite Hel.
  match goal with
  | |- context [doListen _ _ _ _ _ _ _ ?st] =>
      destruct (first_listen_run readsPassive base TElement el id event options st)
        as (s' & Hrun & _ & _ & Hatt & Hother & Hnext & (Hused' & _ & Hdollar) & _)
  end.
  { exact Hid. }
  rewrite Hrun. exists (RemoveListened (length ems) event nl (Some el)), s'.
  split; [reflexivity|]. unfold attached, capture_used in *. lsimpl in *.
  split; [exact Hatt|]. split; [exact Hother|]. split; [exact Hnext|].
  split; [exact Hdollar|].
  rewrite Hused', lookup_insert_eq. cbn [default from_option Datatypes.id].
  apply elem_of_union_l, elem_of_singleton. reflexivity.
Qed.

Lemma listenIfNew_more (readsPassive : bool) (base el : nat) (id event : string)
    (options : option Options) :
  forall n s,
    dollar s base id = Some el ->
    el ∈ seen s (LinkContext base) ->
    exists s',
      listenIfNew_times readsPassive n base id event options s = Some (Normal tt, s')
      /\ targets s' = targets s
      /\ nextListener s' = nextListener s.
Proof.
  induction n as [|n IH]; intros s Hel Hseen.
  - exists s. repeat split.
  - destruct (listenIfNew_seen_run readsPassive base el id event options s Hel Hseen)
      as (s1 & Hrun1 & Ht1 & Hn1 & Hd1 & Hs1).
    destruct (IH s1) as (s' & Hrun & Ht & Hn).
    { rewrite Hd1. exact Hel. }
    { rewrite Hs1. exact Hseen. }
    exists s'. cbn [listenIfNew_times]. rewrite (run_bind _ _ _ _ _ Hrun1).
    split; [exact Hrun|]. split; congruence.
Qed.

(** A component that calls [listenIfNew] without [isNew] on every render
    listens once: the first call for an element registers the listener, and
    the calls that follow for the same element bind and register nothing. *)
Theorem listenIfNew_listens_once (readsPassive : bool) (base el : nat)
    (id event : string) (options : option Options) (s : State) (n : nat) :
  dollar s base id = Some el ->
  el ∉ seen s (LinkContext base) ->
  map_get (elements (registry_or_new s base)) id = None ->
  bound_before (nextListener s) (attached s el) ->
  exists s',
    listenIfNew_times readsPassive (S n) base id event options s = Some (Normal tt, s')
    /\ attached s' el
       = attached s el ++ [(event, nextListener s, capture_used readsPassive s options)]
    /\ (forall t, t <> el -> attached s' t = attached s t)
    /\ nextListener s' = S (nextListener s).
Proof.
  intros Hel Hseen Hid Hbound.
  destruct (listenIfNew_new_run readsPassive base el id event options s Hel Hseen Hid)
    as (remover & s1 & Hrun1 & Hatt1 & Hother1 & Hnext1 & Hdollar1 & Hseen1).
  destruct (listenIfNew_more readsPassive base el id event options n s1)
    as (s' & Hrun & Ht & Hn).
  { rewrite Hdollar1. exact Hel. }
  { exact Hseen1. }
  exists s'. cbn [listenIfNew_times]. rewrite (run_bind _ _ _ _ _ Hrun1).
  split; [exact Hrun|]. unfold attached in *. rewrite Ht.
  split; [|split; [exact Hother1|congruence]].
  rewrite Hatt1. apply dom_add_absent.
  apply (bound_before_fresh (nextListener s)); [exact Hbound|]. cbn [fst snd]. lia.
Qed.

End ListenIfNew.

(** ** listeners.ts: one listener for every event of the component? *)

Section UniqueListeners.
Import Listeners.

(** [listenToComponentUnique] for an event without a record. *)
Lemma unique_first_run (base : nat) (event : string) (s : State) :
  map_get (selfUnique (registry_or_new s base)) event = None ->
  exists s' r',
    listenToComponentUnique base event s
    = Some (Normal (RemoveUnique base event (nextListener s)), s')
    /\ listenedToElements s' !! base = Some r'
    /\ map_get (selfUnique r') event = Some (nextListener s)
    /\ attached s' base = dom_add (event, nextListener s, false) (attached s base)
    /\ nextListener s' = S (nextListener s).
Proof.
  intros Hid. unfold listenToComponentUnique.
  erewrite run_bind; [|reflexivity].
  erewrite run_bind; [|apply registry_of_run].
  unfold registry_or_new in *. destruct s as [lte ems ue nm sp tg dl nl]. lsimpl in *.
  rewrite Hid.
  erewrite run_bind; [|reflexivity]. lsimpl.
  erewrite run_bind; [|reflexivity]. lsimpl.
  eexists _, _. split; [reflexivity|]. unfold attached. lsimpl.
  split; [rewrite insert_insert_eq; apply lookup_insert_eq|].
  cbn [selfUnique]. split.
  - apply map_get_set_eq.
  - split; [|reflexivity]. by rewrite lookup_insert_eq.
Qed.

(** [listenToComponentUnique] for an event that has a record. *)
Lemma unique_again_run (base : nat) (event : string) (s : State) (r : Registry)
    (old : nat) :
  listenedToElements s !! base = Some r ->
  map_get (selfUnique r) event = Some old ->
  exists s',
    listenToComponentUnique base event s
    = Some (Normal (RemoveUnique base event (nextListener s)), s')
    /\ listenedToElements s' = listenedToElements s
    /\ attached s' base
       = dom_add (event, nextListener s, false)
           (dom_remove (event, old, false) (attached s base))
    /\ nextListener s' = S (nextListener s).
Proof.
  intros Hreg Hold. unfold listenToComponentUnique.
  destruct s as [lte ems ue nm sp tg dl nl]. lsimpl in *.
  erewrite run_bind; [|reflexivity].
  erewrite run_bind; [|apply run_registry_of; lsimpl; exact Hreg].
  rewrite Hold.
  erewrite run_bind; [|reflexivity]. lsimpl.
  erewrite run_bind; [|reflexivity]. lsimpl.
  eexists. split; [reflexivity|]. unfold attached. lsimpl.
  split; [reflexivity|]. split; [|reflexivity].
  by rewrite insert_insert_eq, !lookup_insert_eq.
Qed.

Lemma unique_more (base : nat) (event : string) (r : Registry) (old : nat) :
  forall n s,
    listenedToElements s !! base = Some r ->
    map_get (selfUnique r) event = Some old ->
    bound_before (nextListener s) (attached s base) ->
    Forall (fun a : Attached => snd (fst a) <> old) (attached s base) ->
    (old < nextListener s)%nat ->
    exists s',
      listenToComponentUnique_times n base event s = Some (Normal tt, s')
      /\ listenedToElements s' = listenedToElements s
      /\ attached s' base = attached s base ++ bound_from event (nextListener s) n.
Proof.
  induction n as [|n IH]; intros s Hreg Hold Hbound Hoff Hlt.
  - exists s. split; [reflexivity|]. split; [reflexivity|].
    unfold bound_from. cbn [seq map]. by rewrite app_nil_r.
  - destruct (unique_again_run base event s r old Hreg Hold)
      as (s1 & Hrun & Hl & Hatt & Hnext).
    rewrite (dom_remove_absent (event, old, false)) in Hatt by exact Hoff.
    rewrite dom_add_absent in Hatt
      by (apply (bound_before_fresh (nextListener s)); [exact Hbound|cbn [fst snd]; lia]).
    destruct (IH s1) as (s' & Hrest & Hl' & Hatt').
    + by rewrite Hl.
    + exact Hold.
    + rewrite Hatt, Hnext. apply bound_before_app.
      * eapply bound_before_mono; [exact Hbound|lia].
      * constructor; [cbn [fst snd]; lia|constructor].
    + rewrite Hatt. apply Forall_app. split; [exact Hoff|].
      constructor; [cbn [fst snd]; lia|constructor].
    + rewrite Hnext. lia.
    + exists s'. cbn [listenToComponentUnique_times].
      rewrite (run_bind _ _ _ _ _ Hrun). split; [exact Hrest|].
      split; [congruence|].
      rewrite Hatt', Hatt, Hnext, bound_from_S, <- app_assoc. reflexivity.
Qed.

(** [listenToComponentUnique] does not keep one listener for an event. The
    first call records its listener; the second takes that one off the
    component but leaves the record as it is; so every call from the third
    on takes nothing off and adds its own listener. After [n + 2] calls the
    component has the listeners of the last [n + 1] calls, and the record
    names the first. *)
Theorem unique_listeners_accumulate (base : nat) (event : string) (s : State) (n : nat) :
  map_get (selfUnique (registry_or_new s base)) event = None ->
  bound_before (nextListener s) (attached s base) ->
  exists s',
    listenToComponentUnique_times (S (S n)) base event s = Some (Normal tt, s')
    /\ map_get (selfUnique (registry_or_new s' base)) event = Some (nextListener s)
    /\ attached s' base
       = attached s base ++ bound_from event (S (nextListener s)) (S n).
Proof.
  intros Hid Hbound.
  destruct (unique_first_run base event s Hid)
    as (s1 & r1 & Hrun1 & Hreg1 & Hid1 & Hatt1 & Hnext1).
  assert (Hnew : Forall (fun b : Attached => snd (fst b) <> nextListener s)
                   (attached s base)).
  { apply (bound_before_fresh (nextListener s) _ (event, nextListener s, false));
      [exact Hbound|cbn [fst snd]; lia]. }
  rewrite dom_add_absent in Hatt1 by exact Hnew.
  destruct (unique_again_run base event s1 r1 (nextListener s) Hreg1 Hid1)
    as (s2 & Hrun2 & Hl2 & Hatt2 & Hnext2).
  rewrite Hatt1, (dom_remove_app_last (event, nextListener s, false)) in Hatt2
    by exact Hnew.
  rewrite dom_add_absent in Hatt2
    by (apply (bound_before_fresh (nextListener s)); [exact Hbound|cbn [fst snd]; lia]).
  destruct (unique_more base event r1 (nextListener s) n s2)
    as (s' & Hrest & Hl' & Hatt').
  - by rewrite Hl2.
  - exact Hid1.
  - rewrite Hatt2, Hnext2, Hnext1. apply bound_before_app.
    + eapply bound_before_mono; [exact Hbound|lia].
    + constructor; [cbn [fst snd]; lia|constructor].
  - rewrite Hatt2. apply Forall_app. split; [exact Hnew|].
    constructor; [cbn [fst snd]; lia|constructor].
  - rewrite Hnext2, Hnext1. lia.
  - exists s'. cbn [listenToComponentUnique_times].
    rewrite (run_bind _ _ _ _ _ Hrun1), (run_bind _ _ _ _ _ Hrun2).
    split; [exact Hrest|]. split.
    + unfold registry_or_new. rewrite Hl', Hl2, Hreg1. exact Hid1.
    + rewrite Hatt', Hatt2, Hnext2, Hnext1.
      rewrite (bound_from_S event (S (nextListener s)) n), <- app_assoc. reflexivity.
Qed.

End UniqueListeners.

(** ** listeners.ts: listening to an element that is not there *)

Section MissingElement.
Import Listeners.

(** [doListen] without an element, for an id that has no record. *)
Lemma doListen_missing_run (readsPassive : bool) (base : nat) (type : ListenType)
    (id event : string) (options : option Options) (s : State) :
  map_get (usedMap_of type (registry_or_new s base)) id = None ->
  exists s',
    doListen readsPassive base type None id event options s = Some (Throw TypeError, s')
    /\ poisoned s' base type id.
Proof.
  intros Hid. unfold registry_or_new in *.
  destruct s as [lte ems ue nm sp tg dl nl]. lsimpl in *.
  set (r0 := default new_Registry (lte !! base)) in *.
  unfold doListen.
  lstep.
  assert (Hreg0 : exists st0,
            registry_of base
              {| listenedToElements := lte; eventMaps := ems; usedElements := ue;
                 newMap := nm; _supportsPassive := sp; targets := tg; dollar := dl;
                 nextListener := S nl |}
            = Some (Normal r0, st0)
            /\ listenedToElements st0 !! base = Some r0
            /\ eventMaps st0 = ems /\ usedElements st0 = ue /\ newMap st0 = nm
            /\ _supportsPassive st0 = sp /\ targets st0 = tg /\ dollar st0 = dl
            /\ nextListener st0 = S nl).
  { unfold registry_of, mbind, M_bind, get, set_registry, modify. lsimpl.
    subst r0. destruct (lte !! base) as [r|] eqn:Hr; cbn [default].
    - eexists. split; [reflexivity|]. lsimpl. repeat split; try reflexivity. exact Hr.
    - eexists. split; [reflexivity|]. lsimpl. repeat split; try reflexivity.
      apply lookup_insert_eq. }
  destruct Hreg0 as (st0 & Hrun0 & Hreg & He & Hu & Hn & Hp & Ht & Hd & Hnl).
  destruct st0 as [lte0 ems0 ue0 nm0 sp0 tg0 dl0 nl0]. lsimpl in *.
  subst ems0 ue0 nm0 sp0 tg0 dl0 nl0.
  rewrite (run_bind _ _ _ _ _ Hrun0).
  assert (Hhas : map_has (usedMap_of type r0) id = false).
  { unfold map_has, obj_has. unfold map_get in Hid. rewrite Hid. reflexivity. }
  rewrite Hhas.
  erewrite run_bind;
    [|erewrite run_bind; [|reflexivity]; lsimpl;
      erewrite run_bind; [|apply run_registry_of; lsimpl; exact Hreg];
      reflexivity].
  lsimpl.
  erewrite run_bind;
    [|apply run_registry_of; lsimpl; apply lookup_insert_eq].
  assert (Hget : map_get
                   (usedMap_of type
                      (with_usedMap type r0
                         (map_set id {| l_element := None; l_map := length ems |}
                            (usedMap_of type r0)))) id
                 = Some {| l_element := None; l_map := length ems |}).
  { assert (Hused : forall m, usedMap_of type (with_usedMap type r0 m) = m)
      by (intros m; destruct type; reflexivity).
    rewrite Hused. unfold map_get, map_set. unfold map_has, obj_has in Hhas.
    unfold obj_has. destruct (obj_get (usedMap_of type r0) id); [discriminate Hhas|].
    rewrite obj_get_app. unfold map_get in Hid. rewrite Hid. cbn [obj_get].
    rewrite String.eqb_refl. reflexivity. }
  rewrite Hget.
  erewrite run_bind;
    [|apply run_get_eventMap; lsimpl; by rewrite list_lookup_middle].
  cbn [map_get obj_get].
  lstep. rewrite bool_decide_eq_true_2 by reflexivity. lstep.
  destruct options as [o|];
    [destruct sp as [[|]|]; [| |destruct readsPassive]|];
    (eexists; split; [reflexivity|]);
    (eexists _, (length ems), [(event, nl)]); lsimpl;
    (split; [apply lookup_insert_eq|]);
    (split; [exact Hget|]);
    (split; [rewrite insert_app_r_alt, Nat.sub_diag by lia; by apply list_lookup_middle
            |discriminate]).
Qed.

(** The first key of a [Map] that is not empty has a value. *)
Lemma drop_events_missing (ref : nat) (m : JSMap nat) (s : State) :
  eventMaps s !! ref = Some m ->
  m <> [] ->
  forEachM (drop_event ref None) (obj_keys m) s = Some (Throw TypeError, s).
Proof.
  intros Hmap Hne. destruct m as [|[k v] m]; [congruence|].
  cbn [obj_keys map fst]. rewrite forEachM_cons. unfold drop_event.
  rewrite (run_bind _ _ _ _ _ (run_get_eventMap _ _ _ Hmap)).
  cbn [map_get obj_get]. rewrite String.eqb_refl. reflexivity.
Qed.

Lemma map_set_not_nil (k : string) (v : nat) (m : JSMap nat) : map_set k v m <> [].
Proof.
  unfold map_set. destruct (obj_has m k) eqn:Hhas.
  - destruct m as [|[k' v'] m]; [discriminate Hhas|].
    cbn [obj_update]. destruct (String.eqb k' k); discriminate.
  - destruct m; discriminate.
Qed.

(** [doListen] for an id whose record has no element. *)
Lemma doListen_poisoned_run (readsPassive : bool) (base : nat) (type : ListenType)
    (element : option nat) (id event : string) (options : option Options) (s : State) :
  poisoned s base type id ->
  exists s',
    doListen readsPassive base type element id event options s
    = Some (Throw TypeError, s')
    /\ poisoned s' base type id.
Proof.
  intros (r & ref & m & Hreg & Hid & Hmap & Hne).
  destruct s as [lte ems ue nm sp tg dl nl]. lsimpl in *.
  unfold doListen.
  lstep. lstep.
  assert (Hhas : map_has (usedMap_of type r) id = true).
  { unfold map_has, obj_has. unfold map_get in Hid. rewrite Hid. reflexivity. }
  rewrite Hhas.
  lstep. lstep. rewrite Hid. lstep.
  destruct (map_get m event) as [old|] eqn:Hold.
  - eexists. split; [reflexivity|]. exists r, ref, m. lsimpl. auto.
  - lstep.
    assert (Hmap' : <[ref := map_set event nl m]> ems !! ref
                    = Some (map_set event nl m)).
    { apply list_lookup_insert_eq. by apply lookup_lt_Some in Hmap. }
    destruct element as [el|].
    + rewrite bool_decide_eq_false_2 by discriminate.
      erewrite run_bind_throw.
      2:{ erewrite run_bind; [|apply run_get_eventMap; lsimpl; exact Hmap'].
          erewrite run_bind_throw; [reflexivity|].
          apply drop_events_missing; [lsimpl; exact Hmap'|apply map_set_not_nil]. }
      eexists. split; [reflexivity|].
      exists r, ref, (map_set event nl m). lsimpl.
      split; [exact Hreg|]. split; [exact Hid|]. split; [exact Hmap'|].
      apply map_set_not_nil.
    + rewrite bool_decide_eq_true_2 by reflexivity. lstep.
      destruct options as [o|];
        [destruct sp as [[|]|]; [| |destruct readsPassive]|];
        (eexists; split; [reflexivity|]);
        (exists r, ref, (map_set event nl m)); lsimpl;
        (split; [exact Hreg|]); (split; [exact Hid|]); (split; [exact Hmap'|]);
        apply map_set_not_nil.
Qed.

(** [listen] for an id the component does not have, or not yet, throws a
    [TypeError], but only after it has made a record of the id and of the
    listener. With that record every later [listen] for the id throws a
    [TypeError] too, whatever the event and the options, and also when the
    element is there by then. *)
Theorem listen_on_missing_element_poisons_id
    (readsPassive : bool) (base : nat) (id event : string)
    (options : option Options) (s : State) :
  dollar s base id = None ->
  map_get (elements (registry_or_new s base)) id = None ->
  exists s1,
    listen readsPassive base id event options s = Some (Throw TypeError, s1)
    /\ poisoned s1 base TElement id
    /\ forall s2 event' options',
         poisoned s2 base TElement id ->
         exists s3,
           listen readsPassive base id event' options' s2 = Some (Throw TypeError, s3)
           /\ poisoned s3 base TElement id.
Proof.
  intros Hel Hid.
  destruct (doListen_missing_run readsPassive base TElement id event options s Hid)
    as (s1 & Hrun & Hpoisoned).
  exists s1. split; [|split; [exact Hpoisoned|]].
  - unfold listen. erewrite run_bind; [|reflexivity]. rewrite Hel. exact Hrun.
  - intros s2 event' options' Hp.
    destruct (doListen_poisoned_run readsPassive base TElement (dollar s2 base id)
                id event' options' s2 Hp) as (s3 & Hrun3 & Hp3).
    exists s3. split; [|exact Hp3].
    unfold listen. erewrite run_bind; [|reflexivity]. exact Hrun3.
Qed.

End MissingElement.

(** ** listeners.ts: the theorems at concrete states *)

Section ListenerExamples.
Import Listeners.

(** A page on which nothing is listened to yet; every id of a component is
    the element 5, and the next bound function is the function 100. *)
Definition ex_listeners_state : State :=
  {| listenedToElements := ∅;
     eventMaps := [];
     usedElements := ∅;
     newMap := ∅;
     _supportsPassive := None;
     targets := ∅;
     dollar := fun _ _ => Some 5%nat;
     nextListener := 100 |}.

(** The component 1 listens to the click event of its element btn, which is
    the element 5, with the function 100. *)
Definition ex_listened_registry : Registry :=
  {| self := []; selfUnique := []; identifiers := [];
     elements := [("btn", {| l_element := Some 5%nat; l_map := 0 |})] |}.

Definition ex_listened_state : State :=
  {| listenedToElements := {[ 1%nat := ex_listened_registry ]};
     eventMaps := [[("click", 100%nat)]];
     usedElements := ∅;
     newMap := ∅;
     _supportsPassive := None;
     targets := {[ 5%nat := [("click", 100%nat, false)] ]};
     dollar := fun _ _ => Some 5%nat;
     nextListener := 101 |}.

Lemma listen_then_remove_witness :
  map_get (usedMap_of TElement (registry_or_new ex_listeners_state 1)) "btn" = None
  /\ bound_before (nextListener ex_listeners_state) (attached ex_listeners_state 5)
  /\ exists remover s' s'',
       doListen true 1 TElement (Some 5%nat) "btn" "click" (Some (OBool true))
         ex_listeners_state
       = Some (Normal remover, s')
       /\ call_remover remover s' = Some (Normal tt, s'')
       /\ eventMaps s'' !! length (eventMaps ex_listeners_state) = Some []
       /\ attached s'' 5
          = (if capture_used true ex_listeners_state (Some (OBool true))
             then attached ex_listeners_state 5 ++ [("click", nextListener ex_listeners_state, true)]
             else attached ex_listeners_state 5).
Proof.
  split; [reflexivity|]. split; [apply Forall_nil_2|].
  exact (listen_then_remove true 1 TElement 5 "btn" "click" (Some (OBool true))
           ex_listeners_state eq_refl (Forall_nil_2 _)).
Defined.

Lemma listen_again_witness :
  listenedToElements ex_listened_state !! 1%nat = Some ex_listened_registry
  /\ map_get (usedMap_of TElement ex_listened_registry) "btn"
     = Some {| l_element := Some 5%nat; l_map := 0 |}
  /\ eventMaps ex_listened_state !! 0%nat = Some [("click", 100%nat)]
  /\ map_get [("click", 100%nat)] "click" = Some 100%nat
  /\ 100%nat <> nextListener ex_listened_state
  /\ exists remover s',
       doListen true 1 TElement (Some 5%nat) "btn" "click" None ex_listened_state
       = Some (Normal remover, s')
       /\ listenedToElements s' = listenedToElements ex_listened_state
       /\ eventMaps s' = eventMaps ex_listened_state
       /\ attached s' 5
          = dom_add ("click", nextListener ex_listened_state,
                     capture_used true ex_listened_state None)
              (dom_remove ("click", 100%nat, false) (attached ex_listened_state 5))
       /\ call_remover remover s' = Some (Normal tt, s').
Proof.
  assert (Hne : 100%nat <> nextListener ex_listened_state) by (cbn; lia).
  split; [reflexivity|]. split; [reflexivity|]. split; [reflexivity|].
  split; [reflexivity|]. split; [exact Hne|].
  exact (listen_again_keeps_first_record true 1 TElement 5 "btn" "click" None
           ex_listened_state ex_listened_registry 0 [("click", 100%nat)] 100
           eq_refl eq_refl eq_refl eq_refl Hne).
Defined.

Lemma repeated_listen_witness :
  map_get (usedMap_of TElement (registry_or_new ex_listeners_state 1)) "btn" = None
  /\ bound_before (nextListener ex_listeners_state) (attached ex_listeners_state 5)
  /\ exists s',
       doListen_times true 3 1 TElement (Some 5%nat) "btn" "click" None ex_listeners_state
       = Some (Normal tt, s')
       /\ eventMaps s' !! length (eventMaps ex_listeners_state)
          = Some [("click", nextListener ex_listeners_state)]
       /\ attached s' 5
          = attached ex_listeners_state 5
            ++ bound_from "click" (S (nextListener ex_listeners_state)) 2.
Proof.
  split; [reflexivity|]. split; [apply Forall_nil_2|].
  exact (repeated_listen_accumulates true 1 TElement 5 "btn" "click"
           ex_listeners_state 1 eq_refl (Forall_nil_2 _)).
Defined.

Lemma self_remover_witness :
  bound_before (nextListener ex_listeners_state) (attached ex_listeners_state 1)
  /\ Forall (fun l => (l < nextListener ex_listeners_state)%nat)
       (recorded_self ex_listeners_state 1 "click")
  /\ exists s',
       (first ← listenToComponent 1 "click";
        _ ← listenToComponent 1 "click";
        call_remover first;;
        call_remover first) ex_listeners_state
       = Some (Normal tt, s')
       /\ recorded_self s' 1 "click" = recorded_self ex_listeners_state 1 "click"
       /\ attached s' 1
          = attached ex_listeners_state 1
            ++ [("click", S (nextListener ex_listeners_state), false)].
Proof.
  split; [apply Forall_nil_2|]. split; [apply Forall_nil_2|].
  exact (self_remover_called_twice 1 "click" ex_listeners_state
           (Forall_nil_2 _) (Forall_nil_2 _)).
Defined.

Lemma ex_listened_bound :
  bound_before (nextListener ex_listened_state) (attached ex_listened_state 5).
Proof. apply Forall_cons_2; [cbn; lia|apply Forall_nil_2]. Qed.

Lemma listen_on_new_element_witness :
  listenedToElements ex_listened_state !! 1%nat = Some ex_listened_registry
  /\ map_get (usedMap_of TElement ex_listened_registry) "btn"
     = Some {| l_element := Some 5%nat; l_map := 0 |}
  /\ 5%nat <> 6%nat
  /\ eventMaps ex_listened_state !! 0%nat = Some [("click", 100%nat)]
  /\ bound_before (nextListener ex_listened_state) (attached ex_listened_state 5)
  /\ exists remover s' r',
       doListen true 1 TElement (Some 6%nat) "btn" "click" None ex_listened_state
       = Some (Normal remover, s')
       /\ eventMaps s' = <[0%nat := []]> (eventMaps ex_listened_state)
       /\ listenedToElements s' !! 1%nat = Some r'
       /\ map_get (usedMap_of TElement r') "btn"
          = Some {| l_element := Some 6%nat; l_map := 0 |}
       /\ (forall a, In a (attached s' 5)
                     <-> In a (attached ex_listened_state 5)
                         /\ ~ recorded_in [("click", 100%nat)] a)
       /\ attached s' 6
          = dom_add ("click", nextListener ex_listened_state,
                     capture_used true ex_listened_state None)
              (attached ex_listened_state 6)
       /\ call_remover remover s' = Some (Normal tt, s').
Proof.
  assert (Hne : 5%nat <> 6%nat) by lia.
  split; [reflexivity|]. split; [reflexivity|]. split; [exact Hne|].
  split; [reflexivity|]. split; [exact ex_listened_bound|].
  exact (listen_on_new_element true 1 TElement 5 6 "btn" "click" None
           ex_listened_state ex_listened_registry 0 [("click", 100%nat)]
           eq_refl eq_refl Hne eq_refl ex_listened_bound).
Defined.

Lemma ex_listened_wf : registry_wf ex_listened_state ex_listened_registry.
Proof.
  split.
  - apply Forall_cons_2; [|apply Forall_nil_2]. split; eexists; reflexivity.
  - apply NoDup_singleton.
Qed.

Lemma removeAll_witness :
  listenedToElements ex_listened_state !! 1%nat = Some ex_listened_registry
  /\ registry_wf ex_listened_state ex_listened_registry
  /\ exists s',
       removeAllElementListeners 1 ex_listened_state = Some (Normal tt, s')
       /\ listenedToElements s'
          = <[1%nat := new_Registry]> (listenedToElements ex_listened_state)
       /\ (forall rec, In rec (records_of ex_listened_registry) ->
                       eventMaps s' !! l_map rec = Some [])
       /\ (forall t a, In a (attached s' t)
                       <-> In a (attached ex_listened_state t)
                           /\ ~ recorded_on ex_listened_state ex_listened_registry 1 t a).
Proof.
  split; [reflexivity|]. split; [exact ex_listened_wf|].
  exact (removeAll_takes_recorded_listeners_off 1 ex_listened_state ex_listened_registry
           eq_refl ex_listened_wf).
Defined.

Lemma listenIfNew_witness :
  dollar ex_listeners_state 1%nat "btn" = Some 5%nat
  /\ (5%nat ∉ seen ex_listeners_state (LinkContext 1))
  /\ map_get (elements (registry_or_new ex_listeners_state 1)) "btn" = None
  /\ bound_before (nextListener ex_listeners_state) (attached ex_listeners_state 5)
  /\ exists s',
       listenIfNew_times true 3 1 "btn" "click" None ex_listeners_state
       = Some (Normal tt, s')
       /\ attached s' 5
          = attached ex_listeners_state 5
            ++ [("click", nextListener ex_listeners_state,
                 capture_used true ex_listeners_state None)]
       /\ (forall t, t <> 5%nat -> attached s' t = attached ex_listeners_state t)
       /\ nextListener s' = S (nextListener ex_listeners_state).
Proof.
  assert (Hnew : 5%nat ∉ seen ex_listeners_state (LinkContext 1))
    by apply not_elem_of_empty.
  split; [reflexivity|]. split; [exact Hnew|]. split; [reflexivity|].
  split; [apply Forall_nil_2|].
  exact (listenIfNew_listens_once true 1 5 "btn" "click" None ex_listeners_state 2
           eq_refl Hnew eq_refl (Forall_nil_2 _)).
Defined.

Lemma unique_listeners_witness :
  map_get (selfUnique (registry_or_new ex_listeners_state 1)) "click" = None
  /\ bound_before (nextListener ex_listeners_state) (attached ex_listeners_state 1)
  /\ exists s',
       listenToComponentUnique_times 3 1 "click" ex_listeners_state = Some (Normal tt, s')
       /\ map_get (selfUnique (registry_or_new s' 1)) "click"
          = Some (nextListener ex_listeners_state)
       /\ attached s' 1
          = attached ex_listeners_state 1
            ++ bound_from "click" (S (nextListener ex_listeners_state)) 2.
Proof.
  split; [reflexivity|]. split; [apply Forall_nil_2|].
  exact (unique_listeners_accumulate 1 "click" ex_listeners_state 1
           eq_refl (Forall_nil_2 _)).
Defined.

(** A page on which the component has no element for any id yet. *)
Definition ex_missing_state : State :=
  {| listenedToElements := ∅;
     eventMaps := [];
     usedElements := ∅;
     newMap := ∅;
     _supportsPassive := None;
     targets := ∅;
     dollar := fun _ _ => None;
     nextListener := 100 |}.

Lemma listen_on_missing_witness :
  dollar ex_missing_state 1%nat "btn" = None
  /\ map_get (elements (registry_or_new ex_missing_state 1)) "btn" = None
  /\ exists s1,
       listen true 1 "btn" "click" None ex_missing_state = Some (Throw TypeError, s1)
       /\ poisoned s1 1 TElement "btn"
       /\ forall s2 event' options',
            poisoned s2 1 TElement "btn" ->
            exists s3,
              listen true 1 "btn" event' options' s2 = Some (Throw TypeError, s3)
              /\ poisoned s3 1 TElement "btn".
Proof.
  split; [reflexivity|]. split; [reflexivity|].
  exact (listen_on_missing_element_poisons_id true 1 "btn" "click" None
           ex_missing_state eq_refl eq_refl).
Defined.

End ListenerExamples.
